(** * RTS Online: the simulation core, embedded and checked against its specification

    The development follows the layout of the TypeScript sources:

    - [shared/src/types.ts], [shared/src/constants.ts]: the data model and the
      balance numbers;
    - [shared/src/pathfinding.ts]: [findPath], an A* search on the tile grid;
    - [server/src/game/GameEngine.ts]: the walkability grid, the command
      handlers, the tick and the victory check;
    - [server/src/game/systems/economy.ts], [movement.ts], [combat.ts]: the
      three systems run by every tick.

    Conventions of the embedding.

    - A JavaScript [number] that only ever holds an integer (gold, hp, supply,
      ticks, tile indices) is a [Z]; a fractional one (positions, progress,
      speeds, the focus-fire multiplier) is a [Q] with exact arithmetic.
      [Math.round q] is [Qfloor (q + 1/2)].
    - Path costs of [findPath] are numbers of the form [a + b * sqrt 2]; they
      are kept exactly as the pair [(a, b)] and compared exactly.
    - [Math.sqrt], the values returned by [uuid()] and the trigonometric
      offsets of group moves are not computed by this repository; they are
      variables of the section that holds the engine.
    - A [Record<string, Entity>] is iterated in insertion order by the source,
      so it is a list of entities, each carrying its key in [id]; the
      module-level [Map]s and the player table are [gmap]s. *)

From Stdlib Require Import ZArith QArith Qround Qabs Reals Lra Lqa Lia List Bool
  String.
From stdpp Require Import base gmap strings list pretty.
#[global] Set Warnings "-register-all".
Import ListNotations.

Local Open Scope Z_scope.

(* ================================================================== *)
(** * Part I: the model                                                 *)
(* ================================================================== *)

(** ** shared/src/types.ts *)

(** A 2D point in tile coordinates. *)
Record Point : Type := mkPoint { px : Z; py : Z }.

Definition point_eqb (a b : Point) : bool :=
  (px a =? px b) && (py a =? py b).

(** ** shared/src/pathfinding.ts *)

Module Pathfinding.

(** A cost [units + diags * sqrt 2]. *)
Record Cost : Type := mkCost { units : Z; diags : Z }.

Definition cost_zero : Cost := mkCost 0 0.
Definition cost_one : Cost := mkCost 1 0.
Definition SQRT2 : Cost := mkCost 0 1.

Definition cost_add (a b : Cost) : Cost :=
  mkCost (units a + units b) (diags a + diags b).

(** [0 < a + b * sqrt 2], decided on the integers. *)
Definition pos_sqrt2 (a b : Z) : bool :=
  if (0 <=? a) && (0 <=? b) then (0 <? a) || (0 <? b)
  else if (a <=? 0) && (b <=? 0) then false
  else if 0 <? a then 2 * (b * b) <? a * a
  else a * a <? 2 * (b * b).

(** [a < b] on costs. *)
Definition cost_ltb (a b : Cost) : bool :=
  pos_sqrt2 (units b - units a) (diags b - diags a).

(** A node in the A* open set; [parent] is the node it was reached from. *)
Inductive AStarNode : Type :=
  Node (x y : Z) (g f : Cost) (parent : option AStarNode).

Definition node_x (n : AStarNode) : Z := let 'Node x _ _ _ _ := n in x.
Definition node_y (n : AStarNode) : Z := let 'Node _ y _ _ _ := n in y.
Definition node_g (n : AStarNode) : Cost := let 'Node _ _ g _ _ := n in g.
Definition node_f (n : AStarNode) : Cost := let 'Node _ _ _ f _ := n in f.
Definition node_parent (n : AStarNode) : option AStarNode :=
  let 'Node _ _ _ _ p := n in p.
Definition node_pos (n : AStarNode) : Point := mkPoint (node_x n) (node_y n).

(** The grid is indexed as [walkable[y][x]]; a missing cell reads as
    [undefined], which is falsy. *)
Definition Grid : Type := list (list bool).

Definition grid_height (walkable : Grid) : Z := Z.of_nat (length walkable).

Definition grid_width (walkable : Grid) : Z :=
  match walkable with
  | [] => 0
  | row :: _ => Z.of_nat (length row)
  end.

Definition cell (walkable : Grid) (x y : Z) : bool :=
  match walkable !! Z.to_nat y with
  | Some row => match row !! Z.to_nat x with Some b => b | None => false end
  | None => false
  end.

Definition in_bounds (walkable : Grid) (x y : Z) : bool :=
  negb ((x <? 0) || (grid_width walkable <=? x) ||
        (y <? 0) || (grid_height walkable <=? y)).

(** 8-directional neighbors: dx, dy, cost. *)
Definition dirs : list (Z * Z * Cost) :=
  [ (0, -1, cost_one); (0, 1, cost_one); (-1, 0, cost_one); (1, 0, cost_one);
    (-1, -1, SQRT2); (1, -1, SQRT2); (-1, 1, SQRT2); (1, 1, SQRT2) ].

(** Heuristic: octile distance,
    [max dx dy + (sqrt 2 - 1) * min dx dy]. *)
Definition heuristic (ax ay bx b_y : Z) : Cost :=
  let dx := Z.abs (ax - bx) in
  let dy := Z.abs (ay - b_y) in
  mkCost (Z.max dx dy - Z.min dx dy) (Z.min dx dy).

(** Pack x,y into a single number for Set lookup. *)
Definition key (width x y : Z) : Z := y * width + x.

(** The scan for the node with lowest [f]: the first index holding the
    strict minimum. *)
Fixpoint scanBest (rest : list AStarNode) (i bestIdx : nat) (best : AStarNode)
  : nat * AStarNode :=
  match rest with
  | [] => (bestIdx, best)
  | n :: tl =>
      if cost_ltb (node_f n) (node_f best)
      then scanBest tl (S i) i n
      else scanBest tl (S i) bestIdx best
  end.

(** [open[bestIdx] = open[open.length - 1]; open.pop()]. *)
Definition swapRemove (i : nat) (open : list AStarNode) : list AStarNode :=
  match last open with
  | Some l => removelast (<[i := l]> open)
  | None => open
  end.

(** The walk back along the parents, up to the first node on the start tile;
    the result is in push order (destination first). *)
Fixpoint walkBack (start : Point) (n : AStarNode) : list Point :=
  match n with
  | Node x y _ _ parent =>
      if (x =? px start) && (y =? py start) then []
      else mkPoint x y ::
           match parent with
           | Some p => walkBack start p
           | None => []
           end
  end.

(** One iteration of the loop over [dirs] for the popped node. *)
Definition relax (walkable : Grid) (endp : Point) (current : AStarNode)
    (closed : gset Z) (acc : list AStarNode * gmap Z Cost)
    (d : Z * Z * Cost) : list AStarNode * gmap Z Cost :=
  let '(open, gScores) := acc in
  let '(dx, dy, cost) := d in
  let nx := node_x current + dx in
  let ny := node_y current + dy in
  if negb (in_bounds walkable nx ny) then acc
  else if negb (cell walkable nx ny) then acc
  else if negb (dx =? 0) && negb (dy =? 0) &&
          (negb (cell walkable (node_x current) (node_y current + dy)) ||
           negb (cell walkable (node_x current + dx) (node_y current)))
  then acc
  else
    let nk := key (grid_width walkable) nx ny in
    if bool_decide (nk ∈ closed) then acc
    else
      let tentativeG := cost_add (node_g current) cost in
      let improves :=
        match gScores !! nk with
        | Some prevG => cost_ltb tentativeG prevG
        | None => true
        end in
      if negb improves then acc
      else
        (open ++ [Node nx ny tentativeG
                    (cost_add tentativeG (heuristic nx ny (px endp) (py endp)))
                    (Some current)],
         <[nk := tentativeG]> gScores).

(** The [while (open.length > 0)] loop. [None] only when the fuel runs out. *)
Fixpoint search (fuel : nat) (walkable : Grid) (start endp : Point)
    (open : list AStarNode) (closed : gset Z) (gScores : gmap Z Cost)
  : option (list Point) :=
  match fuel with
  | O => None
  | S fuel' =>
      match open with
      | [] => Some []
      | first :: rest =>
          let '(bestIdx, current) := scanBest rest 1 0 first in
          let open1 := swapRemove bestIdx open in
          if (node_x current =? px endp) && (node_y current =? py endp)
          then Some (rev (walkBack start current))
          else
            let ck := key (grid_width walkable) (node_x current) (node_y current) in
            if bool_decide (ck ∈ closed)
            then search fuel' walkable start endp open1 closed gScores
            else
              let closed1 := {[ ck ]} ∪ closed in
              let '(open2, gScores2) :=
                fold_left (relax walkable endp current closed1) dirs
                          (open1, gScores) in
              search fuel' walkable start endp open2 closed1 gScores2
      end
  end.

(** Iterations that the loop can make at most: every tile is closed once and
    pushes at most eight nodes. *)
Definition searchFuel (walkable : Grid) : nat :=
  S (S (8 * Z.to_nat (grid_width walkable * grid_height walkable))).

Definition startNode (start endp : Point) : AStarNode :=
  Node (px start) (py start) cost_zero
       (heuristic (px start) (py start) (px endp) (py endp)) None.

Definition searchFrom (fuel : nat) (walkable : Grid) (start endp : Point)
  : option (list Point) :=
  search fuel walkable start endp [startNode start endp] ∅
         (<[key (grid_width walkable) (px start) (py start) := cost_zero]> ∅).

(** Finds the shortest path between two tiles using A*. Path excludes the
    start tile but includes the destination tile. *)
Definition findPath (walkable : Grid) (start endp : Point) : list Point :=
  if negb (in_bounds walkable (px start) (py start)) ||
     negb (in_bounds walkable (px endp) (py endp)) ||
     negb (cell walkable (px endp) (py endp))
  then []
  else if (px start =? px endp) && (py start =? py endp) then []
  else
    match searchFrom (searchFuel walkable) walkable start endp with
    | Some path => path
    | None => []
    end.

End Pathfinding.


(** ** shared/src/types.ts (continued) *)

Inductive TileType : Type := grass | water | rock | trees.

Inductive EntityType : Type :=
  | homeBase | worker | house | barracks | resourceDepot | tower | armory
  | infantry | archer | cavalry | ballista.

Inductive EntityState : Type :=
  | idle | moving | gathering | building | attacking | training | returning.

(** ['house' | 'barracks' | 'resourceDepot' | 'tower' | 'armory']. *)
Inductive BuildingType : Type :=
  | BHouse | BBarracks | BResourceDepot | BTower | BArmory.

Definition buildingEntityType (b : BuildingType) : EntityType :=
  match b with
  | BHouse => house
  | BBarracks => barracks
  | BResourceDepot => resourceDepot
  | BTower => tower
  | BArmory => armory
  end.

(** ['infantry' | 'archer' | 'cavalry']. *)
Inductive UpgradeableUnit : Type := UInfantry | UArcher | UCavalry.

#[global] Instance TileType_eq_dec : EqDecision TileType.
Proof. solve_decision. Defined.
#[global] Instance EntityType_eq_dec : EqDecision EntityType.
Proof. solve_decision. Defined.
#[global] Instance EntityState_eq_dec : EqDecision EntityState.
Proof. solve_decision. Defined.
#[global] Instance BuildingType_eq_dec : EqDecision BuildingType.
Proof. solve_decision. Defined.

(** Tracks per-unit-type upgrade levels for a player. *)
Record UpgradeLevels : Type := mkUpgrades {
  up_infantry : Z;
  up_archer : Z;
  up_cavalry : Z
}.

Record Player : Type := mkPlayer {
  p_id : string;
  p_name : string;
  p_color : string;
  p_gold : Z;
  p_supply : Z;
  p_maxSupply : Z;
  p_upgrades : UpgradeLevels
}.

(** Queued training order inside a building. *)
Record TrainOrder : Type := mkOrder {
  unitType : EntityType;
  ticksRemaining : Z
}.

(** Pending build order: the worker walks to the site, then places. *)
Record PendingBuild : Type := mkPending {
  pb_buildingType : BuildingType;
  pb_x : Z;
  pb_y : Z
}.

(** A game entity: any unit or building on the map. *)
Record Entity : Type := mkEntity {
  e_id : string;
  e_type : EntityType;
  e_ownerId : string;
  e_x : Q;
  e_y : Q;
  e_hp : Z;
  e_maxHp : Z;
  e_state : EntityState;
  e_path : option (list Point);
  e_targetId : option string;
  e_trainingQueue : option (list TrainOrder);
  e_carriedGold : option Z;
  e_buildProgress : option Q;
  e_miningProgress : option Q;
  e_tileWidth : option Z;
  e_tileHeight : option Z;
  e_pendingBuild : option PendingBuild;
  e_rallyPoint : option Point
}.

Definition set_pos (v v2 : Q) (e : Entity) : Entity :=
  mkEntity (e_id e) (e_type e) (e_ownerId e) (v) (v2) (e_hp e) (e_maxHp e)
    (e_state e) (e_path e) (e_targetId e) (e_trainingQueue e)
    (e_carriedGold e) (e_buildProgress e) (e_miningProgress e)
    (e_tileWidth e) (e_tileHeight e) (e_pendingBuild e) (e_rallyPoint e).

Definition set_hp (v : Z) (e : Entity) : Entity :=
  mkEntity (e_id e) (e_type e) (e_ownerId e) (e_x e) (e_y e) v (e_maxHp e)
    (e_state e) (e_path e) (e_targetId e) (e_trainingQueue e)
    (e_carriedGold e) (e_buildProgress e) (e_miningProgress e)
    (e_tileWidth e) (e_tileHeight e) (e_pendingBuild e) (e_rallyPoint e).

Definition set_state (v : EntityState) (e : Entity) : Entity :=
  mkEntity (e_id e) (e_type e) (e_ownerId e) (e_x e) (e_y e) (e_hp e)
    (e_maxHp e) v (e_path e) (e_targetId e) (e_trainingQueue e)
    (e_carriedGold e) (e_buildProgress e) (e_miningProgress e)
    (e_tileWidth e) (e_tileHeight e) (e_pendingBuild e) (e_rallyPoint e).

Definition set_path (v : option (list Point)) (e : Entity) : Entity :=
  mkEntity (e_id e) (e_type e) (e_ownerId e) (e_x e) (e_y e) (e_hp e)
    (e_maxHp e) (e_state e) v (e_targetId e) (e_trainingQueue e)
    (e_carriedGold e) (e_buildProgress e) (e_miningProgress e)
    (e_tileWidth e) (e_tileHeight e) (e_pendingBuild e) (e_rallyPoint e).

Definition set_targetId (v : option string) (e : Entity) : Entity :=
  mkEntity (e_id e) (e_type e) (e_ownerId e) (e_x e) (e_y e) (e_hp e)
    (e_maxHp e) (e_state e) (e_path e) v (e_trainingQueue e)
    (e_carriedGold e) (e_buildProgress e) (e_miningProgress e)
    (e_tileWidth e) (e_tileHeight e) (e_pendingBuild e) (e_rallyPoint e).

Definition set_trainingQueue (v : option (list TrainOrder)) (e : Entity) : Entity :=
  mkEntity (e_id e) (e_type e) (e_ownerId e) (e_x e) (e_y e) (e_hp e)
    (e_maxHp e) (e_state e) (e_path e) (e_targetId e) v (e_carriedGold e)
    (e_buildProgress e) (e_miningProgress e) (e_tileWidth e)
    (e_tileHeight e) (e_pendingBuild e) (e_rallyPoint e).

Definition set_carriedGold (v : option Z) (e : Entity) : Entity :=
  mkEntity (e_id e) (e_type e) (e_ownerId e) (e_x e) (e_y e) (e_hp e)
    (e_maxHp e) (e_state e) (e_path e) (e_targetId e) (e_trainingQueue e) v
    (e_buildProgress e) (e_miningProgress e) (e_tileWidth e)
    (e_tileHeight e) (e_pendingBuild e) (e_rallyPoint e).

Definition set_buildProgress (v : option Q) (e : Entity) : Entity :=
  mkEntity (e_id e) (e_type e) (e_ownerId e) (e_x e) (e_y e) (e_hp e)
    (e_maxHp e) (e_state e) (e_path e) (e_targetId e) (e_trainingQueue e)
    (e_carriedGold e) v (e_miningProgress e) (e_tileWidth e)
    (e_tileHeight e) (e_pendingBuild e) (e_rallyPoint e).

Definition set_miningProgress (v : option Q) (e : Entity) : Entity :=
  mkEntity (e_id e) (e_type e) (e_ownerId e) (e_x e) (e_y e) (e_hp e)
    (e_maxHp e) (e_state e) (e_path e) (e_targetId e) (e_trainingQueue e)
    (e_carriedGold e) (e_buildProgress e) v (e_tileWidth e) (e_tileHeight e)
    (e_pendingBuild e) (e_rallyPoint e).

Definition set_pendingBuild (v : option PendingBuild) (e : Entity) : Entity :=
  mkEntity (e_id e) (e_type e) (e_ownerId e) (e_x e) (e_y e) (e_hp e)
    (e_maxHp e) (e_state e) (e_path e) (e_targetId e) (e_trainingQueue e)
    (e_carriedGold e) (e_buildProgress e) (e_miningProgress e)
    (e_tileWidth e) (e_tileHeight e) v (e_rallyPoint e).

Definition set_rallyPoint (v : option Point) (e : Entity) : Entity :=
  mkEntity (e_id e) (e_type e) (e_ownerId e) (e_x e) (e_y e) (e_hp e)
    (e_maxHp e) (e_state e) (e_path e) (e_targetId e) (e_trainingQueue e)
    (e_carriedGold e) (e_buildProgress e) (e_miningProgress e)
    (e_tileWidth e) (e_tileHeight e) (e_pendingBuild e) v.

Record GoldMine : Type := mkMine {
  m_id : string;
  m_x : Q;
  m_y : Q;
  m_goldRemaining : Z;
  m_maxWorkers : Z;
  m_workerIds : list string
}.

Definition set_goldRemaining (v : Z) (m : GoldMine) : GoldMine :=
  mkMine (m_id m) (m_x m) (m_y m) v (m_maxWorkers m) (m_workerIds m).

Definition set_workerIds (v : list string) (m : GoldMine) : GoldMine :=
  mkMine (m_id m) (m_x m) (m_y m) (m_goldRemaining m) (m_maxWorkers m) v.

Record GameState : Type := mkState {
  tick : Z;
  mapWidth : Z;
  mapHeight : Z;
  tiles : list (list TileType);
  players : gmap string Player;
  entities : list Entity;
  goldMines : list GoldMine
}.

Definition set_tick (v : Z) (s : GameState) : GameState :=
  mkState v (mapWidth s) (mapHeight s) (tiles s) (players s) (entities s)
    (goldMines s).

Definition set_players (v : gmap string Player) (s : GameState) : GameState :=
  mkState (tick s) (mapWidth s) (mapHeight s) (tiles s) v (entities s)
    (goldMines s).

Definition set_entities (v : list Entity) (s : GameState) : GameState :=
  mkState (tick s) (mapWidth s) (mapHeight s) (tiles s) (players s) v
    (goldMines s).

Definition set_goldMines (v : list GoldMine) (s : GameState) : GameState :=
  mkState (tick s) (mapWidth s) (mapHeight s) (tiles s) (players s)
    (entities s) v.

Definition set_gold (v : Z) (p : Player) : Player :=
  mkPlayer (p_id p) (p_name p) (p_color p) v (p_supply p) (p_maxSupply p)
    (p_upgrades p).

Definition set_supply (v : Z) (p : Player) : Player :=
  mkPlayer (p_id p) (p_name p) (p_color p) (p_gold p) v (p_maxSupply p)
    (p_upgrades p).

Definition set_maxSupply (v : Z) (p : Player) : Player :=
  mkPlayer (p_id p) (p_name p) (p_color p) (p_gold p) (p_supply p) v
    (p_upgrades p).

Definition set_upgrades (v : UpgradeLevels) (p : Player) : Player :=
  mkPlayer (p_id p) (p_name p) (p_color p) (p_gold p) (p_supply p)
    (p_maxSupply p) v.

(** *** The entity table [state.entities]

    A JavaScript object keyed by the entity id; [Object.values] lists it in
    insertion order. Objects are shared, so a mutation through any reference
    is an update of the entry with that id. *)

(** [state.entities[id]]. *)
Definition getEntity (id : string) (l : list Entity) : option Entity :=
  List.find (fun e => bool_decide (e_id e = id)) l.

(** A mutation of the object with key [id]. *)
Fixpoint updateEntity (id : string) (f : Entity -> Entity) (l : list Entity)
  : list Entity :=
  match l with
  | [] => []
  | e :: tl =>
      if bool_decide (e_id e = id) then f e :: tl
      else e :: updateEntity id f tl
  end.

(** [state.entities[e.id] = e]: an existing key keeps its place. *)
Definition putEntity (e : Entity) (l : list Entity) : list Entity :=
  match getEntity (e_id e) l with
  | Some _ => updateEntity (e_id e) (fun _ => e) l
  | None => l ++ [e]
  end.

(** [delete state.entities[id]]. *)
Definition deleteEntity (id : string) (l : list Entity) : list Entity :=
  List.filter (fun e => negb (bool_decide (e_id e = id))) l.

Definition updE (id : string) (f : Entity -> Entity) (s : GameState)
  : GameState :=
  set_entities (updateEntity id f (entities s)) s.

(** A mutation of [state.players[pid]]. *)
Definition updP (pid : string) (f : Player -> Player) (s : GameState)
  : GameState :=
  set_players (alter f pid (players s)) s.

(** [state.goldMines.find(pred)]. *)
Definition findMine (pred : GoldMine -> bool) (s : GameState)
  : option GoldMine :=
  List.find pred (goldMines s).

(** A mutation of the mine object found by id (the first with that id). *)
Fixpoint updateMine (mid : string) (f : GoldMine -> GoldMine)
    (l : list GoldMine) : list GoldMine :=
  match l with
  | [] => []
  | m :: tl =>
      if bool_decide (m_id m = mid) then f m :: tl
      else m :: updateMine mid f tl
  end.

Definition updM (mid : string) (f : GoldMine -> GoldMine) (s : GameState)
  : GameState :=
  set_goldMines (updateMine mid f (goldMines s)) s.

(** *** JavaScript numbers *)

Definition Math_round (q : Q) : Z := Qfloor (q + (1 # 2)).

(** A JavaScript number is a double. The model holds the rational that the
    double denotes, and [fl] rounds the exact result of an operation to the
    double that the operation returns: to the nearest, a tie to the even
    significand, with 53 bits of significand. The exponent is not bounded:
    the numbers of the game stay far from the overflow and the underflow of
    a double. [fl] is written out where the result of an operation decides
    how a value rounds or compares: in the movement loop and in the damage
    of a hit. *)

(** [n / d] rounded to the nearest integer, a tie to the even one. *)
Definition rne (n d : Z) : Z :=
  let q := n / d in
  match 2 * (n mod d) ?= d with
  | Lt => q
  | Gt => q + 1
  | Eq => if Z.even q then q else q + 1
  end.

(** [2 ^ e] is [up e / dn e]. *)
Definition up (e : Z) : Z := 2 ^ Z.max 0 e.
Definition dn (e : Z) : Z := 2 ^ Z.max 0 (- e).

(** The double nearest to [x]: the exponent [e] puts the significand
    [|x| / 2 ^ e] between [2 ^ 52] and [2 ^ 53]. *)
Definition fl (x : Q) : Q :=
  let n := Qnum x in
  let d := Zpos (Qden x) in
  if n =? 0 then 0%Q
  else
    let a := Z.abs n in
    let e0 := Z.log2 a - Z.log2 d - 53 in
    let e := if 2 ^ 53 * (d * up e0) <=? a * dn e0 then e0 + 1 else e0 in
    let m := rne (a * dn e) (d * up e) in
    Qred (Qmake (Z.sgn n * m * up e) (Z.to_pos (dn e))).

(** Half the distance between [1] and the next double. *)
Definition ulp53 : Q := 1 # 9007199254740992.

Definition Qlt_bool (a b : Q) : bool := negb (Qle_bool b a).

Definition Qmax (a b : Q) : Q := if Qle_bool a b then b else a.
Definition Qmin (a b : Q) : Q := if Qle_bool a b then a else b.

Definition ZtoQ (z : Z) : Q := inject_Z z.

(** Truthiness of an optional number: [undefined] and [0] are falsy. *)
Definition truthy (o : option Z) : bool :=
  match o with
  | Some n => negb (n =? 0)
  | None => false
  end.

(** [!path || path.length === 0]. *)
Definition noPath (e : Entity) : bool :=
  match e_path e with
  | Some (_ :: _) => false
  | _ => true
  end.

(** [{ x: Math.round(e.x), y: Math.round(e.y) }]. *)
Definition entityTile (e : Entity) : Point :=
  mkPoint (Math_round (e_x e)) (Math_round (e_y e)).

(** [buildProgress !== undefined && buildProgress < 1]. *)
Definition underConstruction (e : Entity) : bool :=
  match e_buildProgress e with
  | Some bp => Qlt_bool bp 1
  | None => false
  end.

(** ** shared/src/constants.ts *)

Definition STARTING_GOLD : Z := 300.

Definition HOME_BASE_HP : Z := 2000.
Definition HOME_BASE_SUPPLY : Z := 10.
Definition HOME_BASE_TILE_WIDTH : Z := 3.
Definition HOME_BASE_TILE_HEIGHT : Z := 3.
Definition HOME_BASE_DAMAGE : Z := 30.
Definition HOME_BASE_RANGE : Q := 7.
Definition HOME_BASE_ATTACK_COOLDOWN : Z := 20.

Definition WORKER_COST : Z := 50.
Definition WORKER_SUPPLY : Z := 1.
Definition WORKER_HP : Z := 60.
Definition WORKER_SPEED : Q := fl (15 # 100).
Definition WORKER_CARRY_CAPACITY : Z := 10.
Definition WORKER_MINE_TICKS : Z := 40.
Definition WORKER_TRAIN_TICKS : Z := 30.

Definition INFANTRY_COST : Z := 100.
Definition INFANTRY_SUPPLY : Z := 2.
Definition INFANTRY_HP : Z := 120.
Definition INFANTRY_SPEED : Q := fl (12 # 100).
Definition INFANTRY_DAMAGE : Z := 12.
Definition INFANTRY_RANGE : Q := 15 # 10.
Definition INFANTRY_ATTACK_COOLDOWN : Z := 15.
Definition INFANTRY_TRAIN_TICKS : Z := 40.
Definition INFANTRY_AGGRO_RANGE : Q := 6.
Definition FOCUS_FIRE_BONUS : Q := fl (15 # 100).

Definition ARCHER_COST : Z := 150.
Definition ARCHER_SUPPLY : Z := 3.
Definition ARCHER_HP : Z := 80.
Definition ARCHER_SPEED : Q := fl (11 # 100).
Definition ARCHER_DAMAGE : Z := 10.
Definition ARCHER_RANGE : Q := 5.
Definition ARCHER_ATTACK_COOLDOWN : Z := 18.
Definition ARCHER_TRAIN_TICKS : Z := 50.
Definition ARCHER_AGGRO_RANGE : Q := 7.

Definition CAVALRY_COST : Z := 200.
Definition CAVALRY_SUPPLY : Z := 4.
Definition CAVALRY_HP : Z := 130.
Definition CAVALRY_SPEED : Q := fl (24 # 100).
Definition CAVALRY_DAMAGE : Z := 14.
Definition CAVALRY_RANGE : Q := 15 # 10.
Definition CAVALRY_ATTACK_COOLDOWN : Z := 14.
Definition CAVALRY_TRAIN_TICKS : Z := 55.
Definition CAVALRY_AGGRO_RANGE : Q := 7.

Definition BALLISTA_COST : Z := 250.
Definition BALLISTA_SUPPLY : Z := 5.
Definition BALLISTA_HP : Z := 50.
Definition BALLISTA_SPEED : Q := fl (6 # 100).
Definition BALLISTA_DAMAGE : Z := 40.
Definition BALLISTA_RANGE : Q := 10.
Definition BALLISTA_ATTACK_COOLDOWN : Z := 30.
Definition BALLISTA_TRAIN_TICKS : Z := 70.
Definition BALLISTA_AGGRO_RANGE : Q := 12.

Definition HOUSE_COST : Z := 100.
Definition HOUSE_HP : Z := 400.
Definition HOUSE_SUPPLY : Z := 10.
Definition HOUSE_MAX_PER_PLAYER : Z := 5.
Definition HOUSE_BUILD_TICKS : Z := 60.
Definition HOUSE_TILE_WIDTH : Z := 2.
Definition HOUSE_TILE_HEIGHT : Z := 2.

Definition BARRACKS_COST : Z := 200.
Definition BARRACKS_HP : Z := 600.
Definition BARRACKS_BUILD_TICKS : Z := 80.
Definition BARRACKS_TILE_WIDTH : Z := 3.
Definition BARRACKS_TILE_HEIGHT : Z := 3.

Definition RESOURCE_DEPOT_COST : Z := 150.
Definition RESOURCE_DEPOT_HP : Z := 500.
Definition RESOURCE_DEPOT_BUILD_TICKS : Z := 50.
Definition RESOURCE_DEPOT_TILE_WIDTH : Z := 2.
Definition RESOURCE_DEPOT_TILE_HEIGHT : Z := 2.

Definition TOWER_COST : Z := 100.
Definition TOWER_HP : Z := 500.
Definition TOWER_BUILD_TICKS : Z := 60.
Definition TOWER_TILE_WIDTH : Z := 2.
Definition TOWER_TILE_HEIGHT : Z := 2.
Definition TOWER_DAMAGE : Z := 15.
Definition TOWER_RANGE : Q := 7.
Definition TOWER_ATTACK_COOLDOWN : Z := 20.

Definition ARMORY_COST : Z := 250.
Definition ARMORY_HP : Z := 600.
Definition ARMORY_BUILD_TICKS : Z := 80.
Definition ARMORY_TILE_WIDTH : Z := 3.
Definition ARMORY_TILE_HEIGHT : Z := 3.

Definition UPGRADE_BASE_COST : Z := 100.
Definition UPGRADE_COST_SCALE : Q := 2.
Definition UPGRADE_DAMAGE_BONUS : Q := fl (12 # 100).
Definition UPGRADE_HP_BONUS : Q := 10 # 100.

(** [Math.round(UPGRADE_BASE_COST * Math.pow(UPGRADE_COST_SCALE, level))]. *)
Definition getUpgradeCost (currentLevel : Z) : Z :=
  Math_round (ZtoQ UPGRADE_BASE_COST * Qpower UPGRADE_COST_SCALE currentLevel).

(** [Math.pow(1 + UPGRADE_DAMAGE_BONUS, level)], with [Math.pow] taken to
    return the double nearest to the power. *)
Definition getUpgradeDamageMultiplier (level : Z) : Q :=
  fl (Qpower (fl (1 + UPGRADE_DAMAGE_BONUS)) level).

(** [Math.pow(1 + UPGRADE_HP_BONUS, level)]. *)
Definition getUpgradeHpMultiplier (level : Z) : Q :=
  Qpower (1 + UPGRADE_HP_BONUS) level.

Definition MAX_BUILD_DISTANCE : Q := 3.

Definition GOLD_MINE_TILE_WIDTH : Z := 2.
Definition GOLD_MINE_TILE_HEIGHT : Z := 2.

(** ** The engine

    [Math.sqrt], [uuid()] and the rounded [Math.cos]/[Math.sin] offsets are
    library functions; the engine is stated for any such functions. *)

Section Engine.

Import Pathfinding.

(** [Math.sqrt]. *)
Variable Math_sqrt : Q -> Q.

(** The [n]-th value that [uuid()] returns in this process. *)
Variable uuid : nat -> string.

(** For unit [i] of [unitCount], with [angle = (i / unitCount) * 2 * PI]:
    [(Math.round(Math.cos(angle)), Math.round(Math.sin(angle)))]. *)
Variable spreadOffset : nat -> nat -> Z * Z.

(** Early return: [when c return r ;; k]. *)
Notation "'when' c 'return' r ;; k" := (if c then r else k)
  (at level 10, c at level 99, r at level 99, k at level 200, only parsing).

(** [Math.sqrt(Math.pow(ax - bx, 2) + Math.pow(ay - by, 2))]. *)
Definition euclid (ax ay bx b_y : Q) : Q :=
  Math_sqrt ((ax - bx) * (ax - bx) + (ay - b_y) * (ay - b_y))%Q.

(** *** server/src/game/GameEngine.ts: the walkability grid *)

(** [state.tiles[y][x]] for tile indices. *)
Definition tileAt (s : GameState) (x y : Z) : option TileType :=
  match tiles s !! Z.to_nat y with
  | Some row => row !! Z.to_nat x
  | None => None
  end.

Definition inMap (s : GameState) (tx ty : Z) : bool :=
  (0 <=? tx) && (tx <? mapWidth s) && (0 <=? ty) && (ty <? mapHeight s).

(** [walkable[ty][tx] = false] when the tile is on the map. *)
Definition blockTile (s : GameState) (walkable : Grid) (tx ty : Z) : Grid :=
  if inMap s tx ty
  then alter (fun row => <[Z.to_nat tx := false]> row) (Z.to_nat ty) walkable
  else walkable.

Definition blockFootprint (s : GameState) (x y : Q) (w h : Z)
    (walkable : Grid) : Grid :=
  fold_left
    (fun g dy =>
       fold_left
         (fun g' dx => blockTile s g' (Math_round x + dx) (Math_round y + dy))
         (seqZ 0 w) g)
    (seqZ 0 h) walkable.

(** Builds a 2D walkability grid from the current game state. A tile is
    walkable if it's grass and not occupied by a building/mine. *)
Definition buildWalkableGrid (s : GameState) : Grid :=
  let base :=
    map (fun y =>
           map (fun x => bool_decide (tileAt s x y = Some grass))
               (seqZ 0 (mapWidth s)))
        (seqZ 0 (mapHeight s)) in
  let withBuildings :=
    fold_left
      (fun g e =>
         if truthy (e_tileWidth e) && truthy (e_tileHeight e)
         then blockFootprint s (e_x e) (e_y e)
                (default 0 (e_tileWidth e)) (default 0 (e_tileHeight e)) g
         else g)
      (entities s) base in
  fold_left
    (fun g m =>
       blockFootprint s (m_x m) (m_y m)
         GOLD_MINE_TILE_WIDTH GOLD_MINE_TILE_HEIGHT g)
    (goldMines s) withBuildings.

(** Returns all walkable tiles adjacent to a building/mine footprint. *)
Definition findAllAdjacentWalkable (walkable : Grid) (x y : Q)
    (tileW tileH : option Z) : list Point :=
  let w := default 2 tileW in
  let h := default 2 tileH in
  let height := grid_height walkable in
  let width := grid_width walkable in
  flat_map
    (fun dx =>
       flat_map
         (fun dy =>
            if (0 <=? dx) && (dx <? w) && (0 <=? dy) && (dy <? h) then []
            else
              let tx := Math_round x + dx in
              let ty := Math_round y + dy in
              if (0 <=? tx) && (tx <? width) && (0 <=? ty) && (ty <? height)
                 && cell walkable tx ty
              then [mkPoint tx ty]
              else [])
         (seqZ (-1) (h + 2)))
    (seqZ (-1) (w + 2)).

(** Finds a walkable tile adjacent to a building/mine (first available). *)
Definition findAdjacentWalkable (walkable : Grid) (x y : Q)
    (tileW tileH : option Z) : option Point :=
  head (findAllAdjacentWalkable walkable x y tileW tileH).

(** *** server/src/game/systems/economy.ts *)

Definition getBuildTicks (t : EntityType) : Z :=
  match t with
  | house => HOUSE_BUILD_TICKS
  | barracks => BARRACKS_BUILD_TICKS
  | resourceDepot => RESOURCE_DEPOT_BUILD_TICKS
  | tower => TOWER_BUILD_TICKS
  | armory => ARMORY_BUILD_TICKS
  | _ => 60
  end.

Record BuildingStats : Type := mkBuildingStats {
  bs_cost : Z; bs_hp : Z; bs_tileW : Z; bs_tileH : Z; bs_buildTicks : Z
}.

Definition getBuildingStats (t : BuildingType) : BuildingStats :=
  match t with
  | BHouse =>
      mkBuildingStats HOUSE_COST HOUSE_HP HOUSE_TILE_WIDTH HOUSE_TILE_HEIGHT
        HOUSE_BUILD_TICKS
  | BBarracks =>
      mkBuildingStats BARRACKS_COST BARRACKS_HP BARRACKS_TILE_WIDTH
        BARRACKS_TILE_HEIGHT BARRACKS_BUILD_TICKS
  | BResourceDepot =>
      mkBuildingStats RESOURCE_DEPOT_COST RESOURCE_DEPOT_HP
        RESOURCE_DEPOT_TILE_WIDTH RESOURCE_DEPOT_TILE_HEIGHT
        RESOURCE_DEPOT_BUILD_TICKS
  | BTower =>
      mkBuildingStats TOWER_COST TOWER_HP TOWER_TILE_WIDTH TOWER_TILE_HEIGHT
        TOWER_BUILD_TICKS
  | BArmory =>
      mkBuildingStats ARMORY_COST ARMORY_HP ARMORY_TILE_WIDTH
        ARMORY_TILE_HEIGHT ARMORY_BUILD_TICKS
  end.

Definition getUnitHp (t : EntityType) : Z :=
  match t with
  | worker => WORKER_HP
  | infantry => INFANTRY_HP
  | archer => ARCHER_HP
  | cavalry => CAVALRY_HP
  | ballista => BALLISTA_HP
  | _ => 100
  end.

Record UnitTrainStats : Type := mkTrainStats {
  ts_cost : Z; ts_supplyCost : Z; ts_trainTicks : Z; ts_hp : Z
}.

(** Returns cost, supply, train ticks, and HP for a trainable unit type. *)
Definition getUnitTrainStats (t : EntityType) : UnitTrainStats :=
  match t with
  | worker =>
      mkTrainStats WORKER_COST WORKER_SUPPLY WORKER_TRAIN_TICKS WORKER_HP
  | infantry =>
      mkTrainStats INFANTRY_COST INFANTRY_SUPPLY INFANTRY_TRAIN_TICKS
        INFANTRY_HP
  | archer =>
      mkTrainStats ARCHER_COST ARCHER_SUPPLY ARCHER_TRAIN_TICKS ARCHER_HP
  | cavalry =>
      mkTrainStats CAVALRY_COST CAVALRY_SUPPLY CAVALRY_TRAIN_TICKS CAVALRY_HP
  | ballista =>
      mkTrainStats BALLISTA_COST BALLISTA_SUPPLY BALLISTA_TRAIN_TICKS
        BALLISTA_HP
  | _ => mkTrainStats 0 0 0 0
  end.

(** Returns the upgrade level for a specific unit type from a player's
    upgrades. *)
Definition getPlayerUpgradeLevel (player : option Player) (t : EntityType)
  : Z :=
  match player with
  | None => 0
  | Some p =>
      match t with
      | infantry => up_infantry (p_upgrades p)
      | archer => up_archer (p_upgrades p)
      | cavalry => up_cavalry (p_upgrades p)
      | _ => 0
      end
  end.

(** Advances build progress of one building under construction, by
    [1 / totalTicks] added in doubles; the flag tells whether it
    completed. *)
Definition constructionStep (e : Entity) : Entity * bool :=
  match e_buildProgress e with
  | None => (e, false)
  | Some bp =>
      when Qle_bool 1 bp return (e, false) ;;
      let totalTicks := getBuildTicks (e_type e) in
      when totalTicks <=? 0 return (e, false) ;;
      let bp' := fl (bp + fl (1 / ZtoQ totalTicks)) in
      if Qle_bool 1 bp'
      then (set_state idle (set_buildProgress (Some 1%Q) e), true)
      else (set_buildProgress (Some bp') e, false)
  end.

(** Advances build progress for buildings under construction. Returns true
    if any building completed. *)
Definition processConstruction (s : GameState) : GameState * bool :=
  let r := map constructionStep (entities s) in
  (set_entities (map fst r) s, existsb snd r).

(** Finds a spawn position adjacent to a building for newly trained units. *)
Definition findSpawnPosition (s : GameState) (b : Entity) : option Point :=
  findAdjacentWalkable (buildWalkableGrid s) (e_x b) (e_y b)
    (e_tileWidth b) (e_tileHeight b).

Definition newUnit (id : string) (t : EntityType) (owner : string)
    (pos : Point) (hp : Z) : Entity :=
  mkEntity id t owner (ZtoQ (px pos)) (ZtoQ (py pos)) hp hp idle
    None None None None None None None None None None.

(** The body of the loop of [processTraining] for the building with id
    [bid]; the number counts the calls of [uuid()]. *)
Definition trainingStep (acc : GameState * nat) (bid : string)
  : GameState * nat :=
  let '(s, n) := acc in
  match getEntity bid (entities s) with
  | None => acc
  | Some b =>
      match e_trainingQueue b with
      | Some (order :: rest) =>
          when underConstruction b return acc ;;
          let order' := mkOrder (unitType order) (ticksRemaining order - 1) in
          let s1 := updE bid (set_trainingQueue (Some (order' :: rest))) s in
          if ticksRemaining order' <=? 0 then
            let '(s2, n2) :=
              match findSpawnPosition s1 b with
              | Some spawnPos =>
                  let ut := unitType order' in
                  let player := players s1 !! e_ownerId b in
                  let baseHp := getUnitHp ut in
                  let upgradeLevel := getPlayerUpgradeLevel player ut in
                  let hp :=
                    if 0 <? upgradeLevel
                    then Math_round
                           (ZtoQ baseHp * getUpgradeHpMultiplier upgradeLevel)
                    else baseHp in
                  let unit := newUnit (uuid n) ut (e_ownerId b) spawnPos hp in
                  let s' := set_entities (putEntity unit (entities s1)) s1 in
                  let s'' :=
                    match e_rallyPoint b with
                    | Some dest =>
                        let walkable := buildWalkableGrid s' in
                        if negb (point_eqb spawnPos dest) then
                          match findPath walkable spawnPos dest with
                          | [] => s'
                          | path =>
                              updE (uuid n)
                                (fun u => set_state moving
                                            (set_path (Some path) u)) s'
                          end
                        else s'
                    | None => s'
                    end in
                  (s'', S n)
              | None => (s1, n)
              end in
            (updE bid
               (fun b' =>
                  let q := tail (default [] (e_trainingQueue b')) in
                  let b'' := set_trainingQueue (Some q) b' in
                  match q with
                  | [] => set_state idle b''
                  | _ => b''
                  end) s2,
             n2)
          else (s1, n)
      | _ => acc
      end
  end.

(** Advances training queues and spawns units when ready. *)
Definition processTraining (acc : GameState * nat) : GameState * nat :=
  fold_left trainingStep (map e_id (entities (fst acc))) acc.

(** Finds the nearest completed home base or resource depot owned by the
    worker's player (center-to-center distance, first of the nearest). *)
Definition findNearestDepot (s : GameState) (w : Entity) : option Entity :=
  fst
    (fold_left
       (fun (acc : option Entity * option Q) e =>
          when negb (bool_decide (e_ownerId e = e_ownerId w)) return acc ;;
          when negb (bool_decide (e_type e = homeBase)) &&
               negb (bool_decide (e_type e = resourceDepot)) return acc ;;
          when e_hp e <=? 0 return acc ;;
          when underConstruction e return acc ;;
          let centerX := (e_x e + ZtoQ (default 1%Z (e_tileWidth e)) / 2)%Q in
          let centerY := (e_y e + ZtoQ (default 1%Z (e_tileHeight e)) / 2)%Q in
          let d := euclid centerX centerY (e_x w) (e_y w) in
          match snd acc with
          | Some nearestDist =>
              if Qlt_bool d nearestDist then (Some e, Some d) else acc
          | None => (Some e, Some d)
          end)
       (entities s) (None, None)).

(** A mutation of the first mine that satisfies [pred]. *)
Fixpoint updateFirstMine (pred : GoldMine -> bool)
    (f : GoldMine -> GoldMine) (l : list GoldMine) : list GoldMine :=
  match l with
  | [] => []
  | m :: tl =>
      if pred m then f m :: tl else m :: updateFirstMine pred f tl
  end.

Definition includes (id : string) (ids : list string) : bool :=
  bool_decide (id ∈ ids).

Definition mineHasWorker (id : string) (m : GoldMine) : bool :=
  includes id (m_workerIds m).

Definition mineIs (mid : string) (m : GoldMine) : bool :=
  bool_decide (m_id m = mid).

Definition mineAvailable (m : GoldMine) : bool :=
  Z.of_nat (length (m_workerIds m)) <? m_maxWorkers m.

(** The tile next to the 2x2 footprint of a mine. *)
Definition mineAdjacentTile (walkable : Grid) (m : GoldMine) : option Point :=
  findAdjacentWalkable walkable (m_x m) (m_y m) (Some 2) (Some 2).

(** State: gathering (at mine, mining ticks). *)
Definition gatherMining (acc : GameState * gmap string Z) (id : string)
  : GameState * gmap string Z :=
  let '(s, gatherTimers) := acc in
  match getEntity id (entities s) with
  | None => acc
  | Some entity =>
      when negb (bool_decide (e_state entity = gathering)) return acc ;;
      let timer := default WORKER_MINE_TICKS (gatherTimers !! id) in
      let progress := (1 - ZtoQ timer / ZtoQ WORKER_MINE_TICKS)%Q in
      if timer <=? 1 then
        (* Done mining: pick up gold, head back to depot *)
        let s1 :=
          updE id
            (fun e => set_carriedGold (Some WORKER_CARRY_CAPACITY)
                        (set_miningProgress None e)) s in
        let s2 :=
          set_goldMines
            (updateFirstMine (mineHasWorker id)
               (fun m =>
                  set_goldRemaining
                    (Z.max 0 (m_goldRemaining m - WORKER_CARRY_CAPACITY))
                    (set_workerIds
                       (List.filter (fun w => negb (bool_decide (w = id)))
                          (m_workerIds m)) m))
               (goldMines s1)) s1 in
        let s3 :=
          match findNearestDepot s2 entity with
          | Some depot =>
              let walkable := buildWalkableGrid s2 in
              match findAdjacentWalkable walkable (e_x depot) (e_y depot)
                      (e_tileWidth depot) (e_tileHeight depot) with
              | Some depotAdjacentTile =>
                  let path :=
                    findPath walkable (entityTile entity) depotAdjacentTile in
                  updE id
                    (fun e => set_state returning (set_path (Some path) e)) s2
              | None => updE id (set_state idle) s2
              end
          | None => updE id (set_state idle) s2
          end in
        (s3, delete id gatherTimers)
      else
        (updE id (set_miningProgress (Some progress)) s,
         <[id := timer - 1]> gatherTimers)
  end.

(** State: returning, arrived at the depot: deposit, then go back to the
    mine when it is still the target. *)
Definition gatherDeposit (s : GameState) (id : string) : GameState :=
  match getEntity id (entities s) with
  | None => s
  | Some entity =>
      when negb (bool_decide (e_state entity = returning) && noPath entity)
        return s ;;
      let carried := default 0 (e_carriedGold entity) in
      let s1 :=
        match players s !! e_ownerId entity with
        | Some player =>
            if 0 <? carried then
              updE id (set_carriedGold (Some 0))
                (updP (e_ownerId entity)
                   (fun p => set_gold (p_gold p + carried) p) s)
            else s
        | None => s
        end in
      match e_targetId entity with
      | Some targetId =>
          match findMine (mineIs targetId) s1 with
          | Some mine =>
              if 0 <? m_goldRemaining mine then
                if mineAvailable mine then
                  let walkable := buildWalkableGrid s1 in
                  match mineAdjacentTile walkable mine with
                  | Some tile =>
                      match findPath walkable (entityTile entity) tile with
                      | [] => updE id (set_state idle) s1
                      | path =>
                          updE id
                            (fun e => set_state moving
                                        (set_path (Some path) e)) s1
                      end
                  | None => updE id (set_state idle) s1
                  end
                else updE id (set_state idle) s1
              else
                updE id (fun e => set_targetId None (set_state idle e)) s1
          | None =>
              updE id (fun e => set_targetId None (set_state idle e)) s1
          end
      | None => updE id (set_state idle) s1
      end
  end.

(** State: arrived at mine (path exhausted): start gathering, or walk to the
    mine when it is far. *)
Definition gatherArrive (acc : GameState * gmap string Z) (id : string)
  : GameState * gmap string Z :=
  let '(s, gatherTimers) := acc in
  match getEntity id (entities s) with
  | None => acc
  | Some entity =>
      when negb ((bool_decide (e_state entity = moving) ||
                  bool_decide (e_state entity = idle)) && noPath entity)
        return acc ;;
      match e_targetId entity with
      | None => acc
      | Some targetId =>
          match findMine (mineIs targetId) s with
          | Some mine =>
              let dist :=
                euclid (e_x entity) (e_y entity) (m_x mine + 1)%Q (m_y mine + 1)%Q
              in
              let free := mineAvailable mine && (0 <? m_goldRemaining mine) in
              if Qle_bool dist 3 then
                if free then
                  (updE id
                     (fun e => set_miningProgress (Some 0%Q)
                                 (set_state gathering e))
                     (set_goldMines
                        (updateFirstMine (mineIs targetId)
                           (fun m => set_workerIds (m_workerIds m ++ [id]) m)
                           (goldMines s)) s),
                   <[id := WORKER_MINE_TICKS]> gatherTimers)
                else (updE id (set_state idle) s, gatherTimers)
              else if free then
                let walkable := buildWalkableGrid s in
                match mineAdjacentTile walkable mine with
                | Some tile =>
                    match findPath walkable (entityTile entity) tile with
                    | [] =>
                        (updE id
                           (fun e => set_state idle (set_targetId None e)) s,
                         gatherTimers)
                    | path =>
                        (updE id
                           (fun e => set_state moving
                                       (set_path (Some path) e)) s,
                         gatherTimers)
                    end
                | None =>
                    (updE id
                       (fun e => set_state idle (set_targetId None e)) s,
                     gatherTimers)
                end
              else acc
          | None =>
              (updE id (fun e => set_state idle (set_targetId None e)) s,
               gatherTimers)
          end
      end
  end.

(** The body of the loop of [processGathering] for the entity [id]. *)
Definition gatherStep (acc : GameState * gmap string Z) (id : string)
  : GameState * gmap string Z :=
  match getEntity id (entities (fst acc)) with
  | None => acc
  | Some entity =>
      when negb (bool_decide (e_type entity = worker)) return acc ;;
      let acc1 := gatherMining acc id in
      let acc2 := (gatherDeposit (fst acc1) id, snd acc1) in
      gatherArrive acc2 id
  end.

(** Processes the worker gather cycle for all gathering/returning workers. *)
Definition processGathering (acc : GameState * gmap string Z)
  : GameState * gmap string Z :=
  fold_left gatherStep (map e_id (entities (fst acc))) acc.

(** Handles the 'trainUnit' command: queues a unit for training at a
    building. Validates cost, supply, and building type. *)
Definition handleTrainUnit (s : GameState) (playerId buildingId : string)
    (ut : EntityType) : GameState :=
  match getEntity buildingId (entities s) with
  | None => s
  | Some b =>
      when negb (bool_decide (e_ownerId b = playerId)) return s ;;
      match players s !! playerId with
      | None => s
      | Some player =>
          let isNot t := negb (bool_decide (e_type b = t)) in
          when bool_decide (ut = worker) && isNot homeBase return s ;;
          when bool_decide (ut = infantry) && isNot barracks return s ;;
          when bool_decide (ut = archer) && isNot barracks return s ;;
          when bool_decide (ut = cavalry) && isNot barracks return s ;;
          when bool_decide (ut = ballista) && isNot barracks return s ;;
          let stats := getUnitTrainStats ut in
          when ts_cost stats <=? 0 return s ;;
          when p_gold player <? ts_cost stats return s ;;
          when p_maxSupply player <? p_supply player + ts_supplyCost stats
            return s ;;
          when underConstruction b return s ;;
          let s1 :=
            updP playerId
              (fun p =>
                 set_supply (p_supply p + ts_supplyCost stats)
                   (set_gold (p_gold p - ts_cost stats) p)) s in
          updE buildingId
            (fun b' =>
               set_state training
                 (set_trainingQueue
                    (Some (default [] (e_trainingQueue b') ++
                           [mkOrder ut (ts_trainTicks stats)])) b')) s1
      end
  end.

(** Does the footprint of building [e] cover the tile? *)
Definition occupies (e : Entity) (tx ty : Z) : bool :=
  truthy (e_tileWidth e) && truthy (e_tileHeight e) &&
  Qle_bool (e_x e) (ZtoQ tx) &&
  Qlt_bool (ZtoQ tx) (e_x e + ZtoQ (default 0%Z (e_tileWidth e)))%Q &&
  Qle_bool (e_y e) (ZtoQ ty) &&
  Qlt_bool (ZtoQ ty) (e_y e + ZtoQ (default 0%Z (e_tileHeight e)))%Q.

(** Checks if building placement at (x, y) with given dimensions is valid. *)
Definition isPlacementValid (s : GameState) (x y tileW tileH : Z) : bool :=
  forallb
    (fun dy =>
       forallb
         (fun dx =>
            let tx := x + dx in
            let ty := y + dy in
            inMap s tx ty &&
            bool_decide (tileAt s tx ty = Some grass) &&
            forallb (fun e => negb (occupies e tx ty)) (entities s))
         (seqZ 0 tileW))
    (seqZ 0 tileH).

(** Actually creates the building entity in the game state. *)
Definition placeBuilding (acc : GameState * nat) (ownerId : string)
    (bt : BuildingType) (x y hp tileW tileH : Z) : GameState * nat :=
  let '(s, n) := acc in
  let b :=
    mkEntity (uuid n) (buildingEntityType bt) ownerId (ZtoQ x) (ZtoQ y) hp hp
      building None None None None (Some 0%Q) None (Some tileW) (Some tileH)
      None None in
  (set_entities (putEntity b (entities s)) s, S n).

(** Distance from a unit to the nearest edge of a building footprint. *)
Definition distToFootprint (unit : Entity) (bx b_y bw bh : Z) : Q :=
  let cx := Qmax (ZtoQ bx) (Qmin (ZtoQ (bx + bw - 1)) (e_x unit)) in
  let cy := Qmax (ZtoQ b_y) (Qmin (ZtoQ (b_y + bh - 1)) (e_y unit)) in
  euclid (e_x unit) (e_y unit) cx cy.

(** Handles the 'buildStructure' command: a worker walks to the site then
    constructs. The cost is deducted upfront. *)
Definition handleBuildStructure (acc : GameState * nat)
    (playerId workerId : string) (bt : BuildingType) (x y : Z)
  : GameState * nat :=
  let '(s, n) := acc in
  match getEntity workerId (entities s) with
  | None => acc
  | Some w =>
      when negb (bool_decide (e_ownerId w = playerId)) ||
           negb (bool_decide (e_type w = worker)) return acc ;;
      match players s !! playerId with
      | None => acc
      | Some player =>
          let stats := getBuildingStats bt in
          let cost := bs_cost stats in
          when p_gold player <? cost return acc ;;
          let houseCount :=
            Z.of_nat
              (length
                 (List.filter
                    (fun e => bool_decide (e_type e = house) &&
                              bool_decide (e_ownerId e = playerId))
                    (entities s))) in
          when bool_decide (bt = BHouse) &&
               (HOUSE_MAX_PER_PLAYER <=? houseCount) return acc ;;
          when negb (isPlacementValid s x y (bs_tileW stats) (bs_tileH stats))
            return acc ;;
          (* Deduct cost upfront (refunded if worker dies before placing) *)
          let s1 := updP playerId (fun p => set_gold (p_gold p - cost) p) s in
          let distToSite :=
            distToFootprint w x y (bs_tileW stats) (bs_tileH stats) in
          if Qle_bool distToSite MAX_BUILD_DISTANCE then
            let '(s2, n2) :=
              placeBuilding (s1, n) playerId bt x y (bs_hp stats)
                (bs_tileW stats) (bs_tileH stats) in
            (updE workerId
               (fun e =>
                  set_pendingBuild None
                    (set_targetId None (set_path None (set_state idle e))))
               s2,
             n2)
          else
            let s2 :=
              updE workerId
                (fun e =>
                   set_miningProgress None
                     (set_targetId None
                        (set_pendingBuild (Some (mkPending bt x y)) e))) s1 in
            let walkable := buildWalkableGrid s2 in
            let refund :=
              updE workerId
                (fun e => set_state idle (set_pendingBuild None e))
                (updP playerId (fun p => set_gold (p_gold p + cost) p) s2) in
            match findAdjacentWalkable walkable (ZtoQ x) (ZtoQ y)
                    (Some (bs_tileW stats)) (Some (bs_tileH stats)) with
            | Some adjTile =>
                match findPath walkable (entityTile w) adjTile with
                | [] => (refund, n)
                | path =>
                    (updE workerId
                       (fun e => set_state moving (set_path (Some path) e))
                       s2,
                     n)
                end
            | None => (refund, n)
            end
      end
  end.

(** The body of the loop of [processPendingBuilds] for the entity [id]. *)
Definition pendingBuildStep (acc : GameState * nat) (id : string)
  : GameState * nat :=
  let '(s, n) := acc in
  match getEntity id (entities s) with
  | None => acc
  | Some entity =>
      match e_pendingBuild entity with
      | None => acc
      | Some pb =>
          when negb (bool_decide (e_type entity = worker)) return acc ;;
          (* Only act when worker has stopped moving *)
          when negb (bool_decide (e_state entity = idle)) &&
               negb (bool_decide (e_state entity = moving) && noPath entity)
            return acc ;;
          let stats := getBuildingStats (pb_buildingType pb) in
          let dist :=
            distToFootprint entity (pb_x pb) (pb_y pb)
              (bs_tileW stats) (bs_tileH stats) in
          if Qle_bool dist MAX_BUILD_DISTANCE then
            let '(s1, n1) :=
              if isPlacementValid s (pb_x pb) (pb_y pb)
                   (bs_tileW stats) (bs_tileH stats)
              then
                placeBuilding (s, n) (e_ownerId entity) (pb_buildingType pb)
                  (pb_x pb) (pb_y pb) (bs_hp stats)
                  (bs_tileW stats) (bs_tileH stats)
              else
                (* Placement no longer valid: refund gold *)
                (updP (e_ownerId entity)
                   (fun p => set_gold (p_gold p + bs_cost stats) p) s,
                 n) in
            (updE id
               (fun e =>
                  set_path None (set_state idle (set_pendingBuild None e)))
               s1,
             n1)
          else acc
      end
  end.

(** Processes workers with pending build orders who have arrived at the
    build site. *)
Definition processPendingBuilds (acc : GameState * nat) : GameState * nat :=
  fold_left pendingBuildStep (map e_id (entities (fst acc))) acc.

(** The body of the loop of [handleGatherResource] for one worker id; the
    mine and the grid were read before the loop. *)
Definition gatherCommandStep (playerId mineId : string) (mine : GoldMine)
    (walkable : Grid) (s : GameState) (workerId : string) : GameState :=
  match getEntity workerId (entities s) with
  | None => s
  | Some w =>
      when negb (bool_decide (e_ownerId w = playerId)) ||
           negb (bool_decide (e_type w = worker)) return s ;;
      when negb (mineAvailable mine) return s ;;
      match mineAdjacentTile walkable mine with
      | Some tile =>
          if point_eqb (entityTile w) tile then
            updE workerId
              (fun e =>
                 set_state idle
                   (set_path (Some []) (set_targetId (Some mineId) e))) s
          else
            match findPath walkable (entityTile w) tile with
            | [] => updE workerId (set_targetId None) s
            | path =>
                updE workerId
                  (fun e =>
                     set_state moving
                       (set_path (Some path)
                          (set_targetId (Some mineId) e))) s
            end
      | None => updE workerId (set_targetId None) s
      end
  end.

(** Handles the 'gatherResource' command: assigns workers to mine gold. *)
Definition handleGatherResource (s : GameState) (playerId : string)
    (workerIds : list string) (mineId : string) : GameState :=
  match findMine (mineIs mineId) s with
  | None => s
  | Some mine =>
      when m_goldRemaining mine <=? 0 return s ;;
      let walkable := buildWalkableGrid s in
      fold_left (gatherCommandStep playerId mineId mine walkable) workerIds s
  end.

Definition upgradeLevelOf (u : UpgradeableUnit) (l : UpgradeLevels) : Z :=
  match u with
  | UInfantry => up_infantry l
  | UArcher => up_archer l
  | UCavalry => up_cavalry l
  end.

Definition setUpgradeLevel (u : UpgradeableUnit) (v : Z) (l : UpgradeLevels)
  : UpgradeLevels :=
  match u with
  | UInfantry => mkUpgrades v (up_archer l) (up_cavalry l)
  | UArcher => mkUpgrades (up_infantry l) v (up_cavalry l)
  | UCavalry => mkUpgrades (up_infantry l) (up_archer l) v
  end.

(** Handles the 'upgradeUnit' command: purchases an upgrade for a unit type
    at an armory. *)
Definition handleUpgradeUnit (s : GameState) (playerId armoryId : string)
    (ut : UpgradeableUnit) : GameState :=
  match getEntity armoryId (entities s) with
  | None => s
  | Some a =>
      when negb (bool_decide (e_ownerId a = playerId)) return s ;;
      when negb (bool_decide (e_type a = armory)) return s ;;
      when underConstruction a return s ;;
      match players s !! playerId with
      | None => s
      | Some player =>
          let currentLevel := upgradeLevelOf ut (p_upgrades player) in
          let cost := getUpgradeCost currentLevel in
          when p_gold player <? cost return s ;;
          updP playerId
            (fun p =>
               set_upgrades
                 (setUpgradeLevel ut (currentLevel + 1) (p_upgrades p))
                 (set_gold (p_gold p - cost) p)) s
      end
  end.

(** The module-level state of the server process: the two trackers keyed by
    entity id ([attackCooldowns] of combat.ts, [gatherTimers] of economy.ts)
    and the number of [uuid()] calls made so far. *)
Record Process : Type := mkProcess {
  attackCooldowns : gmap string Z;
  gatherTimers : gmap string Z;
  uuidCalls : nat
}.

(** Processes economy each tick: construction (recalculates supply on
    completion), training queues, pending build orders, worker gather
    cycle. *)
Definition processEconomy (onSupplyChanged : option (GameState -> GameState))
    (acc : GameState * Process) : GameState * Process :=
  let '(s, pr) := acc in
  let '(s1, built) := processConstruction s in
  let s2 :=
    match onSupplyChanged with
    | Some callback => if built then callback s1 else s1
    | None => s1
    end in
  let '(s3, n3) := processTraining (s2, uuidCalls pr) in
  let '(s4, n4) := processPendingBuilds (s3, n3) in
  let '(s5, timers) := processGathering (s4, gatherTimers pr) in
  (s5, mkProcess (attackCooldowns pr) timers n4).

(** [resetEconomy]. *)
Definition resetEconomy (pr : Process) : Process :=
  mkProcess (attackCooldowns pr) ∅ (uuidCalls pr).

(** *** server/src/game/systems/movement.ts *)

(** Returns movement speed (tiles per tick) for a given entity. *)
Definition getSpeed (e : Entity) : Q :=
  match e_type e with
  | worker => WORKER_SPEED
  | infantry => INFANTRY_SPEED
  | archer => ARCHER_SPEED
  | cavalry => CAVALRY_SPEED
  | ballista => BALLISTA_SPEED
  | _ => 0 (* buildings don't move *)
  end.

(** A small epsilon to handle floating point precision. *)
Definition epsilon : Q := fl (1 # 100).

(** The loop [while (remaining > 0 && path.length > 0)]: the position, the
    budget that is left and the waypoints that are left. Every iteration
    pops a waypoint or uses up the budget. Every operation returns a
    double. *)
Fixpoint advance (x y remaining : Q) (path : list Point)
  : Q * Q * Q * list Point :=
  match path with
  | [] => (x, y, remaining, [])
  | target :: rest =>
      if Qlt_bool 0 remaining then
        let dx := fl (ZtoQ (px target) - x) in
        let dy := fl (ZtoQ (py target) - y) in
        let dist := Math_sqrt (fl (fl (dx * dx) + fl (dy * dy))) in
        if Qle_bool dist (fl (remaining + epsilon)) then
          (* Reached this waypoint *)
          advance (ZtoQ (px target)) (ZtoQ (py target))
                  (fl (remaining - dist)) rest
        else
          (* Move towards target *)
          let ratio := fl (remaining / dist) in
          (fl (x + fl (dx * ratio)), fl (y + fl (dy * ratio)), 0%Q, path)
      else (x, y, remaining, path)
  end.

Definition canMove (st : EntityState) : bool :=
  bool_decide (st = moving) || bool_decide (st = returning) ||
  bool_decide (st = attacking).

(** The body of the loop of [processMovement] for one entity. *)
Definition moveEntity (e : Entity) : Entity :=
  match e_path e with
  | Some (wp :: rest) =>
      when negb (canMove (e_state e)) return e ;;
      let speed := getSpeed e in
      when Qle_bool speed 0 return e ;;
      let '(x', y', _, path') := advance (e_x e) (e_y e) speed (wp :: rest) in
      let e1 := set_path (Some path') (set_pos x' y' e) in
      (* Path exhausted: go idle, unless another system owns the state *)
      match path' with
      | [] => if bool_decide (e_state e = moving) then set_state idle e1 else e1
      | _ => e1
      end
  | _ => e
  end.

(** Processes movement for all entities with a non-empty path. *)
Definition processMovement (s : GameState) : GameState :=
  set_entities (map moveEntity (entities s)) s.

(** *** server/src/game/systems/combat.ts *)

(** Returns true if the entity type is a combat unit. *)
Definition isCombatUnit (t : EntityType) : bool :=
  match t with
  | infantry | archer | cavalry | ballista => true
  | _ => false
  end.

Definition getAttackRange (e : Entity) : Q :=
  match e_type e with
  | archer => ARCHER_RANGE
  | cavalry => CAVALRY_RANGE
  | ballista => BALLISTA_RANGE
  | _ => INFANTRY_RANGE
  end.

(** Returns the base attack damage for a combat entity against a given
    target. Ballista only damages buildings: 0 damage to units. *)
Definition getAttackDamage (e target : Entity) : Z :=
  match e_type e with
  | archer => ARCHER_DAMAGE
  | cavalry => CAVALRY_DAMAGE
  | ballista => if truthy (e_tileWidth target) then BALLISTA_DAMAGE else 0
  | _ => INFANTRY_DAMAGE
  end.

Definition getAttackCooldown (e : Entity) : Z :=
  match e_type e with
  | archer => ARCHER_ATTACK_COOLDOWN
  | cavalry => CAVALRY_ATTACK_COOLDOWN
  | ballista => BALLISTA_ATTACK_COOLDOWN
  | _ => INFANTRY_ATTACK_COOLDOWN
  end.

Definition getAggroRange (e : Entity) : Q :=
  match e_type e with
  | archer => ARCHER_AGGRO_RANGE
  | cavalry => CAVALRY_AGGRO_RANGE
  | ballista => BALLISTA_AGGRO_RANGE
  | _ => INFANTRY_AGGRO_RANGE
  end.

(** Returns the player's upgrade level for a given combat unit. *)
Definition getAttackerUpgradeLevel (s : GameState) (e : Entity) : Z :=
  getPlayerUpgradeLevel (players s !! e_ownerId e) (e_type e).

(** Recalculates maxSupply (and supply) for all players from the entities. *)
Definition recalculateSupply (s : GameState) : GameState :=
  let reset :=
    (fun p => set_supply 0 (set_maxSupply 0 p)) <$> players s in
  set_players
    (fold_left
       (fun (ps : gmap string Player) e =>
          if bool_decide (e_type e = homeBase) && (0 <? e_hp e) then
            alter (fun p => set_maxSupply (p_maxSupply p + HOME_BASE_SUPPLY) p)
                  (e_ownerId e) ps
          else if bool_decide (e_type e = house) && (0 <? e_hp e) &&
                  negb (underConstruction e) then
            alter (fun p => set_maxSupply (p_maxSupply p + HOUSE_SUPPLY) p)
                  (e_ownerId e) ps
          else
            match e_type e with
            | worker | infantry | archer | cavalry | ballista =>
                let supplyCost :=
                  match e_type e with
                  | worker => 1
                  | infantry => 2
                  | archer => 3
                  | cavalry => 4
                  | _ => 5
                  end in
                alter (fun p => set_supply (p_supply p + supplyCost) p)
                      (e_ownerId e) ps
            | _ => ps
            end)
       (entities s) reset)
    s.

(** Euclidean distance between two entities in tile coords. *)
Definition tileDistance (a b : Entity) : Q :=
  euclid (e_x a) (e_y a) (e_x b) (e_y b).

Definition isBuilding (e : Entity) : bool :=
  truthy (e_tileWidth e) && truthy (e_tileHeight e).

(** The point of the footprint of [b] nearest to [(x, y)]. *)
Definition clampTo (b : Entity) (x y : Q) : Q * Q :=
  (Qmax (e_x b)
     (Qmin (e_x b + ZtoQ (default 0%Z (e_tileWidth b)) - 1)%Q x),
   Qmax (e_y b)
     (Qmin (e_y b + ZtoQ (default 0%Z (e_tileHeight b)) - 1)%Q y)).

(** Distance from entity [a] to the nearest edge of entity [b]. *)
Definition distToEntity (a b : Entity) : Q :=
  if isBuilding b then
    let '(cx, cy) := clampTo b (e_x a) (e_y a) in
    euclid (e_x a) (e_y a) cx cy
  else tileDistance a b.

(** The scan shared by [findNearestEnemy] and [findNearestEnemyBuilding]:
    the first entity at the least distance among the accepted ones. *)
Definition nearestBy (accept : Entity -> bool) (dist : Entity -> Q)
    (all : list Entity) : option Entity :=
  fst
    (fold_left
       (fun (acc : option Entity * option Q) other =>
          when negb (accept other) return acc ;;
          let d := dist other in
          match snd acc with
          | Some nearestDist =>
              if Qlt_bool d nearestDist then (Some other, Some d) else acc
          | None => (Some other, Some d)
          end)
       all (None, None)).

Definition isLivingEnemy (e other : Entity) : bool :=
  negb (bool_decide (e_ownerId other = e_ownerId e)) && negb (e_hp other <=? 0).

(** Finds the nearest enemy entity to the given entity. *)
Definition findNearestEnemy (e : Entity) (all : list Entity)
  : option Entity :=
  nearestBy (isLivingEnemy e) (tileDistance e) all.

(** Finds the nearest enemy building to the given entity. *)
Definition findNearestEnemyBuilding (e : Entity) (all : list Entity)
  : option Entity :=
  nearestBy (fun other => isLivingEnemy e other && isBuilding other)
            (distToEntity e) all.

(** Tick down cooldowns. *)
Definition tickCooldowns (cds : gmap string Z) : gmap string Z :=
  omap (fun cd => if 0 <? cd then Some (cd - 1) else None) cds.

(** Auto-aggro for one idle combat unit. *)
Definition autoAggroStep (s : GameState) (id : string) : GameState :=
  match getEntity id (entities s) with
  | None => s
  | Some entity =>
      when negb (isCombatUnit (e_type entity)) return s ;;
      when negb (bool_decide (e_state entity = idle)) return s ;;
      let nearest :=
        if bool_decide (e_type entity = ballista)
        then findNearestEnemyBuilding entity (entities s)
        else findNearestEnemy entity (entities s) in
      match nearest with
      | Some target =>
          if Qle_bool (tileDistance entity target) (getAggroRange entity)
          then updE id
                 (fun e => set_state attacking
                             (set_targetId (Some (e_id target)) e)) s
          else s
      | None => s
      end
  end.

(** Defensive building auto-attack (towers + homeBase) for one building. *)
Definition defensiveStep (acc : GameState * gmap string Z) (id : string)
  : GameState * gmap string Z :=
  let '(s, cds) := acc in
  match getEntity id (entities s) with
  | None => acc
  | Some entity =>
      let isBase := bool_decide (e_type entity = homeBase) in
      when negb (bool_decide (e_type entity = tower)) && negb isBase
        return acc ;;
      when e_hp entity <=? 0 return acc ;;
      when underConstruction entity return acc ;;
      when 0 <? default 0 (cds !! id) return acc ;;
      let bDamage := if isBase then HOME_BASE_DAMAGE else TOWER_DAMAGE in
      let bRange := if isBase then HOME_BASE_RANGE else TOWER_RANGE in
      let bCooldown :=
        if isBase then HOME_BASE_ATTACK_COOLDOWN else TOWER_ATTACK_COOLDOWN in
      let centerX :=
        (e_x entity + ZtoQ (default 2%Z (e_tileWidth entity)) / 2)%Q in
      let centerY :=
        (e_y entity + ZtoQ (default 2%Z (e_tileHeight entity)) / 2)%Q in
      let dist other :=
        if isBuilding other then
          let '(cx, cy) := clampTo other centerX centerY in
          euclid centerX centerY cx cy
        else euclid centerX centerY (e_x other) (e_y other) in
      let bestTarget :=
        nearestBy
          (fun other => isLivingEnemy entity other &&
                        Qle_bool (dist other) bRange)
          dist (entities s) in
      match bestTarget with
      | Some target =>
          (updE id (set_targetId (Some (e_id target)))
             (updE (e_id target) (fun t => set_hp (e_hp t - bDamage) t) s),
           <[id := bCooldown]> cds)
      | None => (updE id (set_targetId None) s, cds)
      end
  end.

(** [attackersPerTarget]: a [Map] from target id to the attackers that hit
    it this tick, in insertion order. *)
Fixpoint registerAttacker (targetId attackerId : string)
    (m : list (string * list string)) : list (string * list string) :=
  match m with
  | [] => [(targetId, [attackerId])]
  | (t, l) :: tl =>
      if bool_decide (t = targetId) then (t, l ++ [attackerId]) :: tl
      else (t, l) :: registerAttacker targetId attackerId tl
  end.

Definition sqDist (p : Point) (x y : Q) : Q :=
  ((ZtoQ (px p) - x) * (ZtoQ (px p) - x) +
   (ZtoQ (py p) - y) * (ZtoQ (py p) - y))%Q.

(** [candidates.sort(by squared distance to the attacker)[0]]: the sort is
    stable, so this is the first candidate at the least distance. *)
Definition closestCandidate (x y : Q) (candidates : list Point)
  : option Point :=
  fold_left
    (fun (best : option Point) c =>
       match best with
       | Some b => if Qlt_bool (sqDist c x y) (sqDist b x y)
                   then Some c else best
       | None => Some c
       end)
    candidates None.

Definition loseTarget (e : Entity) : Entity :=
  set_state idle (set_targetId None e).

(** Pass 1 for one entity: resolve targeting and movement, collect who is
    hitting what this tick. *)
Definition targetingStep (cds : gmap string Z)
    (acc : GameState * list (string * list string)) (id : string)
  : GameState * list (string * list string) :=
  let '(s, attackersPerTarget) := acc in
  match getEntity id (entities s) with
  | None => acc
  | Some entity =>
      when negb (bool_decide (e_state entity = attacking)) return acc ;;
      when negb (isCombatUnit (e_type entity)) return acc ;;
      match e_targetId entity with
      | None => (updE id (set_state idle) s, attackersPerTarget)
      | Some targetId =>
          match getEntity targetId (entities s) with
          | None => (updE id loseTarget s, attackersPerTarget)
          | Some target =>
              when e_hp target <=? 0
                return (updE id loseTarget s, attackersPerTarget) ;;
              let dist := distToEntity entity target in
              if Qle_bool dist (getAttackRange entity) then
                (* In range: register this attacker if cooldown allows *)
                (updE id (set_path None) s,
                 if default 0 (cds !! id) <=? 0
                 then registerAttacker targetId id attackersPerTarget
                 else attackersPerTarget)
              else if noPath entity then
                let walkable := buildWalkableGrid s in
                let destination :=
                  if isBuilding target then
                    closestCandidate (e_x entity) (e_y entity)
                      (findAllAdjacentWalkable walkable (e_x target)
                         (e_y target) (e_tileWidth target)
                         (e_tileHeight target))
                  else Some (entityTile target) in
                match destination with
                | Some dest =>
                    if point_eqb (entityTile entity) dest
                    then (updE id (set_path None) s, attackersPerTarget)
                    else
                      match findPath walkable (entityTile entity) dest with
                      | [] => (updE id loseTarget s, attackersPerTarget)
                      | path =>
                          (updE id (set_path (Some path)) s,
                           attackersPerTarget)
                      end
                | None => (updE id loseTarget s, attackersPerTarget)
                end
              else acc
          end
      end
  end.

(** The damage one registered attacker deals:
    [Math.round(baseDmg * multiplier * upgradeMult)], the two products in
    doubles. *)
Definition hitDamage (s : GameState) (multiplier : Q)
    (attacker target : Entity) : Z :=
  let baseDmg := getAttackDamage attacker target in
  let upgradeLevel := getAttackerUpgradeLevel s attacker in
  let upgradeMult :=
    if 0 <? upgradeLevel then getUpgradeDamageMultiplier upgradeLevel
    else 1%Q in
  Math_round (fl (fl (ZtoQ baseDmg * multiplier) * upgradeMult)).

(** [1 + FOCUS_FIRE_BONUS * (count - 1)], in doubles. *)
Definition focusMultiplier (count : nat) : Q :=
  fl (1 + fl (FOCUS_FIRE_BONUS * (ZtoQ (Z.of_nat count) - 1))).

(** The inner loop of pass 2: one attacker hits the target. *)
Definition hitStep (targetId : string) (multiplier : Q)
    (acc : GameState * gmap string Z) (attackerId : string)
  : GameState * gmap string Z :=
  let '(s, cds) := acc in
  match getEntity attackerId (entities s), getEntity targetId (entities s) with
  | Some attacker, Some target =>
      (updE targetId
         (fun t => set_hp (e_hp t - hitDamage s multiplier attacker target) t)
         s,
       <[attackerId := getAttackCooldown attacker]> cds)
  | _, _ => acc
  end.

(** Pass 2 for one target: apply batched damage with focus-fire bonus. *)
Definition batchStep (acc : GameState * gmap string Z)
    (entry : string * list string) : GameState * gmap string Z :=
  let '(targetId, attackerIds) := entry in
  match getEntity targetId (entities (fst acc)) with
  | None => acc
  | Some target =>
      when e_hp target <=? 0 return acc ;;
      fold_left (hitStep targetId (focusMultiplier (length attackerIds)))
                attackerIds acc
  end.

Definition applyBatchedDamage (attackersPerTarget : list (string * list string))
    (acc : GameState * gmap string Z) : GameState * gmap string Z :=
  fold_left batchStep attackersPerTarget acc.

(** Remove dead entities; the list of the removed ids comes with it. *)
Definition removeDead (acc : GameState * gmap string Z)
  : GameState * gmap string Z * list string :=
  let '(s, cds) := acc in
  let deadIds :=
    map e_id (List.filter (fun e => e_hp e <=? 0) (entities s)) in
  (fold_left (fun s' id => set_entities (deleteEntity id (entities s')) s')
             deadIds s,
   fold_left (fun c id => delete id c) deadIds cds,
   deadIds).

(** Processes combat each tick: cooldowns, auto-aggro, defensive buildings,
    targeting, batched damage, removal of the dead, supply. *)
Definition processCombat (acc : GameState * Process) : GameState * Process :=
  let '(s, pr) := acc in
  let ids := map e_id (entities s) in
  let cds0 := tickCooldowns (attackCooldowns pr) in
  let s1 := fold_left autoAggroStep ids s in
  let '(s2, cds2) := fold_left defensiveStep ids (s1, cds0) in
  let '(s3, attackersPerTarget) :=
    fold_left (targetingStep cds2) ids (s2, []) in
  let '(s4, cds4) := applyBatchedDamage attackersPerTarget (s3, cds2) in
  let '(s5, cds5, deadIds) := removeDead (s4, cds4) in
  let s6 :=
    match deadIds with
    | [] => s5
    | _ => recalculateSupply s5
    end in
  (s6, mkProcess cds5 (gatherTimers pr) (uuidCalls pr)).

(** [resetCombat]. *)
Definition resetCombat (pr : Process) : Process :=
  mkProcess ∅ (gatherTimers pr) (uuidCalls pr).

(** *** server/src/game/GameEngine.ts: commands, tick, victory check *)

(** The command vocabulary with its payloads. *)
Inductive Command : Type :=
  | MoveUnits (unitIds : list string) (targetX targetY : Q)
  | AttackTarget (unitIds : list string) (targetId : string)
  | BuildStructure (workerId : string) (bt : BuildingType) (x y : Z)
  | TrainUnit (buildingId : string) (ut : EntityType)
  | GatherResource (workerIds : list string) (mineId : string)
  | UpgradeUnit (armoryId : string) (ut : UpgradeableUnit)
  | DepositGold (workerIds : list string) (depotId : string)
  | SetRallyPoint (buildingId : string) (x y : Q).

(** A queued command from a player. *)
Record QueuedCommand : Type := mkCommand {
  c_playerId : string;
  c_command : Command
}.

Definition isUnitType (t : EntityType) : bool :=
  match t with
  | worker | infantry | archer | cavalry | ballista => true
  | _ => false
  end.

Definition clampZ (lo hi v : Z) : Z := Z.max lo (Z.min hi v).

(** The body of the loop of [handleMoveUnits] for the [i]-th unit id. *)
Definition moveUnitStep (playerId : string) (walkable : Grid)
    (baseTarget : Point) (targetMine : option GoldMine) (unitCount : nat)
    (s : GameState) (iu : nat * string) : GameState :=
  let '(i, unitId) := iu in
  match getEntity unitId (entities s) with
  | None => s
  | Some entity =>
      when negb (bool_decide (e_ownerId entity = playerId)) return s ;;
      when negb (isUnitType (e_type entity)) return s ;;
      let start := entityTile entity in
      (* a worker sent onto a free mine walks next to it and keeps it as its
         target *)
      let mineMove :=
        match targetMine with
        | Some mine =>
            if bool_decide (e_type entity = worker) &&
               (0 <? m_goldRemaining mine) &&
               (Z.of_nat (length (m_workerIds mine)) <? 1)
            then
              Some (m_id mine,
                    match mineAdjacentTile walkable mine with
                    | Some tile => findPath walkable start tile
                    | None => []
                    end)
            else None
        | None => None
        end in
      match mineMove with
      | Some (mineId, wp :: rest) =>
          updE unitId
            (fun e => set_state moving
                        (set_path (Some (wp :: rest))
                           (set_targetId (Some mineId) e))) s
      | _ =>
          let s0 :=
            match mineMove with
            | Some (mineId, _) => updE unitId (set_targetId (Some mineId)) s
            | None => s
            end in
          let target :=
            if (1 <? unitCount)%nat then
              let '(offsetX, offsetY) := spreadOffset i unitCount in
              mkPoint (clampZ 0 (mapWidth s - 1) (px baseTarget + offsetX))
                      (clampZ 0 (mapHeight s - 1) (py baseTarget + offsetY))
            else baseTarget in
          let path :=
            match findPath walkable start target with
            | [] =>
                if negb (point_eqb target baseTarget)
                then findPath walkable start baseTarget
                else []
            | p => p
            end in
          match path with
          | [] => s0
          | _ =>
              updE unitId
                (fun e => set_targetId None
                            (set_state moving (set_path (Some path) e))) s0
          end
      end
  end.

Definition mineCovers (p : Point) (m : GoldMine) : bool :=
  Qle_bool (m_x m) (ZtoQ (px p)) && Qlt_bool (ZtoQ (px p)) (m_x m + 2)%Q &&
  Qle_bool (m_y m) (ZtoQ (py p)) && Qlt_bool (ZtoQ (py p)) (m_y m + 2)%Q.

Definition indexed {A : Type} (l : list A) : list (nat * A) :=
  combine (seq 0 (length l)) l.

Definition handleMoveUnits (s : GameState) (playerId : string)
    (unitIds : list string) (targetX targetY : Q) : GameState :=
  let walkable := buildWalkableGrid s in
  let baseTarget := mkPoint (Math_round targetX) (Math_round targetY) in
  let targetMine := findMine (mineCovers baseTarget) s in
  fold_left
    (moveUnitStep playerId walkable baseTarget targetMine (length unitIds))
    (indexed unitIds) s.

(** The body of the loop of [handleAttackTarget]; [adjIdx] counts the units
    already spread around a building. *)
Definition attackUnitStep (playerId targetId : string) (target : Entity)
    (walkable : Grid) (adjTiles : list Point)
    (acc : GameState * nat) (unitId : string) : GameState * nat :=
  let '(s, adjIdx) := acc in
  match getEntity unitId (entities s) with
  | None => acc
  | Some entity =>
      when negb (bool_decide (e_ownerId entity = playerId)) return acc ;;
      when negb (isCombatUnit (e_type entity)) return acc ;;
      let s1 :=
        updE unitId
          (fun e => set_pendingBuild None
                      (set_state attacking (set_targetId (Some targetId) e)))
          s in
      let start := entityTile entity in
      let walkTo dest s' :=
        if negb (point_eqb start dest) then
          match findPath walkable start dest with
          | [] => s'
          | path => updE unitId (set_path (Some path)) s'
          end
        else s' in
      match adjTiles with
      | _ :: _ =>
          if isBuilding target then
            match adjTiles !! (adjIdx mod length adjTiles)%nat with
            | Some dest => (walkTo dest s1, S adjIdx)
            | None => (s1, S adjIdx)
            end
          else (walkTo (entityTile target) s1, adjIdx)
      | [] => (walkTo (entityTile target) s1, adjIdx)
      end
  end.

Definition handleAttackTarget (s : GameState) (playerId : string)
    (unitIds : list string) (targetId : string) : GameState :=
  match getEntity targetId (entities s) with
  | None => s
  | Some target =>
      let walkable := buildWalkableGrid s in
      let adjTiles :=
        if isBuilding target
        then findAllAdjacentWalkable walkable (e_x target) (e_y target)
               (e_tileWidth target) (e_tileHeight target)
        else [] in
      fst (fold_left
             (attackUnitStep playerId targetId target walkable adjTiles)
             unitIds (s, O))
  end.

(** The body of the loop of [handleDepositGold]. *)
Definition depositUnitStep (playerId : string) (depot : Entity)
    (walkable : Grid) (s : GameState) (workerId : string) : GameState :=
  match getEntity workerId (entities s) with
  | None => s
  | Some w =>
      when negb (bool_decide (e_ownerId w = playerId)) return s ;;
      when negb (bool_decide (e_type w = worker)) return s ;;
      when negb (0 <? default 0 (e_carriedGold w)) return s ;;
      match findAdjacentWalkable walkable (e_x depot) (e_y depot)
              (e_tileWidth depot) (e_tileHeight depot) with
      | Some adj =>
          match findPath walkable (entityTile w) adj with
          | [] => s
          | path =>
              updE workerId
                (fun e =>
                   set_pendingBuild None
                     (set_targetId None
                        (set_state returning (set_path (Some path) e)))) s
          end
      | None => s
      end
  end.

Definition handleDepositGold (s : GameState) (playerId : string)
    (workerIds : list string) (depotId : string) : GameState :=
  match getEntity depotId (entities s) with
  | None => s
  | Some depot =>
      when negb (bool_decide (e_ownerId depot = playerId)) return s ;;
      when negb (bool_decide (e_type depot = homeBase)) &&
           negb (bool_decide (e_type depot = resourceDepot)) return s ;;
      when e_hp depot <=? 0 return s ;;
      let walkable := buildWalkableGrid s in
      fold_left (depositUnitStep playerId depot walkable) workerIds s
  end.

Definition handleSetRallyPoint (s : GameState) (playerId buildingId : string)
    (x y : Q) : GameState :=
  match getEntity buildingId (entities s) with
  | None => s
  | Some b =>
      when negb (bool_decide (e_ownerId b = playerId)) return s ;;
      (* Only buildings that train units can have rally points *)
      when negb (bool_decide (e_type b = homeBase)) &&
           negb (bool_decide (e_type b = barracks)) return s ;;
      updE buildingId
        (set_rallyPoint (Some (mkPoint (Math_round x) (Math_round y)))) s
  end.

(** The dispatch of one queued command ([GameEngine.handleBuildStructure]
    recalculates supply after the economy handler, whatever it did). *)
Definition dispatch (acc : GameState * nat) (c : QueuedCommand)
  : GameState * nat :=
  let '(s, n) := acc in
  let pid := c_playerId c in
  match c_command c with
  | MoveUnits unitIds targetX targetY =>
      (handleMoveUnits s pid unitIds targetX targetY, n)
  | AttackTarget unitIds targetId =>
      (handleAttackTarget s pid unitIds targetId, n)
  | BuildStructure workerId bt x y =>
      let '(s', n') := handleBuildStructure (s, n) pid workerId bt x y in
      (recalculateSupply s', n')
  | TrainUnit buildingId ut => (handleTrainUnit s pid buildingId ut, n)
  | GatherResource workerIds mineId =>
      (handleGatherResource s pid workerIds mineId, n)
  | UpgradeUnit armoryId ut => (handleUpgradeUnit s pid armoryId ut, n)
  | DepositGold workerIds depotId =>
      (handleDepositGold s pid workerIds depotId, n)
  | SetRallyPoint buildingId x y =>
      (handleSetRallyPoint s pid buildingId x y, n)
  end.

(** Processes all queued commands from players. *)
Definition processCommands (commands : list QueuedCommand)
    (acc : GameState * nat) : GameState * nat :=
  fold_left dispatch commands acc.

(** What the engine sends out: socket events and calls of collaborators. *)
Inductive Effect : Type :=
  | EmitGameOver (winnerId reason : string)
  | EmitGameState (s : GameState)
  | CallOnGameEnd (roomId : string)
  | CallRecordMatch (winnerId : string) (playerIds : list string).

(** The main game engine. One instance per active game. [running] stands for
    [intervalId !== null]. *)
Record GameEngine : Type := mkEngine {
  state : GameState;
  commandQueue : list QueuedCommand;
  running : bool;
  roomId : string
}.

(** Queues a command from a player to be processed next tick. *)
Definition handleCommand (playerId : string) (c : Command) (g : GameEngine)
  : GameEngine :=
  mkEngine (state g) (commandQueue g ++ [mkCommand playerId c]) (running g)
    (roomId g).

(** Stops the game loop and clears the trackers. *)
Definition stop (acc : GameEngine * Process) : GameEngine * Process :=
  let '(g, pr) := acc in
  (mkEngine (state g) (commandQueue g) false (roomId g),
   resetEconomy (resetCombat pr)).

(** The owners of the living home bases. *)
Definition playersWithBase (s : GameState) : gset string :=
  fold_left
    (fun (acc : gset string) e =>
       if bool_decide (e_type e = homeBase) && (0 <? e_hp e)
       then {[ e_ownerId e ]} ∪ acc
       else acc)
    (entities s) ∅.

(** The registered players that own no living home base. *)
Definition eliminated (s : GameState) : list string :=
  List.filter (fun pid => negb (bool_decide (pid ∈ playersWithBase s)))
    (map fst (map_to_list (players s))).

(** Checks if any player has lost their home base: game over. *)
Definition checkGameOver (acc : GameEngine * Process)
  : GameEngine * Process * list Effect :=
  let '(g, pr) := acc in
  let s := state g in
  match eliminated s, elements (playersWithBase s) with
  | _ :: _, [winnerId] =>
      let name :=
        match players s !! winnerId with
        | Some p => p_name p
        | None => "Unknown"
        end in
      (stop (g, pr),
       [ EmitGameOver winnerId (name +:+ " wins! Enemy base destroyed.");
         CallOnGameEnd (roomId g);
         CallRecordMatch winnerId (map fst (map_to_list (players s))) ])
  | _, _ => (g, pr, [])
  end.

(** Single tick of the game loop. [botCommands] are the commands that the
    bot players decide on this tick; they are queued before the queue is
    drained. *)
Definition tickEngine (botCommands : list QueuedCommand)
    (acc : GameEngine * Process) : GameEngine * Process * list Effect :=
  let '(g, pr) := acc in
  let s0 := set_tick (tick (state g) + 1) (state g) in
  let commands := commandQueue g ++ botCommands in
  let '(s1, n1) := processCommands commands (s0, uuidCalls pr) in
  let pr1 := mkProcess (attackCooldowns pr) (gatherTimers pr) n1 in
  let '(s2, pr2) := processEconomy (Some recalculateSupply) (s1, pr1) in
  let s3 := processMovement s2 in
  let '(s4, pr4) := processCombat (s3, pr2) in
  let g4 := mkEngine s4 [] (running g) (roomId g) in
  let '(g5, pr5, effects) := checkGameOver (g4, pr4) in
  (g5, pr5, effects ++ [EmitGameState (state g5)]).

End Engine.

(** ** Concrete library functions for worked examples

    [sqrtQ] is exact on the squares of rationals, which is all the examples
    of the handlers use; [sqrtD] is [Math.sqrt] on doubles; [uuidDemo]
    numbers the ids; [spreadDemo] rounds the unit circle. *)

Definition sqrtQ (q : Q) : Q :=
  let n := (Qnum q * Zpos (Qden q) * 10 ^ 12)%Z in
  Qred (Qmake (Z.sqrt n) (Qden q * 10 ^ 6)%positive).

(** [Math.sqrt] of a double: the double nearest to the root. The root is
    taken to 128 bits and more; when it is not exact, the odd numerator
    stands for a root strictly between two of them. *)
Definition sqrtD (q : Q) : Q :=
  let n := Qnum q in
  let d := Zpos (Qden q) in
  if n <=? 0 then 0%Q
  else
    let k := 128 + Z.log2 d in
    let v := n * 4 ^ k in
    let w := v / d in
    let r := Z.sqrt w in
    if (v mod d =? 0) && (r * r =? w)
    then fl (Qmake r (Z.to_pos (2 ^ k)))
    else fl (Qmake (2 * r + 1) (Z.to_pos (2 ^ (k + 1)))).

Definition uuidDemo (n : nat) : string := "uuid-" +:+ pretty n.

Definition spreadDemo (i unitCount : nat) : Z * Z :=
  let i := Z.of_nat i in
  let n := Z.of_nat unitCount in
  ((if (6 * i <=? n) || (5 * n <=? 6 * i) then 1
    else if (n <? 3 * i) && (3 * i <? 2 * n) then -1 else 0),
   (if (n <=? 12 * i) && (12 * i <=? 5 * n) then 1
    else if (7 * n <? 12 * i) && (12 * i <? 11 * n) then -1 else 0)).

(** ** Worked examples *)

Definition grassMap (w h : nat) : list (list TileType) :=
  replicate h (replicate w grass).

Definition demoPlayer (id : string) (gold supply : Z) : Player :=
  mkPlayer id id "#3498db" gold supply 10 (mkUpgrades 0 0 0).

Definition demoUnit (id : string) (t : EntityType) (owner : string)
    (x y : Q) (hp : Z) (st : EntityState) : Entity :=
  mkEntity id t owner x y hp hp st None None None None None None None None
    None None.

Definition demoBuilding (id : string) (t : EntityType) (owner : string)
    (x y : Q) (hp w h : Z) : Entity :=
  mkEntity id t owner x y hp hp idle None None (Some []) None None None
    (Some w) (Some h) None None.


(** ** Notions used by the statements *)

(** A mutation that leaves the key of the object alone. *)
Definition keepsId (f : Entity -> Entity) : Prop :=
  forall e, e_id (f e) = e_id e.

(** Two infantry next to an enemy worker, and two ballistae instead. *)
Definition duelPlayers : gmap string Player :=
  {[ "p1" := demoPlayer "p1" 300 4; "p2" := demoPlayer "p2" 300 1 ]}.

Definition infantryDuel : GameState :=
  mkState 0 8 8 (grassMap 8 8) duelPlayers
    [ demoUnit "t" worker "p2" 3 3 60 idle;
      set_targetId (Some "t") (demoUnit "a1" infantry "p1" 2 3 120 attacking);
      set_targetId (Some "t") (demoUnit "a2" infantry "p1" 4 3 120 attacking);
      set_targetId (Some "t") (demoUnit "a3" infantry "p1" 3 2 120 attacking) ]
    [].

Definition ballistaDuel : GameState :=
  mkState 0 8 8 (grassMap 8 8) duelPlayers
    [ demoUnit "t" worker "p2" 3 3 60 idle;
      set_targetId (Some "t") (demoUnit "b1" ballista "p1" 2 3 50 attacking);
      set_targetId (Some "t") (demoUnit "b2" ballista "p1" 4 3 50 attacking) ]
    [].

(** Ten archers of [p1] in range of a worker of [p2], all ordered to
    attack it. *)
Definition volleyArchers : list string :=
  ["r0"; "r1"; "r2"; "r3"; "r4"; "r5"; "r6"; "r7"; "r8"; "r9"].

Definition archerVolley : GameState :=
  mkState 0 8 8 (grassMap 8 8) duelPlayers
    (demoUnit "t" worker "p2" 3 3 300 idle ::
     map (fun '(id, (x, y)) =>
            set_targetId (Some "t") (demoUnit id archer "p1" x y 45 attacking))
         (zip volleyArchers
            [(2, 3); (4, 3); (3, 2); (3, 4); (2, 2); (4, 4); (2, 4); (4, 2);
             (1, 3); (5, 3)]%Q))
    [].

(** The three infantry of [infantryDuel] with a tower of their side in
    range of the target. *)
Definition towerSiege : GameState :=
  mkState 0 8 8 (grassMap 8 8) duelPlayers
    [ demoUnit "t" worker "p2" 3 3 100 idle;
      set_targetId (Some "t") (demoUnit "a1" infantry "p1" 2 3 120 attacking);
      set_targetId (Some "t") (demoUnit "a2" infantry "p1" 4 3 120 attacking);
      set_targetId (Some "t") (demoUnit "a3" infantry "p1" 3 2 120 attacking);
      demoBuilding "tw" tower "p1" 5 5 300 2 2 ]
    [].

(** The last nugget: worker [w1] stands on the tile next to its home base
    and finishes mining a mine that holds 5 gold. *)
Definition lastNugget : GameState :=
  mkState 0 12 12 (grassMap 12 12)
    {[ "p1" := demoPlayer "p1" 0 1 ]}
    [ demoBuilding "base1" homeBase "p1" 2 2 2000 3 3;
      set_targetId (Some "m1") (demoUnit "w1" worker "p1" 1 1 60 gathering) ]
    [ mkMine "m1" 8 8 5 1 ["w1"] ].

Definition lastNuggetTimers : gmap string Z := {[ "w1" := 1 ]}.

(** ** Notions of the victory check *)

(** [pid] owns a living home base. *)
Definition ownsLivingBase (s : GameState) (pid : string) : Prop :=
  exists e, In e (entities s) /\ e_type e = homeBase /\ 0 < e_hp e /\
            e_ownerId e = pid.

(** [pid] is a key of [state.players]. *)
Definition isPlayer (s : GameState) (pid : string) : Prop :=
  is_Some (players s !! pid).

(** Home bases are created for the players of the roster only. *)
Definition basesOwnedByPlayers (s : GameState) : Prop :=
  forall pid, ownsLivingBase s pid -> isPlayer s pid.

Definition playerIds (s : GameState) : list string :=
  map fst (map_to_list (players s)).

(** Two players; [p2] has lost its home base. *)
Definition afterTheSiege : GameState :=
  mkState 7 12 12 (grassMap 12 12)
    {[ "p1" := demoPlayer "p1" 100 3; "p2" := demoPlayer "p2" 20 1 ]}
    [ demoBuilding "base1" homeBase "p1" 2 2 1500 3 3;
      demoUnit "i1" infantry "p1" 8 8 120 idle;
      demoUnit "w2" worker "p2" 9 9 60 idle ]
    [].

Definition siegeEngine : GameEngine := mkEngine afterTheSiege [] true "room-1".

Definition idleProcess : Process := mkProcess ∅ ∅ 0.

(** ** Scenarios for the command handlers *)

(** Player [p1] with a finished barracks, a worker and 300 gold. *)
Definition smallBase : GameState :=
  mkState 0 12 12 (grassMap 12 12)
    {[ "p1" := demoPlayer "p1" 300 1 ]}
    [ demoBuilding "base1" homeBase "p1" 1 1 2000 3 3;
      demoBuilding "bar1" barracks "p1" 1 6 600 3 3;
      demoUnit "w1" worker "p1" 5 2 60 idle ]
    [].

Definition runCommands (cs : list Command) (s : GameState) : GameState * nat :=
  processCommands sqrtQ uuidDemo spreadDemo (map (mkCommand "p1") cs) (s, O).

(** The worker of [smallBase] has a build order and stands, nearly dead, in
    the range of an enemy tower. *)
Definition doomedBuilder : GameState :=
  let '(s, _) := runCommands [BuildStructure "w1" BHouse 9 9] smallBase in
  set_players (<["p2" := demoPlayer "p2" 0 0]> (players s))
    (set_entities
       (map (fun e => if bool_decide (e_id e = "w1") then set_hp 10 e else e)
            (entities s) ++
        [demoBuilding "tower2" tower "p2" 6 4 500 2 2]) s).

Definition goldOf (pid : string) (s : GameState) : option Z :=
  p_gold <$> players s !! pid.

Definition supplyOf (pid : string) (s : GameState) : option Z :=
  p_supply <$> players s !! pid.

Definition pendingBuilds (s : GameState) : list PendingBuild :=
  omap e_pendingBuild (entities s).

Definition buildings (s : GameState) : list Entity :=
  List.filter (fun e => bool_decide (is_Some (e_buildProgress e))) (entities s).

(** Match A is [smallBase]; the process also runs a match B whose infantry
    ["b-inf"] is on cooldown and whose worker ["b-wrk"] is mining. *)
Definition sharedProcess : Process :=
  mkProcess {[ "b-inf" := 9 ]} {[ "b-wrk" := 17 ]} 0.

Definition engineA : GameEngine := mkEngine smallBase [] true "room-A".

(** ** Notions of the path search *)

Module PathSpec.

Import Pathfinding.

(** The value of a cost. *)
Definition costR (c : Cost) : R :=
  (IZR (units c) + IZR (diags c) * sqrt 2)%R.

(** A move to one of the eight neighbours, onto a walkable tile of the grid;
    a diagonal move needs both flanking orthogonal tiles walkable (no
    corner-cutting). *)
Definition legalMove (walkable : Grid) (u v : Point) : Prop :=
  let dx := px v - px u in
  let dy := py v - py u in
  (dx <> 0 \/ dy <> 0) /\ -1 <= dx <= 1 /\ -1 <= dy <= 1 /\
  in_bounds walkable (px v) (py v) = true /\
  cell walkable (px v) (py v) = true /\
  (dx <> 0 -> dy <> 0 ->
   cell walkable (px u) (py v) = true /\ cell walkable (px v) (py u) = true).

(** Cardinal cost 1, diagonal cost [sqrt 2]. *)
Definition moveCost (u v : Point) : Cost :=
  if (px v =? px u) || (py v =? py u) then cost_one else SQRT2.

(** [route walkable u r]: the tiles [r] can be walked in order from [u]. *)
Inductive route (walkable : Grid) : Point -> list Point -> Prop :=
  | route_nil u : route walkable u []
  | route_cons u v rest :
      legalMove walkable u v -> route walkable v rest ->
      route walkable u (v :: rest).

(** The total edge cost of a route from [u]. *)
Fixpoint routeCost (u : Point) (r : list Point) : Cost :=
  match r with
  | [] => cost_zero
  | v :: rest => cost_add (moveCost u v) (routeCost v rest)
  end.

(** [r] leads from [start] to [endp]; [r] leaves out [start] and ends with
    [endp]. *)
Definition reaches (walkable : Grid) (start endp : Point) (r : list Point)
  : Prop :=
  route walkable start r /\ last r = Some endp.

(** Nodes that the search can build: the start node, and a node one legal
    move away from its parent, with the costs of the source. *)
Inductive validNode (walkable : Grid) (start endp : Point)
  : AStarNode -> Prop :=
  | valid_start : validNode walkable start endp (startNode start endp)
  | valid_step p x y :
      validNode walkable start endp p ->
      legalMove walkable (node_pos p) (mkPoint x y) ->
      validNode walkable start endp
        (Node x y
           (cost_add (node_g p) (moveCost (node_pos p) (mkPoint x y)))
           (cost_add
              (cost_add (node_g p) (moveCost (node_pos p) (mkPoint x y)))
              (heuristic x y (px endp) (py endp)))
           (Some p)).

(** The tests that a direction passes before its neighbour is looked at. *)
Definition relaxGuard (walkable : Grid) (x y dx dy : Z) : bool :=
  in_bounds walkable (x + dx) (y + dy) && cell walkable (x + dx) (y + dy) &&
  negb (negb (dx =? 0) && negb (dy =? 0) &&
        (negb (cell walkable x (y + dy)) || negb (cell walkable (x + dx) y))).

(** The node pushed for direction [(dx, dy, cost)] from [current]. *)
Definition pushed (endp : Point) (current : AStarNode) (dx dy : Z)
    (cost : Cost) : AStarNode :=
  Node (node_x current + dx) (node_y current + dy)
    (cost_add (node_g current) cost)
    (cost_add (cost_add (node_g current) cost)
       (heuristic (node_x current + dx) (node_y current + dy)
          (px endp) (py endp)))
    (Some current).

Definition nodeKey (walkable : Grid) (n : AStarNode) : Z :=
  key (grid_width walkable) (node_x n) (node_y n).

Definition pointKey (walkable : Grid) (p : Point) : Z :=
  key (grid_width walkable) (px p) (py p).

(** The part of the invariant that the expansion of a node maintains
    direction by direction. *)
Record OpenInv (walkable : Grid) (start endp : Point)
    (open : list AStarNode) (closed : gset Z) (gScores : gmap Z Cost)
  : Prop := mkOpenInv {
  oi_valid :
    forall n, In n open -> validNode walkable start endp n;
  oi_open_score :
    forall n, In n open ->
      exists g, gScores !! nodeKey walkable n = Some g /\
                (costR g <= costR (node_g n))%R;
  oi_score_open :
    forall k g, gScores !! k = Some g ->
      k ∈ closed \/
      exists n, In n open /\ nodeKey walkable n = k /\ node_g n = g;
  oi_score_real :
    forall k g, gScores !! k = Some g ->
      exists n, validNode walkable start endp n /\
                nodeKey walkable n = k /\ node_g n = g
}.

(** Scores only go down, and not at all on closed tiles. *)
Definition scoresLe (closed : gset Z) (gs gs' : gmap Z Cost) : Prop :=
  (forall k, k ∈ closed -> gs' !! k = gs !! k) /\
  (forall k g, gs !! k = Some g ->
     exists g', gs' !! k = Some g' /\ (costR g' <= costR g)%R).

(** The edge from [current] to [v] is relaxed. *)
Definition relaxed (walkable : Grid) (current : AStarNode) (closed : gset Z)
    (gs : gmap Z Cost) (v : Point) : Prop :=
  pointKey walkable v ∈ closed \/
  exists gv, gs !! pointKey walkable v = Some gv /\
             (costR gv <=
              costR (node_g current) + costR (moveCost (node_pos current) v))%R.

(** The invariant of the search loop. *)
Record SearchInv (walkable : Grid) (start endp : Point)
    (open : list AStarNode) (closed : gset Z) (gScores : gmap Z Cost)
  : Prop := mkSearchInv {
  inv_valid :
    forall n, In n open -> validNode walkable start endp n;
  inv_open_score :
    forall n, In n open ->
      exists g, gScores !! nodeKey walkable n = Some g /\
                (costR g <= costR (node_g n))%R;
  inv_score_open :
    forall k g, gScores !! k = Some g ->
      k ∈ closed \/
      exists n, In n open /\ nodeKey walkable n = k /\ node_g n = g;
  inv_score_real :
    forall k g, gScores !! k = Some g ->
      exists n, validNode walkable start endp n /\
                nodeKey walkable n = k /\ node_g n = g;
  inv_closed_best :
    forall k, k ∈ closed ->
      exists g, gScores !! k = Some g /\
        forall r, validNode walkable start endp r ->
                  nodeKey walkable r = k ->
                  (costR g <= costR (node_g r))%R;
  inv_closed_edges :
    forall u v, validNode walkable start endp u ->
      nodeKey walkable u ∈ closed ->
      legalMove walkable (node_pos u) v ->
      exists gu gv,
        gScores !! nodeKey walkable u = Some gu /\
        gScores !! pointKey walkable v = Some gv /\
        (costR gv <= costR gu + costR (moveCost (node_pos u) v))%R;
  inv_start :
    exists g, gScores !! pointKey walkable start = Some g /\
              (costR g <= 0)%R;
  inv_end_open : pointKey walkable endp ∉ closed;
  inv_closed_range :
    forall k, k ∈ closed ->
      0 <= k < grid_width walkable * grid_height walkable
}.

(** What the loop may return: nothing when the destination cannot be
    reached, else a cheapest route. *)
Definition searchPost (walkable : Grid) (start endp : Point)
    (p : list Point) : Prop :=
  (p = [] /\ forall r, ~ reaches walkable start endp r) \/
  (reaches walkable start endp p /\ ~ In start p /\
   forall r, reaches walkable start endp r ->
             (costR (routeCost start p) <= costR (routeCost start r))%R).

End PathSpec.

(** A three by three grid whose centre tile is blocked, and a route round
    the block from the corner [(0, 0)] to the opposite corner. *)
Definition ringGrid : Pathfinding.Grid :=
  [[true; true; true]; [true; false; true]; [true; true; true]].

Definition ringRoute : list Point :=
  [mkPoint 1 0; mkPoint 2 0; mkPoint 2 1; mkPoint 2 2].


(** ** What a tick may change

    The handlers and systems change the state through a few primitives: a
    mutation of one entity, of all entities, of one player, of the mines or
    of the clock, and the insertion of a new entity under a fresh [uuid()].
    [step] lists them; [keeps] says what a mutation of an entity leaves
    alone, [newcomer] what a new entity looks like. *)

(** Every order of the training queue is for a unit. *)
Definition unitOrders (e : Entity) : Prop :=
  forall o, In o (default [] (e_trainingQueue e)) ->
            isUnitType (unitType o) = true.

(** The entity keeps its identity, type, owner, build progress and training
    orders; [R] relates its hit points before and after. *)
Record keeps (R : Z -> Z -> Prop) (e e' : Entity) : Prop := mkKeeps {
  keeps_id : e_id e' = e_id e;
  keeps_type : e_type e' = e_type e;
  keeps_owner : e_ownerId e' = e_ownerId e;
  keeps_progress : e_buildProgress e' = e_buildProgress e;
  keeps_hp : R (e_hp e) (e_hp e');
  keeps_orders : unitOrders e -> unitOrders e'
}.

(** A new entity is a unit, or a building other than a home base whose
    construction starts. *)
Definition newcomer (e : Entity) : Prop :=
  unitOrders e /\
  (isUnitType (e_type e) = true \/
   (e_type e <> homeBase /\ e_buildProgress e = Some 0%Q)).

Section Steps.

Variable uuid : nat -> string.
Variable R : Z -> Z -> Prop.

(** The state comes with the number of [uuid()] calls made so far. *)
Inductive step : GameState * nat -> GameState * nat -> Prop :=
  | step_refl a : step a a
  | step_trans a b c : step a b -> step b c -> step a c
  | step_entity s n id f :
      (forall e, getEntity id (entities s) = Some e -> keeps R e (f e)) ->
      step (s, n) (updE id f s, n)
  | step_all s n f :
      (forall e, In e (entities s) -> keeps R e (f e)) ->
      step (s, n) (set_entities (map f (entities s)) s, n)
  | step_player s n pid f :
      (forall p, p_maxSupply (f p) = p_maxSupply p) ->
      step (s, n) (updP pid f s, n)
  | step_mines s n m : step (s, n) (set_goldMines m s, n)
  | step_clock s n t : step (s, n) (set_tick t s, n)
  | step_spawn s n e :
      e_id e = uuid n -> newcomer e ->
      step (s, n) (set_entities (putEntity e (entities s)) s, S n).

(** No entity has an id that [uuid()] is still to return. *)
Definition Fresh (n : nat) (s : GameState) : Prop :=
  forall m, (n <= m)%nat -> getEntity (uuid m) (entities s) = None.

End Steps.

(** ** Supply accounting *)

Definition alive (e : Entity) : bool := 0 <? e_hp e.

Definition completed (e : Entity) : bool := negb (underConstruction e).

(** The supply that a building type grants. *)
Definition supplyOfType (t : EntityType) : Z :=
  match t with
  | homeBase => HOME_BASE_SUPPLY
  | house => HOUSE_SUPPLY
  | _ => 0
  end.

(** The supply granted by an entity: that of its type when it is alive and
    fully completed. *)
Definition granted (e : Entity) : Z :=
  if alive e && completed e then supplyOfType (e_type e) else 0.

(** The sum of the supply granted by the entities of [pid]. *)
Definition supplyOwned (pid : string) (l : list Entity) : Z :=
  foldr (fun e acc =>
           (if bool_decide (e_ownerId e = pid) then granted e else 0) + acc)
        0 l.

Definition supplyGranted (s : GameState) (pid : string) : Z :=
  supplyOwned pid (entities s).

(** The maxSupply of every player is the supply granted to it. *)
Definition SupplyInv (s : GameState) : Prop :=
  forall pid p, players s !! pid = Some p ->
                p_maxSupply p = supplyGranted s pid.

(** Home bases are never under construction. *)
Definition BasesBuilt (s : GameState) : Prop :=
  forall e, In e (entities s) -> e_type e = homeBase ->
            underConstruction e = false.

Definition QueuesOk (s : GameState) : Prop :=
  forall e, In e (entities s) -> unitOrders e.

(** What holds of the state and the number of [uuid()] calls at every tick
    boundary. *)
Record TickInv (uuid : nat -> string) (a : GameState * nat) : Prop :=
  mkTickInv {
  ti_supply : SupplyInv (fst a);
  ti_bases : BasesBuilt (fst a);
  ti_queues : QueuesOk (fst a);
  ti_fresh : Fresh uuid (snd a) (fst a)
}.

(** The maxSupply of [pid], 0 when there is no such player. *)
Definition maxSupplyOf (s : GameState) (pid : string) : Z :=
  match players s !! pid with
  | Some p => p_maxSupply p
  | None => 0
  end.


(** [evolves K N a b]: the entities of [a] are still there in [b], in place
    and each related to what it was by [K]; the entities after them are new,
    satisfy [N] and carry the ids that [uuid()] returned in between. *)
Definition evolves (uuid : nat -> string) (K : Entity -> Entity -> Prop)
    (N : Entity -> Prop) (a b : GameState * nat) : Prop :=
  (snd a <= snd b)%nat /\
  exists kept news,
    entities (fst b) = kept ++ news /\
    Forall2 K (entities (fst a)) kept /\
    Forall N news /\
    map e_id news = map uuid (seq (snd a) (snd b - snd a)).

(** The maxSupply of every player is the same in both states. *)
Definition sameMaxSupply (s s' : GameState) : Prop :=
  forall pid, p_maxSupply <$> players s !! pid
              = p_maxSupply <$> players s' !! pid.


(** ** The tick loop *)

(** What arrives before a tick: the commands received from the players since
    the last tick, and the commands that the bots decide on in the tick. *)
Record TickInput : Type := mkInput {
  received : list QueuedCommand;
  botCommands : list QueuedCommand
}.

(** The interval timer fires [tick()] for as long as it is not cleared. *)
Fixpoint runTicks (Math_sqrt : Q -> Q) (uuid : nat -> string)
    (spreadOffset : nat -> nat -> Z * Z) (inputs : list TickInput)
    (acc : GameEngine * Process) : GameEngine * Process * list Effect :=
  match inputs with
  | [] => (acc, [])
  | i :: rest =>
      let g :=
        fold_left (fun g c => handleCommand (c_playerId c) (c_command c) g)
          (received i) (fst acc) in
      if running g then
        let '(acc1, eff1) :=
          tickEngine Math_sqrt uuid spreadOffset (botCommands i)
            (g, snd acc) in
        let '(acc2, eff2) :=
          runTicks Math_sqrt uuid spreadOffset rest acc1 in
        (acc2, eff1 ++ eff2)
      else runTicks Math_sqrt uuid spreadOffset rest (g, snd acc)
  end.

(** Zero players own a living home base. *)
Definition noLivingBase (s : GameState) : Prop :=
  forall pid, ~ ownsLivingBase s pid.


(** Both home bases are down to their last hit points, and each has an enemy
    infantry at its wall, attacking it: the two bases fall in the same
    tick. *)
Definition mutualSiege : GameState :=
  mkState 0 12 12 (grassMap 12 12)
    {[ "p1" := demoPlayer "p1" 100 2; "p2" := demoPlayer "p2" 100 2 ]}
    [ demoBuilding "base1" homeBase "p1" 1 1 10 3 3;
      demoBuilding "base2" homeBase "p2" 8 8 10 3 3;
      set_targetId (Some "base2")
        (demoUnit "i1" infantry "p1" 7 8 120 attacking);
      set_targetId (Some "base1")
        (demoUnit "i2" infantry "p2" 4 2 120 attacking) ]
    [].

Definition mutualSiegeEngine : GameEngine :=
  mkEngine mutualSiege [] true "room-2".

(** What arrives before the two ticks after the bases fell. *)
Definition afterTheFall : list TickInput :=
  [ mkInput [mkCommand "p1" (MoveUnits ["i1"] 5 5)] [];
    mkInput [] [mkCommand "p2" (AttackTarget ["i2"] "i1")] ].


(** ** What a tick does to the buildings that grant supply *)

(** Over a tick an entity keeps its identity, type and owner, loses hit
    points at most, and stays completed once it is. *)
Record ages (e e' : Entity) : Prop := mkAges {
  ages_id : e_id e' = e_id e;
  ages_type : e_type e' = e_type e;
  ages_owner : e_ownerId e' = e_ownerId e;
  ages_hp : e_hp e' <= e_hp e;
  ages_built : underConstruction e' = true -> underConstruction e = true
}.

(** An entity that grants no supply whatever its hit points: a unit, or a
    building other than a home base that is under construction. *)
Definition asleep (e : Entity) : Prop :=
  isUnitType (e_type e) = true \/
  (e_type e <> homeBase /\ underConstruction e = true).

(** The construction pass, then mutations that keep the entity. *)
Definition builds (e e' : Entity) : Prop :=
  keeps eq (fst (constructionStep e)) e'.

(** The building [e] granted supply and no entity of [s'] has its id. *)
Definition destroyedIn (s' : GameState) (e : Entity) : Prop :=
  granted e <> 0 /\ forall e', In e' (entities s') -> e_id e' <> e_id e.

(** The house [e] was alive and under construction and is alive and
    completed in [s']. *)
Definition completedIn (s' : GameState) (e : Entity) : Prop :=
  e_type e = house /\ alive e = true /\ completed e = false /\
  exists e', In e' (entities s') /\ e_id e' = e_id e /\
             e_type e' = house /\ e_ownerId e' = e_ownerId e /\
             alive e' = true /\ completed e' = true.


(** ** The constructor of the engine (GameEngine.ts)

    [generateMap] draws the map from a seeded generator; the map data are an
    input here. *)

Record RoomPlayer : Type := mkRoomPlayer {
  rp_id : string;
  rp_name : string;
  rp_color : string
}.

Record MapData : Type := mkMapData {
  md_tiles : list (list TileType);
  md_goldMines : list GoldMine;
  md_spawnPoints : list (Q * Q)
}.

Definition MAP_WIDTH_BASE : Z := 60.
Definition MAP_SIZE_PER_PLAYER : Z := 20.

(** Calculates map dimensions based on player count. *)
Definition getMapSize (playerCount : Z) : Z * Z :=
  let extraPlayers := Z.max 0 (playerCount - 2) in
  let size := MAP_WIDTH_BASE + extraPlayers * MAP_SIZE_PER_PLAYER in
  (size, size).

(** Initialize players. *)
Definition roster (roomPlayers : list RoomPlayer) : gmap string Player :=
  fold_left
    (fun ps rp =>
       <[rp_id rp :=
           mkPlayer (rp_id rp) (rp_name rp) (rp_color rp) STARTING_GOLD 0
             HOME_BASE_SUPPLY (mkUpgrades 0 0 0)]> ps)
    roomPlayers ∅.

(** [Object.keys(players)]: the ids in the order of their first insertion
    (player ids are socket ids, not array indices). *)
Definition rosterKeys (roomPlayers : list RoomPlayer) : list string :=
  fold_left
    (fun keys rp =>
       if includes (rp_id rp) keys then keys else keys ++ [rp_id rp])
    roomPlayers [].

(** Place the home base and the starting worker of the [i]-th player; a
    missing spawn point is a [TypeError]. *)
Definition placeStart (uuid : nat -> string) (spawnPoints : list (Q * Q))
    (acc : option (GameState * nat)) (ip : nat * string)
  : option (GameState * nat) :=
  match acc with
  | None => None
  | Some (s, n) =>
      let '(i, pid) := ip in
      match spawnPoints !! i with
      | None => None
      | Some (x, y) =>
          let base :=
            mkEntity (uuid n) homeBase pid x y HOME_BASE_HP HOME_BASE_HP idle
              None None (Some []) None None None
              (Some HOME_BASE_TILE_WIDTH) (Some HOME_BASE_TILE_HEIGHT)
              None None in
          let w :=
            mkEntity (uuid (S n)) worker pid
              (x + ZtoQ HOME_BASE_TILE_WIDTH + 1)%Q (y + 1)%Q
              WORKER_HP WORKER_HP idle
              None None None None None None None None None None in
          Some (set_entities (putEntity w (putEntity base (entities s))) s,
                S (S n))
      end
  end.

(** [new GameEngine(room, io)], after [n0] calls of [uuid()]; the loop is
    not started yet. *)
Definition newEngine (uuid : nat -> string) (n0 : nat) (room : string)
    (roomPlayers : list RoomPlayer) (mapData : MapData)
  : option (GameEngine * nat) :=
  let '(w, h) := getMapSize (Z.of_nat (length roomPlayers)) in
  let s0 :=
    mkState 0 w h (md_tiles mapData) (roster roomPlayers) []
      (md_goldMines mapData) in
  match fold_left (placeStart uuid (md_spawnPoints mapData))
          (indexed (rosterKeys roomPlayers)) (Some (s0, n0)) with
  | Some (s, n) => Some (mkEngine (recalculateSupply s) [] false room, n)
  | None => None
  end.

(** A house of [p1] one tick short of completion, next to the home base. *)
Definition lastBrick : GameState :=
  mkState 0 12 12 (grassMap 12 12)
    {[ "p1" := demoPlayer "p1" 100 1 ]}
    [ demoBuilding "base1" homeBase "p1" 1 1 2000 3 3;
      set_buildProgress (Some (59 # 60))
        (demoBuilding "h1" house "p1" 6 6 400 2 2);
      demoUnit "w1" worker "p1" 5 2 60 idle ]
    [].

Definition lastBrickEngine : GameEngine := mkEngine lastBrick [] true "room-3".

Definition twoPlayerRoom : list RoomPlayer :=
  [ mkRoomPlayer "p1" "Ann" "#3498db"; mkRoomPlayer "p2" "Bob" "#e74c3c" ].

Definition smallMap : MapData :=
  mkMapData (grassMap 60 60) [] [((15 # 2), (15 # 2)); ((99 # 2), (99 # 2))].


(** Every entity satisfies [P] and holds orders for units only. *)
Definition allOf (P : Entity -> Prop) (s : GameState) : Prop :=
  forall e, In e (entities s) -> P e /\ unitOrders e.

(** ** Notions for the walkability grid *)

(** The footprint of [w] by [h] tiles at the rounded position [(x, y)]
    covers the tile [(tx, ty)]. *)
Definition footprintCovers (x y : Q) (w h tx ty : Z) : Prop :=
  Math_round x <= tx < Math_round x + w /\
  Math_round y <= ty < Math_round y + h.

(** A building or a gold mine stands on the tile. *)
Definition occupiedTile (s : GameState) (tx ty : Z) : Prop :=
  (exists e, In e (entities s) /\
             truthy (e_tileWidth e) = true /\ truthy (e_tileHeight e) = true /\
             footprintCovers (e_x e) (e_y e) (default 0 (e_tileWidth e))
               (default 0 (e_tileHeight e)) tx ty) \/
  (exists m, In m (goldMines s) /\
             footprintCovers (m_x m) (m_y m) GOLD_MINE_TILE_WIDTH
               GOLD_MINE_TILE_HEIGHT tx ty).

(** A grid of [h] rows of [w] cells. *)
Definition gridShape (g : Pathfinding.Grid) (w h : nat) : Prop :=
  length g = h /\ forall row, In row g -> length row = w.


(** The tile [p] lies on the ring of tiles around the footprint. *)
Definition onPerimeter (x y : Q) (w h : Z) (p : Point) : Prop :=
  Math_round x - 1 <= px p <= Math_round x + w /\
  Math_round y - 1 <= py p <= Math_round y + h /\
  ~ footprintCovers x y w h (px p) (py p).

(** The state holds a row of tiles for every [y] below [mapHeight]
    (reading a tile of a missing row is a [TypeError]). *)
Definition rowsCover (s : GameState) : Prop :=
  (Z.to_nat (mapHeight s) <= length (tiles s))%nat.


(** ** What the engine never changes

    A second reading of the primitives, for the parts of the state that no
    handler and no system touches, or changes one way only. *)

(** Build progress, where there is any, does not go down from a value that
    is not negative, and does not go beyond 1 when it changes. *)
Definition progressed (a b : option Q) : Prop :=
  match a, b with
  | None, None => True
  | Some x, Some y => ((0 <= x)%Q -> (x <= y)%Q) /\ ((y <= 1)%Q \/ y = x)
  | _, _ => False
  end.

(** The entity keeps its id, type, owner, maximal hit points and footprint,
    it gains no hit points, it stays where it is unless it is a unit, and
    its construction does not go back. *)
Record persists (e e' : Entity) : Prop := mkPersists {
  ps_id : e_id e' = e_id e;
  ps_type : e_type e' = e_type e;
  ps_owner : e_ownerId e' = e_ownerId e;
  ps_maxHp : e_maxHp e' = e_maxHp e;
  ps_width : e_tileWidth e' = e_tileWidth e;
  ps_height : e_tileHeight e' = e_tileHeight e;
  ps_hp : e_hp e' <= e_hp e;
  ps_pos : isUnitType (e_type e) = false ->
           e_x e' = e_x e /\ e_y e' = e_y e;
  ps_progress : progressed (e_buildProgress e) (e_buildProgress e')
}.

(** Units have no footprint. *)
Definition footless (e : Entity) : Prop :=
  isUnitType (e_type e) = true -> isBuilding e = false.

(** A new entity has all its hit points, and no footprint when it is a
    unit. *)
Definition recruit (e : Entity) : Prop :=
  e_hp e = e_maxHp e /\ footless e.

(** No tile is under the footprints of both [a] and [b]. *)
Definition apart (a b : Entity) : Prop :=
  forall tx ty, occupies a tx ty = true -> occupies b tx ty = false.

(** The footprint of [e] is clear of the footprints of [l]. *)
Definition clearOf (l : list Entity) (e : Entity) : Prop :=
  Forall (apart e) l.

(** Units have no footprint and no two footprints overlap. *)
Definition Tidy (l : list Entity) : Prop :=
  Forall footless l /\ ForallOrdPairs apart l.

(** The player keeps its identity, its gold does not go below zero, and no
    upgrade level goes down. *)
Record thrifty (p p' : Player) : Prop := mkThrifty {
  th_id : p_id p' = p_id p;
  th_name : p_name p' = p_name p;
  th_color : p_color p' = p_color p;
  th_gold : 0 <= p_gold p -> 0 <= p_gold p';
  th_infantry : up_infantry (p_upgrades p) <= up_infantry (p_upgrades p');
  th_archer : up_archer (p_upgrades p) <= up_archer (p_upgrades p');
  th_cavalry : up_cavalry (p_upgrades p) <= up_cavalry (p_upgrades p')
}.

(** The mine stays where it is, is only ever emptied, never below zero, and
    takes no more workers than it admits. *)
Record mined (m m' : GoldMine) : Prop := mkMined {
  mn_id : m_id m' = m_id m;
  mn_x : m_x m' = m_x m;
  mn_y : m_y m' = m_y m;
  mn_maxWorkers : m_maxWorkers m' = m_maxWorkers m;
  mn_gold : 0 <= m_goldRemaining m ->
            0 <= m_goldRemaining m' <= m_goldRemaining m;
  mn_workers : Z.of_nat (length (m_workerIds m)) <= m_maxWorkers m ->
               Z.of_nat (length (m_workerIds m')) <= m_maxWorkers m'
}.

(** The ids that a new entity may get. *)
Class Ids : Type := novel : string -> Prop.

(** Any id. *)
#[export] Instance anyId : Ids := fun _ => True.

(** The ids that [uuid()] returns from its [n]-th call on. *)
Definition since (uuid : nat -> string) (n : nat) : Ids :=
  fun id => exists k, (n <= k)%nat /\ id = uuid k.

(** The mutations that the handlers and the systems make after the clock
    has advanced. *)
Inductive act {nu : Ids} : GameState -> GameState -> Prop :=
  | act_refl s : act s s
  | act_trans a b c : act a b -> act b c -> act a c
  | act_entity s id f :
      (forall e, getEntity id (entities s) = Some e -> persists e (f e)) ->
      act s (updE id f s)
  | act_all s f :
      (forall e, In e (entities s) -> persists e (f e)) ->
      act s (set_entities (map f (entities s)) s)
  | act_player s pid f :
      (forall p, players s !! pid = Some p -> thrifty p (f p)) ->
      act s (updP pid f s)
  | act_mine s pred f :
      (forall m, findMine pred s = Some m -> mined m (f m)) ->
      act s (set_goldMines (updateFirstMine pred f (goldMines s)) s)
  | act_spawn s e :
      novel (e_id e) -> recruit e -> clearOf (entities s) e ->
      act s (set_entities (putEntity e (entities s)) s)
  | act_prune s keep :
      act s (set_entities (List.filter keep (entities s)) s)
  | act_recalc s : act s (recalculateSupply s).



(** The same players, each of them [thrifty]. *)
Definition sameHands (ps ps' : gmap string Player) : Prop :=
  forall pid, option_Forall2 thrifty (ps !! pid) (ps' !! pid).

(** An entity descends from one of [before] or from a recruit. *)
Definition descends (before : list Entity) (e' : Entity) : Prop :=
  exists e, persists e e' /\ (In e before \/ recruit e).

(** An entity comes from one of [before], or its id is new. *)
Definition comesFrom {nu : Ids} (before : list Entity) (e' : Entity) : Prop :=
  (exists e, In e before /\ persists e e') \/ novel (e_id e').

(** ** Notions for the supply count *)

(** The supply that an entity uses: the supply cost of its type in the
    training table, zero for buildings. *)
Definition supplyCostOf (e : Entity) : Z :=
  ts_supplyCost (getUnitTrainStats (e_type e)).

(** The supply that an entity grants as [recalculateSupply] reads it: a
    living home base, or a living and completed house. *)
Definition grantedNow (e : Entity) : Z :=
  match e_type e with
  | homeBase => if alive e then HOME_BASE_SUPPLY else 0
  | house => if alive e && completed e then HOUSE_SUPPLY else 0
  | _ => 0
  end.

(** The sum of [f] over the entities of [pid]. *)
Definition sumOwned (f : Entity -> Z) (pid : string) (l : list Entity) : Z :=
  foldr (fun e acc => (if bool_decide (e_ownerId e = pid) then f e else 0) + acc)
        0 l.

(** ** Notions for the constructor *)

(** The home base that the constructor places for [pid] at its spawn
    point. *)
Definition startingBase (id pid : string) (x y : Q) : Entity :=
  mkEntity id homeBase pid x y HOME_BASE_HP HOME_BASE_HP idle
    None None (Some []) None None None
    (Some HOME_BASE_TILE_WIDTH) (Some HOME_BASE_TILE_HEIGHT) None None.

(** The worker that the constructor places beside the home base. *)
Definition startingWorker (id pid : string) (x y : Q) : Entity :=
  mkEntity id worker pid (x + ZtoQ HOME_BASE_TILE_WIDTH + 1)%Q (y + 1)%Q
    WORKER_HP WORKER_HP idle
    None None None None None None None None None None.

(** The base and the worker of the [k]-th player, with the ids that
    [uuid()] returns from its [n0]-th call on. *)
Definition startingPair (uuid : nat -> string) (n0 : nat)
    (spawnPoints : list (Q * Q)) (kp : nat * string) : list Entity :=
  let '(k, pid) := kp in
  match spawnPoints !! k with
  | Some (x, y) =>
      [ startingBase (uuid (n0 + 2 * k)%nat) pid x y;
        startingWorker (uuid (n0 + 2 * k + 1)%nat) pid x y ]
  | None => []
  end.

(** A completed armory of [p1], who holds 250 gold and has bought one
    infantry upgrade already. *)
Definition armoryYard : GameState :=
  mkState 0 12 12 (grassMap 12 12)
    {[ "p1" := mkPlayer "p1" "Ann" "#3498db" 250 0 10 (mkUpgrades 1 0 0) ]}
    [ demoBuilding "a1" armory "p1" 4 4 600 3 3 ]
    [].

(** ** server/src/game/mapGenerator.ts *)

Definition GOLD_MINE_COUNT : Z := 8.
Definition GOLD_MINE_STARTING_GOLD : Z := 2000.
Definition GOLD_MINE_MAX_WORKERS : Z := 1.

(** The 32-bit integers of JavaScript: [x >>> 0], [x | 0], [Math.imul],
    [a >>> n], [a ^ b] and [a | b]. *)
Definition toUint32 (z : Z) : Z := z mod 2 ^ 32.

Definition toInt32 (z : Z) : Z :=
  let u := toUint32 z in
  if u <? 2 ^ 31 then u else u - 2 ^ 32.

Definition imul (a b : Z) : Z := toInt32 (a * b).

Definition ushr (a n : Z) : Z := Z.shiftr (toUint32 a) n.

Definition xor32 (a b : Z) : Z := toInt32 (Z.lxor a b).

Definition or32 (a b : Z) : Z := toInt32 (Z.lor a b).

(** One call of the generator that [createRng] returns (mulberry32): the
    seed it leaves behind and the number it returns, a multiple of 2^-32. *)
Definition rngNext (seed : Z) : Z * Q :=
  let seed0 := toInt32 seed in
  let seed1 := toInt32 (seed0 + 1831565813) in
  let t := imul (xor32 seed1 (ushr seed1 15)) (or32 1 seed1) in
  let t' := xor32 (t + imul (xor32 t (ushr t 7)) (or32 61 t)) t in
  (seed1, Qmake (toUint32 (xor32 t' (ushr t' 14))) 4294967296).

(** The terrain of the tile [(x, y)] for the number [r] drawn for it. The
    thresholds are compared exactly: no multiple of 2^-32 lies between the
    decimal 0.03, 0.08 or 0.15 and the double that stands for it. *)
Definition terrainOf (w h x y : Z) (r : Q) : TileType :=
  let edgeDist := Z.min (Z.min x y) (Z.min (w - 1 - x) (h - 1 - y)) in
  if edgeDist <? 2 then rock
  else if Qlt_bool r (3 # 100) then water
  else if Qlt_bool r (8 # 100) then rock
  else if Qlt_bool r (15 # 100) then trees
  else grass.

Definition genRow (w h y : Z) (seed : Z) : list TileType * Z :=
  fold_left
    (fun (acc : list TileType * Z) x =>
       let '(row, sd) := acc in
       let '(sd', r) := rngNext sd in
       (row ++ [terrainOf w h x y r], sd'))
    (seqZ 0 w) ([], seed).

(** Generate base terrain. *)
Definition genTerrain (w h : Z) (seed : Z) : list (list TileType) * Z :=
  fold_left
    (fun (acc : list (list TileType) * Z) y =>
       let '(rows, sd) := acc in
       let '(row, sd') := genRow w h y sd in
       (rows ++ [row], sd'))
    (seqZ 0 h) ([], seed).

(** [tiles[ty][tx] = 'grass'] behind its bounds check. *)
Definition setGrass (w h : Z) (tiles : list (list TileType)) (tx ty : Z)
  : list (list TileType) :=
  if (0 <=? tx) && (tx <? w) && (0 <=? ty) && (ty <? h)
  then alter (fun row => <[Z.to_nat tx := grass]> row) (Z.to_nat ty) tiles
  else tiles.

(** Clear area around a spawn (ensure walkable). *)
Definition clearSpawn (w h : Z) (tiles : list (list TileType)) (sp : Q * Q)
  : list (list TileType) :=
  fold_left
    (fun t dy =>
       fold_left
         (fun t dx =>
            setGrass w h t (Qfloor (fst sp + ZtoQ dx))
              (Qfloor (snd sp + ZtoQ dy)))
         (seqZ (-4) 11) t)
    (seqZ (-4) 11) tiles.

(** Clears tiles to grass in a rectangular area. *)
Definition clearArea (tiles : list (list TileType)) (x y w h : Z)
    (mapWidth mapHeight : Z) : list (list TileType) :=
  fold_left
    (fun t dy =>
       fold_left
         (fun t dx => setGrass mapWidth mapHeight t (x + dx) (y + dy))
         (seqZ (-1) (w + 2)) t)
    (seqZ (-1) (h + 2)) tiles.

(** Creates a GoldMine object at the given tile position. *)
Definition createGoldMine (id : string) (x y : Z) : GoldMine :=
  mkMine id (ZtoQ x) (ZtoQ y) GOLD_MINE_STARTING_GOLD GOLD_MINE_MAX_WORKERS [].

(** The tiles, the mines, the seed and the number of [uuid()] calls. *)
Definition MapDraft : Type := list (list TileType) * list GoldMine * Z * nat.

(** Place one mine near a spawn point. *)
Definition spawnMine (uuid : nat -> string) (w h : Z) (acc : MapDraft)
    (sp : Q * Q) : MapDraft :=
  let '(tiles, mines, sd, n) := acc in
  let '(sd1, r1) := rngNext sd in
  let offsetX := 6 + Qfloor (r1 * 4) in
  let '(sd2, r2) := rngNext sd1 in
  let offsetY := 6 + Qfloor (r2 * 4) in
  let mx := Z.min (w - 4) (Z.max 2 (Qfloor (fst sp) + offsetX)) in
  let my := Z.min (h - 4) (Z.max 2 (Qfloor (snd sp) + offsetY)) in
  (clearArea tiles mx my 2 2 w h, mines ++ [createGoldMine (uuid n) mx my],
   sd2, S n).

(** Place remaining mines around the map: one round of the loop per unit of
    [attempts] left. *)
Fixpoint scatterMines (uuid : nat -> string) (attempts : nat)
    (w h targetMineCount minMineDistance : Z) (acc : MapDraft) : MapDraft :=
  match attempts with
  | O => acc
  | S attempts' =>
      let '(tiles, mines, sd, n) := acc in
      if Z.of_nat (length mines) <? targetMineCount then
        let '(sd1, r1) := rngNext sd in
        let mx := 5 + Qfloor (r1 * ZtoQ (w - 10)) in
        let '(sd2, r2) := rngNext sd1 in
        let my := 5 + Qfloor (r2 * ZtoQ (h - 10)) in
        (* Check minimum distance from existing mines *)
        let tooClose :=
          existsb
            (fun m =>
               Qlt_bool (Qabs (m_x m - ZtoQ mx)) (ZtoQ minMineDistance) &&
               Qlt_bool (Qabs (m_y m - ZtoQ my)) (ZtoQ minMineDistance))
            mines in
        if tooClose then
          scatterMines uuid attempts' w h targetMineCount minMineDistance
            (tiles, mines, sd2, n)
        else
          scatterMines uuid attempts' w h targetMineCount minMineDistance
            (clearArea tiles mx my 2 2 w h,
             mines ++ [createGoldMine (uuid n) mx my], sd2, S n)
      else acc
  end.

(** The spawn points: opposite corners for 1v1, corners for more players. *)
Definition spawnCorners (w h : Z) (playerCount : Z) : list (Q * Q) :=
  let margin := Qmax 5 (Qmin 10 (ZtoQ w / 8)) in
  firstn (Z.to_nat (Z.max playerCount 2))
    [ (margin, margin);
      ((ZtoQ w - margin - 3)%Q, (ZtoQ h - margin - 3)%Q);
      ((ZtoQ w - margin - 3)%Q, margin);
      (margin, (ZtoQ h - margin - 3)%Q) ].

(** Generates a game map with terrain, gold mines, and spawn points, after
    [n0] calls of [uuid()]. *)
Definition generateMap (uuid : nat -> string) (n0 : nat) (playerCount : Z)
    (seed : Z) : MapData * nat :=
  let '(w, h) := getMapSize playerCount in
  let '(tiles0, sd0) := genTerrain w h seed in
  let spawnPoints := spawnCorners w h playerCount in
  let tiles1 := fold_left (clearSpawn w h) spawnPoints tiles0 in
  let draft := fold_left (spawnMine uuid w h) spawnPoints
                 (tiles1, [], sd0, n0) in
  let targetMineCount := Z.min GOLD_MINE_COUNT (Z.max 4 (w / 15)) in
  let minMineDistance := Z.max 8 (w / 8) in
  let '(tiles, goldMines, _, n) :=
    scatterMines uuid 200 w h targetMineCount minMineDistance draft in
  (mkMapData tiles goldMines spawnPoints, n).

(** [new GameEngine(room, io)] with the map that it generates from the seed
    (the clock, in the source). *)
Definition constructEngine (uuid : nat -> string) (n0 : nat) (seed : Z)
    (room : string) (roomPlayers : list RoomPlayer)
  : option (GameEngine * nat) :=
  let '(mapData, n1) :=
    generateMap uuid n0 (Z.of_nat (length roomPlayers)) seed in
  newEngine uuid n1 room roomPlayers mapData.

(** ** Notions for the generated map *)

(** [tiles[y][x]] for indices that are not negative. *)
Definition tileOf (tiles : list (list TileType)) (x y : Z) : option TileType :=
  if (0 <=? x) && (0 <=? y) then
    match tiles !! Z.to_nat y with
    | Some row => row !! Z.to_nat x
    | None => None
    end
  else None.

(** [h] rows of [w] tiles. *)
Definition tilesShape (tiles : list (list TileType)) (w h : Z) : Prop :=
  Z.of_nat (length tiles) = h /\
  Forall (fun row => Z.of_nat (length row) = w) tiles.

(** Starts the game loop. *)
Definition start (g : GameEngine) : GameEngine :=
  mkEngine (state g) (commandQueue g) true (roomId g).

(** A mine as [generateMap] leaves it on the tiles [t] of a [w] by [h] map:
    untouched, on whole tile coordinates, with its footprint and the ring
    around it inside the map and on grass. *)
Definition mineLaid (t : list (list TileType)) (w h : Z) (m : GoldMine)
  : Prop :=
  m_goldRemaining m = GOLD_MINE_STARTING_GOLD /\
  m_maxWorkers m = GOLD_MINE_MAX_WORKERS /\
  m_workerIds m = [] /\
  exists mx my,
    m_x m = ZtoQ mx /\ m_y m = ZtoQ my /\
    2 <= mx <= w - 4 /\ 2 <= my <= h - 4 /\
    forall dx dy, -1 <= dx <= 2 -> -1 <= dy <= 2 ->
      tileOf t (mx + dx) (my + dy) = Some grass.

(** From the [i0]-th mine on, every mine keeps the distance [d] on one axis
    at least to every mine before it in the list. *)
Definition spaced (d : Z) (i0 : nat) (mines : list GoldMine) : Prop :=
  forall i j mi mj,
    (i < j)%nat -> (i0 <= j)%nat ->
    mines !! i = Some mi -> mines !! j = Some mj ->
    (ZtoQ d <= Qabs (m_x mi - m_x mj))%Q \/
    (ZtoQ d <= Qabs (m_y mi - m_y mj))%Q.

(** A draft of [generateMap] after [n0] calls of [uuid()]: the tiles have
    the size of the map and the mines are laid, with the ids that [uuid()]
    returned. *)
Definition draftLaid (uuid : nat -> string) (n0 : nat) (w h : Z)
    (d : MapDraft) : Prop :=
  let '(t, mines, _, n) := d in
  tilesShape t w h /\
  n = (n0 + length mines)%nat /\
  map m_id mines = map uuid (seq n0 (length mines)) /\
  Forall (mineLaid t w h) mines.

(** The tiles of a draft. *)
Definition draftTiles (d : MapDraft) : list (list TileType) :=
  fst (fst (fst d)).

(** The mines of a draft. *)
Definition draftMines (d : MapDraft) : list GoldMine := snd (fst (fst d)).

(** ** server/src/game/BotAI.ts *)

(** Decision interval: make a decision every N ticks. *)
Definition DECISION_INTERVAL : Z := 5.

(** Finds the nearest gold mine to a worker that has gold remaining. *)
Definition findNearestGoldMine (Math_sqrt : Q -> Q) (s : GameState)
    (w : Entity) : option GoldMine :=
  fst
    (fold_left
       (fun (acc : option GoldMine * option Q) mine =>
          if m_goldRemaining mine <=? 0 then acc
          else
            let dist :=
              euclid Math_sqrt (m_x mine) (m_y mine) (e_x w) (e_y w) in
            match snd acc with
            | Some nearestDist =>
                if Qlt_bool dist nearestDist then (Some mine, Some dist)
                else acc
            | None => (Some mine, Some dist)
            end)
       (goldMines s) (None, None)).

(** The tiles that [findBuildPosition] tries, in the order of its loops:
    ring after ring around the worker. *)
Definition buildCandidates (w : Entity) : list Point :=
  flat_map
    (fun r =>
       flat_map
         (fun dx =>
            flat_map
              (fun dy =>
                 if (Z.abs dx <? r) && (Z.abs dy <? r) then []
                 else [mkPoint (Math_round (e_x w) + dx)
                               (Math_round (e_y w) + dy)])
              (seqZ (- r) (2 * r + 1)))
         (seqZ (- r) (2 * r + 1)))
    (seqZ 2 7).

(** All tiles of the footprint at [(tx, ty)] are on the map, walkable and
    under no footprint. *)
Definition buildSiteClear (s : GameState) (walkable : Pathfinding.Grid)
    (tileW tileH : Z) (p : Point) : bool :=
  forallb
    (fun h =>
       forallb
         (fun w =>
            let checkX := px p + w in
            let checkY := py p + h in
            negb ((checkX <? 0) || (mapWidth s <=? checkX) ||
                  (checkY <? 0) || (mapHeight s <=? checkY) ||
                  negb (Pathfinding.cell walkable checkX checkY)) &&
            forallb (fun e => negb (occupies e checkX checkY)) (entities s))
         (seqZ 0 tileW))
    (seqZ 0 tileH).

(** Finds a valid build position near a worker. *)
Definition findBuildPosition (s : GameState) (w : Entity) (tileW tileH : Z)
  : option Point :=
  let walkable := buildWalkableGrid s in
  List.find (buildSiteClear s walkable tileW tileH) (buildCandidates w).

(** Finds the nearest enemy home base. *)
Definition findNearestEnemyBase (Math_sqrt : Q -> Q) (s : GameState)
    (from : Entity) (myPlayerId : string) : option Entity :=
  nearestBy
    (fun e =>
       bool_decide (e_type e = homeBase) &&
       negb (bool_decide (e_ownerId e = myPlayerId)) &&
       negb (e_hp e <=? 0))
    (tileDistance Math_sqrt from) (entities s).

(** [l.slice(0, k)]: a negative [k] counts from the end. *)
Definition sliceTo {A : Type} (k : Z) (l : list A) : list A :=
  if k <? 0 then firstn (Z.to_nat (Z.of_nat (length l) + k)) l
  else firstn (Z.to_nat k) l.

Definition isIdleOrMoving (e : Entity) : bool :=
  bool_decide (e_state e = idle) || bool_decide (e_state e = moving).

(** [!queue || queue.length < n]. *)
Definition hasQueueSpace (n : Z) (e : Entity) : bool :=
  match e_trainingQueue e with
  | None => true
  | Some q => Z.of_nat (length q) <? n
  end.

(** Processes bot decisions for this tick: the commands to execute and the
    tick of the last decision. The share of the supply in use is compared
    with 0.7 exactly: a quotient of two supply counts is 7/10 or far from
    it. *)
Definition processTick (Math_sqrt : Q -> Q) (lastDecisionTick : Z)
    (s : GameState) (botPlayerId : string) : list Command * Z :=
  (* Throttle decisions *)
  if tick s - lastDecisionTick <? DECISION_INTERVAL
  then ([], lastDecisionTick)
  else
  match players s !! botPlayerId with
  | None => ([], tick s)
  | Some player =>
      let myEntities :=
        List.filter (fun e => bool_decide (e_ownerId e = botPlayerId))
          (entities s) in
      let homeBase' :=
        List.find (fun e => bool_decide (e_type e = homeBase)) myEntities in
      let workers :=
        List.filter (fun e => bool_decide (e_type e = worker)) myEntities in
      let houses :=
        List.filter
          (fun e => bool_decide (e_type e = house) &&
                    negb (underConstruction e)) myEntities in
      let barracks' :=
        List.filter
          (fun e => bool_decide (e_type e = barracks) &&
                    negb (underConstruction e)) myEntities in
      let infantry' :=
        List.filter (fun e => bool_decide (e_type e = infantry)) myEntities in
      (* 1. Train workers *)
      let c1 :=
        match homeBase' with
        | Some hb =>
            if (WORKER_COST <=? p_gold player) &&
               (p_supply player + WORKER_SUPPLY <=? p_maxSupply player) &&
               hasQueueSpace 3 hb
            then [TrainUnit (e_id hb) worker]
            else []
        | None => []
        end in
      (* 2. Assign idle workers to gather *)
      let idleWorkers := List.filter isIdleOrMoving workers in
      let c2 :=
        match idleWorkers with
        | first :: _ =>
            match findNearestGoldMine Math_sqrt s first with
            | Some nearestMine =>
                if 0 <? m_goldRemaining nearestMine then
                  let workerIds :=
                    map e_id
                      (sliceTo
                         (Z.min 3
                            (m_maxWorkers nearestMine -
                             Z.of_nat (length (m_workerIds nearestMine))))
                         idleWorkers) in
                  match workerIds with
                  | _ :: _ => [GatherResource workerIds (m_id nearestMine)]
                  | [] => []
                  end
                else []
            | None => []
            end
        | [] => []
        end in
      (* 3. Build houses if supply is getting low *)
      let c3 :=
        if (Z.of_nat (length houses) <? HOUSE_MAX_PER_PLAYER) &&
           (HOUSE_COST <=? p_gold player)
        then
          let supplyPercent :=
            if 0 <? p_maxSupply player
            then (ZtoQ (p_supply player) / ZtoQ (p_maxSupply player))%Q
            else 0%Q in
          if Qle_bool (7 # 10) supplyPercent then
            match List.find isIdleOrMoving workers with
            | Some idleWorker =>
                match findBuildPosition s idleWorker 2 2 with
                | Some buildPos =>
                    [BuildStructure (e_id idleWorker) BHouse (px buildPos)
                       (py buildPos)]
                | None => []
                end
            | None => []
            end
          else []
        else [] in
      (* 4. Build barracks if have enough resources *)
      let c4 :=
        if (length barracks' =? 0)%nat &&
           (BARRACKS_COST <=? p_gold player) &&
           (p_supply player + INFANTRY_SUPPLY <=? p_maxSupply player)
        then
          match List.find isIdleOrMoving workers with
          | Some idleWorker =>
              match findBuildPosition s idleWorker 3 3 with
              | Some buildPos =>
                  [BuildStructure (e_id idleWorker) BBarracks (px buildPos)
                     (py buildPos)]
              | None => []
              end
          | None => []
          end
        else [] in
      (* 5. Train infantry: only queue one at a time *)
      let c5 :=
        if negb (length barracks' =? 0)%nat &&
           (INFANTRY_COST <=? p_gold player) &&
           (p_supply player + INFANTRY_SUPPLY <=? p_maxSupply player)
        then
          match List.find (hasQueueSpace 2) barracks' with
          | Some barrack => [TrainUnit (e_id barrack) infantry]
          | None => []
          end
        else [] in
      (* 6. Attack with infantry *)
      let c6 :=
        if (3 <=? length infantry')%nat then
          let idleInfantry := List.filter isIdleOrMoving infantry' in
          match idleInfantry with
          | first :: _ :: _ =>
              match findNearestEnemyBase Math_sqrt s first botPlayerId with
              | Some enemyBase =>
                  let dist := tileDistance Math_sqrt first enemyBase in
                  if Qle_bool dist (INFANTRY_AGGRO_RANGE * 2) then
                    [AttackTarget (map e_id idleInfantry) (e_id enemyBase)]
                  else
                    let walkable := buildWalkableGrid s in
                    match Pathfinding.findPath walkable (entityTile first)
                            (entityTile enemyBase) with
                    | [] => []
                    | path =>
                        let dest := List.last path (mkPoint 0 0) in
                        [MoveUnits (map e_id idleInfantry) (ZtoQ (px dest))
                           (ZtoQ (py dest))]
                    end
              | None => []
              end
          | _ => []
          end
        else [] in
      (c1 ++ c2 ++ c3 ++ c4 ++ c5 ++ c6, tick s)
  end.

(** ** Notions for the orders of the bot *)

(** [id] is the key of an entity of type [t] that [pid] owns. *)
Definition owns (s : GameState) (pid : string) (t : EntityType)
    (id : string) : Prop :=
  exists e, getEntity id (entities s) = Some e /\ e_ownerId e = pid /\
            e_type e = t.

(** The order names entities of [pid] only and passes the checks of its
    handler for cost, supply, completion and placement. *)
Definition soundOrder (s : GameState) (pid : string) (p : Player)
    (c : Command) : Prop :=
  match c with
  | TrainUnit buildingId ut =>
      exists b,
        getEntity buildingId (entities s) = Some b /\ e_ownerId b = pid /\
        underConstruction b = false /\
        ((ut = worker /\ e_type b = homeBase) \/
         (ut = infantry /\ e_type b = barracks)) /\
        ts_cost (getUnitTrainStats ut) <= p_gold p /\
        p_supply p + ts_supplyCost (getUnitTrainStats ut) <= p_maxSupply p
  | BuildStructure workerId bt x y =>
      owns s pid worker workerId /\
      bs_cost (getBuildingStats bt) <= p_gold p /\
      isPlacementValid s x y (bs_tileW (getBuildingStats bt))
        (bs_tileH (getBuildingStats bt)) = true
  | GatherResource workerIds mineId =>
      workerIds <> [] /\
      Forall (owns s pid worker) workerIds /\
      exists m, In m (goldMines s) /\ m_id m = mineId /\
                0 < m_goldRemaining m
  | AttackTarget unitIds targetId =>
      Forall (owns s pid infantry) unitIds /\
      exists t, In t (entities s) /\ e_id t = targetId /\
                e_type t = homeBase /\ e_ownerId t <> pid /\ 0 < e_hp t
  | MoveUnits unitIds _ _ => Forall (owns s pid infantry) unitIds
  | _ => False
  end.

(** ** Whose command it is *)

(** The entities that [pid] does not own. *)
Definition foreignTo (pid : string) (l : list Entity) : list Entity :=
  List.filter (fun e => negb (bool_decide (e_ownerId e = pid))) l.

(** The key [id] is not the key of an entity of another player. *)
Definition owned (pid : string) (l : list Entity) (id : string) : Prop :=
  forall e, getEntity id l = Some e -> e_ownerId e = pid.

(** The mutation keeps the key and the owner. *)
Definition loyal (f : Entity -> Entity) : Prop :=
  forall e, e_id (f e) = e_id e /\ e_ownerId (f e) = e_ownerId e.

(** What a command of [pid] does to a state: it mutates entities of [pid],
    the record of [pid], and adds entities of [pid] under unused keys. *)
Inductive rule (pid : string) : GameState -> GameState -> Prop :=
  | rule_refl s : rule pid s s
  | rule_trans a b c : rule pid a b -> rule pid b c -> rule pid a c
  | rule_entity s id f :
      loyal f -> owned pid (entities s) id -> rule pid s (updE id f s)
  | rule_player s f : rule pid s (updP pid f s)
  | rule_spawn s e :
      e_ownerId e = pid -> getEntity (e_id e) (entities s) = None ->
      rule pid s (set_entities (putEntity e (entities s)) s).

(** The entity is the same but for what its owner [pid] did to it. *)
Definition sameButOwn (pid : string) (e e' : Entity) : Prop :=
  e_id e' = e_id e /\ e_ownerId e' = e_ownerId e /\
  (e_ownerId e <> pid -> e' = e).

(** The entities after a command of [pid]: those before it, the same but
    for the own ones, followed by new entities of [pid]. *)
Definition sway (pid : string) (l l' : list Entity) : Prop :=
  exists l1 tl,
    l' = l1 ++ tl /\ Forall2 (sameButOwn pid) l l1 /\
    Forall (fun e => e_ownerId e = pid) tl.

(** What a player keeps whatever the others do: identity, gold and
    upgrades. *)
Definition sameWealth (a b : Player) : Prop :=
  p_id b = p_id a /\ p_name b = p_name a /\ p_color b = p_color a /\
  p_gold b = p_gold a /\ p_upgrades b = p_upgrades a.

(** The home base of [lastBrick] with a worker one tick from leaving the
    queue. *)
Definition lastDrill : Entity :=
  set_trainingQueue (Some [mkOrder worker 1])
    (demoBuilding "base1" homeBase "p1" 1 1 2000 3 3).

Definition drillYard : GameState := updE "base1" (fun _ => lastDrill) lastBrick.


(* ================================================================== *)
(** * Part II: theorems                                                 *)
(* ================================================================== *)

(** ** JavaScript numbers *)

Lemma Qle_bool_true (a b : Q) : Qle_bool a b = true <-> (a <= b)%Q.
Proof. apply Qle_bool_iff. Qed.

Lemma Qle_bool_false (a b : Q) : Qle_bool a b = false <-> (b < a)%Q.
Proof.
  split; intros H.
  - apply Qnot_le_lt. intros Hle. apply Qle_bool_iff in Hle. congruence.
  - destruct (Qle_bool a b) eqn:E; [|reflexivity].
    apply Qle_bool_iff in E. exfalso. exact (Qlt_not_le _ _ H E).
Qed.

Lemma Qlt_bool_true (a b : Q) : Qlt_bool a b = true <-> (a < b)%Q.
Proof.
  unfold Qlt_bool. rewrite negb_true_iff. apply Qle_bool_false.
Qed.

Lemma Qlt_bool_false (a b : Q) : Qlt_bool a b = false <-> (b <= a)%Q.
Proof.
  unfold Qlt_bool. rewrite negb_false_iff. apply Qle_bool_true.
Qed.

(** *** Rounding to a double *)

Lemma up_pos e : 0 < up e.
Proof. unfold up. apply Z.pow_pos_nonneg; lia. Qed.

Lemma dn_pos e : 0 < dn e.
Proof. unfold dn. apply Z.pow_pos_nonneg; lia. Qed.

Lemma rne_bounds (n d : Z) :
  0 < d -> - d <= 2 * (rne n d * d - n) <= d.
Proof.
  intros Hd. unfold rne.
  pose proof (Z.div_mod n d ltac:(lia)) as E.
  pose proof (Z.mod_pos_bound n d Hd) as B.
  destruct (Z.compare_spec (2 * (n mod d)) d) as [H|H|H];
    [destruct (Z.even (n / d))|..]; nia.
Qed.

Lemma up_dn_succ (e : Z) :
  (0 <= e /\ up (e + 1) = 2 * up e /\ dn (e + 1) = dn e /\ dn e = 1) \/
  (e < 0 /\ up (e + 1) = up e /\ up e = 1 /\ dn e = 2 * dn (e + 1)).
Proof.
  unfold up, dn. destruct (Z_le_gt_dec 0 e) as [H|H].
  - left. split; [exact H|].
    rewrite (Z.max_r 0 e), (Z.max_r 0 (e + 1)) by lia.
    rewrite (Z.max_l 0 (- e)), (Z.max_l 0 (- (e + 1))) by lia.
    rewrite Z.pow_add_r by lia. change (2 ^ 1) with 2. change (2 ^ 0) with 1.
    lia.
  - right. split; [lia|].
    rewrite (Z.max_l 0 e), (Z.max_l 0 (e + 1)) by lia.
    rewrite (Z.max_r 0 (- e)), (Z.max_r 0 (- (e + 1))) by lia.
    replace (- e) with (- (e + 1) + 1) by lia.
    rewrite Z.pow_add_r by lia. change (2 ^ 1) with 2. change (2 ^ 0) with 1.
    lia.
Qed.

Lemma log2_bracket (a d : Z) :
  0 < a -> 0 < d ->
  let e0 := Z.log2 a - Z.log2 d - 53 in
  2 ^ 52 * (d * up e0) < a * dn e0 /\ a * dn e0 < 2 ^ 54 * (d * up e0).
Proof.
  intros Ha Hd e0.
  pose proof (Z.log2_spec a Ha) as [A1 A2].
  pose proof (Z.log2_spec d Hd) as [D1 D2].
  pose proof (Z.log2_nonneg a) as La. pose proof (Z.log2_nonneg d) as Ld.
  pose proof (up_pos e0) as U. pose proof (dn_pos e0) as N.
  assert (E1 : 2 ^ 53 * (2 ^ Z.succ (Z.log2 d) * up e0)
               = 2 ^ 1 * (2 ^ Z.log2 a * dn e0)).
  { unfold up, dn. rewrite <- !Z.pow_add_r by lia. f_equal. lia. }
  change (2 ^ 1) with 2 in E1.
  assert (E2 : 2 ^ 54 * (2 ^ Z.log2 d * up e0)
               = 2 ^ Z.succ (Z.log2 a) * dn e0).
  { unfold up, dn. rewrite <- !Z.pow_add_r by lia. f_equal. lia. }
  change (2 ^ 53) with (2 * 2 ^ 52) in E1.
  split; nia.
Qed.

(** The significand is at least [2 ^ 52]. *)
Lemma fl_bracket (a d : Z) :
  0 < a -> 0 < d ->
  let e0 := Z.log2 a - Z.log2 d - 53 in
  let e := if 2 ^ 53 * (d * up e0) <=? a * dn e0 then e0 + 1 else e0 in
  2 ^ 52 * (d * up e) <= a * dn e.
Proof.
  intros Ha Hd e0 e. destruct (log2_bracket a d Ha Hd) as [B1 B2].
  fold e0 in B1, B2. subst e.
  destruct (_ <=? _) eqn:E; [|lia].
  apply Z.leb_le in E.
  pose proof (up_pos e0) as HU. pose proof (dn_pos (e0 + 1)) as HD.
  destruct (up_dn_succ e0) as [(H0 & -> & -> & H1)|(H0 & -> & H1 & H2)].
  - change (2 ^ 53) with (2 * 2 ^ 52) in E. nia.
  - rewrite H2 in E. change (2 ^ 53) with (2 * 2 ^ 52) in E. nia.
Qed.

Lemma fl_zero (x : Q) : (x == 0)%Q -> fl x = 0%Q.
Proof.
  intros H. unfold fl. destruct x as [n d]. unfold Qeq in H. simpl in *.
  assert (n = 0) by lia. subst. reflexivity.
Qed.

(** A double is within [2 ^ -53] of what it rounds, relatively. *)
Lemma fl_pos_bounds (x : Q) :
  (0 < x)%Q -> (x * (1 - ulp53) <= fl x /\ fl x <= x * (1 + ulp53))%Q.
Proof.
  destruct x as [n d]. intros Hx.
  assert (Hn : 0 < n) by (unfold Qlt in Hx; simpl in Hx; lia).
  unfold fl. cbn [Qnum Qden].
  destruct (n =? 0) eqn:E0; [apply Z.eqb_eq in E0; lia|].
  rewrite (Z.abs_eq n) by lia. rewrite (Z.sgn_pos n Hn).
  set (e := if _ <=? _ then _ else _).
  pose proof (fl_bracket n (Z.pos d) Hn ltac:(lia)) as HB.
  cbv zeta in HB. fold e in HB.
  pose proof (up_pos e) as HU. pose proof (dn_pos e) as HD.
  pose proof (rne_bounds (n * dn e) (Z.pos d * up e) ltac:(nia)) as HR.
  set (m := rne (n * dn e) (Z.pos d * up e)) in *.
  rewrite Qred_correct.
  unfold Qle, ulp53. cbn [Qnum Qden Qmult Qminus Qplus Qopp].
  rewrite !Pos2Z.inj_mul, Z2Pos.id by exact HD.
  set (D := Z.pos d) in *. set (U := up e) in *. set (N := dn e) in *.
  change (Z.pos 9007199254740992) with (2 ^ 53).
  change (2 ^ 53) with (2 * 2 ^ 52).
  set (T := 2 ^ 52) in *.
  assert (HT : 0 < T) by (subst T; lia).
  split; nia.
Qed.

Lemma fl_nonneg (x : Q) : (0 <= x)%Q -> (0 <= fl x)%Q.
Proof.
  intros Hx. destruct (Qeq_dec x 0) as [H0|H0].
  - rewrite (fl_zero x H0). apply Qle_refl.
  - assert (Hp : (0 < x)%Q).
    { apply Qle_lteq in Hx. destruct Hx as [H|H]; [exact H|].
      exfalso. apply H0. symmetry. exact H. }
    destruct (fl_pos_bounds x Hp) as [H _].
    eapply Qle_trans; [|exact H].
    apply Qmult_le_0_compat; [exact Hx|]. unfold ulp53. Lqa.lra.
Qed.

(** ** The movement pass *)

Section MovementFacts.

Variable Math_sqrt : Q -> Q.

Local Abbreviation adv := (advance Math_sqrt).
Local Abbreviation mv := (moveEntity Math_sqrt).




Lemma getSpeed_building (e : Entity) :
  isUnitType (e_type e) = false -> getSpeed e = 0%Q.
Proof. unfold getSpeed. destruct (e_type e); simpl; intros; try discriminate; reflexivity. Qed.


End MovementFacts.


(** ** The entity table *)

Lemma getEntity_id id l e : getEntity id l = Some e -> e_id e = id.
Proof.
  unfold getEntity. intros H. apply List.find_some in H as [_ H].
  apply bool_decide_eq_true in H. exact H.
Qed.

Lemma getEntity_In id l e : getEntity id l = Some e -> In e l.
Proof. unfold getEntity. intros H. apply List.find_some in H as [H _]. exact H. Qed.

Lemma getEntity_update_same id f l :
  keepsId f -> getEntity id (updateEntity id f l) = f <$> getEntity id l.
Proof.
  intros Hf. induction l as [|e tl IH]; [reflexivity|]. simpl.
  destruct (bool_decide (e_id e = id)) eqn:E; simpl.
  - rewrite Hf, E. reflexivity.
  - rewrite E. exact IH.
Qed.

Lemma getEntity_update_ne id id' f l :
  keepsId f -> id <> id' ->
  getEntity id' (updateEntity id f l) = getEntity id' l.
Proof.
  intros Hf Hne. induction l as [|e tl IH]; [reflexivity|]. simpl.
  destruct (bool_decide (e_id e = id)) eqn:E; simpl.
  - rewrite Hf. apply bool_decide_eq_true in E.
    rewrite !bool_decide_eq_false_2 by congruence. reflexivity.
  - destruct (bool_decide (e_id e = id')); [reflexivity|exact IH].
Qed.

Lemma updateEntity_ext id f g l :
  (forall e, f e = g e) -> updateEntity id f l = updateEntity id g l.
Proof.
  intros H. induction l as [|e tl IH]; [reflexivity|]. simpl.
  rewrite H, IH. reflexivity.
Qed.

Lemma updateEntity_twice id f g l :
  keepsId g ->
  updateEntity id f (updateEntity id g l)
  = updateEntity id (fun e => f (g e)) l.
Proof.
  intros Hg. induction l as [|e tl IH]; [reflexivity|]. simpl.
  destruct (bool_decide (e_id e = id)) eqn:E; simpl.
  - rewrite Hg, E. reflexivity.
  - rewrite E, IH. reflexivity.
Qed.

Lemma updateEntity_ids id f l :
  keepsId f -> map e_id (updateEntity id f l) = map e_id l.
Proof.
  intros Hf. induction l as [|e tl IH]; [reflexivity|]. simpl.
  destruct (bool_decide (e_id e = id)); simpl; [rewrite Hf|rewrite IH];
    reflexivity.
Qed.

(** ** Focus fire *)

Lemma Math_round_Z (z : Z) (q : Q) :
  (inject_Z z <= q + (1 # 2))%Q -> z <= Math_round q.
Proof.
  intros H. unfold Math_round. rewrite <- (Qfloor_Z z).
  apply Qfloor_resp_le. exact H.
Qed.

(** Two attackers and more: the multiplier is the double of [1.15] at
    least. *)
Lemma focusMultiplier_lower (n : nat) :
  (2 <= n)%nat -> (1149 # 1000 <= focusMultiplier n)%Q.
Proof.
  intros Hn. unfold focusMultiplier.
  assert (Hc : (1499 # 10000 <= FOCUS_FIRE_BONUS)%Q)
    by (vm_compute; discriminate).
  set (c := FOCUS_FIRE_BONUS) in *.
  set (k := (ZtoQ (Z.of_nat n) - 1)%Q).
  assert (Hk : (1 <= k)%Q).
  { subst k. unfold ZtoQ.
    assert (H : (2 <= inject_Z (Z.of_nat n))%Q).
    { change 2%Q with (inject_Z 2). rewrite <- Zle_Qle. lia. }
    Lqa.lra. }
  assert (Ht : (c * 1 <= c * k)%Q).
  { apply (proj2 (Qmult_le_l 1 k c ltac:(Lqa.lra))). exact Hk. }
  set (t := (c * k)%Q) in *.
  destruct (fl_pos_bounds t ltac:(Lqa.lra)) as [Ht1 _].
  set (ft := fl t) in *.
  destruct (fl_pos_bounds (1 + ft)%Q) as [Hs1 _].
  { unfold ulp53 in Ht1. Lqa.lra. }
  unfold ulp53 in *. Lqa.lra.
Qed.

Lemma focusMultiplier_ge1 (n : nat) :
  (1 <= n)%nat -> (1 <= focusMultiplier n)%Q.
Proof.
  intros Hn. destruct (Nat.eq_dec n 1%nat) as [->|Hne].
  - vm_compute. discriminate.
  - pose proof (focusMultiplier_lower n ltac:(lia)). Lqa.lra.
Qed.

(** What one of [n >= 2] attackers of base damage [D >= 1] deals before it
    is rounded to an integer. *)
Lemma focus_hit_lower (D : Z) (n : nat) :
  1 <= D -> (2 <= n)%nat ->
  (inject_Z D * (1148 # 1000)
   <= fl (fl (ZtoQ D * focusMultiplier n) * 1))%Q.
Proof.
  intros HD Hn. pose proof (focusMultiplier_lower n Hn) as Hm.
  unfold ZtoQ. set (m := focusMultiplier n) in *.
  assert (Hd : (1 <= inject_Z D)%Q).
  { change 1%Q with (inject_Z 1). rewrite <- Zle_Qle. exact HD. }
  set (d := inject_Z D) in *.
  assert (HP : (d * (1149 # 1000) <= d * m)%Q).
  { apply (proj2 (Qmult_le_l (1149 # 1000) m d ltac:(Lqa.lra))). exact Hm. }
  set (P := (d * m)%Q) in *.
  destruct (fl_pos_bounds P ltac:(Lqa.lra)) as [H1 _].
  set (y1 := fl P) in *.
  destruct (fl_pos_bounds (y1 * 1)%Q) as [H2 _].
  { unfold ulp53 in H1. Lqa.lra. }
  unfold ulp53 in *. Lqa.lra.
Qed.

Lemma focus_hit_zero (m : Q) : Math_round (fl (fl (ZtoQ 0 * m) * 1)) = 0.
Proof.
  rewrite (fl_zero (ZtoQ 0 * m));
    [reflexivity|unfold ZtoQ; change (inject_Z 0) with 0%Q; ring].
Qed.

Lemma round_focus_ge (D : Z) (n : nat) :
  0 <= D -> (2 <= n)%nat ->
  D <= Math_round (fl (fl (ZtoQ D * focusMultiplier n) * 1)).
Proof.
  intros HD Hn. destruct (Z.eq_dec D 0) as [->|Hne].
  - rewrite focus_hit_zero. lia.
  - apply Math_round_Z.
    pose proof (focus_hit_lower D n ltac:(lia) Hn) as H.
    assert (Hd : (1 <= inject_Z D)%Q).
    { change 1%Q with (inject_Z 1). rewrite <- Zle_Qle. lia. }
    Lqa.lra.
Qed.

Lemma updateEntity_id id f l e :
  getEntity id l = Some e -> f e = e -> updateEntity id f l = l.
Proof.
  induction l as [|h tl IH]; [reflexivity|]. unfold getEntity. simpl.
  destruct (bool_decide (e_id h = id)) eqn:E.
  - intros [= <-] Hf. rewrite Hf. reflexivity.
  - intros H Hf. rewrite (IH H Hf). reflexivity.
Qed.

Lemma set_hp_same (e : Entity) : set_hp (e_hp e) e = e.
Proof. destruct e. reflexivity. Qed.

(** The damage of one hit only looks at the types, the footprint of the
    target and the owner's upgrade level. *)
Lemma hitDamage_stable (s s0 : GameState) (m : Q) (a a0 t t0 : Entity) :
  players s = players s0 ->
  e_type a = e_type a0 -> e_ownerId a = e_ownerId a0 ->
  e_tileWidth t = e_tileWidth t0 ->
  getAttackerUpgradeLevel s0 a0 <= 0 ->
  hitDamage s m a t
  = Math_round (fl (fl (ZtoQ (getAttackDamage a0 t0) * m) * 1)).
Proof.
  intros Hp Ht Ho Hw Hl. unfold hitDamage.
  assert (Hlv : getAttackerUpgradeLevel s a = getAttackerUpgradeLevel s0 a0).
  { unfold getAttackerUpgradeLevel. rewrite Hp, Ho, Ht. reflexivity. }
  rewrite Hlv.
  assert (Hd : getAttackDamage a t = getAttackDamage a0 t0).
  { unfold getAttackDamage. rewrite Ht, Hw. reflexivity. }
  rewrite Hd.
  destruct (0 <? getAttackerUpgradeLevel s0 a0) eqn:E.
  - apply Z.ltb_lt in E. lia.
  - reflexivity.
Qed.

Lemma hitStep_eq tid m s cds a att tgt :
  getEntity a (entities s) = Some att ->
  getEntity tid (entities s) = Some tgt ->
  hitStep tid m (s, cds) a =
    (updE tid (fun t => set_hp (e_hp t - hitDamage s m att tgt) t) s,
     <[a := getAttackCooldown att]> cds).
Proof. intros Ha Ht. unfold hitStep. rewrite Ha, Ht. reflexivity. Qed.

Lemma hit_fold (s0 : GameState) (tid : string) (target : Entity) (m : Q)
    (D : Z) :
  getEntity tid (entities s0) = Some target ->
  forall (ids : list string) (v : Z) (cds : gmap string Z) (s : GameState),
    players s = players s0 ->
    entities s = updateEntity tid (set_hp v) (entities s0) ->
    (forall a, In a ids ->
       exists att, getEntity a (entities s0) = Some att /\
                   getAttackDamage att target = D /\
                   getAttackerUpgradeLevel s0 att <= 0) ->
    let r := fold_left (hitStep tid m) ids (s, cds) in
    players (fst r) = players s0 /\
    entities (fst r) =
      updateEntity tid
        (set_hp (v - Z.of_nat (length ids) *
                     Math_round (fl (fl (ZtoQ D * m) * 1))))
        (entities s0).
Proof.
  intros Ht ids. induction ids as [|a ids IH]; intros v cds s Hp He Hall.
  - simpl. split; [exact Hp|]. rewrite He. f_equal. f_equal. lia.
  - destruct (Hall a (or_introl eq_refl)) as (att & Ha & Hd & Hl).
    assert (Htk : getEntity tid (entities s) = Some (set_hp v target)).
    { rewrite He, getEntity_update_same by (intro; reflexivity).
      rewrite Ht. reflexivity. }
    assert (Hak : exists a', getEntity a (entities s) = Some a' /\
                    e_type a' = e_type att /\ e_ownerId a' = e_ownerId att).
    { rewrite He. destruct (decide (tid = a)) as [->|Hne].
      - rewrite getEntity_update_same by (intro; reflexivity).
        rewrite Ha. eexists. split; [reflexivity|]. split; reflexivity.
      - rewrite getEntity_update_ne by (try (intro; reflexivity); exact Hne).
        exists att. auto. }
    destruct Hak as (a' & Ha' & Hty & How).
    cbn zeta. cbn [fold_left]. rewrite (hitStep_eq _ _ _ _ _ _ _ Ha' Htk).
    rewrite (hitDamage_stable s s0 m a' att (set_hp v target) target Hp Hty How
               eq_refl Hl), Hd.
    set (each := Math_round (fl (fl (ZtoQ D * m) * 1))).
    match goal with
    | |- context [fold_left _ ids (?s1, ?c1)] =>
        destruct (IH (v - each) c1 s1) as [IH1 IH2]
    end.
    + exact Hp.
    + unfold updE. simpl. rewrite He.
      rewrite updateEntity_twice by (intro; reflexivity).
      apply updateEntity_ext. intros e. reflexivity.
    + intros b Hb. apply Hall. right. exact Hb.
    + split; [exact IH1|]. rewrite IH2. f_equal. f_equal.
      change (length (a :: ids)) with (S (length ids)). lia.
Qed.

(** C2 (as the code has it). In the batched pass, the hits of [N >= 2]
    registered attackers that all have base damage [D] against a living
    target and no upgrade take exactly [N * each] hit points from it, where
    [each] is [Math.round(D * (1 + 0.15 * (N - 1)) * 1)] as the code computes
    it, in doubles. That total is never below [N * D], it is above [N * D]
    as soon as [D >= 4] (every armed unit of the game: 10, 12, 14, 40), and
    it is zero for ballistae shooting at a unit ([D = 0]). Three infantry
    deal 16 each, 48 in total; one attacker alone deals 12; ten archers deal
    23 each, the product being the double below 23.5. *)
Theorem focus_fire_batch (s : GameState) (cds : gmap string Z)
    (targetId : string) (target : Entity) (attackerIds : list string)
    (D : Z) :
  getEntity targetId (entities s) = Some target ->
  0 < e_hp target ->
  (2 <= length attackerIds)%nat ->
  (forall a, In a attackerIds ->
     exists att, getEntity a (entities s) = Some att /\
                 getAttackDamage att target = D /\
                 getAttackerUpgradeLevel s att <= 0) ->
  let N := Z.of_nat (length attackerIds) in
  let each :=
    Math_round
      (fl (fl (ZtoQ D * focusMultiplier (length attackerIds)) * 1)) in
  let s' := fst (batchStep (s, cds) (targetId, attackerIds)) in
  (exists t', getEntity targetId (entities s') = Some t' /\
              e_hp t' = e_hp target - N * each) /\
  (0 <= D -> N * D <= N * each) /\
  (4 <= D -> N * D < N * each) /\
  (D = 0 -> N * each = 0) /\
  Math_round (fl (fl (ZtoQ INFANTRY_DAMAGE * focusMultiplier 3) * 1)) = 16 /\
  3 * 16 = 48 /\
  Math_round (fl (fl (ZtoQ INFANTRY_DAMAGE * focusMultiplier 1) * 1))
    = INFANTRY_DAMAGE /\
  Math_round (fl (fl (ZtoQ ARCHER_DAMAGE * focusMultiplier 10) * 1)) = 23.
Proof.
  intros Ht Hhp HN Hall N each s'.
  split; [|split; [|split; [|split; [|split; [|split; [|split]]]]]].
  - subst s'. unfold batchStep. simpl fst. rewrite Ht.
    destruct (e_hp target <=? 0) eqn:E; [apply Z.leb_le in E; lia|].
    destruct (hit_fold s targetId target (focusMultiplier (length attackerIds))
                D Ht attackerIds (e_hp target) cds s eq_refl) as [_ He].
    + symmetry. apply (updateEntity_id _ _ _ target Ht). apply set_hp_same.
    + exact Hall.
    + rewrite He, getEntity_update_same by (intro; reflexivity).
      rewrite Ht. eexists. split; [reflexivity|]. reflexivity.
  - intros HD. apply Z.mul_le_mono_nonneg_l; [lia|].
    apply round_focus_ge; [exact HD|exact HN].
  - intros HD. apply Z.mul_lt_mono_pos_l; [lia|].
    assert (H : D + 1 <= each); [|lia].
    apply Math_round_Z.
    pose proof (focus_hit_lower D (length attackerIds) ltac:(lia) HN) as H.
    rewrite inject_Z_plus. change (inject_Z 1) with 1%Q.
    assert (Hd : (4 <= inject_Z D)%Q).
    { change 4%Q with (inject_Z 4). rewrite <- Zle_Qle. exact HD. }
    Lqa.lra.
  - intros ->. subst each. rewrite focus_hit_zero. lia.
  - vm_compute. reflexivity.
  - reflexivity.
  - vm_compute. reflexivity.
  - vm_compute. reflexivity.
Qed.

Lemma focus_fire_batch_witness :
  exists t', getEntity "t"
               (entities (fst (batchStep (infantryDuel, ∅)
                                 ("t", ["a1"; "a2"; "a3"])))) = Some t' /\
             e_hp t' = 60 - 3 * 16.
Proof.
  destruct (focus_fire_batch infantryDuel ∅ "t"
              (demoUnit "t" worker "p2" 3 3 60 idle) ["a1"; "a2"; "a3"] 12)
    as [H _].
  - reflexivity.
  - reflexivity.
  - simpl. lia.
  - intros a [<-|[<-|[<-|[]]]]; eexists; (split; [reflexivity|]);
      split; vm_compute; congruence.
  - exact H.
Defined.

(** C2 (as stated) fails on three counts. Two ballistae registered against
    an enemy worker have equal base damage 0 and no upgrades; the worker keeps
    its 60 hp, and the total 0 is not above [N * D = 0]. Ten archers
    registered against one worker take 23 hit points each, 230 in the tick,
    where [N * round(D * (1 + b * (N - 1)))] is [10 * round(23.5) = 240]:
    the code rounds the product of doubles, which lies below 23.5. And with
    a tower of the attackers' side in range, the target of three infantry
    loses [48 + 15] hit points in the tick, the tower's shot coming on top
    of the batched hits. *)
Lemma focus_fire_refuted :
  let target := demoUnit "t" worker "p2" 3 3 60 idle in
  let s' := fst (batchStep (ballistaDuel, ∅) ("t", ["b1"; "b2"])) in
  (forall a, In a ["b1"; "b2"] ->
     exists att, getEntity a (entities ballistaDuel) = Some att /\
                 getAttackDamage att target = 0 /\
                 getAttackerUpgradeLevel ballistaDuel att = 0) /\
  (e_hp <$> getEntity "t" (entities s')) = Some 60 /\
  ~ (2 * 0 < 2 * Math_round (fl (fl (ZtoQ 0 * focusMultiplier 2) * 1))) /\
  (let r := processCombat sqrtD (archerVolley, idleProcess) in
   (e_hp <$> getEntity "t" (entities archerVolley)) = Some 300 /\
   Forall (fun a => attackCooldowns (snd r) !! a = Some ARCHER_ATTACK_COOLDOWN)
     volleyArchers /\
   (e_hp <$> getEntity "t" (entities (fst r))) = Some (300 - 10 * 23) /\
   10 * Math_round (ZtoQ ARCHER_DAMAGE * (1 + (15 # 100) * (10 - 1))) = 240) /\
  (let r := processCombat sqrtD (towerSiege, idleProcess) in
   (e_hp <$> getEntity "t" (entities towerSiege)) = Some 100 /\
   Forall
     (fun a => attackCooldowns (snd r) !! a = Some INFANTRY_ATTACK_COOLDOWN)
     ["a1"; "a2"; "a3"] /\
   (e_hp <$> getEntity "t" (entities (fst r))) = Some (100 - (3 * 16 + 15))).
Proof.
  split; [|split; [|split; [|split]]].
  - intros a [<-|[<-|[]]]; eexists; (split; [reflexivity|]);
      split; reflexivity.
  - reflexivity.
  - vm_compute. discriminate.
  - vm_compute. repeat split; repeat constructor.
  - vm_compute. repeat split; repeat constructor.
Qed.

(** ** The gather cycle *)

Lemma updateFirstMine_split pred f l m :
  List.find pred l = Some m ->
  exists l1 l2,
    l = l1 ++ m :: l2 /\
    updateFirstMine pred f l = l1 ++ f m :: l2 /\
    Forall (fun m' => pred m' = false) l1.
Proof.
  induction l as [|h tl IH]; [discriminate|]. simpl.
  destruct (pred h) eqn:E.
  - intros [= <-]. exists [], tl. auto.
  - intros H. destruct (IH H) as (l1 & l2 & H1 & H2 & H3).
    exists (h :: l1), l2. simpl. rewrite <- H1, H2. auto.
Qed.

Section GatherFacts.

Variable Math_sqrt : Q -> Q.

Local Abbreviation mining := (gatherMining Math_sqrt).

(** C9. When the mining timer of a gathering worker runs out, the worker
    carries the full [WORKER_CARRY_CAPACITY] whatever the mine holds, and the
    mine that lists the worker loses the carry amount clamped at zero. A mine
    with less than the carry amount left therefore hands out more than it
    held: it drops to zero while the worker carries 10, and the deposit
    credits the owner with all that the worker carries. *)
Theorem mining_overdraws (s : GameState) (timers : gmap string Z)
    (id : string) (entity : Entity) :
  getEntity id (entities s) = Some entity ->
  e_state entity = gathering ->
  default WORKER_MINE_TICKS (timers !! id) <= 1 ->
  let s' := fst (mining (s, timers) id) in
  WORKER_CARRY_CAPACITY = 10 /\
  (exists e', getEntity id (entities s') = Some e' /\
              e_carriedGold e' = Some WORKER_CARRY_CAPACITY) /\
  (forall mine,
      findMine (mineHasWorker id) s = Some mine ->
      exists l1 l2 mine',
        goldMines s = l1 ++ mine :: l2 /\
        goldMines s' = l1 ++ mine' :: l2 /\
        m_goldRemaining mine' =
          Z.max 0 (m_goldRemaining mine - WORKER_CARRY_CAPACITY) /\
        (0 < m_goldRemaining mine < WORKER_CARRY_CAPACITY ->
         m_goldRemaining mine' = 0 /\
         m_goldRemaining mine - m_goldRemaining mine'
           < WORKER_CARRY_CAPACITY)) /\
  (forall (s1 : GameState) (w : Entity) (c : Z) (player : Player),
      getEntity id (entities s1) = Some w ->
      e_state w = returning -> noPath w = true ->
      e_carriedGold w = Some c -> 0 < c ->
      players s1 !! e_ownerId w = Some player ->
      p_gold <$> (players (gatherDeposit s1 id) !! e_ownerId w)
        = Some (p_gold player + c)).
Proof.
  intros He Hst Ht s'. split; [reflexivity|].
  assert (Hs' : exists f3,
             keepsId f3 /\ (forall e, e_carriedGold (f3 e) = e_carriedGold e) /\
             entities s' =
               updateEntity id f3
                 (updateEntity id
                    (fun e => set_carriedGold (Some WORKER_CARRY_CAPACITY)
                                (set_miningProgress None e)) (entities s)) /\
             goldMines s' =
               updateFirstMine (mineHasWorker id)
                 (fun m =>
                    set_goldRemaining
                      (Z.max 0 (m_goldRemaining m - WORKER_CARRY_CAPACITY))
                      (set_workerIds
                         (List.filter (fun w => negb (bool_decide (w = id)))
                            (m_workerIds m)) m))
                 (goldMines s)).
  { subst s'. unfold gatherMining. rewrite He, Hst. simpl negb. cbv iota.
    apply Z.leb_le in Ht. rewrite Ht.
    repeat match goal with
           | |- context [match ?x with _ => _ end] => destruct x
           end;
      eexists; (split; [|split; [|split; reflexivity]]);
      intros e0; reflexivity. }
  destruct Hs' as (f3 & Hk & Hc & Hents & Hmines).
  split; [|split].
  - rewrite Hents, !getEntity_update_same, He by (try exact Hk; intro; reflexivity).
    eexists. split; [reflexivity|]. rewrite Hc. reflexivity.
  - intros mine Hm. unfold findMine in Hm.
    destruct (updateFirstMine_split _
                (fun m =>
                   set_goldRemaining
                     (Z.max 0 (m_goldRemaining m - WORKER_CARRY_CAPACITY))
                     (set_workerIds
                        (List.filter (fun w => negb (bool_decide (w = id)))
                           (m_workerIds m)) m)) _ _ Hm)
      as (l1 & l2 & H1 & H2 & _).
    eexists l1, l2, _. split; [exact H1|]. split; [rewrite Hmines; exact H2|].
    split; [reflexivity|]. simpl. unfold WORKER_CARRY_CAPACITY. lia.
  - intros s1 w c player Hw Hret Hnp Hcg Hc0 Hpl.
    unfold gatherDeposit. rewrite Hw, Hret, Hnp, Hcg, Hpl. simpl.
    apply Z.ltb_lt in Hc0. rewrite Hc0.
    assert (Hgoal : forall s2, players s2 = alter (fun p => set_gold (p_gold p + c) p)
                       (e_ownerId w) (players s1) ->
              p_gold <$> players s2 !! e_ownerId w = Some (p_gold player + c)).
    { intros s2 ->. rewrite lookup_alter_eq, Hpl. reflexivity. }
    repeat match goal with
           | |- context [match ?x with _ => _ end] => destruct x
           end; apply Hgoal; reflexivity.
Qed.

End GatherFacts.

Lemma mining_overdraws_witness :
  let s' := fst (gatherMining sqrtQ (lastNugget, lastNuggetTimers) "w1") in
  let s'' := fst (gatherStep sqrtQ (lastNugget, lastNuggetTimers) "w1") in
  (exists e', getEntity "w1" (entities s') = Some e' /\
              e_carriedGold e' = Some 10) /\
  map m_goldRemaining (goldMines lastNugget) = [5] /\
  map m_goldRemaining (goldMines s') = [0] /\
  (p_gold <$> players lastNugget !! "p1") = Some 0 /\
  (p_gold <$> players s'' !! "p1") = Some 10.
Proof.
  destruct (mining_overdraws sqrtQ lastNugget lastNuggetTimers "w1"
              (set_targetId (Some "m1")
                 (demoUnit "w1" worker "p1" 1 1 60 gathering)))
    as (_ & H & _).
  - reflexivity.
  - reflexivity.
  - vm_compute. discriminate.
  - split; [exact H|]. repeat split; vm_compute; reflexivity.
Defined.

(** ** The victory check *)

Lemma elem_of_playersWithBase (s : GameState) (pid : string) :
  pid ∈ playersWithBase s <-> ownsLivingBase s pid.
Proof.
  unfold playersWithBase, ownsLivingBase.
  assert (H : forall l (acc : gset string),
             pid ∈ fold_left
                     (fun (acc : gset string) e =>
                        if bool_decide (e_type e = homeBase) && (0 <? e_hp e)
                        then {[ e_ownerId e ]} ∪ acc else acc) l acc
             <-> pid ∈ acc \/
                 exists e, In e l /\ e_type e = homeBase /\ 0 < e_hp e /\
                           e_ownerId e = pid).
  { induction l as [|e tl IH]; intros acc; simpl.
    - split; [auto|]. intros [H|(e & [] & _)]. exact H.
    - rewrite IH. destruct (bool_decide (e_type e = homeBase)) eqn:Et;
        [destruct (0 <? e_hp e) eqn:Eh|]; simpl.
      + apply bool_decide_eq_true in Et. apply Z.ltb_lt in Eh.
        rewrite elem_of_union, elem_of_singleton. split.
        * intros [[->|H]|(e' & Hin & H')]; [right; exists e; auto|auto|].
          right. exists e'. tauto.
        * intros [H|(e' & [<-|Hin] & Hty & Hhp & Ho)]; [auto|auto|].
          right. exists e'. auto.
      + apply Z.ltb_ge in Eh. split.
        * intros [H|(e' & Hin & H')]; [auto|]. right. exists e'. tauto.
        * intros [H|(e' & [<-|Hin] & Hty & Hhp & Ho)]; [auto|lia|].
          right. exists e'. auto.
      + apply bool_decide_eq_false in Et. split.
        * intros [H|(e' & Hin & H')]; [auto|]. right. exists e'. tauto.
        * intros [H|(e' & [<-|Hin] & Hty & Hhp & Ho)]; [auto|contradiction|].
          right. exists e'. auto. }
  rewrite H. split; [intros [Hf|Hx]; [set_solver|exact Hx]|auto].
Qed.

Lemma In_playerIds (s : GameState) (pid : string) :
  In pid (playerIds s) <-> isPlayer s pid.
Proof.
  unfold playerIds, isPlayer. rewrite in_map_iff. split.
  - intros ([k p] & <- & Hin). apply list_elem_of_In, elem_of_map_to_list in Hin.
    simpl. rewrite Hin. eauto.
  - intros [p Hp]. exists (pid, p). split; [reflexivity|].
    apply list_elem_of_In, elem_of_map_to_list. exact Hp.
Qed.

Lemma In_eliminated (s : GameState) (pid : string) :
  In pid (eliminated s) <-> isPlayer s pid /\ ~ ownsLivingBase s pid.
Proof.
  unfold eliminated. rewrite List.filter_In. fold (playerIds s).
  rewrite In_playerIds, negb_true_iff, bool_decide_eq_false,
    elem_of_playersWithBase. reflexivity.
Qed.

(** C8. At the victory check a registered player counts as eliminated
    exactly when it owns no living home base. When some player is eliminated
    and exactly one player still owns a living home base, that player is
    declared the winner by a [gameOver] event, the collaborators are called,
    and the engine is stopped. (Home bases belong to registered players: they
    are created by the constructor for the roster only.) *)
Theorem victory_check (g : GameEngine) (pr : Process) (winner : string) :
  (forall pid,
      In pid (eliminated (state g)) <->
      isPlayer (state g) pid /\ ~ ownsLivingBase (state g) pid) /\
  (basesOwnedByPlayers (state g) ->
   (exists loser, isPlayer (state g) loser /\
                  ~ ownsLivingBase (state g) loser) ->
   isPlayer (state g) winner ->
   ownsLivingBase (state g) winner ->
   (forall p, isPlayer (state g) p -> ownsLivingBase (state g) p ->
              p = winner) ->
   exists reason,
     checkGameOver (g, pr) =
       (stop (g, pr),
        [ EmitGameOver winner reason;
          CallOnGameEnd (roomId g);
          CallRecordMatch winner (playerIds (state g)) ]) /\
     running (fst (stop (g, pr))) = false).
Proof.
  split; [apply In_eliminated|].
  intros Hwf (loser & Hl1 & Hl2) Hw1 Hw2 Huniq.
  assert (Hset : playersWithBase (state g) = {[ winner ]}).
  { apply set_eq. intros p. rewrite elem_of_playersWithBase, elem_of_singleton.
    split; [intros Hp; apply Huniq; [apply Hwf|]; exact Hp|intros ->; exact Hw2]. }
  assert (Hel : In loser (eliminated (state g))) by (apply In_eliminated; auto).
  unfold checkGameOver. rewrite Hset, elements_singleton.
  destruct (eliminated (state g)) as [|x xs]; [destruct Hel|].
  eexists. split; reflexivity.
Qed.

Lemma victory_check_witness :
  exists reason,
    checkGameOver (siegeEngine, idleProcess) =
      (stop (siegeEngine, idleProcess),
       [ EmitGameOver "p1" reason;
         CallOnGameEnd "room-1";
         CallRecordMatch "p1" (playerIds afterTheSiege) ]) /\
    running (fst (stop (siegeEngine, idleProcess))) = false.
Proof.
  assert (Hown : forall p, ownsLivingBase afterTheSiege p -> p = "p1").
  { intros p (e & Hin & Hty & _ & Ho).
    destruct Hin as [<-|[<-|[<-|[]]]]; try discriminate Hty.
    symmetry. exact Ho. }
  apply (proj2 (victory_check siegeEngine idleProcess "p1")).
  - intros p Hp. rewrite (Hown p Hp). eexists. reflexivity.
  - exists "p2". split; [eexists; reflexivity|].
    intros H. apply Hown in H. discriminate H.
  - eexists. reflexivity.
  - eexists. split; [left; reflexivity|]. repeat split.
  - intros p _ Hp. exact (Hown p Hp).
Defined.

(** ** Failing inputs of the command handlers and trackers *)

Ltac conjs := repeat match goal with |- _ /\ _ => split end.
Ltac run := vm_compute; reflexivity.

(** C6 at a failing input. Player [p1] queues three infantry (gold 300 to 0,
    supply 1 to 7, the supply being reserved). A [buildStructure] command
    then fails the gold check: the economy handler returns the state as it
    is, but the dispatcher recalculates supply all the same, and the reserved
    supply is gone (7 to 1). *)
Theorem failed_build_resets_supply :
  let s1 :=
    fst (runCommands [ TrainUnit "bar1" infantry; TrainUnit "bar1" infantry;
                       TrainUnit "bar1" infantry ] smallBase) in
  let s2 := fst (runCommands [BuildStructure "w1" BHouse 9 9] s1) in
  goldOf "p1" s1 = Some 0 /\
  supplyOf "p1" s1 = Some 7 /\
  handleBuildStructure sqrtQ uuidDemo (s1, O) "p1" "w1" BHouse 9 9 = (s1, O) /\
  supplyOf "p1" s2 = Some 1 /\
  s2 <> s1.
Proof.
  cbv zeta. conjs; try run.
  intros H. apply (f_equal (supplyOf "p1")) in H. vm_compute in H.
  discriminate H.
Qed.

(** C3 at two failing inputs. (1) A worker with a pending build order is
    given a second one: both costs are deducted (300 to 100), one order
    remains, nothing is built and nothing is refunded. (2) A worker with a
    pending build order is killed by a tower: the order disappears with the
    worker and the reserved 100 gold is not refunded. *)
Theorem escrow_lost :
  (let s2 :=
     fst (runCommands [ BuildStructure "w1" BHouse 9 9;
                        BuildStructure "w1" BHouse 9 1 ] smallBase) in
   goldOf "p1" smallBase = Some 300 /\
   goldOf "p1" s2 = Some (300 - 2 * HOUSE_COST) /\
   pendingBuilds s2 = [mkPending BHouse 9 1] /\
   buildings s2 = buildings smallBase) /\
  (let s' := fst (processCombat sqrtQ (doomedBuilder, idleProcess)) in
   goldOf "p1" doomedBuilder = Some (300 - HOUSE_COST) /\
   pendingBuilds doomedBuilder = [mkPending BHouse 9 9] /\
   getEntity "w1" (entities s') = None /\
   pendingBuilds s' = [] /\
   buildings s' = buildings doomedBuilder /\
   goldOf "p1" s' = Some (300 - HOUSE_COST)).
Proof.
  cbv zeta. conjs; run.
Qed.

(** C5 at a failing input. The trackers live in the process, not in the
    engine: a combat pass of match A counts down the cooldown of an entity of
    match B, and stopping match A clears the mining timer of a worker of
    match B. *)
Theorem trackers_shared_across_matches :
  getEntity "b-inf" (entities smallBase) = None /\
  getEntity "b-wrk" (entities smallBase) = None /\
  attackCooldowns sharedProcess !! "b-inf" = Some 9 /\
  attackCooldowns (snd (processCombat sqrtQ (smallBase, sharedProcess)))
    !! "b-inf" = Some 8 /\
  gatherTimers sharedProcess !! "b-wrk" = Some 17 /\
  gatherTimers (snd (stop (engineA, sharedProcess))) !! "b-wrk" = None.
Proof.
  conjs; run.
Qed.


(** ** The path search *)

Module PathProofs.

Import Pathfinding PathSpec.

Local Open Scope R_scope.

Lemma sqrt2_sq : sqrt 2 * sqrt 2 = 2.
Proof. apply sqrt_def. Lra.lra. Qed.

Lemma sqrt2_bounds : 1 < sqrt 2 < 2.
Proof.
  pose proof sqrt2_sq as H. pose proof (sqrt_pos 2) as Hp.
  split; Lra.nra.
Qed.

Lemma costR_add a b : costR (cost_add a b) = costR a + costR b.
Proof.
  unfold costR, cost_add. simpl. rewrite !plus_IZR. Lra.lra.
Qed.

Lemma costR_zero : costR cost_zero = 0.
Proof. unfold costR. simpl. Lra.lra. Qed.

Lemma sign_pos_neg (x y : R) :
  0 < x -> y < 0 -> (2 * (y * y) < x * x <-> 0 < x + y * sqrt 2).
Proof.
  intros Hx Hy. pose proof sqrt2_sq as Hs. pose proof sqrt2_bounds as [Hs1 _].
  assert (H1 : 0 < x - y * sqrt 2) by Lra.nra.
  assert (H2 : (x + y * sqrt 2) * (x - y * sqrt 2) = x * x - 2 * (y * y)).
  { transitivity (x * x - y * y * (sqrt 2 * sqrt 2)); [ring|].
    rewrite Hs. ring. }
  split; intros H.
  - destruct (Rlt_le_dec 0 (x + y * sqrt 2)) as [Hp|Hn]; [exact Hp|].
    exfalso. Lra.nra.
  - Lra.nra.
Qed.

Lemma sign_neg_pos (x y : R) :
  x < 0 -> 0 < y -> (x * x < 2 * (y * y) <-> 0 < x + y * sqrt 2).
Proof.
  intros Hx Hy. pose proof sqrt2_sq as Hs. pose proof sqrt2_bounds as [Hs1 _].
  assert (H1 : 0 < y * sqrt 2 - x) by Lra.nra.
  assert (H2 : (x + y * sqrt 2) * (y * sqrt 2 - x) = 2 * (y * y) - x * x).
  { transitivity (y * y * (sqrt 2 * sqrt 2) - x * x); [ring|].
    rewrite Hs. ring. }
  split; intros H.
  - destruct (Rlt_le_dec 0 (x + y * sqrt 2)) as [Hp|Hn]; [exact Hp|].
    exfalso. Lra.nra.
  - Lra.nra.
Qed.

(** [pos_sqrt2] decides the sign of [a + b * sqrt 2]. *)
Lemma pos_sqrt2_spec (a b : Z) :
  pos_sqrt2 a b = true <-> 0 < IZR a + IZR b * sqrt 2.
Proof.
  pose proof sqrt2_bounds as [Hs1 Hs2].
  unfold pos_sqrt2.
  destruct (Z.lt_trichotomy a 0) as [Ha|[->|Ha]];
    destruct (Z.lt_trichotomy b 0) as [Hb|[->|Hb]];
    repeat match goal with
           | |- context [(?x <=? ?y)%Z] =>
               destruct (Z.leb_spec x y); try lia
           | |- context [(0 <? ?y)%Z] =>
               destruct (Z.ltb_spec 0%Z y); try lia
           end; simpl;
    try (apply IZR_lt in Ha); try (apply IZR_lt in Hb).
  - split; [discriminate|]. intros Hx. exfalso. Lra.nra.
  - split; [discriminate|]. intros Hx. exfalso. Lra.nra.
  - rewrite Z.ltb_lt, <- sign_neg_pos by assumption.
    rewrite <- !mult_IZR. split; [apply IZR_lt|apply lt_IZR].
  - split; [discriminate|]. intros Hx. exfalso. Lra.nra.
  - split; [discriminate|]. intros Hx. exfalso. Lra.nra.
  - split; [intros _; Lra.nra|reflexivity].
  - rewrite Z.ltb_lt, <- sign_pos_neg by assumption.
    rewrite <- !mult_IZR. split; [apply IZR_lt|apply lt_IZR].
  - split; [intros _; Lra.nra|reflexivity].
  - split; [intros _; Lra.nra|reflexivity].
Qed.

Lemma cost_ltb_spec a b : cost_ltb a b = true <-> costR a < costR b.
Proof.
  unfold cost_ltb, costR. rewrite pos_sqrt2_spec, !minus_IZR. split; Lra.lra.
Qed.

Lemma cost_ltb_false a b : cost_ltb a b = false <-> costR b <= costR a.
Proof.
  rewrite <- not_true_iff_false, cost_ltb_spec. split; Lra.lra.
Qed.

(** A bound that holds at [1] and at [2] holds at [sqrt 2]. *)
Lemma between_1_2 (a b : Z) :
  (a + b <= 0)%Z -> (a + 2 * b <= 0)%Z -> IZR a + IZR b * sqrt 2 <= 0.
Proof.
  intros H1 H2. pose proof sqrt2_bounds as [Hs1 Hs2].
  apply IZR_le in H1, H2. rewrite plus_IZR in H1, H2. rewrite mult_IZR in H2.
  destruct (Z.le_gt_cases 0%Z b) as [Hb|Hb].
  - apply IZR_le in Hb. Lra.nra.
  - apply IZR_lt in Hb. Lra.nra.
Qed.

Lemma costR_le_by_ends (a b : Cost) :
  (units a + diags a <= units b + diags b)%Z ->
  (units a + 2 * diags a <= units b + 2 * diags b)%Z ->
  costR a <= costR b.
Proof.
  intros H1 H2. unfold costR.
  pose proof (between_1_2 (units a - units b) (diags a - diags b)) as H.
  rewrite !minus_IZR in H. assert (Hx := H ltac:(lia) ltac:(lia)). Lra.lra.
Qed.

Lemma moveCost_pos u v : 0 < costR (moveCost u v).
Proof.
  pose proof sqrt2_bounds. unfold moveCost, costR.
  destruct (_ || _); simpl; Lra.lra.
Qed.

Lemma heuristic_nonneg x y ex ey : 0 <= costR (heuristic x y ex ey).
Proof.
  pose proof (costR_le_by_ends cost_zero (heuristic x y ex ey)) as H.
  rewrite costR_zero in H. apply H; unfold heuristic; simpl; lia.
Qed.

Lemma heuristic_goal x y : costR (heuristic x y x y) = 0.
Proof.
  unfold heuristic, costR. cbn [units diags]. rewrite !Z.sub_diag.
  change (Z.abs 0) with 0%Z. change (Z.max 0 0 - Z.min 0 0)%Z with 0%Z.
  change (Z.min 0 0) with 0%Z. Lra.lra.
Qed.

(** The octile distance is consistent: it drops by at most the cost of the
    move. *)
Lemma heuristic_consistent (walkable : Grid) (u v e : Point) :
  legalMove walkable u v ->
  costR (heuristic (px u) (py u) (px e) (py e))
  <= costR (moveCost u v) + costR (heuristic (px v) (py v) (px e) (py e)).
Proof.
  intros (Hne & Hdx & Hdy & _). rewrite <- costR_add.
  apply costR_le_by_ends; unfold moveCost, heuristic, cost_add;
    destruct (Z.eqb_spec (px v) (px u)); destruct (Z.eqb_spec (py v) (py u));
    simpl; lia.
Qed.

Local Open Scope Z_scope.

(** *** Keys and bounds *)

Lemma in_bounds_spec (walkable : Grid) (x y : Z) :
  in_bounds walkable x y = true <->
  0 <= x < grid_width walkable /\ 0 <= y < grid_height walkable.
Proof.
  unfold in_bounds. rewrite negb_true_iff, !orb_false_iff, !Z.ltb_ge, !Z.leb_gt.
  lia.
Qed.

Lemma key_inj (w x y x' y' : Z) :
  0 <= x < w -> 0 <= x' < w -> key w x y = key w x' y' -> x = x' /\ y = y'.
Proof.
  unfold key. intros Hx Hx' H.
  assert (y = y') by nia. subst. split; lia.
Qed.

Lemma key_range (walkable : Grid) (x y : Z) :
  in_bounds walkable x y = true ->
  0 <= key (grid_width walkable) x y
     < grid_width walkable * grid_height walkable.
Proof. rewrite in_bounds_spec. unfold key. intros [Hx Hy]. nia. Qed.

(** *** Routes *)

Lemma last_cons_default (a d : Point) (l : list Point) :
  List.last (a :: l) d = List.last l a.
Proof.
  revert a d. induction l as [|b l IH]; intros a d; [reflexivity|].
  change (List.last (a :: b :: l) d) with (List.last (b :: l) d).
  rewrite (IH b d), (IH b a). reflexivity.
Qed.

Lemma route_snoc (walkable : Grid) (u v : Point) (r : list Point) :
  route walkable u r -> legalMove walkable (List.last r u) v ->
  route walkable u (r ++ [v]).
Proof.
  intros Hr. induction Hr as [u|u w rest Hm Hr IH]; intros Hl.
  - simpl in *. constructor; [exact Hl|constructor].
  - simpl. constructor; [exact Hm|]. apply IH.
    rewrite last_cons_default in Hl. exact Hl.
Qed.

Lemma routeCost_snoc (u v : Point) (r : list Point) :
  costR (routeCost u (r ++ [v])) =
  (costR (routeCost u r) + costR (moveCost (List.last r u) v))%R.
Proof.
  revert u. induction r as [|w rest IH]; intros u.
  - simpl. rewrite costR_add, costR_zero. Lra.lra.
  - change (routeCost u ((w :: rest) ++ [v]))
      with (cost_add (moveCost u w) (routeCost w (rest ++ [v]))).
    rewrite costR_add, IH, last_cons_default. simpl routeCost.
    rewrite costR_add. Lra.lra.
Qed.

Lemma routeCost_nonneg (u : Point) (r : list Point) :
  (0 <= costR (routeCost u r))%R.
Proof.
  revert u. induction r as [|w rest IH]; intros u; simpl.
  - rewrite costR_zero. Lra.lra.
  - rewrite costR_add. pose proof (moveCost_pos u w). pose proof (IH w).
    Lra.lra.
Qed.

Lemma last_snoc_default (r : list Point) (u v : Point) :
  List.last (r ++ [v]) u = v.
Proof. apply List.last_last. Qed.

(** *** Valid nodes *)

Section Nodes.

Variables (walkable : Grid) (start endp : Point).
Hypothesis start_in : in_bounds walkable (px start) (py start) = true.

Local Abbreviation valid := (validNode walkable start endp).

Lemma valid_in_bounds n :
  valid n -> in_bounds walkable (node_x n) (node_y n) = true.
Proof.
  intros H. destruct H as [|p x y Hp (_ & _ & _ & Hb & _)]; simpl; assumption.
Qed.

Lemma valid_f n :
  valid n ->
  node_f n =
  cost_add (node_g n) (heuristic (node_x n) (node_y n) (px endp) (py endp)).
Proof.
  intros H. destruct H; [|reflexivity].
  unfold startNode. cbn [node_f node_g node_x node_y].
  generalize (heuristic (px start) (py start) (px endp) (py endp)).
  intros [a b]. reflexivity.
Qed.

Lemma valid_g_nonneg n : valid n -> (0 <= costR (node_g n))%R.
Proof.
  intros H. induction H as [|p x y Hp IH Hm]; simpl.
  - rewrite costR_zero. Lra.lra.
  - rewrite costR_add. pose proof (moveCost_pos (node_pos p) (mkPoint x y)).
    Lra.lra.
Qed.

(** Every route from the position of a valid node extends the node. *)
Lemma route_valid (p : AStarNode) (r : list Point) :
  valid p -> route walkable (node_pos p) r ->
  exists n, valid n /\ node_pos n = List.last r (node_pos p) /\
            costR (node_g n) =
            (costR (node_g p) + costR (routeCost (node_pos p) r))%R.
Proof.
  intros Hp Hr. remember (node_pos p) as u eqn:Hu. revert p Hp Hu.
  induction Hr as [u|u v rest Hm Hr IH]; intros p Hp Hu.
  - exists p. split; [exact Hp|]. split; [simpl; congruence|].
    simpl. rewrite costR_zero. Lra.lra.
  - subst u. destruct v as [x y].
    destruct (IH _ (valid_step walkable start endp p x y Hp Hm) eq_refl)
      as (n & Hn & Hpos & Hg).
    exists n. split; [exact Hn|]. split.
    + rewrite Hpos, last_cons_default. reflexivity.
    + rewrite Hg. cbn [node_pos node_x node_y node_g routeCost].
      rewrite !costR_add. Lra.lra.
Qed.

(** The walk back from a valid node is a route from the start to the node,
    it avoids the start tile and costs no more than the node's [g]. *)
Lemma walkBack_route n :
  valid n ->
  let r := rev (walkBack start n) in
  route walkable start r /\
  List.last r start = node_pos n /\
  ~ In start r /\
  (costR (routeCost start r) <= costR (node_g n))%R.
Proof.
  intros H. induction H as [|p x y Hp IH Hm].
  - simpl. rewrite !Z.eqb_refl. simpl. split; [constructor|].
    split; [destruct start; reflexivity|]. split; [tauto|].
    rewrite !costR_zero. Lra.lra.
  - simpl walkBack.
    destruct ((x =? px start) && (y =? py start)) eqn:E.
    + apply andb_true_iff in E as [Ex Ey].
      apply Z.eqb_eq in Ex, Ey. subst x y. simpl.
      split; [constructor|]. split; [destruct start; reflexivity|].
      split; [tauto|].
      rewrite costR_zero.
      apply (valid_g_nonneg _ (valid_step walkable start endp p _ _ Hp Hm)).
    + destruct IH as (Hr & Hl & Hni & Hc).
      assert (Hwb : match Some p with
                    | Some q => walkBack start q
                    | None => []
                    end = walkBack start p) by reflexivity.
      cbn zeta. simpl rev. split; [|split; [|split]].
      * apply route_snoc; [exact Hr|]. rewrite Hl. exact Hm.
      * rewrite last_snoc_default. reflexivity.
      * rewrite in_app_iff. intros [Hin|[Heq|[]]]; [exact (Hni Hin)|].
        rewrite <- Heq in E. simpl in E. rewrite !Z.eqb_refl in E.
        discriminate E.
      * rewrite routeCost_snoc, Hl. simpl node_g. rewrite costR_add.
        Lra.lra.
Qed.

End Nodes.

(** *** The open list *)

Lemma scanBest_spec (rest : list AStarNode) :
  forall (pre : list AStarNode) (i bestIdx : nat) (best : AStarNode),
    length pre = i -> pre !! bestIdx = Some best ->
    (forall m, In m pre -> (costR (node_f best) <= costR (node_f m))%R) ->
    forall idx n, scanBest rest i bestIdx best = (idx, n) ->
      (pre ++ rest) !! idx = Some n /\
      forall m, In m (pre ++ rest) ->
                (costR (node_f n) <= costR (node_f m))%R.
Proof.
  induction rest as [|n0 tl IH]; intros pre i bestIdx best Hlen Hb Hmin idx n.
  - simpl. intros [= <- <-]. rewrite app_nil_r. auto.
  - simpl. destruct (cost_ltb (node_f n0) (node_f best)) eqn:E.
    + apply cost_ltb_spec in E. intros Hs.
      replace (pre ++ n0 :: tl) with ((pre ++ [n0]) ++ tl)
        by (rewrite <- app_assoc; reflexivity).
      apply (IH (pre ++ [n0]) (S i) i n0); try exact Hs.
      * rewrite length_app. simpl. lia.
      * subst i. apply list_lookup_middle. reflexivity.
      * intros m Hm. apply in_app_iff in Hm as [Hm|[<-|[]]].
        -- specialize (Hmin m Hm). Lra.lra.
        -- Lra.lra.
    + apply cost_ltb_false in E. intros Hs.
      replace (pre ++ n0 :: tl) with ((pre ++ [n0]) ++ tl)
        by (rewrite <- app_assoc; reflexivity).
      apply (IH (pre ++ [n0]) (S i) bestIdx best); try exact Hs.
      * rewrite length_app. simpl. lia.
      * apply lookup_app_l_Some. exact Hb.
      * intros m Hm. apply in_app_iff in Hm as [Hm|[<-|[]]]; auto.
Qed.

Lemma swapRemove_perm (i : nat) (l : list AStarNode) (n : AStarNode) :
  l !! i = Some n -> l ≡ₚ n :: swapRemove i l.
Proof.
  intros Hi. unfold swapRemove.
  destruct (last l) as [z|] eqn:Hl.
  - apply last_Some in Hl as [l' ->].
    destruct (decide (i < length l')%nat) as [Hlt|Hge].
    + rewrite insert_app_l by exact Hlt. rewrite removelast_last.
      rewrite lookup_app_l in Hi by exact Hlt.
      rewrite insert_take_drop by exact Hlt.
      set (A := take i l'). set (B := drop (S i) l').
      assert (Hl' : l' = A ++ n :: B).
      { symmetry. apply take_drop_middle. exact Hi. }
      rewrite Hl' at 1. rewrite <- app_assoc.
      change ((n :: B) ++ [z]) with (n :: (B ++ [z])).
      etransitivity; [symmetry; apply Permutation_middle|].
      apply perm_skip. apply Permutation_app_head.
      apply (Permutation_app_comm B [z]).
    + assert (Hlen : i = length l').
      { apply lookup_lt_Some in Hi. rewrite length_app in Hi. simpl in Hi.
        lia. }
      subst i. rewrite list_lookup_middle in Hi by reflexivity.
      injection Hi as <-.
      rewrite list_insert_id by (apply list_lookup_middle; reflexivity).
      rewrite removelast_last. rewrite Permutation_app_comm. reflexivity.
  - apply last_None in Hl. subst l. discriminate Hi.
Qed.

(** *** One direction of the expansion *)

Lemma relax_eq (walkable : Grid) (endp : Point) (current : AStarNode)
    (closed : gset Z) (open : list AStarNode) (gs : gmap Z Cost)
    (dx dy : Z) (cost : Cost) :
  relax walkable endp current closed (open, gs) (dx, dy, cost) =
  if relaxGuard walkable (node_x current) (node_y current) dx dy then
    if bool_decide
         (key (grid_width walkable) (node_x current + dx) (node_y current + dy)
            ∈ closed)
    then (open, gs)
    else
      match gs !! key (grid_width walkable) (node_x current + dx)
                    (node_y current + dy) with
      | Some prevG =>
          if cost_ltb (cost_add (node_g current) cost) prevG
          then (open ++ [pushed endp current dx dy cost],
                <[key (grid_width walkable) (node_x current + dx)
                    (node_y current + dy) := cost_add (node_g current) cost]> gs)
          else (open, gs)
      | None =>
          (open ++ [pushed endp current dx dy cost],
           <[key (grid_width walkable) (node_x current + dx)
               (node_y current + dy) := cost_add (node_g current) cost]> gs)
      end
  else (open, gs).
Proof.
  unfold relax, relaxGuard, pushed.
  destruct (in_bounds walkable _ _); simpl; [|reflexivity].
  destruct (cell walkable (node_x current + dx) (node_y current + dy)); simpl;
    [|reflexivity].
  destruct (negb (dx =? 0) && negb (dy =? 0) && _); simpl; [reflexivity|].
  destruct (bool_decide _); [reflexivity|].
  destruct (gs !! _) as [prevG|]; [|reflexivity].
  destruct (cost_ltb _ prevG); reflexivity.
Qed.

Lemma eqb_add_l (a d : Z) : (a + d =? a) = (d =? 0).
Proof. destruct (Z.eqb_spec (a + d) a); destruct (Z.eqb_spec d 0); lia. Qed.

Lemma dirs_shape (dx dy : Z) (cost : Cost) :
  In (dx, dy, cost) dirs ->
  cost = (if (dx =? 0) || (dy =? 0) then cost_one else SQRT2) /\
  -1 <= dx <= 1 /\ -1 <= dy <= 1 /\ (dx <> 0 \/ dy <> 0).
Proof.
  unfold dirs. simpl. intros Hd.
  repeat (destruct Hd as [Hd|Hd];
          [injection Hd as <- <- <-; simpl;
           split; [reflexivity|lia]|]).
  contradiction.
Qed.

Lemma dirs_legal (walkable : Grid) (u : Point) (dx dy : Z) (cost : Cost) :
  In (dx, dy, cost) dirs ->
  (relaxGuard walkable (px u) (py u) dx dy = true <->
   legalMove walkable u (mkPoint (px u + dx) (py u + dy))) /\
  cost = moveCost u (mkPoint (px u + dx) (py u + dy)).
Proof.
  intros Hd. apply dirs_shape in Hd as (-> & Hdx & Hdy & Hne). split.
  - unfold relaxGuard, legalMove. cbn [px py].
    replace (px u + dx - px u) with dx by lia.
    replace (py u + dy - py u) with dy by lia.
    destruct (in_bounds walkable (px u + dx) (py u + dy));
      destruct (cell walkable (px u + dx) (py u + dy));
      destruct (cell walkable (px u) (py u + dy));
      destruct (cell walkable (px u + dx) (py u));
      destruct (Z.eqb_spec dx 0); destruct (Z.eqb_spec dy 0); simpl;
      intuition (try discriminate; try lia).
  - unfold moveCost. cbn [px py]. rewrite !eqb_add_l. reflexivity.
Qed.

Lemma legal_dir (walkable : Grid) (u v : Point) :
  legalMove walkable u v ->
  exists dx dy cost, In (dx, dy, cost) dirs /\
                     v = mkPoint (px u + dx) (py u + dy).
Proof.
  intros (Hne & Hdx & Hdy & _).
  exists (px v - px u), (py v - py u),
         (if (px v - px u =? 0) || (py v - py u =? 0) then cost_one else SQRT2).
  split.
  - assert (Hx : px v - px u = -1 \/ px v - px u = 0 \/ px v - px u = 1) by lia.
    assert (Hy : py v - py u = -1 \/ py v - py u = 0 \/ py v - py u = 1) by lia.
    destruct Hx as [Hx|[Hx|Hx]]; destruct Hy as [Hy|[Hy|Hy]];
      rewrite Hx, Hy in *; simpl; try lia; tauto.
  - destruct v as [vx vy]. simpl. f_equal; lia.
Qed.

(** *** The expansion of a node *)

Section Expansion.

Variables (walkable : Grid) (start endp : Point).
Hypothesis start_in : in_bounds walkable (px start) (py start) = true.

Local Abbreviation valid := (validNode walkable start endp).
Local Abbreviation W := (grid_width walkable).

Lemma nodeKey_inj (n m : AStarNode) :
  valid n -> valid m -> nodeKey walkable n = nodeKey walkable m ->
  node_pos n = node_pos m.
Proof.
  intros Hn Hm Hk.
  apply (valid_in_bounds _ _ _ start_in) in Hn, Hm.
  apply in_bounds_spec in Hn as [Hn _]. apply in_bounds_spec in Hm as [Hm _].
  destruct (key_inj _ _ _ _ _ Hn Hm Hk) as [Hx Hy].
  unfold node_pos. congruence.
Qed.

Lemma scoresLe_refl closed gs : scoresLe closed gs gs.
Proof.
  split; [reflexivity|]. intros k g H. exists g. split; [exact H|Lra.lra].
Qed.

Lemma scoresLe_trans closed gs1 gs2 gs3 :
  scoresLe closed gs1 gs2 -> scoresLe closed gs2 gs3 ->
  scoresLe closed gs1 gs3.
Proof.
  intros [Ha1 Ha2] [Hb1 Hb2]. split.
  - intros k Hk. rewrite Hb1, Ha1 by exact Hk. reflexivity.
  - intros k g Hg. destruct (Ha2 k g Hg) as (g' & Hg' & Hle).
    destruct (Hb2 k g' Hg') as (g'' & Hg'' & Hle').
    exists g''. split; [exact Hg''|Lra.lra].
Qed.

Lemma relaxed_mono current closed gs gs' v :
  scoresLe closed gs gs' -> relaxed walkable current closed gs v ->
  relaxed walkable current closed gs' v.
Proof.
  intros [_ Hle] [Hc|(gv & Hgv & Hb)]; [left; exact Hc|].
  destruct (Hle _ _ Hgv) as (g' & Hg' & Hle'). right.
  exists g'. split; [exact Hg'|Lra.lra].
Qed.

Lemma pushed_valid current dx dy cost :
  valid current -> In (dx, dy, cost) dirs ->
  relaxGuard walkable (node_x current) (node_y current) dx dy = true ->
  valid (pushed endp current dx dy cost).
Proof.
  intros Hc Hd Hg.
  destruct (dirs_legal walkable (node_pos current) dx dy cost Hd) as [Hl ->].
  unfold pushed. apply (valid_step walkable start endp current _ _ Hc).
  apply Hl. exact Hg.
Qed.

(** A push keeps the invariant of the open list. *)
Lemma push_inv current closed open gs dx dy cost :
  OpenInv walkable start endp open closed gs ->
  valid (pushed endp current dx dy cost) ->
  (forall prev,
      gs !! nodeKey walkable (pushed endp current dx dy cost) = Some prev ->
      (costR (cost_add (node_g current) cost) <= costR prev)%R) ->
  OpenInv walkable start endp
    (open ++ [pushed endp current dx dy cost]) closed
    (<[nodeKey walkable (pushed endp current dx dy cost)
       := cost_add (node_g current) cost]> gs).
Proof.
  intros [H1 H2 H3 H4] Hv Hprev.
  set (nw := pushed endp current dx dy cost) in *.
  set (kv := nodeKey walkable nw) in *.
  assert (Hg : node_g nw = cost_add (node_g current) cost) by reflexivity.
  split.
  - intros n Hn. apply in_app_iff in Hn as [Hn|[<-|[]]]; auto.
  - intros n Hn. destruct (decide (nodeKey walkable n = kv)) as [Hk|Hk].
    + rewrite Hk, lookup_insert_eq. eexists. split; [reflexivity|].
      apply in_app_iff in Hn as [Hn|[<-|[]]]; [|rewrite Hg; Lra.lra].
      destruct (H2 n Hn) as (g & Hgn & Hle). rewrite Hk in Hgn.
      specialize (Hprev g Hgn). Lra.lra.
    + rewrite lookup_insert_ne by congruence.
      apply in_app_iff in Hn as [Hn|[<-|[]]]; [auto|contradiction].
  - intros k g. destruct (decide (k = kv)) as [->|Hk].
    + rewrite lookup_insert_eq. intros [= <-]. right. exists nw.
      split; [apply in_app_iff; right; left; reflexivity|auto].
    + rewrite lookup_insert_ne by congruence. intros Hg'.
      destruct (H3 k g Hg') as [Hc|(n & Hn & Hkn & Hgn)]; [auto|].
      right. exists n. split; [apply in_app_iff; auto|auto].
  - intros k g. destruct (decide (k = kv)) as [->|Hk].
    + rewrite lookup_insert_eq. intros [= <-]. exists nw. auto.
    + rewrite lookup_insert_ne by congruence. apply H4.
Qed.

Lemma relax_step current closed open gs dx dy cost :
  OpenInv walkable start endp open closed gs ->
  valid current -> In (dx, dy, cost) dirs ->
  forall open' gs',
    relax walkable endp current closed (open, gs) (dx, dy, cost)
      = (open', gs') ->
    OpenInv walkable start endp open' closed gs' /\
    scoresLe closed gs gs' /\
    (length open' <= S (length open))%nat /\
    (forall m, In m open -> In m open') /\
    (legalMove walkable (node_pos current)
       (mkPoint (node_x current + dx) (node_y current + dy)) ->
     relaxed walkable current closed gs'
       (mkPoint (node_x current + dx) (node_y current + dy))).
Proof.
  intros Hinv Hc Hd open' gs'. rewrite relax_eq.
  destruct (dirs_legal walkable (node_pos current) dx dy cost Hd) as [Hl Hcost].
  cbn [node_pos px py] in Hl, Hcost.
  assert (Hsame : OpenInv walkable start endp open closed gs /\
                  scoresLe closed gs gs /\
                  (length open <= S (length open))%nat /\
                  (forall m, In m open -> In m open)).
  { split; [exact Hinv|]. split; [apply scoresLe_refl|]. split; [lia|auto]. }
  destruct (relaxGuard walkable (node_x current) (node_y current) dx dy) eqn:Eg.
  2:{ intros [= <- <-]. destruct Hsame as (A & B & C & D).
      split; [exact A|]. split; [exact B|]. split; [exact C|].
      split; [exact D|].
      intros Hlm. apply Hl in Hlm. discriminate Hlm. }
  set (v := mkPoint (node_x current + dx) (node_y current + dy)).
  assert (HcostR : costR cost = costR (moveCost (node_pos current) v))
    by (f_equal; exact Hcost).
  change (key W (node_x current + dx) (node_y current + dy))
    with (pointKey walkable v).
  assert (Hpv : valid (pushed endp current dx dy cost))
    by (apply pushed_valid; assumption).
  assert (Hpush : forall (Hp : forall prev, gs !! pointKey walkable v = Some prev ->
                      (costR (cost_add (node_g current) cost) <= costR prev)%R),
             pointKey walkable v ∉ closed ->
             OpenInv walkable start endp
               (open ++ [pushed endp current dx dy cost]) closed
               (<[pointKey walkable v := cost_add (node_g current) cost]> gs) /\
             scoresLe closed gs
               (<[pointKey walkable v := cost_add (node_g current) cost]> gs) /\
             (length (open ++ [pushed endp current dx dy cost])
              <= S (length open))%nat /\
             (forall m, In m open ->
                        In m (open ++ [pushed endp current dx dy cost])) /\
             (legalMove walkable (node_pos current) v ->
              relaxed walkable current closed
                (<[pointKey walkable v := cost_add (node_g current) cost]> gs)
                v)).
  { intros Hp Hnc. split; [apply (push_inv current closed open gs dx dy cost Hinv Hpv Hp)|].
    split; [|split; [|split]].
    - split.
      + intros k Hk. rewrite lookup_insert_ne; [reflexivity|].
        intros <-. contradiction.
      + intros k g Hg. destruct (decide (k = pointKey walkable v)) as [->|Hk].
        * rewrite lookup_insert_eq. eexists. split; [reflexivity|]. auto.
        * rewrite lookup_insert_ne by congruence. exists g.
          split; [exact Hg|Lra.lra].
    - rewrite length_app. simpl. lia.
    - intros m Hm. apply in_app_iff. auto.
    - intros _. right. rewrite lookup_insert_eq. eexists.
      split; [reflexivity|]. rewrite costR_add, HcostR. Lra.lra. }
  destruct (bool_decide (pointKey walkable v ∈ closed)) eqn:Ec.
  { apply bool_decide_eq_true in Ec. intros [= <- <-].
    destruct Hsame as (A & B & C & D).
    split; [exact A|]. split; [exact B|]. split; [exact C|].
    split; [exact D|]. intros _. left. exact Ec. }
  apply bool_decide_eq_false in Ec.
  destruct (gs !! pointKey walkable v) as [prevG|] eqn:Egs.
  - destruct (cost_ltb (cost_add (node_g current) cost) prevG) eqn:El.
    + apply cost_ltb_spec in El. intros [= <- <-]. apply Hpush; [|exact Ec].
      intros prev [= <-]. Lra.lra.
    + apply cost_ltb_false in El. intros [= <- <-].
      destruct Hsame as (A & B & C & D).
      split; [exact A|]. split; [exact B|]. split; [exact C|].
      split; [exact D|]. intros _. right. exists prevG. split; [exact Egs|].
      rewrite costR_add, HcostR in El. exact El.
  - intros [= <- <-]. apply Hpush; [|exact Ec]. intros prev Hp. discriminate Hp.
Qed.

Lemma relax_fold current closed (ds : list (Z * Z * Cost)) :
  valid current -> (forall d, In d ds -> In d dirs) ->
  forall open gs open' gs',
    OpenInv walkable start endp open closed gs ->
    fold_left (relax walkable endp current closed) ds (open, gs)
      = (open', gs') ->
    OpenInv walkable start endp open' closed gs' /\
    scoresLe closed gs gs' /\
    (length open' <= length open + length ds)%nat /\
    (forall m, In m open -> In m open') /\
    (forall dx dy cost, In (dx, dy, cost) ds ->
       legalMove walkable (node_pos current)
         (mkPoint (node_x current + dx) (node_y current + dy)) ->
       relaxed walkable current closed gs'
         (mkPoint (node_x current + dx) (node_y current + dy))).
Proof.
  intros Hc. induction ds as [|[[dx dy] cost] ds IH];
    intros Hds open gs open' gs' Hinv.
  - simpl. intros [= <- <-]. split; [exact Hinv|].
    split; [apply scoresLe_refl|]. split; [lia|]. split; [auto|].
    intros ? ? ? [].
  - cbn [fold_left].
    destruct (relax walkable endp current closed (open, gs) (dx, dy, cost))
      as [open1 gs1] eqn:E1.
    destruct (relax_step current closed open gs dx dy cost Hinv Hc
                (Hds _ (or_introl eq_refl)) open1 gs1 E1)
      as (A1 & B1 & C1 & D1 & E1').
    intros Hf.
    destruct (IH (fun d Hd => Hds d (or_intror Hd)) open1 gs1 open' gs' A1 Hf)
      as (A2 & B2 & C2 & D2 & E2).
    split; [exact A2|]. split; [exact (scoresLe_trans _ _ _ _ B1 B2)|].
    split; [simpl; lia|]. split; [auto|].
    intros dx' dy' cost' [Heq|Hin] Hlm.
    + injection Heq as <- <- <-. apply (relaxed_mono _ _ _ _ _ B2). auto.
    + eapply E2; eassumption.
Qed.

End Expansion.

(** *** The loop *)

Section Search.

Variables (walkable : Grid) (start endp : Point).
Hypothesis start_in : in_bounds walkable (px start) (py start) = true.
Hypothesis end_in : in_bounds walkable (px endp) (py endp) = true.

Local Abbreviation valid := (validNode walkable start endp).
Local Abbreviation Inv := (SearchInv walkable start endp).

Lemma inv_open open closed gs :
  Inv open closed gs -> OpenInv walkable start endp open closed gs.
Proof. intros [H1 H2 H3 H4 _ _ _ _ _]. split; assumption. Qed.

Lemma pos_eq_h (n m : AStarNode) :
  node_pos n = node_pos m ->
  heuristic (node_x n) (node_y n) (px endp) (py endp) =
  heuristic (node_x m) (node_y m) (px endp) (py endp).
Proof. unfold node_pos. intros [= -> ->]. reflexivity. Qed.

(** Some open node is at least as promising as any valid node on a tile
    that is not closed. *)
Lemma frontier open closed gs :
  Inv open closed gs ->
  forall r, valid r -> nodeKey walkable r ∉ closed ->
    exists m, In m open /\
              (costR (node_f m) <=
               costR (node_g r) +
               costR (heuristic (node_x r) (node_y r) (px endp) (py endp)))%R.
Proof.
  intros HI r Hr. induction Hr as [|p x y Hp IH Hm]; intros Hnc.
  - destruct (inv_start _ _ _ _ _ _ HI) as (g & Hg & Hg0).
    destruct (inv_score_open _ _ _ _ _ _ HI _ _ Hg)
      as [Hc|(m & Hm & Hk & Hgm)]; [contradiction|].
    exists m. split; [exact Hm|].
    pose proof (inv_valid _ _ _ _ _ _ HI m Hm) as Hvm.
    rewrite (valid_f _ _ _ m Hvm), costR_add, Hgm.
    assert (Hpos : node_pos m = node_pos (startNode start endp)).
    { apply (nodeKey_inj walkable start endp start_in); [exact Hvm|constructor|exact Hk]. }
    rewrite (pos_eq_h _ _ Hpos).
    pose proof (valid_g_nonneg walkable start endp _
                  (valid_start walkable start endp)).
    Lra.lra.
  - set (r := Node x y _ _ (Some p)) in *.
    assert (Hvr : valid r) by (constructor; assumption).
    destruct (decide (nodeKey walkable p ∈ closed)) as [Hpc|Hpc].
    + destruct (inv_closed_edges _ _ _ _ _ _ HI p (mkPoint x y) Hp Hpc Hm)
        as (gu & gv & Hgu & Hgv & Hle).
      destruct (inv_closed_best _ _ _ _ _ _ HI _ Hpc) as (g' & Hg' & Hbest).
      rewrite Hgu in Hg'. injection Hg' as <-.
      specialize (Hbest p Hp eq_refl).
      destruct (inv_score_open _ _ _ _ _ _ HI _ _ Hgv)
        as [Hc|(m & Hmo & Hk & Hgm)]; [contradiction|].
      exists m. split; [exact Hmo|].
      pose proof (inv_valid _ _ _ _ _ _ HI m Hmo) as Hvm.
      rewrite (valid_f _ _ _ m Hvm), costR_add, Hgm.
      assert (Hpos : node_pos m = node_pos r).
      { apply (nodeKey_inj walkable start endp start_in); assumption. }
      rewrite (pos_eq_h _ _ Hpos). subst r. cbn [node_g].
      rewrite costR_add. Lra.lra.
    + destruct (IH Hpc) as (m & Hmo & Hle). exists m. split; [exact Hmo|].
      pose proof (heuristic_consistent walkable (node_pos p) (mkPoint x y)
                    endp Hm) as Hcons.
      subst r. cbn [node_g node_x node_y]. cbn [node_pos px py] in Hcons.
      rewrite costR_add. cbn [node_x node_y] in Hle. Lra.lra.
Qed.

(** The node popped with the least [f] from a tile that is not closed has
    the least [g] of all valid nodes on that tile. *)
Lemma popped_best open closed gs n :
  Inv open closed gs -> In n open ->
  (forall m, In m open -> (costR (node_f n) <= costR (node_f m))%R) ->
  nodeKey walkable n ∉ closed ->
  forall r, valid r -> nodeKey walkable r = nodeKey walkable n ->
            (costR (node_g n) <= costR (node_g r))%R.
Proof.
  intros HI Hn Hmin Hnc r Hr Hk.
  destruct (frontier open closed gs HI r Hr) as (m & Hm & Hle).
  { rewrite Hk. exact Hnc. }
  specialize (Hmin m Hm).
  pose proof (inv_valid _ _ _ _ _ _ HI n Hn) as Hvn.
  rewrite (valid_f _ _ _ n Hvn), costR_add in Hmin.
  assert (Hpos : node_pos r = node_pos n)
    by (apply (nodeKey_inj walkable start endp start_in); assumption).
  rewrite (pos_eq_h _ _ Hpos) in Hle. Lra.lra.
Qed.

Lemma stale_pop open open1 closed gs n :
  Inv open closed gs -> open ≡ₚ n :: open1 ->
  nodeKey walkable n ∈ closed -> Inv open1 closed gs.
Proof.
  intros [H1 H2 H3 H4 H5 H6 H7 H8 H9] Hperm Hc.
  assert (Hsub : forall m, In m open1 -> In m open).
  { intros m Hm. apply list_elem_of_In. rewrite Hperm.
    apply list_elem_of_In. right. exact Hm. }
  split; auto.
  intros k g Hg. destruct (H3 k g Hg) as [Hk|(m & Hm & Hk & Hgm)]; [auto|].
  apply list_elem_of_In in Hm. rewrite Hperm in Hm.
  apply list_elem_of_In in Hm. destruct Hm as [<-|Hm].
  - left. rewrite <- Hk. exact Hc.
  - right. exists m. auto.
Qed.

(** The edges out of the tile that is being closed are relaxed. *)
Lemma close_edges open closed gs gs2 n gn :
  Inv open closed gs -> valid n ->
  (forall r, valid r -> nodeKey walkable r = nodeKey walkable n ->
             (costR (node_g n) <= costR (node_g r))%R) ->
  (forall k, k ∈ closed -> gs2 !! k = gs !! k) ->
  gs2 !! nodeKey walkable n = Some gn ->
  (costR (node_g n) <= costR gn)%R ->
  (forall dx dy cost, In (dx, dy, cost) dirs ->
     legalMove walkable (node_pos n)
       (mkPoint (node_x n + dx) (node_y n + dy)) ->
     relaxed walkable n ({[ nodeKey walkable n ]} ∪ closed) gs2
       (mkPoint (node_x n + dx) (node_y n + dy))) ->
  forall v, legalMove walkable (node_pos n) v ->
    exists gv, gs2 !! pointKey walkable v = Some gv /\
               (costR gv <= costR gn + costR (moveCost (node_pos n) v))%R.
Proof.
  intros HI Hvn Hbest B1 Hgn2 Hgn_ge E v Hlm.
  destruct (legal_dir walkable (node_pos n) v Hlm)
    as (dx & dy & cost & Hd & Hv).
  assert (Hv' : v = mkPoint (node_x n + dx) (node_y n + dy)) by exact Hv.
  clear Hv. subst v.
  destruct (E dx dy cost Hd Hlm) as [Hvc|(gv & Hgv & Hle)].
  - (* the neighbour was closed before *)
    assert (Hvc' : pointKey walkable
                     (mkPoint (node_x n + dx) (node_y n + dy)) ∈ closed).
    { apply elem_of_union in Hvc as [Hvc|Hvc]; [|exact Hvc].
      apply elem_of_singleton in Hvc. exfalso.
      destruct Hlm as (Hnz & _ & _ & Hb & _).
      apply in_bounds_spec in Hb as [Hb _].
      pose proof (valid_in_bounds _ _ _ start_in n Hvn) as Hbn.
      apply in_bounds_spec in Hbn as [Hbn _].
      destruct (key_inj _ _ _ _ _ Hb Hbn Hvc) as [Hx Hy].
      unfold node_pos in Hnz. simpl in Hnz, Hx, Hy. lia. }
    destruct (inv_closed_best _ _ _ _ _ _ HI _ Hvc') as (gv & Hgv & Hb).
    exists gv. split.
    + rewrite (B1 _ Hvc'). exact Hgv.
    + specialize (Hb _ (valid_step walkable start endp n _ _ Hvn Hlm)
                     eq_refl).
      cbn [node_g] in Hb. rewrite costR_add in Hb. Lra.lra.
  - exists gv. split; [exact Hgv|]. Lra.lra.
Qed.

Lemma close_pop open open1 open2 closed gs gs2 n :
  Inv open closed gs -> open ≡ₚ n :: open1 ->
  (forall m, In m open -> (costR (node_f n) <= costR (node_f m))%R) ->
  nodeKey walkable n ∉ closed ->
  node_pos n <> endp ->
  fold_left (relax walkable endp n ({[ nodeKey walkable n ]} ∪ closed)) dirs
            (open1, gs) = (open2, gs2) ->
  Inv open2 ({[ nodeKey walkable n ]} ∪ closed) gs2 /\
  (length open2 <= length open1 + 8)%nat.
Proof.
  intros HI Hperm Hmin Hnc Hne Hfold.
  assert (Hn : In n open).
  { apply list_elem_of_In. rewrite Hperm. left. }
  pose proof (inv_valid _ _ _ _ _ _ HI n Hn) as Hvn.
  pose proof (popped_best open closed gs n HI Hn Hmin Hnc) as Hbest.
  assert (Hsub : forall m, In m open1 -> In m open).
  { intros m Hm. apply list_elem_of_In. rewrite Hperm.
    apply list_elem_of_In. right. exact Hm. }
  assert (Ho1 : OpenInv walkable start endp open1
                  ({[ nodeKey walkable n ]} ∪ closed) gs).
  { destruct HI as [H1 H2 H3 H4 _ _ _ _ _]. split; auto.
    intros k g Hg. destruct (H3 k g Hg) as [Hk|(m & Hm & Hk & Hgm)].
    - left. apply elem_of_union. right. exact Hk.
    - apply list_elem_of_In in Hm. rewrite Hperm in Hm.
      apply list_elem_of_In in Hm. destruct Hm as [<-|Hm].
      + left. apply elem_of_union. left. apply elem_of_singleton.
        symmetry. exact Hk.
      + right. exists m. auto. }
  destruct (relax_fold walkable start endp n _ dirs Hvn
              (fun d Hd => Hd) open1 gs open2 gs2 Ho1 Hfold)
    as ([A1 A2 A3 A4] & [B1 B2] & C & D & E).
  split; [|exact C].
  assert (B1' : forall k, k ∈ closed -> gs2 !! k = gs !! k).
  { intros k Hk. apply B1. apply elem_of_union. right. exact Hk. }
  (* the score of the tile that is being closed *)
  destruct (inv_open_score _ _ _ _ _ _ HI n Hn) as (gn & Hgn & Hgn_le).
  assert (Hgn2 : gs2 !! nodeKey walkable n = Some gn).
  { rewrite B1; [exact Hgn|]. apply elem_of_union. left.
    apply elem_of_singleton. reflexivity. }
  assert (Hgn_ge : (costR (node_g n) <= costR gn)%R).
  { destruct (inv_score_real _ _ _ _ _ _ HI _ _ Hgn) as (r & Hr & Hk & <-).
    apply Hbest; assumption. }
  split; [exact A1|exact A2|exact A3|exact A4|..].
  - (* closed tiles carry the best score *)
    intros k Hk. apply elem_of_union in Hk as [Hk|Hk].
    + apply elem_of_singleton in Hk. subst k. exists gn.
      split; [exact Hgn2|]. intros r Hr Hkr.
      specialize (Hbest r Hr Hkr). Lra.lra.
    + destruct (inv_closed_best _ _ _ _ _ _ HI k Hk) as (g & Hg & Hb).
      exists g. split; [|exact Hb]. rewrite (B1' _ Hk). exact Hg.
  - (* the edges out of closed tiles are relaxed *)
    intros u v Hu Hku Hlm. apply elem_of_union in Hku as [Hku|Hku].
    + apply elem_of_singleton in Hku.
      assert (Hpos : node_pos u = node_pos n)
        by (apply (nodeKey_inj walkable start endp start_in); assumption).
      rewrite Hpos in Hlm.
      destruct (close_edges open closed gs gs2 n gn HI Hvn Hbest B1' Hgn2
                  Hgn_ge E v Hlm) as (gv & Hgv & Hle).
      exists gn, gv. rewrite Hku, Hpos. auto.
    + destruct (inv_closed_edges _ _ _ _ _ _ HI u v Hu Hku Hlm)
        as (gu & gv & Hgu & Hgv & Hle).
      destruct (B2 _ _ Hgv) as (gv' & Hgv' & Hle').
      exists gu, gv'. split; [rewrite (B1' _ Hku); exact Hgu|].
      split; [exact Hgv'|Lra.lra].
  - (* the start keeps score zero *)
    destruct (inv_start _ _ _ _ _ _ HI) as (g & Hg & Hg0).
    destruct (B2 _ _ Hg) as (g' & Hg' & Hle).
    exists g'. split; [exact Hg'|Lra.lra].
  - (* the destination is not closed *)
    intros Hin. apply elem_of_union in Hin as [Hin|Hin].
    + apply elem_of_singleton in Hin. apply Hne.
      pose proof (valid_in_bounds _ _ _ start_in n Hvn) as Hbn.
      apply in_bounds_spec in Hbn as [Hbn _].
      pose proof end_in as Hbe. apply in_bounds_spec in Hbe as [Hbe _].
      destruct (key_inj _ _ _ _ _ Hbe Hbn Hin) as [Hx Hy].
      unfold node_pos. rewrite <- Hx, <- Hy. destruct endp. reflexivity.
    + exact (inv_end_open _ _ _ _ _ _ HI Hin).
  - (* closed keys are keys of tiles *)
    intros k Hk. apply elem_of_union in Hk as [Hk|Hk].
    + apply elem_of_singleton in Hk. subst k.
      apply key_range. apply (valid_in_bounds _ _ _ start_in n Hvn).
    + exact (inv_closed_range _ _ _ _ _ _ HI k Hk).
Qed.

Lemma last_default (r : list Point) (d : Point) :
  r <> [] -> last r = Some (List.last r d).
Proof.
  induction r as [|a r IH]; [congruence|]. intros _.
  destruct r as [|b r]; [reflexivity|].
  change (last (a :: b :: r)) with (last (b :: r)).
  change (List.last (a :: b :: r) d) with (List.last (b :: r) d).
  apply IH. discriminate.
Qed.

Lemma last_is_default (r : list Point) (d e : Point) :
  last r = Some e -> List.last r d = e.
Proof.
  intros H. destruct r as [|a r]; [discriminate|].
  rewrite (last_default (a :: r) d) in H by discriminate. congruence.
Qed.

Lemma startNode_pos : node_pos (startNode start endp) = start.
Proof. destruct start. reflexivity. Qed.

Lemma route_from_start (r : list Point) :
  route walkable start r ->
  exists n, valid n /\ node_pos n = List.last r start /\
            costR (node_g n) = costR (routeCost start r).
Proof.
  intros Hr. rewrite <- startNode_pos in Hr.
  destruct (route_valid walkable start endp _ r (valid_start _ _ _) Hr)
    as (n & Hn & Hpos & Hg).
  rewrite startNode_pos in Hpos, Hg. exists n. split; [exact Hn|].
  split; [exact Hpos|]. rewrite Hg. cbn [node_g startNode].
  rewrite costR_zero. Lra.lra.
Qed.

Lemma init_inv :
  Inv [startNode start endp] ∅
      (<[key (grid_width walkable) (px start) (py start) := cost_zero]> ∅).
Proof.
  assert (Hl : forall k g,
             (<[key (grid_width walkable) (px start) (py start) := cost_zero]>
                (∅ : gmap Z Cost)) !! k = Some g ->
             k = nodeKey walkable (startNode start endp) /\ g = cost_zero).
  { intros k g H. apply lookup_insert_Some in H as [[<- <-]|[_ H]]; [auto|].
    rewrite lookup_empty in H. discriminate H. }
  split.
  - intros n [<-|[]]. constructor.
  - intros n [<-|[]]. exists cost_zero. split; [apply lookup_insert_eq|].
    simpl. Lra.lra.
  - intros k g H. apply Hl in H as [-> ->]. right.
    exists (startNode start endp). split; [left; reflexivity|auto].
  - intros k g H. apply Hl in H as [-> ->].
    exists (startNode start endp). split; [constructor|auto].
  - intros k Hk. apply not_elem_of_empty in Hk. destruct Hk.
  - intros u v _ Hk. apply not_elem_of_empty in Hk. destruct Hk.
  - exists cost_zero. split; [apply lookup_insert_eq|].
    rewrite costR_zero. Lra.lra.
  - apply not_elem_of_empty.
  - intros k Hk. apply not_elem_of_empty in Hk. destruct Hk.
Qed.

Lemma search_unfold fuel first rest closed gs :
  search (S fuel) walkable start endp (first :: rest) closed gs =
  let '(bestIdx, current) := scanBest rest 1 0 first in
  let open1 := swapRemove bestIdx (first :: rest) in
  if (node_x current =? px endp) && (node_y current =? py endp)
  then Some (rev (walkBack start current))
  else
    let ck := key (grid_width walkable) (node_x current) (node_y current) in
    if bool_decide (ck ∈ closed)
    then search fuel walkable start endp open1 closed gs
    else
      let closed1 := {[ ck ]} ∪ closed in
      let '(open2, gScores2) :=
        fold_left (relax walkable endp current closed1) dirs (open1, gs) in
      search fuel walkable start endp open2 closed1 gScores2.
Proof. reflexivity. Qed.

(** What one iteration does with the popped node. *)
Lemma pop_cases first rest closed gs :
  Inv (first :: rest) closed gs ->
  exists idx n,
    scanBest rest 1 0 first = (idx, n) /\
    In n (first :: rest) /\
    first :: rest ≡ₚ n :: swapRemove idx (first :: rest) /\
    (forall m, In m (first :: rest) ->
               (costR (node_f n) <= costR (node_f m))%R).
Proof.
  intros HI. destruct (scanBest rest 1 0 first) as [idx n] eqn:E.
  destruct (scanBest_spec rest [first] 1 0 first eq_refl eq_refl
              ltac:(intros m [<-|[]]; Lra.lra) idx n E) as [Hl Hmin].
  exists idx, n. split; [reflexivity|]. split.
  - apply list_elem_of_In. eapply list_elem_of_lookup_2. exact Hl.
  - split; [apply swapRemove_perm; exact Hl|exact Hmin].
Qed.

Lemma at_end_iff (n : AStarNode) :
  (node_x n =? px endp) && (node_y n =? py endp) = true <->
  node_pos n = endp.
Proof.
  rewrite andb_true_iff, !Z.eqb_eq. unfold node_pos. destruct endp. simpl.
  split; [intros [-> ->]; reflexivity|intros [= -> ->]; auto].
Qed.

Lemma search_post (Hne : start <> endp) (fuel : nat) :
  forall open closed gs p,
    Inv open closed gs ->
    search fuel walkable start endp open closed gs = Some p ->
    searchPost walkable start endp p.
Proof.
  induction fuel as [|fuel IH]; intros open closed gs p HI; [discriminate|].
  destruct open as [|first rest].
  - (* no node left: the destination is unreachable *)
    simpl. intros [= <-]. left. split; [reflexivity|].
    intros r [Hr Hl].
    destruct (route_from_start r Hr) as (n & Hn & Hpos & _).
    destruct (frontier [] closed gs HI n Hn) as (m & [] & _).
    replace (nodeKey walkable n) with (pointKey walkable endp).
    + exact (inv_end_open _ _ _ _ _ _ HI).
    + unfold nodeKey, pointKey.
      assert (Hp : node_pos n = endp).
      { rewrite Hpos. apply last_is_default. exact Hl. }
      rewrite <- Hp. reflexivity.
  - rewrite search_unfold.
    destruct (pop_cases first rest closed gs HI)
      as (idx & n & -> & Hn & Hperm & Hmin).
    cbv zeta.
    pose proof (inv_valid _ _ _ _ _ _ HI n Hn) as Hvn.
    destruct ((node_x n =? px endp) && (node_y n =? py endp)) eqn:Eend.
    + (* the destination is popped *)
      apply at_end_iff in Eend. intros [= <-]. right.
      destruct (walkBack_route walkable start endp start_in n Hvn)
        as (Hr & Hl & Hni & Hc).
      assert (Hnc : nodeKey walkable n ∉ closed).
      { replace (nodeKey walkable n) with (pointKey walkable endp)
          by (rewrite <- Eend; reflexivity).
        exact (inv_end_open _ _ _ _ _ _ HI). }
      split; [|split; [exact Hni|]].
      * split; [exact Hr|].
        rewrite (last_default _ start); [rewrite Hl, Eend; reflexivity|].
        intros Hnil. rewrite Hnil in Hl. simpl in Hl. congruence.
      * intros r [Hrr Hrl].
        destruct (route_from_start r Hrr) as (nr & Hnr & Hpos & Hg).
        assert (Hk : nodeKey walkable nr = nodeKey walkable n).
        { assert (Hp : node_pos nr = node_pos n).
          { rewrite Hpos, Eend. apply last_is_default. exact Hrl. }
          unfold nodeKey. unfold node_pos in Hp. congruence. }
        pose proof (popped_best _ _ _ n HI Hn Hmin Hnc nr Hnr Hk) as Hb.
        Lra.lra.
    + assert (Hnend : node_pos n <> endp).
      { intros Hp. apply at_end_iff in Hp. congruence. }
      change (key (grid_width walkable) (node_x n) (node_y n))
        with (nodeKey walkable n).
      destruct (bool_decide (nodeKey walkable n ∈ closed)) eqn:Ec.
      * apply bool_decide_eq_true in Ec. apply IH.
        exact (stale_pop _ _ _ _ _ HI Hperm Ec).
      * apply bool_decide_eq_false in Ec.
        destruct (fold_left _ dirs _) as [open2 gs2] eqn:Ef.
        apply IH.
        exact (proj1 (close_pop _ _ _ _ _ _ _ HI Hperm Hmin Ec Hnend Ef)).
Qed.

Lemma closed_size (closed : gset Z) (N : Z) :
  (forall k, k ∈ closed -> 0 <= k < N) -> (size closed <= Z.to_nat N)%nat.
Proof.
  intros H.
  assert (Hsub : closed ⊆ list_to_set (seqZ 0 N)).
  { intros k Hk. apply elem_of_list_to_set, elem_of_seqZ.
    specialize (H k Hk). lia. }
  apply subseteq_size in Hsub.
  rewrite size_list_to_set in Hsub by apply NoDup_seqZ.
  rewrite length_seqZ in Hsub. exact Hsub.
Qed.

Lemma fuel_stale (lo lo1 x fuel : nat) :
  lo = S lo1 -> (lo + x < S fuel)%nat -> (lo1 + x < fuel)%nat.
Proof. lia. Qed.

Lemma fuel_close (lo lo1 lo2 N c c1 fuel : nat) :
  lo = S lo1 -> (lo2 <= lo1 + 8)%nat -> c1 = S c -> (c1 <= N)%nat ->
  (lo + 8 * (N - c) < S fuel)%nat -> (lo2 + 8 * (N - c1) < fuel)%nat.
Proof. lia. Qed.

Lemma size_closed_next (closed : gset Z) (k : Z) :
  k ∉ closed -> size ({[ k ]} ∪ closed) = S (size closed).
Proof.
  intros Hk. rewrite size_union by set_solver. rewrite size_singleton.
  reflexivity.
Qed.

Lemma search_fuel_close (fuel : nat) (open1 open2 : list AStarNode) closed gs2 n lo :
  (forall open closed gs,
      Inv open closed gs ->
      (length open +
       8 * (Z.to_nat (grid_width walkable * grid_height walkable)
            - size closed) < fuel)%nat ->
      search fuel walkable start endp open closed gs <> None) ->
  Inv open2 ({[ nodeKey walkable n ]} ∪ closed) gs2 ->
  (length open2 <= length open1 + 8)%nat ->
  nodeKey walkable n ∉ closed ->
  lo = S (length open1) ->
  (lo +
   8 * (Z.to_nat (grid_width walkable * grid_height walkable) - size closed)
   < S fuel)%nat ->
  search fuel walkable start endp open2 ({[ nodeKey walkable n ]} ∪ closed)
    gs2 <> None.
Proof.
  intros IH HI2 Hl2 Ec Hlen Hf. apply IH; [exact HI2|].
  pose proof (closed_size _ _ (inv_closed_range _ _ _ _ _ _ HI2)) as Hs.
  pose proof (size_closed_next closed _ Ec) as Hsz.
  exact (fuel_close _ _ _ _ _ _ _ Hlen Hl2 Hsz Hs Hf).
Qed.

Lemma search_fuel (fuel : nat) :
  forall open closed gs,
    Inv open closed gs ->
    (length open +
     8 * (Z.to_nat (grid_width walkable * grid_height walkable) - size closed)
     < fuel)%nat ->
    search fuel walkable start endp open closed gs <> None.
Proof.
  induction fuel as [|fuel IH]; intros open closed gs HI Hf.
  { exfalso. exact (Nat.nlt_0_r _ Hf). }
  destruct open as [|first rest]; [intros H; discriminate H|].
  rewrite search_unfold.
  destruct (pop_cases first rest closed gs HI)
    as (idx & n & -> & Hn & Hperm & Hmin).
  cbv zeta.
  destruct ((node_x n =? px endp) && (node_y n =? py endp)) eqn:Eend;
    [intros H; discriminate H|].
  assert (Hnend : node_pos n <> endp).
  { intros Hp. apply at_end_iff in Hp. congruence. }
  change (key (grid_width walkable) (node_x n) (node_y n))
    with (nodeKey walkable n).
  pose proof (Permutation_length Hperm) as Hlen.
  destruct (bool_decide (nodeKey walkable n ∈ closed)) eqn:Ec.
  - apply bool_decide_eq_true in Ec. apply IH.
    + exact (stale_pop _ _ _ _ _ HI Hperm Ec).
    + exact (fuel_stale _ _ _ _ Hlen Hf).
  - apply bool_decide_eq_false in Ec.
    destruct (fold_left _ dirs _) as [open2 gs2] eqn:Ef.
    destruct (close_pop _ _ _ _ _ _ _ HI Hperm Hmin Ec Hnend Ef) as [HI2 Hl2].
    exact (search_fuel_close fuel _ open2 closed gs2 n _ IH HI2 Hl2 Ec Hlen Hf).
Qed.

End Search.

(** A route that reaches a tile ends on a walkable tile of the grid. *)
Lemma reaches_end (walkable : Grid) (start endp : Point) (r : list Point) :
  reaches walkable start endp r ->
  in_bounds walkable (px endp) (py endp) = true /\
  cell walkable (px endp) (py endp) = true.
Proof.
  intros [Hr Hl]. induction Hr as [u|u v rest Hm Hr IH]; [discriminate|].
  destruct rest as [|w rest].
  - injection Hl as <-. destruct Hm as (_ & _ & _ & Hb & Hc & _). auto.
  - apply IH. exact Hl.
Qed.

End PathProofs.

(** C1. [findPath] returns the empty list when the start or the destination
    is off the grid, when the destination is not walkable, when start and
    destination coincide and when no route leads from the one to the other.
    Whenever a route exists from a start on the grid to another tile, the
    search ends within its fuel and returns a route of legal moves (eight
    neighbours, cardinal cost 1, diagonal cost [sqrt 2], no diagonal past a
    blocked flanking tile) that leaves out the start tile, ends with the
    destination and costs no more than any other route. *)
Theorem findPath_correct (walkable : Pathfinding.Grid) (start endp : Point) :
  (Pathfinding.in_bounds walkable (px start) (py start) = false \/
   Pathfinding.in_bounds walkable (px endp) (py endp) = false \/
   Pathfinding.cell walkable (px endp) (py endp) = false \/
   start = endp \/
   (forall r, ~ PathSpec.reaches walkable start endp r) ->
   Pathfinding.findPath walkable start endp = []) /\
  (Pathfinding.in_bounds walkable (px start) (py start) = true ->
   start <> endp ->
   (exists r, PathSpec.reaches walkable start endp r) ->
   Pathfinding.searchFrom (Pathfinding.searchFuel walkable) walkable start endp
     = Some (Pathfinding.findPath walkable start endp) /\
   PathSpec.reaches walkable start endp
     (Pathfinding.findPath walkable start endp) /\
   ~ In start (Pathfinding.findPath walkable start endp) /\
   forall r, PathSpec.reaches walkable start endp r ->
     (PathSpec.costR
        (PathSpec.routeCost start (Pathfinding.findPath walkable start endp))
      <= PathSpec.costR (PathSpec.routeCost start r))%R).
Proof.
  assert (Hmain :
    Pathfinding.in_bounds walkable (px start) (py start) = true ->
    Pathfinding.in_bounds walkable (px endp) (py endp) = true ->
    start <> endp ->
    exists p,
      Pathfinding.searchFrom (Pathfinding.searchFuel walkable) walkable
        start endp = Some p /\
      PathSpec.searchPost walkable start endp p).
  { intros Hs He Hne.
    pose proof (PathProofs.init_inv walkable start endp) as HI.
    destruct (Pathfinding.searchFrom (Pathfinding.searchFuel walkable)
                walkable start endp) as [p|] eqn:E.
    - exists p. split; [reflexivity|].
      exact (PathProofs.search_post walkable start endp Hs He Hne _ _ _ _ _
               HI E).
    - exfalso. revert E.
      apply (PathProofs.search_fuel walkable start endp Hs He); [exact HI|].
      rewrite size_empty. unfold Pathfinding.searchFuel. simpl length. lia. }
  assert (Heq : (px start =? px endp) && (py start =? py endp) = true <->
                start = endp).
  { rewrite andb_true_iff, !Z.eqb_eq. destruct start, endp. simpl.
    split; [intros [-> ->]; reflexivity|intros [= -> ->]; auto]. }
  unfold Pathfinding.findPath. split.
  - intros H.
    destruct (Pathfinding.in_bounds walkable (px start) (py start)) eqn:Es;
      [|reflexivity].
    destruct (Pathfinding.in_bounds walkable (px endp) (py endp)) eqn:Ee;
      [|reflexivity].
    destruct (Pathfinding.cell walkable (px endp) (py endp)) eqn:Ec;
      [|reflexivity].
    simpl.
    destruct ((px start =? px endp) && (py start =? py endp)) eqn:Ex;
      [reflexivity|].
    assert (Hne : start <> endp).
    { intros Hse. apply Heq in Hse. discriminate Hse. }
    destruct (Hmain eq_refl eq_refl Hne) as (p & -> & [[-> _]|(Hr & _)]);
      [reflexivity|].
    destruct H as [H|[H|[H|[H|H]]]]; try discriminate H; try contradiction.
    destruct (H p Hr).
  - intros Hs Hne [r Hr].
    destruct (PathProofs.reaches_end walkable start endp r Hr) as [He Hc].
    rewrite Hs, He, Hc. simpl.
    destruct ((px start =? px endp) && (py start =? py endp)) eqn:Ex.
    { destruct Hne. apply Heq. reflexivity. }
    destruct (Hmain Hs He Hne) as (p & -> & [[_ Hno]|(Hrp & Hni & Hopt)]).
    + destruct (Hno r Hr).
    + auto.
Qed.

Lemma findPath_correct_witness :
  Pathfinding.findPath ringGrid (mkPoint 0 0) (mkPoint 2 2)
    = [mkPoint 0 1; mkPoint 0 2; mkPoint 1 2; mkPoint 2 2] /\
  PathSpec.reaches ringGrid (mkPoint 0 0) (mkPoint 2 2)
    (Pathfinding.findPath ringGrid (mkPoint 0 0) (mkPoint 2 2)) /\
  (PathSpec.costR
     (PathSpec.routeCost (mkPoint 0 0)
        (Pathfinding.findPath ringGrid (mkPoint 0 0) (mkPoint 2 2)))
   <= PathSpec.costR (PathSpec.routeCost (mkPoint 0 0) ringRoute))%R /\
  Pathfinding.findPath ringGrid (mkPoint 0 0) (mkPoint 1 1) = [].
Proof.
  assert (Hr : PathSpec.reaches ringGrid (mkPoint 0 0) (mkPoint 2 2)
                 ringRoute).
  { split; [|reflexivity].
    repeat (apply PathSpec.route_cons;
            [unfold PathSpec.legalMove; cbn; repeat split; lia|]).
    apply PathSpec.route_nil. }
  destruct (findPath_correct ringGrid (mkPoint 0 0) (mkPoint 2 2))
    as [_ Hfound].
  destruct (Hfound eq_refl ltac:(discriminate) (ex_intro _ ringRoute Hr))
    as (_ & Hreach & _ & Hbest).
  split; [reflexivity|].
  split; [exact Hreach|].
  split; [exact (Hbest ringRoute Hr)|].
  apply (proj1 (findPath_correct ringGrid (mkPoint 0 0) (mkPoint 1 1))).
  right. right. left. reflexivity.
Defined.

(** ** What the primitives keep *)

Section KeepsFacts.

Variable R : Z -> Z -> Prop.
Context `{!Reflexive R}.

Lemma keeps_refl (e : Entity) : keeps R e e.
Proof. split; auto. Qed.

Lemma keeps_trans `{!Transitive R} (a b c : Entity) :
  keeps R a b -> keeps R b c -> keeps R a c.
Proof.
  intros [] []. split; try congruence; [etransitivity; eassumption|auto].
Qed.

Lemma keeps_fields (e e' : Entity) :
  e_id e' = e_id e -> e_type e' = e_type e -> e_ownerId e' = e_ownerId e ->
  e_buildProgress e' = e_buildProgress e -> e_hp e' = e_hp e ->
  e_trainingQueue e' = e_trainingQueue e ->
  keeps R e e'.
Proof.
  intros H1 H2 H3 H4 H5 H6. split; auto.
  - rewrite H5. reflexivity.
  - unfold unitOrders. rewrite H6. auto.
Qed.

End KeepsFacts.

Ltac keeps_tac :=
  intros; apply keeps_fields; try assumption; try typeclasses eauto;
  repeat case_match; reflexivity.

Section StepFacts.

Variable uuid : nat -> string.
Variable R : Z -> Z -> Prop.
Context `{!Reflexive R}.

Local Abbreviation step := (step uuid R).

Lemma step_entity' a s n id f :
  step a (s, n) ->
  (forall e, getEntity id (entities s) = Some e -> keeps R e (f e)) ->
  step a (updE id f s, n).
Proof. intros H Hf. eapply step_trans; [exact H|]. apply step_entity, Hf. Qed.

Lemma step_all' a s n f :
  step a (s, n) ->
  (forall e, In e (entities s) -> keeps R e (f e)) ->
  step a (set_entities (map f (entities s)) s, n).
Proof. intros H Hf. eapply step_trans; [exact H|]. apply step_all, Hf. Qed.

Lemma step_player' a s n pid f :
  step a (s, n) ->
  (forall p, p_maxSupply (f p) = p_maxSupply p) ->
  step a (updP pid f s, n).
Proof. intros H Hf. eapply step_trans; [exact H|]. apply step_player, Hf. Qed.

Lemma step_mines' a s n m : step a (s, n) -> step a (set_goldMines m s, n).
Proof. intros H. eapply step_trans; [exact H|]. apply step_mines. Qed.

Lemma step_clock' a s n t : step a (s, n) -> step a (set_tick t s, n).
Proof. intros H. eapply step_trans; [exact H|]. apply step_clock. Qed.

Lemma step_spawn' a s n e :
  step a (s, n) -> e_id e = uuid n -> newcomer e ->
  step a (set_entities (putEntity e (entities s)) s, S n).
Proof.
  intros H H1 H2. eapply step_trans; [exact H|]. apply step_spawn; assumption.
Qed.

(** A loop whose body is a step is a step; [view] reads the state and the
    counter off the accumulator of the loop, [I] is kept by every step. *)
Lemma step_fold {A B : Type} (view : A -> GameState * nat)
    (I : GameState * nat -> Prop) (body : A -> B -> A) :
  (forall a b, step a b -> I a -> I b) ->
  (forall acc x, I (view acc) -> step (view acc) (view (body acc x))) ->
  forall l acc, I (view acc) -> step (view acc) (view (fold_left body l acc)).
Proof.
  intros HI Hbody l. induction l as [|x l IH]; intros acc Hacc; simpl.
  - apply step_refl.
  - eapply step_trans; [apply Hbody, Hacc|]. apply IH.
    eapply HI; [apply Hbody, Hacc|exact Hacc].
Qed.

Lemma step_fold_plain {A B : Type} (view : A -> GameState * nat)
    (body : A -> B -> A) :
  (forall acc x, step (view acc) (view (body acc x))) ->
  forall l acc, step (view acc) (view (fold_left body l acc)).
Proof.
  intros Hbody l acc.
  apply (step_fold view (fun _ => True) body); auto.
Qed.

End StepFacts.

Ltac step_tac :=
  repeat first
    [ apply step_refl
    | assumption
    | apply step_entity'; [|keeps_tac]
    | apply step_player'; [|intros; reflexivity]
    | apply step_mines'
    | apply step_clock' ].

Section EconomySteps.

Variable Math_sqrt : Q -> Q.
Variable uuid : nat -> string.
Variable R : Z -> Z -> Prop.
Context `{!Reflexive R}.

Local Abbreviation step := (step uuid R).

Lemma gatherMining_step acc id n :
  step (fst acc, n) (fst (gatherMining Math_sqrt acc id), n).
Proof.
  destruct acc as [s t]. unfold gatherMining. simpl fst.
  repeat case_match; simpl fst; step_tac.
Qed.

Lemma gatherDeposit_step s id n : step (s, n) (gatherDeposit s id, n).
Proof.
  unfold gatherDeposit. repeat case_match; step_tac.
Qed.

Lemma gatherArrive_step acc id n :
  step (fst acc, n) (fst (gatherArrive Math_sqrt acc id), n).
Proof.
  destruct acc as [s t]. unfold gatherArrive. simpl fst.
  repeat case_match; simpl fst; step_tac.
Qed.

End EconomySteps.

(** ** The entity table *)

Lemma In_updateEntity (id : string) (f : Entity -> Entity) (l : list Entity)
    (e' : Entity) :
  In e' (updateEntity id f l) ->
  In e' l \/ exists e, getEntity id l = Some e /\ e' = f e.
Proof.
  unfold getEntity. induction l as [|x l IH]; simpl; [tauto|].
  destruct (bool_decide (e_id x = id)); simpl.
  - intros [<-|H]; [right; eauto|auto].
  - intros [<-|H]; [auto|]. destruct (IH H) as [H'|H']; auto.
Qed.

Lemma In_putEntity (e : Entity) (l : list Entity) (e' : Entity) :
  In e' (putEntity e l) -> e' = e \/ In e' l.
Proof.
  unfold putEntity. destruct (getEntity (e_id e) l) eqn:E.
  - intros H. apply In_updateEntity in H as [H|(x & _ & ->)]; auto.
  - rewrite in_app_iff. simpl. intros [H|[H|[]]]; auto.
Qed.

Section StepInvariants.

Variable uuid : nat -> string.
Variable R : Z -> Z -> Prop.

(** A property of entities that mutations keep and newcomers have holds
    of all entities after a step when it did before. *)
Lemma step_forall (P : Entity -> Prop) :
  (forall e e', keeps R e e' -> P e -> P e') ->
  (forall e, newcomer e -> P e) ->
  forall a b, step uuid R a b ->
    (forall e, In e (entities (fst a)) -> P e) ->
    (forall e, In e (entities (fst b)) -> P e).
Proof.
  intros Hk Hn a b Hs. induction Hs; intros HP x Hx; simpl in *; auto.
  - apply In_updateEntity in Hx as [Hx|(e & He & ->)]; [auto|].
    apply (Hk e); [auto|]. apply HP. eapply getEntity_In, He.
  - apply in_map_iff in Hx as (e & <- & He). apply (Hk e); auto.
  - apply In_putEntity in Hx as [->|Hx]; auto.
Qed.

Lemma step_queues a b :
  step uuid R a b -> QueuesOk (fst a) -> QueuesOk (fst b).
Proof.
  intros Hs. unfold QueuesOk.
  apply (step_forall unitOrders); [|intros e [H _]; exact H|exact Hs].
  intros e e' []. auto.
Qed.

End StepInvariants.

(** ** The economy handlers and systems as steps *)

Lemma trainable_unit (t : EntityType) :
  (ts_cost (getUnitTrainStats t) <=? 0) = false -> isUnitType t = true.
Proof. destruct t; simpl; intros H; try reflexivity; discriminate H. Qed.

Lemma buildingEntityType_not_base (bt : BuildingType) :
  buildingEntityType bt <> homeBase.
Proof. destruct bt; discriminate. Qed.

Section EconomySteps2.

Variable Math_sqrt : Q -> Q.
Variable uuid : nat -> string.
Variable R : Z -> Z -> Prop.
Context `{!Reflexive R}.

Local Abbreviation step := (step uuid R).

Lemma gatherStep_step acc id n :
  step (fst acc, n) (fst (gatherStep Math_sqrt acc id), n).
Proof.
  unfold gatherStep. repeat case_match; try apply step_refl.
  eapply step_trans; [apply gatherMining_step; assumption|].
  eapply step_trans; [|apply gatherArrive_step; assumption].
  apply gatherDeposit_step; assumption.
Qed.

Lemma processGathering_step acc n :
  step (fst acc, n) (fst (processGathering Math_sqrt acc), n).
Proof.
  unfold processGathering.
  apply (step_fold_plain uuid R (fun a => (fst a, n))).
  intros a x. apply gatherStep_step.
Qed.

Lemma keeps_requeue (e : Entity) (o : TrainOrder) (rest : list TrainOrder)
    (t : Z) :
  e_trainingQueue e = Some (o :: rest) ->
  keeps R e (set_trainingQueue (Some (mkOrder (unitType o) t :: rest)) e).
Proof.
  intros Hq. split; try reflexivity.
  unfold unitOrders. rewrite Hq. simpl. intros H x [<-|Hx]; simpl; auto.
Qed.

Lemma keeps_dequeue (e : Entity) :
  keeps R e
    (let q := tail (default [] (e_trainingQueue e)) in
     let b'' := set_trainingQueue (Some q) e in
     match q with
     | [] => set_state idle b''
     | _ => b''
     end).
Proof.
  cbv zeta. split; try (case_match; reflexivity).
  unfold unitOrders. intros H o Ho. apply H.
  destruct (e_trainingQueue e) as [[|x q]|]; simpl in *;
    try (destruct q; simpl in *); tauto.
Qed.

Lemma newcomer_unit id t owner pos hp :
  isUnitType t = true -> newcomer (newUnit id t owner pos hp).
Proof. intros H. split; [intros o []|left; exact H]. Qed.

Lemma trainingStep_step acc bid :
  QueuesOk (fst acc) -> step acc (trainingStep uuid acc bid).
Proof.
  destruct acc as [s n]. unfold trainingStep. simpl fst. intros HQ.
  destruct (getEntity bid (entities s)) as [b|] eqn:Eb; [|apply step_refl].
  destruct (e_trainingQueue b) as [[|order rest]|] eqn:Eq;
    try apply step_refl.
  destruct (underConstruction b); [apply step_refl|].
  assert (Hunit : isUnitType (unitType order) = true).
  { apply (HQ b (getEntity_In _ _ _ Eb)). rewrite Eq. left. reflexivity. }
  cbv zeta.
  assert (H1 : step (s, n)
                 (updE bid
                    (set_trainingQueue
                       (Some (mkOrder (unitType order)
                                (ticksRemaining order - 1) :: rest))) s, n)).
  { apply step_entity. intros e He. rewrite Eb in He. injection He as <-.
    apply keeps_requeue; assumption. }
  simpl ticksRemaining. simpl unitType.
  destruct (ticksRemaining order - 1 <=? 0); [|exact H1].
  match goal with
  | |- context [findSpawnPosition ?s1 b] =>
      destruct (findSpawnPosition s1 b) as [spawnPos|]
  end.
  - apply step_entity'; [|intros e _; apply keeps_dequeue; assumption].
    match goal with
    | |- context [set_entities (putEntity ?u (entities ?s1)) ?s1] =>
        assert (H2 : step (s, n)
                       (set_entities (putEntity u (entities s1)) s1, S n))
    end.
    { apply step_spawn'; [exact H1|reflexivity|].
      apply newcomer_unit, Hunit. }
    repeat case_match; step_tac.
  - apply step_entity'; [exact H1|]. intros e _. apply keeps_dequeue; assumption.
Qed.

Lemma processTraining_step acc :
  QueuesOk (fst acc) -> step acc (processTraining uuid acc).
Proof.
  unfold processTraining. generalize (map e_id (entities (fst acc))).
  intros l. apply (step_fold uuid R (fun a => a) (fun a => QueuesOk (fst a))).
  - intros a b. apply step_queues.
  - intros a x. apply trainingStep_step.
Qed.

Lemma placeBuilding_step a acc owner bt x y hp w h :
  step a acc -> step a (placeBuilding uuid acc owner bt x y hp w h).
Proof.
  destruct acc as [s n]. unfold placeBuilding. intros H.
  apply step_spawn'; [exact H|reflexivity|].
  split; [intros o []|]. right. split; [|reflexivity].
  apply buildingEntityType_not_base.
Qed.

Lemma pendingBuildStep_step acc id : step acc (pendingBuildStep Math_sqrt uuid acc id).
Proof.
  destruct acc as [s n]. unfold pendingBuildStep.
  repeat case_match; try apply step_refl.
  - match goal with H : placeBuilding _ _ _ _ _ _ _ _ _ = (?g, ?m) |- _ =>
      assert (Hp : step (s, n) (g, m))
        by (rewrite <- H; apply placeBuilding_step; step_tac)
    end.
    step_tac.
  - match goal with H : (_, _) = (_, _) |- _ => injection H as <- <- end.
    step_tac.
Qed.

Lemma processPendingBuilds_step acc : step acc (processPendingBuilds Math_sqrt uuid acc).
Proof.
  unfold processPendingBuilds.
  apply (step_fold_plain uuid R (fun a => a)).
  intros a x. apply pendingBuildStep_step.
Qed.

Lemma handleTrainUnit_step s pid bid ut n :
  step (s, n) (handleTrainUnit s pid bid ut, n).
Proof.
  unfold handleTrainUnit. repeat case_match; try apply step_refl.
  apply step_entity'; [step_tac|]. intros b' _.
  split; try reflexivity. unfold unitOrders. simpl.
  intros Hb o Ho. apply in_app_iff in Ho as [Ho|[<-|[]]]; [auto|].
  simpl. apply trainable_unit. assumption.
Qed.

Lemma handleBuildStructure_step acc pid wid bt x y :
  step acc (handleBuildStructure Math_sqrt uuid acc pid wid bt x y).
Proof.
  destruct acc as [s n]. unfold handleBuildStructure.
  repeat case_match; try apply step_refl; try solve [step_tac].
  match goal with H : placeBuilding _ _ _ _ _ _ _ _ _ = (?g, ?m) |- _ =>
    assert (Hp : step (s, n) (g, m))
      by (rewrite <- H; apply placeBuilding_step; step_tac)
  end.
  step_tac.
Qed.

Lemma handleGatherResource_step s pid wids mid n :
  step (s, n) (handleGatherResource s pid wids mid, n).
Proof.
  unfold handleGatherResource. repeat case_match; try apply step_refl.
  apply (step_fold_plain uuid R (fun a => (a, n))).
  intros a x. unfold gatherCommandStep. repeat case_match; step_tac.
Qed.

Lemma handleUpgradeUnit_step s pid aid ut n :
  step (s, n) (handleUpgradeUnit s pid aid ut, n).
Proof. unfold handleUpgradeUnit. repeat case_match; step_tac. Qed.

Lemma processMovement_step s n :
  step (s, n) (processMovement Math_sqrt s, n).
Proof.
  unfold processMovement. apply step_all. intros x _.
  unfold moveEntity. repeat case_match; try exact (keeps_refl R _); keeps_tac.
Qed.

End EconomySteps2.

(** ** Combat as steps that only lower hit points *)

Lemma Math_round_nonneg (q : Q) : (0 <= q)%Q -> 0 <= Math_round q.
Proof.
  intros H. unfold Math_round.
  change 0 with (Qfloor 0). apply Qfloor_resp_le. Lqa.lra.
Qed.

Lemma focusMultiplier_nonneg (count : nat) : (0 <= focusMultiplier count)%Q.
Proof.
  destruct count as [|n]; [vm_compute; discriminate|].
  unfold focusMultiplier, ZtoQ.
  assert (H : (1 <= inject_Z (Z.of_nat (S n)))%Q).
  { change 1%Q with (inject_Z 1). rewrite <- Zle_Qle. lia. }
  assert (Hc : (0 <= FOCUS_FIRE_BONUS)%Q) by (vm_compute; discriminate).
  assert (Ht : (0 <= FOCUS_FIRE_BONUS * (inject_Z (Z.of_nat (S n)) - 1))%Q).
  { apply Qmult_le_0_compat; [exact Hc|Lqa.lra]. }
  apply fl_nonneg. apply fl_nonneg in Ht. Lqa.lra.
Qed.

Lemma getAttackDamage_nonneg (a t : Entity) : 0 <= getAttackDamage a t.
Proof. unfold getAttackDamage. repeat case_match; vm_compute; discriminate. Qed.

Lemma hitDamage_nonneg (s : GameState) (m : Q) (a t : Entity) :
  (0 <= m)%Q -> 0 <= hitDamage s m a t.
Proof.
  intros Hm. unfold hitDamage. apply Math_round_nonneg.
  assert (Hd : (0 <= ZtoQ (getAttackDamage a t))%Q).
  { unfold ZtoQ. change 0%Q with (inject_Z 0). rewrite <- Zle_Qle.
    apply getAttackDamage_nonneg. }
  assert (Hu : (0 <= if 0 <? getAttackerUpgradeLevel s a
                     then getUpgradeDamageMultiplier
                            (getAttackerUpgradeLevel s a)
                     else 1)%Q).
  { case_match; [|discriminate]. unfold getUpgradeDamageMultiplier.
    apply fl_nonneg. apply Qpower.Qpower_0_le. vm_compute. discriminate. }
  apply fl_nonneg. apply Qmult_le_0_compat; [|assumption].
  apply fl_nonneg. apply Qmult_le_0_compat; assumption.
Qed.

Section CombatSteps.

Variable Math_sqrt : Q -> Q.
Variable uuid : nat -> string.
Variable R : Z -> Z -> Prop.
Context `{!Reflexive R}.
Hypothesis damage : forall x d, 0 <= d -> R x (x - d).

Local Abbreviation step := (step uuid R).

Lemma keeps_damage (e : Entity) (d : Z) :
  0 <= d -> keeps R e (set_hp (e_hp e - d) e).
Proof. intros Hd. split; try reflexivity; [apply damage, Hd|auto]. Qed.

Lemma autoAggroStep_step s id n :
  step (s, n) (autoAggroStep Math_sqrt s id, n).
Proof. unfold autoAggroStep. repeat case_match; step_tac. Qed.

Lemma defensiveStep_step acc id n :
  step (fst acc, n) (fst (defensiveStep Math_sqrt acc id), n).
Proof.
  destruct acc as [s cds]. unfold defensiveStep. simpl fst.
  repeat case_match; simpl fst; try solve [step_tac].
  all: apply step_entity'; [|keeps_tac].
  all: apply step_entity; intros t _; apply keeps_damage.
  all: vm_compute; discriminate.
Qed.

Lemma targetingStep_step cds acc id n :
  step (fst acc, n) (fst (targetingStep Math_sqrt cds acc id), n).
Proof.
  destruct acc as [s m]. unfold targetingStep, loseTarget. simpl fst.
  repeat case_match; simpl fst; step_tac.
Qed.

Lemma hitStep_step tid m acc aid n :
  (0 <= m)%Q -> step (fst acc, n) (fst (hitStep tid m acc aid), n).
Proof.
  intros Hm. destruct acc as [s cds]. unfold hitStep. simpl fst.
  repeat case_match; simpl fst; try apply step_refl.
  apply step_entity. intros t _. apply keeps_damage, hitDamage_nonneg, Hm.
Qed.

Lemma batchStep_step acc entry n :
  step (fst acc, n) (fst (batchStep acc entry), n).
Proof.
  unfold batchStep. repeat case_match; try apply step_refl.
  apply (step_fold_plain uuid R (fun a => (fst a, n))).
  intros a x. apply hitStep_step, focusMultiplier_nonneg.
Qed.

(** The passes of [processCombat] before the removal of the dead. *)
Lemma combat_passes_step s cds0 n :
  let ids := map e_id (entities s) in
  let s1 := fold_left (autoAggroStep Math_sqrt) ids s in
  let r2 := fold_left (defensiveStep Math_sqrt) ids (s1, cds0) in
  let r3 := fold_left (targetingStep Math_sqrt (snd r2)) ids (fst r2, []) in
  let r4 := applyBatchedDamage (snd r3) (fst r3, snd r2) in
  step (s, n) (fst r4, n).
Proof.
  intros ids s1 r2 r3 r4.
  eapply step_trans;
    [apply (step_fold_plain uuid R (fun a => (a, n))
              (autoAggroStep Math_sqrt)); intros; apply autoAggroStep_step|].
  eapply step_trans;
    [apply (fun H => step_fold_plain uuid R (fun a => (fst a, n))
                       (defensiveStep Math_sqrt) H ids (s1, cds0));
     intros; apply defensiveStep_step|].
  eapply step_trans;
    [apply (fun H => step_fold_plain uuid R (fun a => (fst a, n))
                       (targetingStep Math_sqrt (snd r2)) H ids (fst r2, []));
     intros; apply targetingStep_step|].
  apply (fun H => step_fold_plain uuid R (fun a => (fst a, n)) batchStep H
                    (snd r3) (fst r3, snd r2)).
  intros. apply batchStep_step.
Qed.

End CombatSteps.

(** ** The command handlers as steps *)

Section CommandSteps.

Variable Math_sqrt : Q -> Q.
Variable uuid : nat -> string.
Variable spreadOffset : nat -> nat -> Z * Z.
Variable R : Z -> Z -> Prop.
Context `{!Reflexive R}.

Local Abbreviation step := (step uuid R).

Lemma handleMoveUnits_step s pid ids tx ty n :
  step (s, n) (handleMoveUnits spreadOffset s pid ids tx ty, n).
Proof.
  unfold handleMoveUnits.
  apply (step_fold_plain uuid R (fun a => (a, n))).
  intros a [i u]. unfold moveUnitStep.
  repeat case_match; step_tac.
Qed.

Lemma handleAttackTarget_step s pid ids tid n :
  step (s, n) (handleAttackTarget s pid ids tid, n).
Proof.
  unfold handleAttackTarget. case_match; [|apply step_refl].
  match goal with
  | |- context [fold_left ?body ids (s, O)] =>
      apply (fun H => step_fold_plain uuid R (fun a => (fst a, n)) body H
                        ids (s, O))
  end.
  intros [a k] x. unfold attackUnitStep. simpl fst.
  repeat case_match; simpl fst; step_tac.
Qed.

Lemma handleDepositGold_step s pid ids did n :
  step (s, n) (handleDepositGold s pid ids did, n).
Proof.
  unfold handleDepositGold. repeat case_match; try apply step_refl.
  apply (step_fold_plain uuid R (fun a => (a, n))).
  intros a x. unfold depositUnitStep. repeat case_match; step_tac.
Qed.

Lemma handleSetRallyPoint_step s pid bid x y n :
  step (s, n) (handleSetRallyPoint s pid bid x y, n).
Proof. unfold handleSetRallyPoint. repeat case_match; step_tac. Qed.

(** A command is a step, followed by [recalculateSupply] when it is a
    [buildStructure] command. *)
Lemma dispatch_step acc c :
  exists mid,
    step acc mid /\
    (dispatch Math_sqrt uuid spreadOffset acc c = mid \/
     dispatch Math_sqrt uuid spreadOffset acc c
       = (recalculateSupply (fst mid), snd mid)).
Proof.
  destruct acc as [s n]. unfold dispatch.
  destruct (c_command c) as [ids tx ty|ids tid|wid bt x y|bid ut|wids mid|aid ut|wids did|bid x y].
  - exists (handleMoveUnits spreadOffset s (c_playerId c) ids tx ty, n).
    split; [exact (handleMoveUnits_step _ _ _ _ _ _)|left; reflexivity].
  - exists (handleAttackTarget s (c_playerId c) ids tid, n).
    split; [exact (handleAttackTarget_step _ _ _ _ _)|left; reflexivity].
  - exists (handleBuildStructure Math_sqrt uuid (s, n) (c_playerId c)
              wid bt x y).
    split; [exact (handleBuildStructure_step Math_sqrt uuid R _ _ _ _ _ _)|].
    right.
    destruct (handleBuildStructure Math_sqrt uuid (s, n) (c_playerId c)
                wid bt x y).
    reflexivity.
  - exists (handleTrainUnit s (c_playerId c) bid ut, n).
    split; [exact (handleTrainUnit_step uuid R _ _ _ _ _)|left; reflexivity].
  - exists (handleGatherResource s (c_playerId c) wids mid, n).
    split; [exact (handleGatherResource_step uuid R _ _ _ _ _)|].
    left; reflexivity.
  - exists (handleUpgradeUnit s (c_playerId c) aid ut, n).
    split; [exact (handleUpgradeUnit_step uuid R _ _ _ _ _)|left; reflexivity].
  - exists (handleDepositGold s (c_playerId c) wids did, n).
    split; [exact (handleDepositGold_step _ _ _ _ _)|left; reflexivity].
  - exists (handleSetRallyPoint s (c_playerId c) bid x y, n).
    split; [exact (handleSetRallyPoint_step _ _ _ _ _ _)|left; reflexivity].
Qed.

End CommandSteps.

(** ** From steps to the shape of the entity table *)

Lemma getEntity_None (id : string) (l : list Entity) :
  getEntity id l = None <-> ~ In id (map e_id l).
Proof.
  unfold getEntity. induction l as [|x l IH]; simpl; [tauto|].
  destruct (bool_decide (e_id x = id)) eqn:E.
  - apply bool_decide_eq_true in E. split; [discriminate|tauto].
  - apply bool_decide_eq_false in E. rewrite IH. tauto.
Qed.

Lemma updateEntity_fresh (id : string) (f : Entity -> Entity)
    (l : list Entity) :
  getEntity id l = None -> updateEntity id f l = l.
Proof.
  unfold getEntity. induction l as [|x l IH]; simpl; [reflexivity|].
  destruct (bool_decide (e_id x = id)); [discriminate|].
  intros H. rewrite IH; auto.
Qed.

Lemma Forall2_updateEntity (K : Entity -> Entity -> Prop) id f l :
  (forall e, K e e) ->
  (forall e, getEntity id l = Some e -> K e (f e)) ->
  Forall2 K l (updateEntity id f l).
Proof.
  intros Hrefl. unfold getEntity.
  induction l as [|x l IH]; simpl; intros Hf; [constructor|].
  destruct (bool_decide (e_id x = id)).
  - constructor; [apply Hf; reflexivity|]. apply Forall2_same_length_lookup_2.
    + reflexivity.
    + intros i a b Ha Hb. rewrite Ha in Hb. injection Hb as <-. apply Hrefl.
  - constructor; [apply Hrefl|apply IH, Hf].
Qed.

Lemma Forall2_refl_list {A : Type} (K : A -> A -> Prop) (l : list A) :
  (forall x, K x x) -> Forall2 K l l.
Proof. intros H. induction l; constructor; auto. Qed.

Lemma Forall2_map_r_same {A : Type} (K : A -> A -> Prop) (f : A -> A)
    (l : list A) :
  (forall x, In x l -> K x (f x)) -> Forall2 K l (map f l).
Proof.
  induction l as [|x l IH]; simpl; intros H; constructor; auto.
Qed.

Lemma Forall2_ids (K : Entity -> Entity -> Prop) (l l' : list Entity) :
  (forall x y, K x y -> e_id y = e_id x) ->
  Forall2 K l l' -> map e_id l' = map e_id l.
Proof.
  intros HK H. induction H; simpl; [reflexivity|]. f_equal; auto.
Qed.

Lemma keeps_newcomer R (e e' : Entity) :
  keeps R e e' -> newcomer e -> newcomer e'.
Proof.
  intros [_ Ht _ Hp _ Hq] [Ho Hn]. split; [auto|]. rewrite Ht, Hp.
  exact Hn.
Qed.

Section Shape.

Variable uuid : nat -> string.
Hypothesis uuid_inj : forall m n, uuid m = uuid n -> m = n.

Lemma evolves_refl K N a : (forall e, K e e) -> evolves uuid K N a a.
Proof.
  intros HK. split; [lia|]. exists (entities (fst a)), [].
  rewrite app_nil_r, Nat.sub_diag. repeat split; auto.
  apply Forall2_refl_list, HK.
Qed.

Lemma evolves_trans K1 K2 K3 N1 N2 N3 a b c :
  (forall x y z, K1 x y -> K2 y z -> K3 x z) ->
  (forall x y, N1 x -> K2 x y -> N3 y) ->
  (forall x, N2 x -> N3 x) ->
  (forall x y, K2 x y -> e_id y = e_id x) ->
  evolves uuid K1 N1 a b -> evolves uuid K2 N2 b c ->
  evolves uuid K3 N3 a c.
Proof.
  intros HK HN1 HN2 Hid (Hab & k1 & n1 & E1 & F1 & G1 & I1)
         (Hbc & k2 & n2 & E2 & F2 & G2 & I2).
  split; [lia|]. rewrite E1 in F2.
  apply Forall2_app_inv_l in F2 as (k2a & k2b & Fa & Fb & ->).
  exists k2a, (k2b ++ n2). split; [rewrite E2, app_assoc; reflexivity|].
  split; [|split].
  - clear -HK F1 Fa. revert k2a Fa.
    induction F1; intros k2a Fa; inversion Fa; subst; constructor; eauto.
  - apply Forall_app. split.
    + clear -HN1 G1 Fb. induction Fb; inversion G1; subst; constructor; eauto.
    + eapply Forall_impl; [exact G2|exact HN2].
  - rewrite map_app, (Forall2_ids K2 n1 k2b Hid Fb), I1, I2, <- map_app.
    f_equal.
    replace (snd c - snd a)%nat
      with ((snd b - snd a) + (snd c - snd b))%nat by lia.
    rewrite seq_app. do 2 f_equal. lia.
Qed.

Lemma evolves_fresh K N a b :
  (forall x y, K x y -> e_id y = e_id x) ->
  evolves uuid K N a b -> Fresh uuid (snd a) (fst a) ->
  Fresh uuid (snd b) (fst b).
Proof.
  intros Hid (Hab & k & n & E & F & G & I) Hf m Hm.
  apply getEntity_None. rewrite E, map_app, in_app_iff.
  rewrite (Forall2_ids K _ _ Hid F), I. intros [H|H].
  - revert H. apply getEntity_None, Hf. lia.
  - apply in_map_iff in H as (j & Hj & Hin). apply uuid_inj in Hj.
    apply in_seq in Hin. lia.
Qed.

Lemma evolves_no_news K N a b :
  evolves uuid K N a b -> snd b = snd a ->
  Forall2 K (entities (fst a)) (entities (fst b)).
Proof.
  intros (_ & k & n & E & F & _ & I) Hn.
  rewrite Hn, Nat.sub_diag in I. simpl in I. apply map_eq_nil in I. subst n.
  rewrite E, app_nil_r. exact F.
Qed.

Section OfStep.

Variable R : Z -> Z -> Prop.
Context `{!Reflexive R} `{!Transitive R}.

Lemma step_evolves a b :
  step uuid R a b -> Fresh uuid (snd a) (fst a) ->
  evolves uuid (keeps R) newcomer a b.
Proof.
  intros Hs. induction Hs; intros Hf.
  - apply evolves_refl, keeps_refl; assumption.
  - pose proof (IHHs1 Hf) as H1.
    assert (Hfb : Fresh uuid (snd b) (fst b)).
    { eapply evolves_fresh; [|exact H1|exact Hf]. intros x y []. assumption. }
    eapply evolves_trans; [| | | |exact H1|exact (IHHs2 Hfb)].
    + intros x y z. apply keeps_trans; assumption.
    + intros x y Hx Hk. eapply keeps_newcomer; eassumption.
    + auto.
    + intros x y []. assumption.
  - split; [simpl; lia|]. exists (updateEntity id f (entities s)), [].
    simpl. rewrite app_nil_r, Nat.sub_diag. repeat split; auto.
    apply Forall2_updateEntity; [apply keeps_refl; assumption|assumption].
  - split; [simpl; lia|]. exists (map f (entities s)), [].
    simpl. rewrite app_nil_r, Nat.sub_diag. repeat split; auto.
    apply Forall2_map_r_same. assumption.
  - apply (evolves_refl _ _ (s, n)), keeps_refl; assumption.
  - apply (evolves_refl _ _ (s, n)), keeps_refl; assumption.
  - apply (evolves_refl _ _ (s, n)), keeps_refl; assumption.
  - split; [simpl; lia|]. exists (entities s), [e]. simpl.
    assert (Hnone : getEntity (e_id e) (entities s) = None).
    { rewrite H. apply (Hf n). simpl. lia. }
    unfold putEntity. rewrite Hnone. split; [reflexivity|].
    split; [apply Forall2_refl_list, keeps_refl; assumption|].
    split; [constructor; [assumption|constructor]|].
    replace (S n - n)%nat with 1%nat by lia. simpl. rewrite H. reflexivity.
Qed.

Lemma step_players a b :
  step uuid R a b -> sameMaxSupply (fst a) (fst b).
Proof.
  intros Hs. induction Hs; intros q; simpl; try reflexivity.
  - rewrite IHHs1. apply IHHs2.
  - destruct (decide (pid = q)) as [->|Hne].
    + rewrite lookup_alter_eq. destruct (players s !! q); simpl; [|reflexivity].
      rewrite H. reflexivity.
    + rewrite lookup_alter_ne by assumption. reflexivity.
Qed.

End OfStep.

End Shape.

(** ** Supply accounting *)

Lemma granted_newcomer (e : Entity) : newcomer e -> granted e = 0.
Proof.
  intros [_ [H|[Ht Hp]]]; unfold granted, completed, underConstruction.
  - case_match; [|reflexivity]. destruct (e_type e); try discriminate H;
      reflexivity.
  - rewrite Hp. simpl. rewrite andb_false_r. reflexivity.
Qed.

Lemma granted_keeps (e e' : Entity) :
  keeps eq e e' -> granted e' = granted e.
Proof.
  intros [_ Ht _ Hp Hh _].
  unfold granted, alive, completed, underConstruction.
  rewrite Ht, Hp, <- Hh. reflexivity.
Qed.

Lemma supplyOwned_app pid l1 l2 :
  supplyOwned pid (l1 ++ l2) = supplyOwned pid l1 + supplyOwned pid l2.
Proof.
  unfold supplyOwned. induction l1 as [|x l IH]; simpl; [reflexivity|].
  rewrite IH. lia.
Qed.

Lemma supplyOwned_zero pid l :
  Forall (fun e => granted e = 0) l -> supplyOwned pid l = 0.
Proof.
  unfold supplyOwned. induction 1 as [|x l Hx Hl IH]; simpl; [reflexivity|].
  rewrite IH, Hx. case_match; reflexivity.
Qed.

Lemma supplyOwned_Forall2 (K : Entity -> Entity -> Prop) pid l l' :
  (forall x y, In x l -> In y l' -> K x y ->
               e_ownerId y = e_ownerId x /\ granted y = granted x) ->
  Forall2 K l l' -> supplyOwned pid l' = supplyOwned pid l.
Proof.
  intros HK H. unfold supplyOwned.
  induction H as [|x y l l' Hxy Hl IH]; simpl; [reflexivity|].
  destruct (HK x y) as [-> ->]; [left; reflexivity|left; reflexivity|exact Hxy|].
  rewrite IH; [reflexivity|]. intros a b Ha Hb. apply HK; right; assumption.
Qed.

Lemma evolves_supply uuid a b pid :
  evolves uuid (keeps eq) newcomer a b ->
  supplyGranted (fst b) pid = supplyGranted (fst a) pid.
Proof.
  intros (_ & k & n & E & F & G & _). unfold supplyGranted.
  rewrite E, supplyOwned_app, (supplyOwned_zero pid n).
  - rewrite Z.add_0_r. apply (supplyOwned_Forall2 (keeps eq)); [|exact F].
    intros x y _ _ Hk. split; [apply Hk|apply granted_keeps, Hk].
  - eapply Forall_impl; [exact G|]. apply granted_newcomer.
Qed.

(** [recalculateSupply] leaves the entities alone and sets the maxSupply of
    every player to the supply granted by the entities, whatever it was. *)
Lemma recalculateSupply_entities s : entities (recalculateSupply s) = entities s.
Proof. reflexivity. Qed.

Lemma recalculateSupply_players s pid :
  BasesBuilt s ->
  p_maxSupply <$> players (recalculateSupply s) !! pid
  = (fun _ => supplyGranted s pid) <$> players s !! pid.
Proof.
  intros HB. unfold recalculateSupply, supplyGranted. simpl.
  assert (Hfold : forall l (ps : gmap string Player),
    (forall e, In e l -> e_type e = homeBase -> underConstruction e = false) ->
    p_maxSupply <$>
      fold_left
        (fun (ps : gmap string Player) e =>
           if bool_decide (e_type e = homeBase) && (0 <? e_hp e) then
             alter (fun p => set_maxSupply (p_maxSupply p + HOME_BASE_SUPPLY) p)
                   (e_ownerId e) ps
           else if bool_decide (e_type e = house) && (0 <? e_hp e) &&
                   negb (underConstruction e) then
             alter (fun p => set_maxSupply (p_maxSupply p + HOUSE_SUPPLY) p)
                   (e_ownerId e) ps
           else
             match e_type e with
             | worker | infantry | archer | cavalry | ballista =>
                 let supplyCost :=
                   match e_type e with
                   | worker => 1
                   | infantry => 2
                   | archer => 3
                   | cavalry => 4
                   | _ => 5
                   end in
                 alter (fun p => set_supply (p_supply p + supplyCost) p)
                       (e_ownerId e) ps
             | _ => ps
             end) l ps !! pid
    = (fun p => p_maxSupply p + supplyOwned pid l) <$> ps !! pid).
  { induction l as [|e l IH]; intros ps Hl; simpl.
    - destruct (ps !! pid); simpl; [f_equal; lia|reflexivity].
    - rewrite IH by (intros; apply Hl; [right|]; assumption).
      assert (Hb := Hl e (or_introl eq_refl)).
      unfold granted, alive, completed.
      destruct (decide (e_ownerId e = pid)) as [Ho|Ho].
      + rewrite (bool_decide_eq_true_2 _ Ho).
        destruct (bool_decide (e_type e = homeBase)) eqn:Et.
        * apply bool_decide_eq_true in Et. rewrite (Hb Et), Et. simpl.
          destruct (0 <? e_hp e); simpl.
          -- rewrite Ho, lookup_alter_eq. destruct (ps !! pid); simpl;
               [f_equal; lia|reflexivity].
          -- destruct (ps !! pid); simpl; [f_equal; lia|reflexivity].
        * apply bool_decide_eq_false in Et. simpl.
          destruct (bool_decide (e_type e = house)) eqn:Eh.
          -- apply bool_decide_eq_true in Eh. rewrite Eh. simpl.
             destruct (0 <? e_hp e), (underConstruction e); simpl;
               rewrite ?Ho, ?lookup_alter_eq; destruct (ps !! pid); simpl;
               try reflexivity; f_equal; lia.
          -- apply bool_decide_eq_false in Eh. simpl.
             destruct (e_type e); try contradiction;
               rewrite ?Ho, ?lookup_alter_eq; destruct (ps !! pid); simpl;
               rewrite ?andb_true_r, ?andb_false_r;
               try reflexivity; f_equal;
               destruct (0 <? e_hp e), (underConstruction e); simpl; lia.
      + rewrite (bool_decide_eq_false_2 _ Ho). rewrite Z.add_0_l.
        repeat case_match; rewrite ?lookup_alter_ne by assumption;
          reflexivity. }
  rewrite Hfold by exact HB. rewrite lookup_fmap.
  destruct (players s !! pid); simpl; reflexivity.
Qed.

Lemma recalculateSupply_inv s : BasesBuilt s -> SupplyInv (recalculateSupply s).
Proof.
  intros HB pid p Hp.
  pose proof (recalculateSupply_players s pid HB) as H. rewrite Hp in H.
  simpl in H. unfold supplyGranted. rewrite recalculateSupply_entities.
  destruct (players s !! pid); simpl in H; [|discriminate H].
  injection H as ->. reflexivity.
Qed.

(** ** The tick keeps the supply accounting *)

Lemma keeps_base_built R (e e' : Entity) :
  keeps R e e' ->
  (e_type e = homeBase -> underConstruction e = false) ->
  e_type e' = homeBase -> underConstruction e' = false.
Proof.
  intros [_ Ht _ Hp _ _] H. unfold underConstruction in *.
  rewrite Ht, Hp. exact H.
Qed.

Lemma newcomer_not_base (e : Entity) : newcomer e -> e_type e <> homeBase.
Proof.
  intros [_ [H|[H _]]]; [|exact H]. intros Ht. rewrite Ht in H. discriminate H.
Qed.

Section TickSupply.

Variable Math_sqrt : Q -> Q.
Variable uuid : nat -> string.
Variable spreadOffset : nat -> nat -> Z * Z.
Hypothesis uuid_inj : forall m n, uuid m = uuid n -> m = n.

Local Abbreviation Inv := (TickInv uuid).

Lemma step_bases R a b :
  step uuid R a b -> BasesBuilt (fst a) -> BasesBuilt (fst b).
Proof.
  intros Hs. unfold BasesBuilt.
  apply (step_forall uuid R
           (fun e => e_type e = homeBase -> underConstruction e = false));
    [| |exact Hs].
  - intros e e'. apply keeps_base_built.
  - intros e He Ht. destruct (newcomer_not_base e He Ht).
Qed.

Lemma step_inv a b : step uuid eq a b -> Inv a -> Inv b.
Proof.
  intros Hs [H1 H2 H3 H4].
  pose proof (step_evolves uuid uuid_inj eq a b Hs H4) as He.
  split.
  - intros pid p Hp.
    pose proof (step_players uuid eq a b Hs pid) as Hm. rewrite Hp in Hm.
    destruct (players (fst a) !! pid) as [p0|] eqn:E0; [|discriminate Hm].
    injection Hm as Hm. rewrite <- Hm, (H1 pid p0 E0).
    symmetry. apply (evolves_supply uuid), He.
  - eapply step_bases; eassumption.
  - eapply step_queues; eassumption.
  - eapply (evolves_fresh uuid uuid_inj); [|exact He|exact H4].
    intros x y []. assumption.
Qed.

Lemma recalculateSupply_tick_inv s n :
  BasesBuilt s -> QueuesOk s -> Fresh uuid n s ->
  Inv (recalculateSupply s, n).
Proof.
  intros H2 H3 H4. split; simpl; try assumption.
  apply recalculateSupply_inv, H2.
Qed.

Lemma dispatch_inv acc c :
  Inv acc -> Inv (dispatch Math_sqrt uuid spreadOffset acc c).
Proof.
  intros HI.
  destruct (dispatch_step Math_sqrt uuid spreadOffset eq acc c)
    as (mid & Hs & [->| ->]).
  - eapply step_inv; eassumption.
  - destruct (step_inv _ _ Hs HI) as [H1 H2 H3 H4].
    apply recalculateSupply_tick_inv; assumption.
Qed.

Lemma processCommands_inv commands acc :
  Inv acc -> Inv (processCommands Math_sqrt uuid spreadOffset commands acc).
Proof.
  unfold processCommands. revert acc.
  induction commands as [|c l IH]; intros acc HI; simpl; [exact HI|].
  apply IH, dispatch_inv, HI.
Qed.

End TickSupply.

(** *** Construction *)

Lemma constructionStep_spec (e : Entity) :
  let e' := fst (constructionStep e) in
  let done := snd (constructionStep e) in
  e_id e' = e_id e /\ e_type e' = e_type e /\ e_ownerId e' = e_ownerId e /\
  e_hp e' = e_hp e /\ e_trainingQueue e' = e_trainingQueue e /\
  (underConstruction e = false -> e' = e) /\
  (done = false -> underConstruction e' = underConstruction e) /\
  (done = true -> underConstruction e = true /\ underConstruction e' = false).
Proof.
  unfold constructionStep, underConstruction, Qlt_bool.
  destruct (e_buildProgress e) as [bp|] eqn:Ep; simpl;
    [|rewrite Ep; repeat split; auto; discriminate].
  destruct (Qle_bool 1 bp) eqn:E1; simpl;
    [rewrite Ep, E1; repeat split; auto; discriminate|].
  destruct (getBuildTicks (e_type e) <=? 0); simpl;
    [rewrite Ep, E1; repeat split; auto; discriminate|].
  destruct (Qle_bool 1 (fl (bp + fl (1 / ZtoQ (getBuildTicks (e_type e))))))
    eqn:E2;
    simpl; rewrite ?E2; repeat split; auto; discriminate.
Qed.

Lemma processConstruction_entities s :
  entities (fst (processConstruction s))
  = map (fun e => fst (constructionStep e)) (entities s).
Proof. unfold processConstruction. simpl. apply map_map. Qed.

Lemma processConstruction_players s :
  players (fst (processConstruction s)) = players s.
Proof. reflexivity. Qed.

Lemma processConstruction_none s :
  snd (processConstruction s) = false ->
  forall e, In e (entities s) -> snd (constructionStep e) = false.
Proof.
  unfold processConstruction. simpl. intros H e He.
  destruct (snd (constructionStep e)) eqn:E; [|reflexivity].
  rewrite <- H. symmetry. apply existsb_exists.
  exists (constructionStep e). split; [apply in_map, He|exact E].
Qed.

Lemma granted_constructionStep (e : Entity) :
  snd (constructionStep e) = false ->
  granted (fst (constructionStep e)) = granted e.
Proof.
  intros H.
  destruct (constructionStep_spec e) as (_ & Ht & _ & Hh & _ & _ & Hu & _).
  unfold granted, alive, completed. rewrite Ht, Hh, (Hu H). reflexivity.
Qed.

Section TickSupply2.

Variable Math_sqrt : Q -> Q.
Variable uuid : nat -> string.
Variable spreadOffset : nat -> nat -> Z * Z.
Hypothesis uuid_inj : forall m n, uuid m = uuid n -> m = n.

Local Abbreviation Inv := (TickInv uuid).

Lemma processConstruction_inv s n :
  Inv (s, n) ->
  Inv (if snd (processConstruction s)
       then recalculateSupply (fst (processConstruction s))
       else fst (processConstruction s), n).
Proof.
  intros [H1 H2 H3 H4]. simpl in H1, H2, H3, H4.
  assert (B : BasesBuilt (fst (processConstruction s))).
  { intros e'. rewrite processConstruction_entities, in_map_iff.
    intros (e & <- & He) Ht.
    destruct (constructionStep_spec e) as (_ & Ht' & _ & _ & _ & Hs & _).
    rewrite Ht' in Ht. rewrite (Hs (H2 e He Ht)). apply H2; assumption. }
  assert (U : QueuesOk (fst (processConstruction s))).
  { intros e'. rewrite processConstruction_entities, in_map_iff.
    intros (e & <- & He).
    destruct (constructionStep_spec e) as (_ & _ & _ & _ & Hq & _).
    unfold unitOrders. rewrite Hq. apply H3, He. }
  assert (F : Fresh uuid n (fst (processConstruction s))).
  { intros m Hm. apply getEntity_None.
    rewrite processConstruction_entities, map_map.
    erewrite map_ext; [apply getEntity_None, H4, Hm|].
    intros e. apply (constructionStep_spec e). }
  destruct (snd (processConstruction s)) eqn:Eb.
  - apply recalculateSupply_tick_inv; assumption.
  - split; cbn [fst snd]; try assumption.
    intros pid p Hp. rewrite processConstruction_players in Hp.
    rewrite (H1 pid p Hp). unfold supplyGranted.
    rewrite processConstruction_entities. symmetry.
    apply (supplyOwned_Forall2
             (fun x y => y = fst (constructionStep x))).
    + intros x y Hx _ ->. split; [apply (constructionStep_spec x)|].
      apply granted_constructionStep.
      apply (processConstruction_none s Eb x Hx).
    + apply Forall2_map_r_same. reflexivity.
Qed.

Lemma processEconomy_inv s pr :
  Inv (s, uuidCalls pr) ->
  let r := processEconomy Math_sqrt uuid (Some recalculateSupply) (s, pr) in
  Inv (fst r, uuidCalls (snd r)).
Proof.
  intros HI. unfold processEconomy.
  pose proof (processConstruction_inv s _ HI) as H2.
  destruct (processConstruction s) as [s1 built]. simpl in H2.
  assert (H3 := step_inv uuid uuid_inj _ _
                  (processTraining_step uuid eq _ (ti_queues _ _ H2)) H2).
  destruct (processTraining uuid _) as [s3 n3].
  assert (H4 := step_inv uuid uuid_inj _ _
                  (processPendingBuilds_step Math_sqrt uuid eq (s3, n3)) H3).
  destruct (processPendingBuilds Math_sqrt uuid _) as [s4 n4].
  assert (H5 := step_inv uuid uuid_inj _ _
                  (processGathering_step Math_sqrt uuid eq
                     (s4, gatherTimers pr) n4) H4).
  destruct (processGathering Math_sqrt _) as [s5 timers].
  exact H5.
Qed.

End TickSupply2.

(** *** Combat *)

Lemma deleteEntity_fold (ids : list string) (s : GameState) :
  let s' :=
    fold_left (fun s' id => set_entities (deleteEntity id (entities s')) s')
      ids s in
  players s' = players s /\
  entities s' =
    List.filter (fun e => negb (includes (e_id e) ids)) (entities s).
Proof.
  revert s. induction ids as [|id ids IH]; intros s; simpl.
  - split; [reflexivity|]. induction (entities s) as [|x l IHl];
      simpl; [reflexivity|]. f_equal. exact IHl.
  - destruct (IH (set_entities (deleteEntity id (entities s)) s)) as [Hp He].
    split; [exact Hp|]. rewrite He. simpl. unfold deleteEntity, includes.
    clear. induction (entities s) as [|x l IHl]; simpl; [reflexivity|].
    destruct (decide (e_id x = id)) as [Hx|Hx].
    + rewrite (bool_decide_eq_true_2 _ Hx). simpl.
      rewrite bool_decide_eq_true_2 by (rewrite Hx; left). simpl. exact IHl.
    + rewrite (bool_decide_eq_false_2 _ Hx). simpl. rewrite IHl.
      destruct (decide (e_id x ∈ ids)) as [Hi|Hi].
      * rewrite (bool_decide_eq_true_2 _ Hi).
        rewrite bool_decide_eq_true_2 by (right; exact Hi). reflexivity.
      * rewrite (bool_decide_eq_false_2 _ Hi).
        rewrite bool_decide_eq_false_2; [reflexivity|].
        intros H. apply elem_of_cons in H as [H|H]; auto.
Qed.

Lemma removeDead_spec (s : GameState) (cds : gmap string Z) :
  let r := removeDead (s, cds) in
  let deadIds := snd r in
  deadIds = map e_id (List.filter (fun e => e_hp e <=? 0) (entities s)) /\
  players (fst (fst r)) = players s /\
  entities (fst (fst r)) =
    List.filter (fun e => negb (includes (e_id e) deadIds)) (entities s).
Proof.
  unfold removeDead. simpl. split; [reflexivity|]. apply deleteEntity_fold.
Qed.

Lemma no_dead_all_alive (l : list Entity) :
  map e_id (List.filter (fun e => e_hp e <=? 0) l) = [] ->
  forall e, In e l -> 0 < e_hp e.
Proof.
  intros H e He. apply map_eq_nil in H.
  destruct (e_hp e <=? 0) eqn:E; [|apply Z.leb_gt, E].
  assert (Hin : In e (List.filter (fun e => e_hp e <=? 0) l))
    by (apply List.filter_In; auto).
  rewrite H in Hin. destruct Hin.
Qed.

Lemma filter_all {A : Type} (p : A -> bool) (l : list A) :
  (forall x, In x l -> p x = true) -> List.filter p l = l.
Proof.
  induction l as [|x l IH]; simpl; intros H; [reflexivity|].
  rewrite (H x (or_introl eq_refl)), IH; auto.
Qed.

Lemma granted_damaged (e e' : Entity) :
  keeps (flip Z.le) e e' -> 0 < e_hp e' -> granted e' = granted e.
Proof.
  intros [_ Ht _ Hp Hh _] Ha. unfold flip in Hh.
  unfold granted, alive, completed, underConstruction. rewrite Ht, Hp.
  rewrite (proj2 (Z.ltb_lt 0 (e_hp e'))) by exact Ha.
  rewrite (proj2 (Z.ltb_lt 0 (e_hp e))) by lia. reflexivity.
Qed.

Section TickSupply3.

Variable Math_sqrt : Q -> Q.
Variable uuid : nat -> string.
Variable spreadOffset : nat -> nat -> Z * Z.
Hypothesis uuid_inj : forall m n, uuid m = uuid n -> m = n.

Local Abbreviation Inv := (TickInv uuid).

Lemma damage_flip (x d : Z) : 0 <= d -> flip Z.le x (x - d).
Proof. unfold flip. lia. Qed.

Lemma processCombat_inv s pr :
  Inv (s, uuidCalls pr) ->
  let r := processCombat Math_sqrt (s, pr) in
  Inv (fst r, uuidCalls (snd r)).
Proof.
  intros [H1 H2 H3 H4]. cbn [fst snd] in H1, H2, H3, H4.
  pose proof (combat_passes_step Math_sqrt uuid (flip Z.le) damage_flip s
                (tickCooldowns (attackCooldowns pr)) (uuidCalls pr)) as Hs.
  cbv zeta in Hs. unfold processCombat.
  destruct (fold_left (defensiveStep Math_sqrt) _ _) as [s2 cds2].
  cbn [fst snd] in Hs.
  destruct (fold_left (targetingStep Math_sqrt cds2) _ _) as [s3 apt].
  cbn [fst snd] in Hs.
  destruct (applyBatchedDamage apt (s3, cds2)) as [s4 cds4].
  cbn [fst snd] in Hs.
  pose proof (step_evolves uuid uuid_inj (flip Z.le) _ _ Hs H4) as He.
  pose proof (evolves_no_news uuid _ _ _ _ He eq_refl) as F.
  cbn [fst snd] in F.
  assert (B4 : BasesBuilt s4) by exact (step_bases uuid _ _ _ Hs H2).
  assert (Q4 : QueuesOk s4) by exact (step_queues uuid _ _ _ Hs H3).
  assert (F4 : Fresh uuid (uuidCalls pr) s4).
  { refine (evolves_fresh uuid uuid_inj _ _ _ _ _ He H4).
    intros x y []. assumption. }
  destruct (removeDead_spec s4 cds4) as (Hd & Hp & Hent).
  destruct (removeDead (s4, cds4)) as [[s5 cds5] deadIds].
  cbn [fst snd] in Hd, Hp, Hent |- *.
  destruct deadIds as [|d ds].
  - assert (Halive := no_dead_all_alive _ (eq_sym Hd)).
    rewrite filter_all in Hent by reflexivity.
    split; cbn [fst snd]; unfold BasesBuilt, QueuesOk, Fresh;
      rewrite ?Hent; try assumption.
    intros pid p Hpl. rewrite Hp in Hpl.
    pose proof (step_players uuid _ _ _ Hs pid) as Hm.
    cbn [fst] in Hm. rewrite Hpl in Hm.
    destruct (players s !! pid) as [p0|] eqn:E0; [|discriminate Hm].
    injection Hm as Hm. rewrite <- Hm, (H1 pid p0 E0).
    unfold supplyGranted. rewrite Hent. symmetry.
    apply (supplyOwned_Forall2 (keeps (flip Z.le))); [|exact F].
    intros x y _ Hy Hk. split; [apply Hk|].
    apply granted_damaged; [exact Hk|apply Halive, Hy].
  - apply recalculateSupply_tick_inv.
    + intros e. rewrite Hent, List.filter_In. intros [He' _]. apply B4, He'.
    + intros e. rewrite Hent, List.filter_In. intros [He' _]. apply Q4, He'.
    + intros m Hm. apply getEntity_None. rewrite Hent. intros Hin.
      apply in_map_iff in Hin as (e & Hid & Hin).
      apply List.filter_In in Hin as [Hin _].
      revert Hid. generalize (F4 m Hm). rewrite getEntity_None.
      intros Hno Hid. apply Hno. rewrite <- Hid. apply in_map, Hin.
Qed.

Lemma checkGameOver_state g pr :
  state (fst (fst (checkGameOver (g, pr)))) = state g /\
  uuidCalls (snd (fst (checkGameOver (g, pr)))) = uuidCalls pr.
Proof.
  unfold checkGameOver. repeat case_match; split; reflexivity.
Qed.

Lemma tickEngine_inv bot g pr :
  Inv (state g, uuidCalls pr) ->
  let r := tickEngine Math_sqrt uuid spreadOffset bot (g, pr) in
  Inv (state (fst (fst r)), uuidCalls (snd (fst r))).
Proof.
  intros H0. unfold tickEngine.
  assert (Hc : Inv (set_tick (tick (state g) + 1) (state g), uuidCalls pr)).
  { eapply (step_inv uuid uuid_inj); [apply step_clock|exact H0]. }
  apply (processCommands_inv Math_sqrt uuid spreadOffset uuid_inj
           (commandQueue g ++ bot)) in Hc.
  destruct (processCommands _ _ _ _ _) as [s1 n1].
  pose proof (processEconomy_inv Math_sqrt uuid uuid_inj s1
                (mkProcess (attackCooldowns pr) (gatherTimers pr) n1) Hc)
    as He.
  cbv zeta in He.
  destruct (processEconomy _ _ _ _) as [s2 pr2]. cbn [fst snd] in He.
  assert (Hm : Inv (processMovement Math_sqrt s2, uuidCalls pr2)).
  { eapply (step_inv uuid uuid_inj); [|exact He].
    apply processMovement_step. typeclasses eauto. }
  pose proof (processCombat_inv _ _ Hm) as Hk. cbv zeta in Hk.
  destruct (processCombat _ _) as [s4 pr4]. cbn [fst snd] in Hk.
  destruct (checkGameOver_state (mkEngine s4 [] (running g) (roomId g)) pr4)
    as [Hst Hn].
  destruct (checkGameOver _) as [[g5 pr5] effects].
  cbn [fst snd] in Hst, Hn |- *. rewrite Hst, Hn. exact Hk.
Qed.

End TickSupply3.

(** ** The victory check over the ticks *)

Lemma noLivingBase_iff (s : GameState) :
  noLivingBase s <->
  forall e, In e (entities s) -> e_type e = homeBase -> e_hp e <= 0.
Proof.
  unfold noLivingBase, ownsLivingBase. split.
  - intros H e He Ht. destruct (Z.le_gt_cases (e_hp e) 0) as [Hle|Hgt];
      [exact Hle|]. destruct (H (e_ownerId e)). exists e. auto with zarith.
  - intros H pid (e & He & Ht & Hh & _). specialize (H e He Ht). lia.
Qed.

Lemma checkGameOver_winner g pr w reason :
  In (EmitGameOver w reason) (snd (checkGameOver (g, pr))) ->
  ownsLivingBase (state g) w /\
  forall p, ownsLivingBase (state g) p -> p = w.
Proof.
  unfold checkGameOver.
  destruct (eliminated (state g)) as [|x xs]; [simpl; tauto|].
  destruct (elements (playersWithBase (state g))) as [|w' [|y ys]] eqn:E;
    [simpl; tauto| |simpl; tauto].
  simpl. intros [H|[H|[H|[]]]]; try discriminate H. injection H as -> _.
  assert (Hw : forall p, p ∈ playersWithBase (state g) <-> p = w).
  { intros p. rewrite <- elem_of_elements, E, list_elem_of_singleton.
    reflexivity. }
  split.
  - apply elem_of_playersWithBase, Hw. reflexivity.
  - intros p Hp. apply Hw, elem_of_playersWithBase, Hp.
Qed.

Lemma checkGameOver_none g pr :
  noLivingBase (state g) -> checkGameOver (g, pr) = (g, pr, []).
Proof.
  intros H. unfold checkGameOver.
  assert (E : playersWithBase (state g) = ∅).
  { apply set_eq. intros p. rewrite elem_of_playersWithBase.
    split; [intros Hp; destruct (H p Hp)|intros Hp; set_solver]. }
  rewrite E, elements_empty. destruct (eliminated (state g)); reflexivity.
Qed.

Section TickForall.

Variable Math_sqrt : Q -> Q.
Variable uuid : nat -> string.
Variable spreadOffset : nat -> nat -> Z * Z.

(** A property of entities that no mutation of the tick breaks. *)
Variable P : Entity -> Prop.
Hypothesis P_keeps : forall e e', keeps (flip Z.le) e e' -> P e -> P e'.
Hypothesis P_new : forall e, newcomer e -> P e.
Hypothesis P_build : forall e, P e -> P (fst (constructionStep e)).

Local Abbreviation allP := (allOf P).

Lemma allP_queues s : allP s -> QueuesOk s.
Proof. intros H e He. apply H, He. Qed.

Lemma allP_subset s s' :
  (forall e, In e (entities s') -> In e (entities s)) -> allP s -> allP s'.
Proof. intros Hsub H e He. apply H, Hsub, He. Qed.

Lemma step_allP a b :
  step uuid (flip Z.le) a b -> allP (fst a) -> allP (fst b).
Proof.
  intros Hs. unfold allOf.
  apply (step_forall uuid (flip Z.le) (fun e => P e /\ unitOrders e));
    [| |exact Hs].
  - intros e e' Hk [H1 H2]. split; [eapply P_keeps; eassumption|].
    apply Hk, H2.
  - intros e He. split; [apply P_new, He|apply He].
Qed.

Lemma processCommands_allP commands acc :
  allP (fst acc) ->
  allP (fst (processCommands Math_sqrt uuid spreadOffset commands acc)).
Proof.
  unfold processCommands. revert acc.
  induction commands as [|c l IH]; intros acc H; simpl; [exact H|].
  apply IH.
  destruct (dispatch_step Math_sqrt uuid spreadOffset (flip Z.le) acc c)
    as (mid & Hs & [->| ->]).
  - eapply step_allP; eassumption.
  - exact (step_allP _ _ Hs H).
Qed.

Lemma processConstruction_allP s :
  allP s -> allP (fst (processConstruction s)).
Proof.
  intros H e'. rewrite processConstruction_entities, in_map_iff.
  intros (e & <- & He). destruct (H e He) as [H1 H2].
  split; [apply P_build, H1|].
  destruct (constructionStep_spec e) as (_ & _ & _ & _ & Hq & _).
  unfold unitOrders. rewrite Hq. exact H2.
Qed.

Lemma processEconomy_allP s pr :
  allP s ->
  allP (fst (processEconomy Math_sqrt uuid (Some recalculateSupply) (s, pr))).
Proof.
  intros H. unfold processEconomy.
  pose proof (processConstruction_allP s H) as H1.
  destruct (processConstruction s) as [s1 built]. cbn [fst] in H1.
  assert (H2 : allP (if built then recalculateSupply s1 else s1))
    by (destruct built; exact H1).
  assert (H3 := step_allP _ _
                  (processTraining_step uuid (flip Z.le)
                     (_, uuidCalls pr) (allP_queues _ H2)) H2).
  destruct (processTraining uuid _) as [s3 n3].
  assert (H4 := step_allP _ _
                  (processPendingBuilds_step Math_sqrt uuid (flip Z.le)
                     (s3, n3)) H3).
  destruct (processPendingBuilds Math_sqrt uuid _) as [s4 n4].
  assert (H5 := step_allP _ _
                  (processGathering_step Math_sqrt uuid (flip Z.le)
                     (s4, gatherTimers pr) n4) H4).
  destruct (processGathering Math_sqrt _) as [s5 timers].
  exact H5.
Qed.

Lemma processCombat_allP s pr :
  allP s -> allP (fst (processCombat Math_sqrt (s, pr))).
Proof.
  intros H.
  pose proof (combat_passes_step Math_sqrt uuid (flip Z.le)
                (fun x d => damage_flip x d) s
                (tickCooldowns (attackCooldowns pr)) (uuidCalls pr)) as Hs.
  cbv zeta in Hs. unfold processCombat.
  destruct (fold_left (defensiveStep Math_sqrt) _ _) as [s2 cds2].
  cbn [fst snd] in Hs.
  destruct (fold_left (targetingStep Math_sqrt cds2) _ _) as [s3 apt].
  cbn [fst snd] in Hs.
  destruct (applyBatchedDamage apt (s3, cds2)) as [s4 cds4].
  cbn [fst snd] in Hs.
  pose proof (step_allP _ _ Hs H) as H4. cbn [fst] in H4.
  destruct (removeDead_spec s4 cds4) as (_ & _ & Hent).
  destruct (removeDead (s4, cds4)) as [[s5 cds5] deadIds].
  cbn [fst snd] in Hent |- *.
  assert (H5 : allP s5).
  { apply (allP_subset s4); [|exact H4]. intros e. rewrite Hent.
    rewrite List.filter_In. tauto. }
  destruct deadIds; exact H5.
Qed.

Lemma tickEngine_allP bot g pr :
  allP (state g) ->
  allP (state (fst (fst (tickEngine Math_sqrt uuid spreadOffset bot (g, pr))))).
Proof.
  intros H0. unfold tickEngine.
  assert (Hc : allP (set_tick (tick (state g) + 1) (state g))) by exact H0.
  apply (processCommands_allP (commandQueue g ++ bot) (_, uuidCalls pr))
    in Hc.
  destruct (processCommands _ _ _ _ _) as [s1 n1]. cbn [fst] in Hc.
  pose proof (processEconomy_allP s1
                (mkProcess (attackCooldowns pr) (gatherTimers pr) n1) Hc)
    as He.
  destruct (processEconomy _ _ _ _) as [s2 pr2]. cbn [fst] in He.
  assert (Hm : allP (processMovement Math_sqrt s2)).
  { exact (step_allP _ _
             (processMovement_step Math_sqrt uuid (flip Z.le) s2 O) He). }
  pose proof (processCombat_allP _ pr2 Hm) as Hk.
  destruct (processCombat _ _) as [s4 pr4]. cbn [fst] in Hk.
  destruct (checkGameOver_state (mkEngine s4 [] (running g) (roomId g)) pr4)
    as [Hst _].
  destruct (checkGameOver _) as [[g5 pr5] effects].
  cbn [fst snd] in Hst |- *. rewrite Hst. exact Hk.
Qed.

End TickForall.

Lemma handleCommands_fold (cs : list QueuedCommand) (g : GameEngine) :
  let g' :=
    fold_left (fun g c => handleCommand (c_playerId c) (c_command c) g) cs g
  in
  state g' = state g /\ running g' = running g.
Proof.
  revert g. induction cs as [|c cs IH]; intros g; simpl; [auto|].
  destruct (IH (handleCommand (c_playerId c) (c_command c) g)) as [H1 H2].
  split; [rewrite H1|rewrite H2]; reflexivity.
Qed.

Section WithoutBases.

Variable Math_sqrt : Q -> Q.
Variable uuid : nat -> string.
Variable spreadOffset : nat -> nat -> Z * Z.

Local Abbreviation tickE := (tickEngine Math_sqrt uuid spreadOffset).
Local Abbreviation run := (runTicks Math_sqrt uuid spreadOffset).

Lemma tickEngine_queues bot g pr :
  QueuesOk (state g) -> QueuesOk (state (fst (fst (tickE bot (g, pr))))).
Proof.
  intros H.
  apply (allP_queues (fun _ => True)).
  apply (tickEngine_allP Math_sqrt uuid spreadOffset (fun _ => True)); auto.
  intros e He. split; [exact I|apply H, He].
Qed.

Lemma tickEngine_no_base bot g pr :
  QueuesOk (state g) -> noLivingBase (state g) ->
  noLivingBase (state (fst (fst (tickE bot (g, pr))))).
Proof.
  intros HQ HN. apply noLivingBase_iff. intros e He.
  apply (tickEngine_allP Math_sqrt uuid spreadOffset
           (fun e => e_type e = homeBase -> e_hp e <= 0)) with (e := e) (bot := bot) (g := g) (pr := pr);
    [| | | |exact He].
  - intros x y [_ Ht _ _ Hh _] Hx Hy. unfold flip in Hh.
    rewrite Ht in Hy. specialize (Hx Hy). lia.
  - intros x Hx Ht. destruct (newcomer_not_base x Hx Ht).
  - intros x Hx.
    destruct (constructionStep_spec x) as (_ & Ht & _ & Hh & _).
    rewrite Ht, Hh. exact Hx.
  - intros x Hx.
    split; [exact (proj1 (noLivingBase_iff _) HN x Hx)|apply HQ, Hx].
Qed.

(** A tick that ends with no living home base sends the game state, and
    nothing else. *)
Lemma tickEngine_quiet bot g pr :
  let r := tickE bot (g, pr) in
  noLivingBase (state (fst (fst r))) ->
  snd r = [EmitGameState (state (fst (fst r)))] /\
  running (fst (fst r)) = running g.
Proof.
  unfold tickEngine.
  destruct (processCommands _ _ _ _ _) as [s1 n1].
  destruct (processEconomy _ _ _ _) as [s2 pr2].
  destruct (processCombat _ _) as [s4 pr4].
  pose proof (checkGameOver_state (mkEngine s4 [] (running g) (roomId g)) pr4)
    as [Hst _].
  pose proof (checkGameOver_none (mkEngine s4 [] (running g) (roomId g)) pr4)
    as Hnone.
  destruct (checkGameOver _) as [[g5 pr5] effects].
  cbn [fst snd state] in Hst, Hnone |- *. intros HN.
  rewrite Hst in HN. specialize (Hnone HN). injection Hnone as -> _ ->.
  split; reflexivity.
Qed.

Lemma runTicks_cons i rest acc :
  run (i :: rest) acc =
  let g :=
    fold_left (fun g c => handleCommand (c_playerId c) (c_command c) g)
      (received i) (fst acc) in
  if running g then
    let '(acc1, eff1) := tickE (botCommands i) (g, snd acc) in
    let '(acc2, eff2) := run rest acc1 in
    (acc2, eff1 ++ eff2)
  else run rest (g, snd acc).
Proof. reflexivity. Qed.

Lemma run_without_bases inputs :
  forall g pr,
    QueuesOk (state g) -> noLivingBase (state g) ->
    let r := run inputs (g, pr) in
    noLivingBase (state (fst (fst r))) /\
    running (fst (fst r)) = running g /\
    (running g = true ->
     exists states,
       snd r = map EmitGameState states /\ length states = length inputs).
Proof.
  induction inputs as [|i rest IH]; intros g pr HQ HN.
  - simpl. split; [exact HN|]. split; [reflexivity|]. intros _. exists [].
    auto.
  - rewrite runTicks_cons.
    destruct (handleCommands_fold (received i) g) as [Hst Hrun].
    cbv zeta in Hst, Hrun |- *. cbn [fst snd].
    set (g0 := fold_left _ (received i) g) in *.
    rewrite <- Hst in HQ, HN. rewrite <- Hrun.
    destruct (running g0) eqn:Er.
    + pose proof (tickEngine_queues (botCommands i) g0 pr HQ) as HQ1.
      pose proof (tickEngine_no_base (botCommands i) g0 pr HQ HN) as HN1.
      destruct (tickEngine_quiet (botCommands i) g0 pr HN1) as [He1 Hr1].
      destruct (tickE (botCommands i) (g0, pr)) as [[g1 pr1] eff1].
      cbn [fst snd] in HQ1, HN1, He1, Hr1.
      destruct (IH g1 pr1 HQ1 HN1) as (HN2 & Hr2 & Hs2).
      destruct (run rest (g1, pr1)) as [[g2 pr2] eff2].
      cbn [fst snd] in HN2, Hr2, Hs2 |- *.
      split; [exact HN2|]. split; [congruence|]. intros _.
      destruct Hs2 as (states & -> & Hlen); [congruence|].
      exists (state g1 :: states). rewrite He1. simpl. auto.
    + destruct (IH g0 pr HQ HN) as (HN2 & Hr2 & _).
      split; [exact HN2|]. split; [congruence|]. discriminate.
Qed.

End WithoutBases.

(** C10. The victory check sends [gameOver] only when exactly one player
    owns a living home base, and that player is the winner. When a tick ends
    with every home base destroyed, so that zero players own a living home
    base, that tick and every later tick send no [gameOver]: each tick sends
    the game state and nothing else, the engine keeps running, and there is
    still no living home base. (The training queues hold orders for units
    only, as [handleTrainUnit] guarantees.) *)
Theorem no_winner_without_bases (Math_sqrt : Q -> Q) (uuid : nat -> string)
    (spreadOffset : nat -> nat -> Z * Z) :
  (forall g pr winner reason,
      In (EmitGameOver winner reason) (snd (checkGameOver (g, pr))) ->
      ownsLivingBase (state g) winner /\
      forall p, ownsLivingBase (state g) p -> p = winner) /\
  (forall bot inputs g pr g1 pr1 eff1 g2 pr2 eff2,
      QueuesOk (state g) ->
      tickEngine Math_sqrt uuid spreadOffset bot (g, pr) = (g1, pr1, eff1) ->
      noLivingBase (state g1) ->
      runTicks Math_sqrt uuid spreadOffset inputs (g1, pr1)
        = (g2, pr2, eff2) ->
      (forall winner reason,
          ~ In (EmitGameOver winner reason) (eff1 ++ eff2)) /\
      running g2 = running g /\
      noLivingBase (state g2) /\
      (running g = true ->
       exists states,
         eff1 ++ eff2 = map EmitGameState states /\
         length states = S (length inputs))).
Proof.
  split; [apply checkGameOver_winner|].
  intros bot inputs g pr g1 pr1 eff1 g2 pr2 eff2 HQ Ht HN Hr.
  pose proof (tickEngine_queues Math_sqrt uuid spreadOffset bot g pr HQ)
    as HQ1.
  pose proof (tickEngine_quiet Math_sqrt uuid spreadOffset bot g pr) as Hq.
  cbv zeta in Hq. rewrite Ht in HQ1, Hq. cbn [fst snd] in HQ1, Hq.
  destruct (Hq HN) as [He1 Hr1].
  pose proof (run_without_bases Math_sqrt uuid spreadOffset inputs g1 pr1
                HQ1 HN) as H2.
  cbv zeta in H2. rewrite Hr in H2. cbn [fst snd] in H2.
  destruct H2 as (HN2 & Hr2 & Hs2).
  assert (Hshape : running g1 = true ->
            exists states,
              eff1 ++ eff2 = map EmitGameState states /\
              length states = S (length inputs)).
  { intros Hrun. destruct (Hs2 Hrun) as (states & -> & Hlen).
    exists (state g1 :: states). rewrite He1. simpl. auto. }
  split; [|split; [congruence|split; [exact HN2|]]].
  - intros w reason Hin.
    destruct (running g1) eqn:Er.
    + destruct (Hshape eq_refl) as (states & E & _). rewrite E in Hin.
      apply in_map_iff in Hin as (x & Hx & _). discriminate Hx.
    + (* a stopped engine runs no tick *)
      rewrite He1 in Hin. apply in_app_iff in Hin as [[Hin|[]]|Hin];
        [discriminate Hin|].
      clear -Hr Er Hin. revert g1 pr1 Er Hr.
      induction inputs as [|i rest IH]; intros g1 pr1 Er Hr.
      * simpl in Hr. injection Hr as _ _ <-. destruct Hin.
      * rewrite runTicks_cons in Hr.
        destruct (handleCommands_fold (received i) g1) as [_ Hrun].
        cbv zeta in Hrun, Hr. cbn [fst snd] in Hr.
        rewrite Hrun, Er in Hr. eapply IH; [|exact Hr].
        rewrite Hrun. exact Er.
  - rewrite <- Hr1. exact Hshape.
Qed.

Lemma no_winner_without_bases_witness :
  let '(g1, pr1, eff1) :=
    tickEngine sqrtQ uuidDemo spreadDemo [] (mutualSiegeEngine, idleProcess)
  in
  let '(g2, pr2, eff2) :=
    runTicks sqrtQ uuidDemo spreadDemo afterTheFall (g1, pr1) in
  noLivingBase (state g1) /\
  (forall winner reason, ~ In (EmitGameOver winner reason) (eff1 ++ eff2)) /\
  running g2 = true /\
  exists states,
    eff1 ++ eff2 = map EmitGameState states /\ length states = 3%nat.
Proof.
  destruct (tickEngine sqrtQ uuidDemo spreadDemo []
              (mutualSiegeEngine, idleProcess)) as [[g1 pr1] eff1] eqn:E1.
  destruct (runTicks sqrtQ uuidDemo spreadDemo afterTheFall (g1, pr1))
    as [[g2 pr2] eff2] eqn:E2.
  assert (HQ : QueuesOk (state mutualSiegeEngine)).
  { intros e [<-|[<-|[<-|[<-|[]]]]] o []. }
  assert (HN : noLivingBase (state g1)).
  { pose proof E1 as E. vm_compute in E. injection E as <- _ _.
    apply noLivingBase_iff. intros e [<-|[<-|[]]] Ht; discriminate Ht. }
  destruct (proj2 (no_winner_without_bases sqrtQ uuidDemo spreadDemo)
              [] afterTheFall mutualSiegeEngine idleProcess
              g1 pr1 eff1 g2 pr2 eff2 HQ E1 HN E2)
    as (H1 & H2 & _ & H3).
  split; [exact HN|]. split; [exact H1|]. split; [exact H2|].
  apply H3. reflexivity.
Defined.

(** ** What changes maxSupply *)

Lemma keeps_ages R (e e' : Entity) :
  (forall a b, R a b -> b <= a) -> keeps R e e' -> ages e e'.
Proof.
  intros HR [Hi Ht Ho Hp Hh _]. split; auto.
  unfold underConstruction. rewrite Hp. auto.
Qed.

Lemma ages_trans (a b c : Entity) : ages a b -> ages b c -> ages a c.
Proof.
  intros [] []. split; try congruence; [lia|auto].
Qed.

Lemma build_ages (e : Entity) : ages e (fst (constructionStep e)).
Proof.
  destruct (constructionStep_spec e) as (Hi & Ht & Ho & Hh & _ & _ & Hf & Hd).
  split; auto; [lia|].
  destruct (snd (constructionStep e)).
  - destruct (Hd eq_refl) as [H1 H2]. rewrite H2. discriminate.
  - rewrite (Hf eq_refl). auto.
Qed.

Lemma builds_ages (e e' : Entity) : builds e e' -> ages e e'.
Proof.
  intros H. eapply ages_trans; [apply build_ages|].
  apply (keeps_ages eq); [intros a b ->; lia|exact H].
Qed.

Lemma newcomer_asleep (e : Entity) : newcomer e -> asleep e.
Proof.
  intros [_ [H|[Ht Hp]]]; [left; exact H|right]. split; [exact Ht|].
  unfold underConstruction. rewrite Hp. reflexivity.
Qed.

Lemma keeps_asleep R (e e' : Entity) : keeps R e e' -> asleep e -> asleep e'.
Proof.
  intros [_ Ht _ Hp _ _]. unfold asleep, underConstruction.
  rewrite Ht, Hp. auto.
Qed.

Lemma getBuildTicks_long (t : EntityType) : 2 <= getBuildTicks t.
Proof. destruct t; vm_compute; discriminate. Qed.

Lemma newcomer_build_asleep (e : Entity) :
  newcomer e -> asleep (fst (constructionStep e)).
Proof.
  intros [_ [H|[Ht Hp]]].
  - left. destruct (constructionStep_spec e) as (_ & -> & _). exact H.
  - right. destruct (constructionStep_spec e) as (_ & Ht' & _).
    split; [rewrite Ht'; exact Ht|].
    unfold constructionStep. rewrite Hp.
    assert (H0 : Qle_bool 1 0 = false) by reflexivity. rewrite H0.
    pose proof (getBuildTicks_long (e_type e)) as Hl.
    destruct (getBuildTicks (e_type e) <=? 0) eqn:E0;
      [apply Z.leb_le in E0; lia|].
    assert (Hq : Qle_bool 1
                   (fl (0 + fl (1 / ZtoQ (getBuildTicks (e_type e)))))
                 = false).
    { apply Qle_bool_false. unfold ZtoQ.
      assert (Hp2 : (2 <= inject_Z (getBuildTicks (e_type e)))%Q).
      { change 2%Q with (inject_Z 2). rewrite <- Zle_Qle. exact Hl. }
      assert (Hd1 : (0 < 1 / inject_Z (getBuildTicks (e_type e)))%Q)
        by (apply Qlt_shift_div_l; Lqa.lra).
      assert (Hd2 : (1 / inject_Z (getBuildTicks (e_type e)) <= 1 # 2)%Q)
        by (apply Qle_shift_div_r; Lqa.lra).
      set (d := (1 / inject_Z (getBuildTicks (e_type e)))%Q) in *.
      destruct (fl_pos_bounds d Hd1) as [L1 U1]. unfold ulp53 in L1, U1.
      set (fd := fl d) in *.
      destruct (fl_pos_bounds (0 + fd)%Q ltac:(Lqa.lra)) as [_ U2].
      unfold ulp53 in U2. Lqa.lra. }
    rewrite Hq. simpl. unfold underConstruction. simpl.
    unfold Qlt_bool. rewrite Hq. reflexivity.
Qed.

Lemma granted_asleep (e : Entity) : asleep e -> granted e = 0.
Proof.
  intros [H|[Ht Hu]]; unfold granted, completed.
  - case_match; [|reflexivity].
    destruct (e_type e); try discriminate H; reflexivity.
  - rewrite Hu, andb_false_r. reflexivity.
Qed.

Lemma evolves_same_entities uuid K N a b b' :
  entities (fst b') = entities (fst b) -> snd b' = snd b ->
  evolves uuid K N a b -> evolves uuid K N a b'.
Proof.
  intros He Hn (Hle & k & n & E & F & G & I). split; [rewrite Hn; exact Hle|].
  exists k, n. rewrite He, Hn. auto.
Qed.

Lemma Forall2_of_map {A B C : Type} (K : B -> C -> Prop) (f : A -> B)
    (l : list A) (k : list C) :
  Forall2 K (map f l) k -> Forall2 (fun x y => K (f x) y) l k.
Proof.
  revert k. induction l as [|x l IH]; intros k H; simpl in H;
    inversion H; subst; constructor; auto.
Qed.

Section TickShape.

Variable Math_sqrt : Q -> Q.
Variable uuid : nat -> string.
Variable spreadOffset : nat -> nat -> Z * Z.
Hypothesis uuid_inj : forall m n, uuid m = uuid n -> m = n.

Local Abbreviation Inv := (TickInv uuid).
Local Abbreviation quiet := (evolves uuid (keeps eq) newcomer).

Lemma quiet_trans a b c : quiet a b -> quiet b c -> quiet a c.
Proof.
  apply evolves_trans.
  - intros x y z. apply keeps_trans; typeclasses eauto.
  - intros x y Hx Hk. eapply keeps_newcomer; eassumption.
  - auto.
  - intros x y []. assumption.
Qed.

Lemma step_quiet a b : step uuid eq a b -> Inv a -> quiet a b.
Proof.
  intros Hs HI. apply (step_evolves uuid uuid_inj eq); [exact Hs|apply HI].
Qed.

Lemma processCommands_quiet commands acc :
  Inv acc ->
  quiet acc (processCommands Math_sqrt uuid spreadOffset commands acc).
Proof.
  unfold processCommands. revert acc.
  induction commands as [|c l IH]; intros acc HI; simpl.
  - apply evolves_refl. apply keeps_refl. typeclasses eauto.
  - eapply quiet_trans;
      [|apply IH, (dispatch_inv Math_sqrt uuid spreadOffset uuid_inj), HI].
    destruct (dispatch_step Math_sqrt uuid spreadOffset eq acc c)
      as (mid & Hs & [->| ->]).
    + apply step_quiet; assumption.
    + eapply evolves_same_entities; [| |apply step_quiet; eassumption];
        reflexivity.
Qed.

(** The economy pass: construction, then training, pending builds and
    gathering. *)
Lemma processEconomy_shape s pr :
  Inv (s, uuidCalls pr) ->
  let r := processEconomy Math_sqrt uuid (Some recalculateSupply) (s, pr) in
  evolves uuid builds newcomer (s, uuidCalls pr) (fst r, uuidCalls (snd r)).
Proof.
  intros HI. unfold processEconomy.
  pose proof (processConstruction_inv uuid s _ HI) as H2.
  pose proof (processConstruction_entities s) as He.
  destruct (processConstruction s) as [s1 built]. cbn [fst snd] in H2, He.
  set (s2 := if built then recalculateSupply s1 else s1) in *.
  assert (He2 : entities s2 = map (fun e => fst (constructionStep e))
                                  (entities s)).
  { rewrite <- He. unfold s2. destruct built; reflexivity. }
  assert (Hs : step uuid eq (s2, uuidCalls pr)
                 (let '(s3, n3) := processTraining uuid (s2, uuidCalls pr) in
                  let '(s4, n4) :=
                    processPendingBuilds Math_sqrt uuid (s3, n3) in
                  let '(s5, timers) :=
                    processGathering Math_sqrt (s4, gatherTimers pr) in
                  (s5, n4))).
  { pose proof (processTraining_step uuid eq (s2, uuidCalls pr)
                  (ti_queues _ _ H2)) as S3.
    destruct (processTraining uuid _) as [s3 n3].
    pose proof (processPendingBuilds_step Math_sqrt uuid eq (s3, n3)) as S4.
    destruct (processPendingBuilds Math_sqrt uuid _) as [s4 n4].
    pose proof (processGathering_step Math_sqrt uuid eq
                  (s4, gatherTimers pr) n4) as S5.
    destruct (processGathering Math_sqrt _) as [s5 timers].
    eapply step_trans; [exact S3|]. eapply step_trans; [exact S4|exact S5]. }
  apply step_quiet in Hs; [|exact H2].
  destruct (processTraining uuid _) as [s3 n3].
  destruct (processPendingBuilds Math_sqrt uuid _) as [s4 n4].
  destruct (processGathering Math_sqrt _) as [s5 timers].
  cbn [fst snd uuidCalls].
  destruct Hs as (Hle & k & n & E & F & G & I). cbn [fst snd] in *.
  split; [exact Hle|]. exists k, n. split; [exact E|].
  split; [|split; assumption].
  rewrite He2 in F. apply Forall2_of_map in F. exact F.
Qed.

(** Combat: the passes before the removal only lower hit points; then the
    entities whose id is the id of a dead entity are removed. *)
Lemma processCombat_shape s pr :
  Inv (s, uuidCalls pr) ->
  exists s4,
    Forall2 (keeps (flip Z.le)) (entities s) (entities s4) /\
    entities (fst (processCombat Math_sqrt (s, pr))) =
      List.filter
        (fun e =>
           negb (includes (e_id e)
                   (map e_id
                      (List.filter (fun e => e_hp e <=? 0) (entities s4)))))
        (entities s4).
Proof.
  intros HI.
  pose proof (combat_passes_step Math_sqrt uuid (flip Z.le)
                (fun x d => damage_flip x d) s
                (tickCooldowns (attackCooldowns pr)) (uuidCalls pr)) as Hs.
  cbv zeta in Hs. unfold processCombat.
  destruct (fold_left (defensiveStep Math_sqrt) _ _) as [s2 cds2].
  cbn [fst snd] in Hs.
  destruct (fold_left (targetingStep Math_sqrt cds2) _ _) as [s3 apt].
  cbn [fst snd] in Hs.
  destruct (applyBatchedDamage apt (s3, cds2)) as [s4 cds4].
  cbn [fst snd] in Hs.
  pose proof (step_evolves uuid uuid_inj (flip Z.le) _ _ Hs (ti_fresh _ _ HI))
    as He.
  pose proof (evolves_no_news uuid _ _ _ _ He eq_refl) as F.
  cbn [fst snd] in F.
  destruct (removeDead_spec s4 cds4) as (Hd & _ & Hent).
  destruct (removeDead (s4, cds4)) as [[s5 cds5] deadIds].
  cbn [fst snd] in Hd, Hent |- *.
  exists s4. split; [exact F|]. rewrite <- Hd.
  destruct deadIds; exact Hent.
Qed.

End TickShape.

Lemma Forall2_evolves uuid K N (s s' : GameState) (n : nat) :
  Forall2 K (entities s) (entities s') -> evolves uuid K N (s, n) (s', n).
Proof.
  intros F. split; [simpl; lia|]. exists (entities s'), []. simpl.
  rewrite app_nil_r, Nat.sub_diag. auto.
Qed.

Section TickShape2.

Variable Math_sqrt : Q -> Q.
Variable uuid : nat -> string.
Variable spreadOffset : nat -> nat -> Z * Z.
Hypothesis uuid_inj : forall m n, uuid m = uuid n -> m = n.

Local Abbreviation Inv := (TickInv uuid).

Lemma aged_then_kept R a b c :
  (forall x y, R x y -> y <= x) ->
  evolves uuid ages asleep a b -> evolves uuid (keeps R) newcomer b c ->
  evolves uuid ages asleep a c.
Proof.
  intros HR. apply evolves_trans.
  - intros x y z H1 H2. eapply ages_trans; [exact H1|].
    eapply keeps_ages; eassumption.
  - intros x y Hx Hk. eapply keeps_asleep; eassumption.
  - apply newcomer_asleep.
  - intros x y []. assumption.
Qed.

(** The entities after a tick are those of the state before the removal of
    the dead, less the dead; the former are the entities before the tick,
    aged, and then entities that grant no supply. *)
Lemma tickEngine_shape bot g pr :
  Inv (state g, uuidCalls pr) ->
  let r := tickEngine Math_sqrt uuid spreadOffset bot (g, pr) in
  exists s4 n4,
    evolves uuid ages asleep (state g, uuidCalls pr) (s4, n4) /\
    entities (state (fst (fst r))) =
      List.filter
        (fun e =>
           negb (includes (e_id e)
                   (map e_id
                      (List.filter (fun e => e_hp e <=? 0) (entities s4)))))
        (entities s4).
Proof.
  intros H0. unfold tickEngine.
  assert (S0 : step uuid eq (state g, uuidCalls pr)
                 (set_tick (tick (state g) + 1) (state g), uuidCalls pr))
    by apply step_clock.
  pose proof (step_quiet uuid uuid_inj _ _ S0 H0) as E0.
  pose proof (step_inv uuid uuid_inj _ _ S0 H0) as I0.
  pose proof (processCommands_quiet Math_sqrt uuid spreadOffset uuid_inj
                (commandQueue g ++ bot) _ I0) as E1.
  pose proof (processCommands_inv Math_sqrt uuid spreadOffset uuid_inj
                (commandQueue g ++ bot) _ I0) as I1.
  destruct (processCommands _ _ _ _ _) as [s1 n1].
  pose proof (quiet_trans uuid _ _ _ E0 E1) as A1.
  pose proof (processEconomy_shape Math_sqrt uuid uuid_inj s1
                (mkProcess (attackCooldowns pr) (gatherTimers pr) n1) I1)
    as E2.
  pose proof (processEconomy_inv Math_sqrt uuid uuid_inj s1
                (mkProcess (attackCooldowns pr) (gatherTimers pr) n1) I1)
    as I2.
  cbv zeta in E2, I2.
  destruct (processEconomy _ _ _ _) as [s2 pr2].
  cbn [fst snd uuidCalls] in E2, I2.
  assert (A2 : evolves uuid ages asleep (state g, uuidCalls pr)
                 (s2, uuidCalls pr2)).
  { revert A1 E2. apply evolves_trans.
    - intros x y z H1 H2. eapply ages_trans; [|apply builds_ages, H2].
      apply (keeps_ages eq); [intros a b ->; lia|exact H1].
    - intros x y Hx Hk. eapply keeps_asleep; [exact Hk|].
      apply newcomer_build_asleep, Hx.
    - apply newcomer_asleep.
    - intros x y []. destruct (constructionStep_spec x) as (Hi & _).
      congruence. }
  assert (S3 : step uuid eq (s2, uuidCalls pr2)
                 (processMovement Math_sqrt s2, uuidCalls pr2)).
  { apply processMovement_step. typeclasses eauto. }
  pose proof (step_quiet uuid uuid_inj _ _ S3 I2) as E3.
  pose proof (step_inv uuid uuid_inj _ _ S3 I2) as I3.
  assert (A3 := aged_then_kept eq _ _ _ (fun x y (H : x = y) =>
                   eq_ind x (fun y => y <= x) (Z.le_refl x) y H) A2 E3).
  destruct (processCombat_shape Math_sqrt uuid uuid_inj _ _ I3)
    as (s4 & F & Hent).
  assert (A4 := aged_then_kept (flip Z.le) _ _ _ (fun x y H => H) A3
                  (Forall2_evolves uuid _ newcomer _ s4 _ F)).
  destruct (processCombat _ _) as [s5 pr5]. cbn [fst] in Hent.
  destruct (checkGameOver_state (mkEngine s5 [] (running g) (roomId g)) pr5)
    as [Hst _].
  destruct (checkGameOver _) as [[g6 pr6] effects].
  cbn [fst snd] in Hst |- *. rewrite Hst.
  exists s4, (uuidCalls pr2). split; [exact A4|exact Hent].
Qed.

End TickShape2.

Lemma supplyOwned_filter_zero pid (p : Entity -> bool) l :
  Forall asleep l -> supplyOwned pid (List.filter p l) = 0.
Proof.
  intros H. apply supplyOwned_zero. apply Forall_forall. intros x Hx.
  apply list_elem_of_In, List.filter_In in Hx as [Hx _].
  apply granted_asleep. rewrite Forall_forall in H. apply H.
  apply list_elem_of_In, Hx.
Qed.

(** Summing over the pairs of an entity and what the tick made of it:
    either the two sums agree pair by pair, or some entity is an exception
    ([changed]). *)
Lemma supplyOwned_pairs pid (p : Entity -> bool) (changed : Entity -> Prop)
    (l k : list Entity) :
  Forall2 ages l k ->
  (forall x y, In x l -> In y k -> ages x y ->
     (if bool_decide (e_ownerId x = pid) then granted x else 0)
     = (if p y then if bool_decide (e_ownerId y = pid) then granted y else 0
        else 0)
     \/ changed x) ->
  supplyOwned pid (List.filter p k) = supplyOwned pid l \/
  exists x, In x l /\ changed x.
Proof.
  intros F. induction F as [|x y l k Hxy F IH]; intros H; [left; reflexivity|].
  destruct (H x y (or_introl eq_refl) (or_introl eq_refl) Hxy) as [Hx|Hx];
    [|right; exists x; split; [left; reflexivity|exact Hx]].
  destruct IH as [IH|(z & Hz & Hc)].
  - intros a b Ha Hb. apply H; right; assumption.
  - left. simpl. unfold supplyOwned in *. rewrite Hx.
    destruct (p y); simpl; rewrite IH; reflexivity.
  - right. exists z. split; [right; exact Hz|exact Hc].
Qed.

(** Between two tick boundaries the supply granted to [pid] changes only
    when a building of [pid] that granted supply is destroyed or a house of
    [pid] is completed. *)
Lemma supply_change uuid (s s' s4 : GameState) (n n4 : nat) (pid : string) :
  BasesBuilt s ->
  evolves uuid ages asleep (s, n) (s4, n4) ->
  entities s' =
    List.filter
      (fun e =>
         negb (includes (e_id e)
                 (map e_id
                    (List.filter (fun e => e_hp e <=? 0) (entities s4)))))
      (entities s4) ->
  supplyGranted s' pid = supplyGranted s pid \/
  exists e, In e (entities s) /\ e_ownerId e = pid /\
            (destroyedIn s' e \/ completedIn s' e).
Proof.
  intros HB (_ & k & news & E & F & G & _) Hent. cbn [fst snd] in E, F.
  set (dead := map e_id (List.filter (fun e => e_hp e <=? 0) (entities s4)))
    in *.
  set (p := fun e => negb (includes (e_id e) dead)) in *.
  assert (Hlive : forall y, In y (entities s4) -> p y = true -> 0 < e_hp y).
  { intros y Hy Hp. destruct (e_hp y <=? 0) eqn:Eh; [|apply Z.leb_gt, Eh].
    unfold p, includes in Hp. apply negb_true_iff, bool_decide_eq_false in Hp.
    destruct Hp. apply list_elem_of_In, in_map, List.filter_In. auto. }
  assert (Hgone : forall y, p y = false ->
            forall e', In e' (entities s') -> e_id e' <> e_id y).
  { intros y Hp e' He' Heq. rewrite Hent in He'.
    apply List.filter_In in He' as [_ Hp']. fold p in Hp'.
    unfold p in Hp, Hp'. rewrite Heq in Hp'. congruence. }
  unfold supplyGranted. rewrite Hent. fold dead. fold p.
  rewrite E, List.filter_app, supplyOwned_app.
  rewrite (supplyOwned_filter_zero pid p news G), Z.add_0_r.
  apply supplyOwned_pairs; [exact F|].
  intros x y Hx Hy [Hi Ht Ho Hh Hu].
  assert (Hy4 : In y (entities s4)) by (rewrite E; apply in_app_iff; auto).
  rewrite Ho.
  destruct (bool_decide (e_ownerId x = pid)) eqn:Eo;
    [apply bool_decide_eq_true in Eo|left; destruct (p y); reflexivity].
  destruct (p y) eqn:Ep.
  - pose proof (Hlive y Hy4 Ep) as Hay.
    assert (Hax : 0 < e_hp x) by lia.
    unfold granted, alive, completed. rewrite Ht.
    rewrite (proj2 (Z.ltb_lt 0 (e_hp x)) Hax),
      (proj2 (Z.ltb_lt 0 (e_hp y)) Hay). simpl.
    destruct (underConstruction x) eqn:Ux, (underConstruction y) eqn:Uy;
      simpl; try (left; reflexivity).
    + destruct (e_type x) eqn:Etx; try (left; reflexivity).
      * specialize (HB x Hx Etx). congruence.
      * right. split; [exact Eo|]. right.
        split; [exact Etx|]. unfold alive, completed.
        rewrite (proj2 (Z.ltb_lt 0 (e_hp x)) Hax), Ux.
        split; [reflexivity|]. split; [reflexivity|].
        exists y. rewrite Hent. fold dead. fold p.
        rewrite List.filter_In, Ht, Uy,
          (proj2 (Z.ltb_lt 0 (e_hp y)) Hay). auto 10.
    + specialize (Hu eq_refl). congruence.
  - destruct (Z.eq_dec (granted x) 0) as [Hz|Hz]; [left; exact Hz|].
    right. split; [exact Eo|]. left. split; [exact Hz|].
    intros e' He'. rewrite <- Hi. apply (Hgone y Ep e' He').
Qed.

(** ** The constructor and the run of ticks *)

Lemma placeStart_none uuid spawn l :
  fold_left (placeStart uuid spawn) l None = None.
Proof. induction l as [|x l IH]; simpl; auto. Qed.

Section Constructor.

Variable uuid : nat -> string.
Hypothesis uuid_inj : forall m n, uuid m = uuid n -> m = n.

Lemma placeStart_fold spawn l :
  forall s n s' n',
    fold_left (placeStart uuid spawn) l (Some (s, n)) = Some (s', n') ->
    BasesBuilt s -> QueuesOk s -> Fresh uuid n s ->
    BasesBuilt s' /\ QueuesOk s' /\ Fresh uuid n' s'.
Proof.
  induction l as [|[i pid] l IH]; intros s n s' n' H HB HQ HF; simpl in H.
  - injection H as <- <-. auto.
  - destruct (spawn !! i) as [[x y]|]; [|rewrite placeStart_none in H;
                                          discriminate H].
    apply IH in H; [exact H| | |].
    + intros e He Ht. simpl in He.
      apply In_putEntity in He as [->|He]; [discriminate Ht|].
      apply In_putEntity in He as [->|He]; [reflexivity|]. apply HB; assumption.
    + intros e He. simpl in He.
      apply In_putEntity in He as [->|He]; [intros o []|].
      apply In_putEntity in He as [->|He]; [intros o []|]. apply HQ, He.
    + intros m Hm. apply getEntity_None. simpl. intros Hin.
      apply in_map_iff in Hin as (e & Hid & He).
      apply In_putEntity in He as [->|He];
        [simpl in Hid; apply uuid_inj in Hid; lia|].
      apply In_putEntity in He as [->|He];
        [simpl in Hid; apply uuid_inj in Hid; lia|].
      assert (Hno := HF m ltac:(lia)). apply getEntity_None in Hno.
      apply Hno. rewrite <- Hid. apply in_map, He.
Qed.

Lemma newEngine_inv n0 room roomPlayers mapData g n :
  newEngine uuid n0 room roomPlayers mapData = Some (g, n) ->
  TickInv uuid (state g, n).
Proof.
  unfold newEngine. destruct (getMapSize _) as [w h].
  destruct (fold_left _ _ _) as [[s n1]|] eqn:E; [|discriminate].
  intros H. injection H as <- <-. simpl.
  apply placeStart_fold in E as (HB & HQ & HF).
  - apply recalculateSupply_tick_inv; assumption.
  - intros e [].
  - intros e [].
  - intros m _. reflexivity.
Qed.

End Constructor.

Section Run.

Variable Math_sqrt : Q -> Q.
Variable uuid : nat -> string.
Variable spreadOffset : nat -> nat -> Z * Z.
Hypothesis uuid_inj : forall m n, uuid m = uuid n -> m = n.

Lemma runTicks_inv inputs :
  forall g pr,
    TickInv uuid (state g, uuidCalls pr) ->
    let r := runTicks Math_sqrt uuid spreadOffset inputs (g, pr) in
    TickInv uuid (state (fst (fst r)), uuidCalls (snd (fst r))).
Proof.
  induction inputs as [|i rest IH]; intros g pr HI; [exact HI|].
  rewrite runTicks_cons.
  destruct (handleCommands_fold (received i) g) as [Hst _].
  cbv zeta in Hst |- *. cbn [fst snd].
  set (g0 := fold_left _ (received i) g) in *. rewrite <- Hst in HI.
  destruct (running g0); [|apply IH, HI].
  pose proof (tickEngine_inv Math_sqrt uuid spreadOffset uuid_inj
                (botCommands i) g0 pr HI) as H1.
  cbv zeta in H1.
  destruct (tickEngine _ _ _ _ _) as [[g1 pr1] eff1]. cbn [fst snd] in H1.
  specialize (IH g1 pr1 H1). cbv zeta in IH.
  destruct (runTicks _ _ _ rest _) as [[g2 pr2] eff2]. exact IH.
Qed.

End Run.

(** C4. The constructor leaves every player's maxSupply equal to the sum
    of the supply granted by its alive and fully completed buildings (home
    bases and completed houses), and every tick keeps it so: the equation
    holds at every tick boundary of every run. Between two tick boundaries
    the maxSupply of a player changes only when one of its buildings that
    granted supply is destroyed or one of its houses is completed.
    [recalculateSupply] sets maxSupply to that sum computed from the
    entities, whatever its value was. (Ids returned by [uuid()] are pairwise
    distinct and new; home bases are never under construction; training
    queues hold orders for units: [TickInv].) *)
Theorem supply_accounting (Math_sqrt : Q -> Q) (uuid : nat -> string)
    (spreadOffset : nat -> nat -> Z * Z)
    (uuid_inj : forall m n, uuid m = uuid n -> m = n) :
  (forall n0 room roomPlayers mapData g n,
      newEngine uuid n0 room roomPlayers mapData = Some (g, n) ->
      TickInv uuid (state g, n)) /\
  (forall bot g pr g' pr' effects,
      TickInv uuid (state g, uuidCalls pr) ->
      tickEngine Math_sqrt uuid spreadOffset bot (g, pr)
        = (g', pr', effects) ->
      TickInv uuid (state g', uuidCalls pr') /\
      (forall pid p,
          players (state g') !! pid = Some p ->
          p_maxSupply p = supplyGranted (state g') pid) /\
      (forall pid p p',
          players (state g) !! pid = Some p ->
          players (state g') !! pid = Some p' ->
          p_maxSupply p' <> p_maxSupply p ->
          exists e,
            In e (entities (state g)) /\ e_ownerId e = pid /\
            (destroyedIn (state g') e \/ completedIn (state g') e))) /\
  (forall inputs g pr g' pr' effects,
      TickInv uuid (state g, uuidCalls pr) ->
      runTicks Math_sqrt uuid spreadOffset inputs (g, pr)
        = (g', pr', effects) ->
      forall pid p,
        players (state g') !! pid = Some p ->
        p_maxSupply p = supplyGranted (state g') pid) /\
  (forall s pid,
      BasesBuilt s ->
      p_maxSupply <$> players (recalculateSupply s) !! pid
      = (fun _ => supplyGranted s pid) <$> players s !! pid).
Proof.
  split; [|split; [|split]].
  - intros n0 room roomPlayers mapData g n.
    apply (newEngine_inv uuid uuid_inj).
  - intros bot g pr g' pr' effects HI Ht.
    pose proof (tickEngine_inv Math_sqrt uuid spreadOffset uuid_inj bot g pr
                  HI) as H1.
    pose proof (tickEngine_shape Math_sqrt uuid spreadOffset uuid_inj bot g
                  pr HI) as H2.
    cbv zeta in H1, H2. rewrite Ht in H1, H2. cbn [fst snd] in H1, H2.
    split; [exact H1|]. split; [exact (ti_supply _ _ H1)|].
    intros pid p p' Hp Hp' Hne.
    destruct H2 as (s4 & n4 & Hev & Hent).
    destruct (supply_change uuid (state g) (state g') s4 _ n4 pid
                (ti_bases _ _ HI) Hev Hent) as [Heq|Hex]; [|exact Hex].
    destruct Hne.
    rewrite (ti_supply _ _ H1 pid p' Hp'), (ti_supply _ _ HI pid p Hp).
    exact Heq.
  - intros inputs g pr g' pr' effects HI Hr.
    pose proof (runTicks_inv Math_sqrt uuid spreadOffset uuid_inj inputs g pr
                  HI) as H1.
    cbv zeta in H1. rewrite Hr in H1. exact (ti_supply _ _ H1).
  - intros s pid HB. apply recalculateSupply_players, HB.
Qed.

Lemma uuidDemo_inj (m n : nat) : uuidDemo m = uuidDemo n -> m = n.
Proof.
  unfold uuidDemo. intros H. apply String.app_inj in H.
  apply pretty_nat_inj in H. exact H.
Qed.

Lemma uuidDemo_prefix (m : nat) (id : string) :
  String.get 0 id <> String.get 0 "uuid-" -> uuidDemo m <> id.
Proof. intros H <-. apply H. reflexivity. Qed.

Lemma supply_accounting_witness :
  let '(g', pr', _) :=
    tickEngine sqrtQ uuidDemo spreadDemo [] (lastBrickEngine, idleProcess) in
  (p_maxSupply <$> players lastBrick !! "p1") = Some 10 /\
  (p_maxSupply <$> players (state g') !! "p1") = Some 20 /\
  supplyGranted (state g') "p1" = 20 /\
  (exists e, In e (entities lastBrick) /\ e_id e = "h1" /\
             completedIn (state g') e) /\
  (exists g n, newEngine uuidDemo 0 "room" twoPlayerRoom smallMap
               = Some (g, n) /\
               TickInv uuidDemo (state g, n)).
Proof.
  destruct (supply_accounting sqrtQ uuidDemo spreadDemo uuidDemo_inj)
    as (Hnew & Htick & _ & _).
  assert (HI : TickInv uuidDemo (state lastBrickEngine, uuidCalls idleProcess)).
  { split; cbn [fst snd state lastBrickEngine uuidCalls idleProcess].
    - intros pid p Hp. unfold lastBrick in Hp. cbn [players] in Hp.
      apply lookup_singleton_Some in Hp as [<- <-]. reflexivity.
    - intros e [<-|[<-|[<-|[]]]] Ht; try discriminate Ht. reflexivity.
    - intros e [<-|[<-|[<-|[]]]] o [].
    - intros m _. apply getEntity_None.
      intros [H|[H|[H|[]]]]; revert H; apply not_eq_sym, uuidDemo_prefix;
        discriminate. }
  destruct (tickEngine sqrtQ uuidDemo spreadDemo []
              (lastBrickEngine, idleProcess)) as [[g' pr'] effects] eqn:E.
  destruct (Htick [] lastBrickEngine idleProcess g' pr' effects HI E)
    as (HI' & Hsup & Hchange).
  assert (Hp' : (p_maxSupply <$> players (state g') !! "p1") = Some 20).
  { pose proof E as E'. vm_compute in E'. injection E' as <- _ _.
    reflexivity. }
  destruct (players (state g') !! "p1") as [p'|] eqn:Ep'; [|discriminate Hp'].
  injection Hp' as Hp'.
  split; [reflexivity|]. split; [simpl; f_equal; exact Hp'|].
  split; [rewrite <- (Hsup "p1" p' Ep'); exact Hp'|]. split.
  - destruct (Hchange "p1" (demoPlayer "p1" 100 1) p' eq_refl Ep')
      as (e & He & _ & [Hd|Hc]).
    + rewrite Hp'. discriminate.
    + exfalso. destruct Hd as [Hg Hgone].
      pose proof E as E'. vm_compute in E'. injection E' as <- _ _.
      destruct He as [<-|[<-|[<-|[]]]].
      * apply (Hgone _ (or_introl eq_refl)). reflexivity.
      * apply Hg. reflexivity.
      * apply Hg. reflexivity.
    + exists e. split; [exact He|]. split; [|exact Hc].
      destruct Hc as (Ht & _). destruct He as [<-|[<-|[<-|[]]]];
        try discriminate Ht. reflexivity.
  - destruct (newEngine uuidDemo 0 "room" twoPlayerRoom smallMap)
      as [[g n]|] eqn:En; [|vm_compute in En; discriminate En].
    exists g, n. split; [reflexivity|]. apply (Hnew _ _ _ _ _ _ En).
Defined.

(** ** The walkability grid *)

(** Reading a cell at indices that are not negative. *)
Lemma cell_lookup (g : Pathfinding.Grid) (x y : Z) :
  Pathfinding.cell g x y = true <->
  exists row, g !! Z.to_nat y = Some row /\ row !! Z.to_nat x = Some true.
Proof.
  unfold Pathfinding.cell. destruct (g !! Z.to_nat y) as [row|].
  - destruct (row !! Z.to_nat x) as [b|] eqn:E.
    + split; [intros ->; eauto|]. intros (r & [= <-] & H). congruence.
    + split; [discriminate|]. intros (r & [= <-] & H). congruence.
  - split; [discriminate|]. intros (r & H & _). discriminate H.
Qed.

Lemma inMap_spec (s : GameState) (x y : Z) :
  inMap s x y = true <-> 0 <= x < mapWidth s /\ 0 <= y < mapHeight s.
Proof. unfold inMap. rewrite !andb_true_iff, !Z.leb_le, !Z.ltb_lt. lia. Qed.

Lemma cell_blockTile (s : GameState) (g : Pathfinding.Grid) (tx ty x y : Z) :
  0 <= x -> 0 <= y ->
  (Pathfinding.cell (blockTile s g tx ty) x y = true <->
   Pathfinding.cell g x y = true /\
   ~ (inMap s tx ty = true /\ x = tx /\ y = ty)).
Proof.
  intros Hx Hy. unfold blockTile. destruct (inMap s tx ty) eqn:Em;
    [|split; [intros H; split; [exact H|intros [H' _]; discriminate]|tauto]].
  apply inMap_spec in Em. unfold Pathfinding.cell, Pathfinding.Grid in *.
  destruct (decide (y = ty)) as [->|Hne].
  - rewrite list_lookup_alter_eq.
    destruct (g !! Z.to_nat ty) as [row|] eqn:Er; simpl;
      [|split; [discriminate|intros [H _]; discriminate H]].
    destruct (decide (x = tx)) as [->|Hnx].
    + destruct (decide (Z.to_nat tx < length row)%nat) as [Hl|Hl].
      * rewrite list_lookup_insert_eq by exact Hl.
        split; [discriminate|]. intros [_ H]. destruct H. auto.
      * rewrite list_insert_ge by lia.
        rewrite (lookup_ge_None_2 row (Z.to_nat tx)) by lia.
        split; [discriminate|intros [H _]; discriminate H].
    + rewrite list_lookup_insert_ne by lia.
      split; [intros H; split; [exact H|lia]|tauto].
  - rewrite list_lookup_alter_ne by lia.
    split; [intros H; split; [exact H|lia]|tauto].
Qed.

Lemma gridShape_blockTile s g tx ty w h :
  gridShape g w h -> gridShape (blockTile s g tx ty) w h.
Proof.
  intros [Hl Hr]. unfold blockTile, Pathfinding.Grid in *.
  destruct (inMap s tx ty); [|split; auto].
  split; [rewrite length_alter; exact Hl|].
  intros row Hin. apply list_elem_of_In, list_elem_of_lookup in Hin as [i Hi].
  destruct (decide (i = Z.to_nat ty)) as [->|Hne].
  - rewrite list_lookup_alter_eq in Hi.
    destruct (g !! Z.to_nat ty) as [r|] eqn:Er; [|discriminate Hi].
    injection Hi as <-. rewrite length_insert. apply Hr.
    apply list_elem_of_In, list_elem_of_lookup. eauto.
  - rewrite list_lookup_alter_ne in Hi by auto. apply Hr.
    apply list_elem_of_In, list_elem_of_lookup. eauto.
Qed.

(** Blocking a list of tiles. *)
Lemma cell_blockTiles (s : GameState) (tiles : list (Z * Z))
    (g : Pathfinding.Grid) (x y : Z) :
  0 <= x -> 0 <= y ->
  (Pathfinding.cell
     (fold_left (fun g' t => blockTile s g' (fst t) (snd t)) tiles g) x y
   = true <->
   Pathfinding.cell g x y = true /\ ~ (inMap s x y = true /\ In (x, y) tiles)).
Proof.
  intros Hx Hy. revert g. induction tiles as [|[tx ty] l IH]; intros g; simpl.
  - tauto.
  - rewrite IH, cell_blockTile by assumption. simpl. split.
    + intros [[H1 H2] H3]. split; [exact H1|]. intros [Hm [[= <- <-]|Hin]];
        [apply H2; auto|apply H3; auto].
    + intros [H1 H2]. split; [split; [exact H1|]|].
      * intros (Hm & -> & ->). apply H2. auto.
      * intros [Hm Hin]. apply H2. auto.
Qed.

Lemma gridShape_blockTiles s tiles g w h :
  gridShape g w h ->
  gridShape (fold_left (fun g' t => blockTile s g' (fst t) (snd t)) tiles g)
    w h.
Proof.
  revert g. induction tiles as [|t l IH]; intros g H; simpl; [exact H|].
  apply IH, gridShape_blockTile, H.
Qed.

(** The tiles of a footprint in the order in which the loops visit them. *)
Lemma blockFootprint_tiles (s : GameState) (x y : Q) (w h : Z)
    (g : Pathfinding.Grid) :
  blockFootprint s x y w h g =
  fold_left (fun g' t => blockTile s g' (fst t) (snd t))
    (flat_map
       (fun dy => map (fun dx => (Math_round x + dx, Math_round y + dy))
                      (seqZ 0 w))
       (seqZ 0 h)) g.
Proof.
  unfold blockFootprint. generalize (seqZ 0 h). intros rows. revert g.
  induction rows as [|dy rows IH]; intros g; simpl; [reflexivity|].
  rewrite fold_left_app, IH. f_equal.
  generalize (seqZ 0 w). intros cols. revert g.
  induction cols as [|dx cols IHc]; intros g; simpl; [reflexivity|].
  apply IHc.
Qed.

Lemma In_footprint (x y : Q) (w h tx ty : Z) :
  In (tx, ty)
    (flat_map
       (fun dy => map (fun dx => (Math_round x + dx, Math_round y + dy))
                      (seqZ 0 w))
       (seqZ 0 h)) <->
  footprintCovers x y w h tx ty.
Proof.
  unfold footprintCovers. rewrite in_flat_map. split.
  - intros (dy & Hdy & Hin). apply in_map_iff in Hin as (dx & [= <- <-] & Hdx).
    apply list_elem_of_In, elem_of_seqZ in Hdy, Hdx. lia.
  - intros [H1 H2]. exists (ty - Math_round y). split.
    + apply list_elem_of_In, elem_of_seqZ. lia.
    + apply in_map_iff. exists (tx - Math_round x). split; [f_equal; lia|].
      apply list_elem_of_In, elem_of_seqZ. lia.
Qed.

Lemma cell_blockFootprint s px py w h g x y :
  0 <= x -> 0 <= y ->
  (Pathfinding.cell (blockFootprint s px py w h g) x y = true <->
   Pathfinding.cell g x y = true /\
   ~ (inMap s x y = true /\ footprintCovers px py w h x y)).
Proof.
  intros Hx Hy. rewrite blockFootprint_tiles, cell_blockTiles by assumption.
  rewrite In_footprint. reflexivity.
Qed.

Lemma gridShape_blockFootprint s px py w h g gw gh :
  gridShape g gw gh -> gridShape (blockFootprint s px py w h g) gw gh.
Proof. rewrite blockFootprint_tiles. apply gridShape_blockTiles. Qed.

Lemma cell_blockBuildings s (l : list Entity) g x y :
  0 <= x -> 0 <= y ->
  (Pathfinding.cell
     (fold_left
        (fun g e =>
           if truthy (e_tileWidth e) && truthy (e_tileHeight e)
           then blockFootprint s (e_x e) (e_y e)
                  (default 0 (e_tileWidth e)) (default 0 (e_tileHeight e)) g
           else g) l g) x y = true <->
   Pathfinding.cell g x y = true /\
   ~ (inMap s x y = true /\
      exists e, In e l /\
        truthy (e_tileWidth e) = true /\ truthy (e_tileHeight e) = true /\
        footprintCovers (e_x e) (e_y e) (default 0 (e_tileWidth e))
          (default 0 (e_tileHeight e)) x y)).
Proof.
  intros Hx Hy. revert g. induction l as [|e l IH]; intros g; simpl.
  - split; [intros H; split; [exact H|intros (_ & e & [] & _)]|tauto].
  - rewrite IH. clear IH.
    destruct (truthy (e_tileWidth e)) eqn:Ew;
      [destruct (truthy (e_tileHeight e)) eqn:Eh|]; simpl.
    + rewrite cell_blockFootprint by assumption. split.
      * intros [[H1 H2] H3]. split; [exact H1|].
        intros (Hm & e' & [<-|Hin] & H'); [apply H2; tauto|].
        apply H3. eauto.
      * intros [H1 H2]. split; [split; [exact H1|]|].
        -- intros [Hm Hc]. apply H2. split; [exact Hm|]. exists e. auto.
        -- intros (Hm & e' & Hin & H'). apply H2. eauto 10.
    + split.
      * intros [H1 H2]. split; [exact H1|].
        intros (Hm & e' & [<-|Hin] & Hw & Hh & Hc); [congruence|].
        apply H2. eauto 10.
      * intros [H1 H2]. split; [exact H1|].
        intros (Hm & e' & Hin & H'). apply H2. eauto 10.
    + split.
      * intros [H1 H2]. split; [exact H1|].
        intros (Hm & e' & [<-|Hin] & Hw & Hh & Hc); [congruence|].
        apply H2. eauto 10.
      * intros [H1 H2]. split; [exact H1|].
        intros (Hm & e' & Hin & H'). apply H2. eauto 10.
Qed.

Lemma cell_blockMines s (l : list GoldMine) g x y :
  0 <= x -> 0 <= y ->
  (Pathfinding.cell
     (fold_left
        (fun g m =>
           blockFootprint s (m_x m) (m_y m)
             GOLD_MINE_TILE_WIDTH GOLD_MINE_TILE_HEIGHT g) l g) x y = true <->
   Pathfinding.cell g x y = true /\
   ~ (inMap s x y = true /\
      exists m, In m l /\
        footprintCovers (m_x m) (m_y m) GOLD_MINE_TILE_WIDTH
          GOLD_MINE_TILE_HEIGHT x y)).
Proof.
  intros Hx Hy. revert g. induction l as [|m l IH]; intros g; simpl.
  - split; [intros H; split; [exact H|intros (_ & e & [] & _)]|tauto].
  - rewrite IH, cell_blockFootprint by assumption. clear IH. split.
    + intros [[H1 H2] H3]. split; [exact H1|].
      intros (Hm & m' & [<-|Hin] & H'); [apply H2; tauto|]. apply H3. eauto.
    + intros [H1 H2]. split; [split; [exact H1|]|].
      * intros [Hm Hc]. apply H2. split; [exact Hm|]. exists m. auto.
      * intros (Hm & m' & Hin & H'). apply H2. eauto 10.
Qed.

Lemma gridShape_fold {A : Type} (F : Pathfinding.Grid -> A -> Pathfinding.Grid)
    (l : list A) g w h :
  (forall g a, gridShape g w h -> gridShape (F g a) w h) ->
  gridShape g w h -> gridShape (fold_left F l g) w h.
Proof.
  intros HF. revert g. induction l as [|a l IH]; intros g H; simpl; auto.
Qed.

Lemma map_fmap {A B : Type} (f : A -> B) (l : list A) : map f l = f <$> l.
Proof. induction l as [|x l IH]; simpl; [reflexivity|]. rewrite IH. reflexivity. Qed.

Lemma seqZ_lookup_None (m n : Z) (i : nat) :
  seqZ m n !! i = None -> n <= Z.of_nat i.
Proof.
  intros H. destruct (Z.le_gt_cases n (Z.of_nat i)) as [Hle|Hgt]; [exact Hle|].
  rewrite lookup_seqZ_lt in H by lia. discriminate H.
Qed.

(** The grid before any footprint is blocked. *)
Lemma grassGrid_spec (s : GameState) :
  let base :=
    map (fun y =>
           map (fun x => bool_decide (tileAt s x y = Some grass))
               (seqZ 0 (mapWidth s)))
        (seqZ 0 (mapHeight s)) in
  gridShape base (Z.to_nat (mapWidth s)) (Z.to_nat (mapHeight s)) /\
  forall x y, 0 <= x -> 0 <= y ->
    (Pathfinding.cell base x y = true <->
     inMap s x y = true /\ tileAt s x y = Some grass).
Proof.
  intros base. split.
  - split.
    + unfold base. rewrite length_map, length_seqZ. reflexivity.
    + intros row Hin. apply in_map_iff in Hin as (y & <- & _).
      rewrite length_map, length_seqZ. reflexivity.
  - intros x y Hx Hy. unfold Pathfinding.cell, base, Pathfinding.Grid.
    rewrite inMap_spec, !map_fmap, list_lookup_fmap.
    destruct (seqZ 0 (mapHeight s) !! Z.to_nat y) as [y'|] eqn:Ey; simpl.
    + apply lookup_seqZ in Ey as [-> Hly]. rewrite list_lookup_fmap.
      destruct (seqZ 0 (mapWidth s) !! Z.to_nat x) as [x'|] eqn:Ex; simpl.
      * apply lookup_seqZ in Ex as [-> Hlx].
        rewrite bool_decide_eq_true, !Z.add_0_l, !Z2Nat.id by assumption.
        split; [intros H; split; [lia|exact H]|tauto].
      * apply seqZ_lookup_None in Ex. split; [discriminate|lia].
    + apply seqZ_lookup_None in Ey. split; [discriminate|lia].
Qed.

(** X1. For a state that holds a row of tiles for every [y] of the map,
    [buildWalkableGrid] returns a grid of [mapHeight] rows of [mapWidth]
    cells, and a tile is in its bounds and walkable exactly when it is a
    tile of the map, it is grass, and neither a building (an entity with a
    footprint) nor a gold mine stands on it, footprints being taken at the
    rounded position. *)
Theorem buildWalkableGrid_spec (s : GameState) (tx ty : Z) :
  rowsCover s ->
  gridShape (buildWalkableGrid s) (Z.to_nat (mapWidth s))
    (Z.to_nat (mapHeight s)) /\
  (Pathfinding.in_bounds (buildWalkableGrid s) tx ty &&
   Pathfinding.cell (buildWalkableGrid s) tx ty = true <->
   inMap s tx ty = true /\ tileAt s tx ty = Some grass /\
   ~ occupiedTile s tx ty).
Proof.
  intros _.
  destruct (grassGrid_spec s) as [Hshape Hcell]. cbv zeta in Hshape, Hcell.
  assert (HS : gridShape (buildWalkableGrid s) (Z.to_nat (mapWidth s))
                 (Z.to_nat (mapHeight s))).
  { unfold buildWalkableGrid. apply gridShape_fold.
    - intros g m. apply gridShape_blockFootprint.
    - apply gridShape_fold; [|exact Hshape].
      intros g e H. destruct (_ && _); [|exact H].
      apply gridShape_blockFootprint, H. }
  split; [exact HS|].
  rewrite andb_true_iff. unfold Pathfinding.in_bounds.
  rewrite negb_true_iff, !orb_false_iff, !Z.ltb_ge, !Z.leb_gt.
  split.
  - intros [(((Hx & _) & Hy) & _) Hc].
    unfold buildWalkableGrid in Hc.
    apply cell_blockMines in Hc as [Hc Hm]; [|assumption..].
    apply cell_blockBuildings in Hc as [Hc Hb]; [|assumption..].
    apply Hcell in Hc as [Hin Hg]; [|assumption..].
    split; [exact Hin|]. split; [exact Hg|].
    intros [He|Hmine]; [apply Hb|apply Hm]; auto.
  - intros (Hin & Hg & Hfree).
    pose proof Hin as Hr. apply inMap_spec in Hr.
    assert (Hc : Pathfinding.cell (buildWalkableGrid s) tx ty = true).
    { unfold buildWalkableGrid.
      apply cell_blockMines; [lia..|]. split.
      - apply cell_blockBuildings; [lia..|]. split.
        + apply Hcell; [lia..|]. auto.
        + intros [_ H]. apply Hfree. left. exact H.
      - intros [_ H]. apply Hfree. right. exact H. }
    split; [|exact Hc]. destruct HS as [Hlen Hrows].
    unfold Pathfinding.grid_height, Pathfinding.grid_width.
    rewrite Hlen.
    destruct (buildWalkableGrid s) as [|row rest] eqn:Eg;
      [simpl in Hlen; lia|].
    rewrite (Hrows row (or_introl eq_refl)). lia.
Qed.

Lemma buildWalkableGrid_spec_witness :
  gridShape (buildWalkableGrid smallBase) 12 12 /\
  (Pathfinding.in_bounds (buildWalkableGrid smallBase) 5 2 &&
   Pathfinding.cell (buildWalkableGrid smallBase) 5 2 = true <->
   inMap smallBase 5 2 = true /\ tileAt smallBase 5 2 = Some grass /\
   ~ occupiedTile smallBase 5 2).
Proof.
  apply (buildWalkableGrid_spec smallBase 5 2).
  unfold rowsCover. vm_compute. lia.
Defined.

(** X2. [findAllAdjacentWalkable] lists exactly the tiles on the ring around
    the footprint (2 by 2 when no size is given) that are in the bounds of
    the grid and walkable; [findAdjacentWalkable] returns one of them, and
    [null] only when there is none. *)
Theorem findAllAdjacentWalkable_spec (g : Pathfinding.Grid) (x y : Q)
    (tileW tileH : option Z) :
  (forall p,
      In p (findAllAdjacentWalkable g x y tileW tileH) <->
      onPerimeter x y (default 2 tileW) (default 2 tileH) p /\
      Pathfinding.in_bounds g (px p) (py p) = true /\
      Pathfinding.cell g (px p) (py p) = true) /\
  (forall p,
      findAdjacentWalkable g x y tileW tileH = Some p ->
      In p (findAllAdjacentWalkable g x y tileW tileH)) /\
  (findAdjacentWalkable g x y tileW tileH = None <->
   findAllAdjacentWalkable g x y tileW tileH = []).
Proof.
  split; [|split].
  - intros [tx ty]. unfold findAllAdjacentWalkable, onPerimeter,
      footprintCovers, Pathfinding.in_bounds. cbv zeta. simpl px. simpl py.
    rewrite in_flat_map. split.
    + intros (dx & Hdx & Hin). apply in_flat_map in Hin as (dy & Hdy & Hin).
      apply list_elem_of_In, elem_of_seqZ in Hdx, Hdy.
      destruct ((0 <=? dx) && (dx <? default 2 tileW) && (0 <=? dy) &&
                (dy <? default 2 tileH)) eqn:Ein; [destruct Hin|].
      destruct (_ && Pathfinding.cell g _ _) eqn:Ec; [|destruct Hin].
      destruct Hin as [[= <- <-]|[]].
      rewrite !andb_true_iff, !Z.leb_le, !Z.ltb_lt in Ec.
      rewrite !andb_false_iff, !Z.leb_gt, !Z.ltb_ge in Ein.
      rewrite negb_true_iff, !orb_false_iff, !Z.ltb_ge, !Z.leb_gt.
      repeat split; try lia; tauto.
    + intros ((H1 & H2 & H3) & Hb & Hc).
      rewrite negb_true_iff, !orb_false_iff, !Z.ltb_ge, !Z.leb_gt in Hb.
      exists (tx - Math_round x). split;
        [apply list_elem_of_In, elem_of_seqZ; lia|].
      apply in_flat_map. exists (ty - Math_round y). split;
        [apply list_elem_of_In, elem_of_seqZ; lia|].
      replace (Math_round x + (tx - Math_round x)) with tx by lia.
      replace (Math_round y + (ty - Math_round y)) with ty by lia.
      destruct ((0 <=? tx - Math_round x) &&
                (tx - Math_round x <? default 2 tileW) &&
                (0 <=? ty - Math_round y) &&
                (ty - Math_round y <? default 2 tileH)) eqn:Ein.
      * rewrite !andb_true_iff, !Z.leb_le, !Z.ltb_lt in Ein. lia.
      * rewrite Hc.
        replace ((0 <=? tx) && (tx <? Pathfinding.grid_width g) &&
                 (0 <=? ty) && (ty <? Pathfinding.grid_height g))
          with true; [left; reflexivity|].
        symmetry. rewrite !andb_true_iff, !Z.leb_le, !Z.ltb_lt. lia.
  - unfold findAdjacentWalkable. intros p H.
    destruct (findAllAdjacentWalkable g x y tileW tileH); [discriminate H|].
    injection H as ->. left. reflexivity.
  - unfold findAdjacentWalkable.
    destruct (findAllAdjacentWalkable g x y tileW tileH); simpl;
      split; auto; discriminate.
Qed.

(** ** Target selection *)

Lemma nearestBy_fold (accept : Entity -> bool) (dist : Entity -> Q)
    (l : list Entity) :
  forall (seen : list Entity) (acc : option Entity * option Q),
    (match acc with
     | (Some e, Some d) =>
         d = dist e /\ In e seen /\ accept e = true /\
         forall o, In o seen -> accept o = true -> (dist e <= dist o)%Q
     | (None, None) => forall o, In o seen -> accept o = false
     | _ => False
     end) ->
    match fst (fold_left
                 (fun (acc : option Entity * option Q) other =>
                    if negb (accept other) then acc
                    else
                      let d := dist other in
                      match snd acc with
                      | Some nearestDist =>
                          if Qlt_bool d nearestDist then (Some other, Some d)
                          else acc
                      | None => (Some other, Some d)
                      end) l acc) with
    | Some e =>
        In e (seen ++ l) /\ accept e = true /\
        forall o, In o (seen ++ l) -> accept o = true -> (dist e <= dist o)%Q
    | None => forall o, In o (seen ++ l) -> accept o = false
    end.
Proof.
  induction l as [|x l IH]; intros seen acc Hacc.
  - simpl. rewrite app_nil_r. destruct acc as [[e|] [d|]]; simpl; try tauto.
  - simpl fold_left.
    replace (seen ++ x :: l) with ((seen ++ [x]) ++ l)
      by (rewrite <- app_assoc; reflexivity).
    apply IH. destruct (accept x) eqn:Ex; simpl.
    + destruct acc as [[e|] [d|]]; simpl; try tauto.
      * destruct Hacc as (-> & Hin & Ha & Hmin).
        destruct (Qlt_bool (dist x) (dist e)) eqn:Elt.
        -- apply Qlt_bool_true in Elt. split; [reflexivity|].
           split; [apply in_app_iff; right; left; reflexivity|].
           split; [exact Ex|]. intros o Ho Hao.
           apply in_app_iff in Ho as [Ho|[<-|[]]]; [|apply Qle_refl].
           apply Qle_trans with (dist e); [apply Qlt_le_weak, Elt|auto].
        -- apply Qlt_bool_false in Elt. split; [reflexivity|].
           split; [apply in_app_iff; auto|]. split; [exact Ha|].
           intros o Ho Hao. apply in_app_iff in Ho as [Ho|[<-|[]]]; auto.
      * split; [reflexivity|].
        split; [apply in_app_iff; right; left; reflexivity|].
        split; [exact Ex|]. intros o Ho Hao.
        apply in_app_iff in Ho as [Ho|[<-|[]]]; [|apply Qle_refl].
        rewrite (Hacc o Ho) in Hao. discriminate Hao.
    + destruct acc as [[e|] [d|]]; simpl; try tauto.
      * destruct Hacc as (-> & Hin & Ha & Hmin). split; [reflexivity|].
        split; [apply in_app_iff; auto|]. split; [exact Ha|].
        intros o Ho Hao. apply in_app_iff in Ho as [Ho|[<-|[]]]; [auto|].
        congruence.
      * intros o Ho. apply in_app_iff in Ho as [Ho|[<-|[]]]; auto.
Qed.

Section Nearest.

Variable Math_sqrt : Q -> Q.

(** X3. [findNearestEnemy] returns an entity of another owner with
    positive hit points that is nearest to the given entity among all such
    entities (by [tileDistance]), and [null] exactly when there is no such
    entity; [findNearestEnemyBuilding] does the same among the enemy
    entities with a footprint, measured to the edge of the footprint. *)
Theorem findNearestEnemy_spec (e : Entity) (all : list Entity) :
  match findNearestEnemy Math_sqrt e all with
  | Some t =>
      In t all /\ e_ownerId t <> e_ownerId e /\ 0 < e_hp t /\
      forall o, In o all -> e_ownerId o <> e_ownerId e -> 0 < e_hp o ->
        (tileDistance Math_sqrt e t <= tileDistance Math_sqrt e o)%Q
  | None =>
      forall o, In o all -> e_ownerId o = e_ownerId e \/ e_hp o <= 0
  end /\
  match findNearestEnemyBuilding Math_sqrt e all with
  | Some t =>
      In t all /\ e_ownerId t <> e_ownerId e /\ 0 < e_hp t /\
      isBuilding t = true /\
      forall o, In o all -> e_ownerId o <> e_ownerId e -> 0 < e_hp o ->
        isBuilding o = true ->
        (distToEntity Math_sqrt e t <= distToEntity Math_sqrt e o)%Q
  | None =>
      forall o, In o all ->
        e_ownerId o = e_ownerId e \/ e_hp o <= 0 \/ isBuilding o = false
  end.
Proof.
  assert (Hliving : forall o,
            isLivingEnemy e o = true <->
            e_ownerId o <> e_ownerId e /\ 0 < e_hp o).
  { intros o. unfold isLivingEnemy.
    rewrite andb_true_iff, !negb_true_iff, bool_decide_eq_false, Z.leb_gt.
    reflexivity. }
  split.
  - unfold findNearestEnemy, nearestBy.
    pose proof (nearestBy_fold (isLivingEnemy e) (tileDistance Math_sqrt e)
                  all [] (None, None)) as H.
    simpl app in H. specialize (H (fun o (Ho : In o []) => match Ho with end)).
    destruct (fst _) as [t|].
    + destruct H as (Hin & Ha & Hmin). apply Hliving in Ha as [Ho Hh].
      repeat split; try assumption. intros o Hino Hoo Hho.
      apply Hmin; [exact Hino|]. apply Hliving. auto.
    + intros o Ho. specialize (H o Ho).
      destruct (decide (e_ownerId o = e_ownerId e)) as [|Hne]; [auto|].
      right. destruct (Z.le_gt_cases (e_hp o) 0) as [|Hgt]; [assumption|].
      assert (Ht : isLivingEnemy e o = true) by (apply Hliving; auto).
      congruence.
  - unfold findNearestEnemyBuilding, nearestBy.
    pose proof (nearestBy_fold
                  (fun o => isLivingEnemy e o && isBuilding o)
                  (distToEntity Math_sqrt e) all [] (None, None)) as H.
    simpl app in H. specialize (H (fun o (Ho : In o []) => match Ho with end)).
    destruct (fst _) as [t|].
    + destruct H as (Hin & Ha & Hmin). apply andb_true_iff in Ha as [Ha Hb].
      apply Hliving in Ha as [Ho Hh].
      repeat split; try assumption. intros o Hino Hoo Hho Hbo.
      apply Hmin; [exact Hino|]. apply andb_true_iff. split; [|exact Hbo].
      apply Hliving. auto.
    + intros o Ho. specialize (H o Ho).
      apply andb_false_iff in H as [H|H]; [|auto].
      destruct (decide (e_ownerId o = e_ownerId e)) as [|Hne]; [auto|].
      right. left. destruct (Z.le_gt_cases (e_hp o) 0) as [|Hgt]; [assumption|].
      assert (Ht : isLivingEnemy e o = true) by (apply Hliving; auto).
      congruence.
Qed.

End Nearest.

(** ** The handlers and systems as acts *)

Lemma progressed_refl (a : option Q) : progressed a a.
Proof.
  destruct a; simpl; [|exact I]. split; [intros _; apply Qle_refl|auto].
Qed.

Lemma progressed_trans (a b c : option Q) :
  progressed a b -> progressed b c -> progressed a c.
Proof.
  destruct a as [x|], b as [y|], c as [z|]; simpl; try tauto.
  intros [H1 H2] [H3 H4]. split.
  - intros Hx. specialize (H1 Hx). eapply Qle_trans; [exact H1|].
    apply H3. eapply Qle_trans; eassumption.
  - destruct H4 as [H4| ->]; [auto|]. destruct H2 as [H2| ->]; auto.
Qed.

Lemma persists_fields (e e' : Entity) :
  e_id e' = e_id e -> e_type e' = e_type e -> e_ownerId e' = e_ownerId e ->
  e_maxHp e' = e_maxHp e -> e_tileWidth e' = e_tileWidth e ->
  e_tileHeight e' = e_tileHeight e -> e_hp e' = e_hp e ->
  e_x e' = e_x e -> e_y e' = e_y e ->
  e_buildProgress e' = e_buildProgress e ->
  persists e e'.
Proof.
  intros ? ? ? ? ? ? ? ? ? Hp. split; auto; [lia|].
  rewrite Hp. apply progressed_refl.
Qed.

Lemma persists_refl (e : Entity) : persists e e.
Proof. apply persists_fields; reflexivity. Qed.

Lemma persists_trans (a b c : Entity) :
  persists a b -> persists b c -> persists a c.
Proof.
  intros [? Ht ? ? ? ? ? P1 B1] [? ? ? ? ? ? ? P2 B2].
  split; try congruence; [lia| |eapply progressed_trans; eassumption].
  intros Hu. destruct (P1 Hu) as [Hx Hy].
  destruct P2 as [Hx' Hy']; [congruence|]. split; congruence.
Qed.

Lemma persists_damage (e : Entity) (d : Z) :
  0 <= d -> persists e (set_hp (e_hp e - d) e).
Proof.
  intros Hd. split; try reflexivity; simpl; auto; try lia.
  apply progressed_refl.
Qed.

Lemma occupies_footless (e : Entity) (tx ty : Z) :
  isBuilding e = false -> occupies e tx ty = false.
Proof. unfold isBuilding, occupies. intros ->. reflexivity. Qed.

Lemma clearOf_footless (l : list Entity) (e : Entity) :
  isBuilding e = false -> clearOf l e.
Proof.
  intros H. apply List.Forall_forall. intros x _ tx ty Ho.
  rewrite occupies_footless in Ho by exact H. discriminate Ho.
Qed.

Lemma isPlacementValid_clear (s : GameState) (x y w h : Z) (e : Entity) :
  isPlacementValid s x y w h = true ->
  e_x e = ZtoQ x -> e_y e = ZtoQ y ->
  e_tileWidth e = Some w -> e_tileHeight e = Some h ->
  clearOf (entities s) e.
Proof.
  intros Hv Ex Ey Ew Eh. apply List.Forall_forall. intros e' He' tx ty Ho.
  unfold occupies in Ho. rewrite Ex, Ey, Ew, Eh in Ho. simpl in Ho.
  rewrite !andb_true_iff in Ho.
  destruct Ho as (((((_ & _) & Hx1) & Hx2) & Hy1) & Hy2).
  apply Qle_bool_true in Hx1, Hy1. apply Qlt_bool_true in Hx2, Hy2.
  unfold ZtoQ in *. rewrite <- inject_Z_plus in Hx2, Hy2.
  rewrite <- Zle_Qle in Hx1, Hy1. rewrite <- Zlt_Qlt in Hx2, Hy2.
  unfold isPlacementValid in Hv. rewrite forallb_forall in Hv.
  specialize (Hv (ty - y)). rewrite forallb_forall in Hv.
  assert (Hdy : In (ty - y) (seqZ 0 h))
    by (apply list_elem_of_In, elem_of_seqZ; lia).
  assert (Hdx : In (tx - x) (seqZ 0 w))
    by (apply list_elem_of_In, elem_of_seqZ; lia).
  specialize (Hv Hdy (tx - x) Hdx). cbv zeta in Hv.
  replace (x + (tx - x)) with tx in Hv by lia.
  replace (y + (ty - y)) with ty in Hv by lia.
  rewrite !andb_true_iff, forallb_forall in Hv. destruct Hv as [_ Hv].
  apply negb_true_iff, Hv, He'.
Qed.

Lemma thrifty_refl (p : Player) : thrifty p p.
Proof. split; auto; lia. Qed.

Lemma thrifty_trans (a b c : Player) : thrifty a b -> thrifty b c -> thrifty a c.
Proof.
  intros [? ? ? G1 ? ? ?] [? ? ? G2 ? ? ?].
  split; try congruence; try lia; auto.
Qed.

Lemma mined_refl (m : GoldMine) : mined m m.
Proof. split; auto. lia. Qed.

Lemma length_filter_le {A : Type} (p : A -> bool) (l : list A) :
  (length (List.filter p l) <= length l)%nat.
Proof.
  induction l as [|x l IH]; simpl; [lia|]. destruct (p x); simpl; lia.
Qed.

Lemma mined_trans (a b c : GoldMine) : mined a b -> mined b c -> mined a c.
Proof.
  intros [? ? ? M1 G1 W1] [? ? ? M2 G2 W2]. split; try congruence.
  - intros H. specialize (G1 H). specialize (G2 ltac:(lia)). lia.
  - auto.
Qed.

Section ActFacts.

Context {nu : Ids}.

Lemma act_entity' a s id f :
  act a s ->
  (forall e, getEntity id (entities s) = Some e -> persists e (f e)) ->
  act a (updE id f s).
Proof. intros H Hf. eapply act_trans; [exact H|]. apply act_entity, Hf. Qed.

Lemma act_player' a s pid f :
  act a s ->
  (forall p, players s !! pid = Some p -> thrifty p (f p)) ->
  act a (updP pid f s).
Proof. intros H Hf. eapply act_trans; [exact H|]. apply act_player, Hf. Qed.

Lemma act_mine' a s pred f ms :
  act a s -> goldMines s = ms ->
  (forall m, List.find pred ms = Some m -> mined m (f m)) ->
  act a (set_goldMines (updateFirstMine pred f ms) s).
Proof.
  intros H <- Hf. eapply act_trans; [exact H|]. apply act_mine, Hf.
Qed.

Lemma act_spawn' a s e es :
  act a s -> novel (e_id e) -> recruit e -> entities s = es ->
  clearOf es e ->
  act a (set_entities (putEntity e es) s).
Proof.
  intros H Hn He <- Hc. eapply act_trans; [exact H|].
  apply act_spawn; assumption.
Qed.

Lemma act_recalc' a s : act a s -> act a (recalculateSupply s).
Proof. intros H. eapply act_trans; [exact H|]. apply act_recalc. Qed.

Lemma act_fold {A B : Type} (view : A -> GameState) (body : A -> B -> A) :
  (forall acc x, act (view acc) (view (body acc x))) ->
  forall l acc, act (view acc) (view (fold_left body l acc)).
Proof.
  intros Hbody l. induction l as [|x l IH]; intros acc; simpl.
  - apply act_refl.
  - eapply act_trans; [apply Hbody|apply IH].
Qed.

(** The same for a loop that calls [uuid()]: the ids from the count of the
    accumulator on are new, and the count does not go down. *)
Lemma act_fold_calls {B : Type} (uuid : nat -> string)
    (body : GameState * nat -> B -> GameState * nat) :
  (forall acc x, (snd acc <= snd (body acc x))%nat) ->
  (forall acc x,
     (forall k, (snd acc <= k)%nat -> novel (uuid k)) ->
     act (fst acc) (fst (body acc x))) ->
  forall l acc,
    (forall k, (snd acc <= k)%nat -> novel (uuid k)) ->
    act (fst acc) (fst (fold_left body l acc)).
Proof.
  intros Hle Hbody l. induction l as [|x l IH]; intros acc Hn; simpl.
  - apply act_refl.
  - eapply act_trans; [apply Hbody, Hn|]. apply IH.
    intros k Hk. apply Hn. specialize (Hle acc x). lia.
Qed.

Lemma fold_calls {B : Type}
    (body : GameState * nat -> B -> GameState * nat) :
  (forall acc x, (snd acc <= snd (body acc x))%nat) ->
  forall l acc, (snd acc <= snd (fold_left body l acc))%nat.
Proof.
  intros Hle l. induction l as [|x l IH]; intros acc; simpl; [lia|].
  specialize (Hle acc x). specialize (IH (body acc x)). lia.
Qed.

End ActFacts.

Lemma bs_cost_nonneg (bt : BuildingType) : 0 <= bs_cost (getBuildingStats bt).
Proof. destruct bt; vm_compute; discriminate. Qed.

Ltac persists_tac :=
  intros; apply persists_fields; repeat case_match; reflexivity.

Ltac ltb_tac :=
  repeat match goal with
    | H : (_ <? _) = true |- _ => apply Z.ltb_lt in H
    | H : (_ <? _) = false |- _ => apply Z.ltb_ge in H
    | H : (_ <=? _) = true |- _ => apply Z.leb_le in H
    | H : (_ <=? _) = false |- _ => apply Z.leb_gt in H
    end.

(** The mine found by a handler is the one that [updateFirstMine]
    changes. *)
Ltac same_mine :=
  match goal with
  | H : findMine ?p ?s = Some ?g, Hm : List.find ?p (goldMines ?s) = Some ?m
    |- _ =>
      unfold findMine in H; rewrite H in Hm; injection Hm as <-
  end.

Ltac mined_tac :=
  let m := fresh "m" in
  let Hm := fresh "Hm" in
  intros m Hm; simpl in Hm; try same_mine;
  split; try reflexivity; simpl; unfold WORKER_CARRY_CAPACITY;
  [ lia
  | repeat match goal with
      | H : _ && _ = true |- _ => apply andb_true_iff in H; destruct H
      end;
    unfold mineAvailable in *; ltb_tac;
    rewrite ?length_app; simpl;
    try match goal with
        | |- context [List.filter ?p ?l] =>
            pose proof (length_filter_le p l)
        end;
    lia ].

(** The player found by a handler is the one that [updP] changes. *)
Ltac same_player :=
  match goal with
  | H : players ?s !! ?k = Some ?q, Hp : players ?s !! ?k = Some ?p |- _ =>
      rewrite H in Hp; injection Hp as <-
  end.

Ltac thrifty_tac :=
  let p := fresh "p" in
  let Hp := fresh "Hp" in
  intros p Hp; simpl in Hp; try same_player;
  split; simpl; try reflexivity; ltb_tac;
  try match goal with
      | |- context [bs_cost (getBuildingStats ?bt)] =>
          pose proof (bs_cost_nonneg bt)
      end;
  lia.

(** A new unit has no footprint; a new building is of no unit type and
    stands where the placement was found valid. *)
Ltac recruit_tac :=
  split; [reflexivity|];
  first [ intros _; reflexivity
        | intros Hunit; exfalso; simpl in Hunit;
          match type of Hunit with
          | isUnitType (buildingEntityType ?bt) = true =>
              destruct bt; discriminate Hunit
          end ].

Ltac clear_tac :=
  first
    [ apply clearOf_footless; reflexivity
    | match goal with
      | H : isPlacementValid _ _ _ _ _ = true |- _ =>
          apply (isPlacementValid_clear _ _ _ _ _ _ H); reflexivity
      | H : negb (isPlacementValid _ _ _ _ _) = false |- _ =>
          apply negb_false_iff in H;
          apply (isPlacementValid_clear _ _ _ _ _ _ H); reflexivity
      end ].

(** The id of a new entity is the next that [uuid()] returns. *)
Ltac novel_tac :=
  simpl;
  match goal with
  | H : forall k, (_ <= k)%nat -> novel (_ k) |- _ => apply H; simpl; lia
  end.

Ltac pairs_tac :=
  repeat match goal with
    | H : (_, _) = (_, _) |- _ => injection H as <- <-
    end.

Ltac act_tac :=
  repeat first
    [ apply act_refl
    | assumption
    | apply act_entity'; [|persists_tac]
    | apply act_player'; [|thrifty_tac]
    | apply act_mine'; [|reflexivity|mined_tac]
    | apply act_spawn'; [|novel_tac|recruit_tac|reflexivity|clear_tac] ].

Section EconomyActs.

Context {nu : Ids}.
Variable Math_sqrt : Q -> Q.
Variable uuid : nat -> string.

Lemma gatherMining_act acc id :
  act (fst acc) (fst (gatherMining Math_sqrt acc id)).
Proof.
  destruct acc as [s t]. unfold gatherMining. simpl fst.
  repeat case_match; simpl fst; act_tac.
Qed.

Lemma gatherDeposit_act s id : act s (gatherDeposit s id).
Proof.
  unfold gatherDeposit. repeat case_match; act_tac.
Qed.

Lemma gatherArrive_act acc id :
  act (fst acc) (fst (gatherArrive Math_sqrt acc id)).
Proof.
  destruct acc as [s t]. unfold gatherArrive. simpl fst.
  repeat case_match; simpl fst; act_tac.
Qed.

Lemma gatherStep_act acc id :
  act (fst acc) (fst (gatherStep Math_sqrt acc id)).
Proof.
  unfold gatherStep. repeat case_match; try apply act_refl.
  eapply act_trans; [apply gatherMining_act|].
  eapply act_trans; [|apply gatherArrive_act].
  apply gatherDeposit_act.
Qed.

Lemma processGathering_act acc :
  act (fst acc) (fst (processGathering Math_sqrt acc)).
Proof.
  unfold processGathering. apply (act_fold fst). intros a x.
  apply gatherStep_act.
Qed.

End EconomyActs.

Section EconomyActs2.

Context {nu : Ids}.
Variable Math_sqrt : Q -> Q.
Variable uuid : nat -> string.

(** The count of the [uuid()] calls does not go down. *)
Lemma trainingStep_calls acc bid :
  (snd acc <= snd (trainingStep uuid acc bid))%nat.
Proof.
  destruct acc as [s n]. unfold trainingStep.
  repeat case_match; pairs_tac; simpl; lia.
Qed.

Lemma processTraining_calls acc :
  (snd acc <= snd (processTraining uuid acc))%nat.
Proof. unfold processTraining. apply fold_calls, trainingStep_calls. Qed.

Lemma pendingBuildStep_calls acc id :
  (snd acc <= snd (pendingBuildStep Math_sqrt uuid acc id))%nat.
Proof.
  destruct acc as [s n]. unfold pendingBuildStep, placeBuilding.
  repeat case_match; pairs_tac; simpl; lia.
Qed.

Lemma processPendingBuilds_calls acc :
  (snd acc <= snd (processPendingBuilds Math_sqrt uuid acc))%nat.
Proof.
  unfold processPendingBuilds. apply fold_calls, pendingBuildStep_calls.
Qed.

Lemma handleBuildStructure_calls acc pid wid bt x y :
  (snd acc
   <= snd (handleBuildStructure Math_sqrt uuid acc pid wid bt x y))%nat.
Proof.
  destruct acc as [s n]. unfold handleBuildStructure, placeBuilding.
  repeat case_match; pairs_tac; simpl; lia.
Qed.

Lemma trainingStep_act acc bid :
  (forall k, (snd acc <= k)%nat -> novel (uuid k)) ->
  act (fst acc) (fst (trainingStep uuid acc bid)).
Proof.
  destruct acc as [s n]. intros Hn. unfold trainingStep. simpl fst.
  repeat case_match; simpl fst; pairs_tac; act_tac.
Qed.

Lemma processTraining_act acc :
  (forall k, (snd acc <= k)%nat -> novel (uuid k)) ->
  act (fst acc) (fst (processTraining uuid acc)).
Proof.
  unfold processTraining. apply (act_fold_calls uuid).
  - intros a x. apply trainingStep_calls.
  - intros a x. apply trainingStep_act.
Qed.

Lemma pendingBuildStep_act acc id :
  (forall k, (snd acc <= k)%nat -> novel (uuid k)) ->
  act (fst acc) (fst (pendingBuildStep Math_sqrt uuid acc id)).
Proof.
  destruct acc as [s n]. intros Hn.
  unfold pendingBuildStep, placeBuilding. simpl fst.
  repeat case_match; simpl fst; pairs_tac; act_tac.
Qed.

Lemma processPendingBuilds_act acc :
  (forall k, (snd acc <= k)%nat -> novel (uuid k)) ->
  act (fst acc) (fst (processPendingBuilds Math_sqrt uuid acc)).
Proof.
  unfold processPendingBuilds. apply (act_fold_calls uuid).
  - intros a x. apply pendingBuildStep_calls.
  - intros a x. apply pendingBuildStep_act.
Qed.

Lemma handleTrainUnit_act s pid bid ut : act s (handleTrainUnit s pid bid ut).
Proof.
  unfold handleTrainUnit. repeat case_match; act_tac.
Qed.

Lemma handleBuildStructure_act acc pid wid bt x y :
  (forall k, (snd acc <= k)%nat -> novel (uuid k)) ->
  act (fst acc) (fst (handleBuildStructure Math_sqrt uuid acc pid wid bt x y)).
Proof.
  destruct acc as [s n]. intros Hn. unfold handleBuildStructure, placeBuilding.
  simpl fst.
  repeat case_match; simpl fst; pairs_tac; act_tac.
Qed.

Lemma handleGatherResource_act s pid wids mid :
  act s (handleGatherResource s pid wids mid).
Proof.
  unfold handleGatherResource. repeat case_match; try apply act_refl.
  apply (act_fold (fun a => a)).
  intros a x. unfold gatherCommandStep. repeat case_match; act_tac.
Qed.

Lemma handleUpgradeUnit_act s pid aid ut : act s (handleUpgradeUnit s pid aid ut).
Proof.
  unfold handleUpgradeUnit. repeat case_match; try apply act_refl.
  apply act_player. intros q Hq. same_player.
  split; try reflexivity; destruct ut; simpl in *; ltb_tac; lia.
Qed.

Lemma getBuildTicks_short (t : EntityType) : getBuildTicks t <= 80.
Proof. destruct t; vm_compute; discriminate. Qed.

(** One pass adds to a progress in [[0, 1)], although the sum is rounded:
    the share of one pass is [1 / 80] at least. *)
Lemma progress_grows (t : EntityType) (bp : Q) :
  0 < getBuildTicks t -> (0 <= bp)%Q -> (bp < 1)%Q ->
  (bp <= fl (bp + fl (1 / ZtoQ (getBuildTicks t))))%Q.
Proof.
  intros Ht H0 H1. pose proof (getBuildTicks_short t) as Hs. unfold ZtoQ.
  assert (Hp : (0 < inject_Z (getBuildTicks t))%Q)
    by (change 0%Q with (inject_Z 0); rewrite <- Zlt_Qlt; exact Ht).
  assert (Hq : (inject_Z (getBuildTicks t) <= 80)%Q)
    by (change 80%Q with (inject_Z 80); rewrite <- Zle_Qle; exact Hs).
  assert (Hd : (1 # 80 <= 1 / inject_Z (getBuildTicks t))%Q)
    by (apply Qle_shift_div_l; Lqa.lra).
  set (d := (1 / inject_Z (getBuildTicks t))%Q) in *.
  destruct (fl_pos_bounds d ltac:(Lqa.lra)) as [L1 _]. unfold ulp53 in L1.
  set (fd := fl d) in *.
  destruct (fl_pos_bounds (bp + fd)%Q ltac:(Lqa.lra)) as [L2 _].
  unfold ulp53 in L2. Lqa.lra.
Qed.

Lemma constructionStep_persists (e : Entity) :
  persists e (fst (constructionStep e)).
Proof.
  unfold constructionStep.
  destruct (e_buildProgress e) as [bp|] eqn:Ebp; [|apply persists_refl].
  destruct (Qle_bool 1 bp) eqn:E1; [apply persists_refl|].
  destruct (getBuildTicks (e_type e) <=? 0) eqn:Et; [apply persists_refl|].
  apply Qle_bool_false in E1. apply Z.leb_gt in Et.
  cbv zeta. destruct (Qle_bool 1 _) eqn:E2; cbn [fst].
  - split; try reflexivity; simpl; auto; try lia.
    rewrite Ebp. simpl. split; [intros _; Lqa.lra|left; Lqa.lra].
  - apply Qle_bool_false in E2.
    split; try reflexivity; simpl; auto; try lia.
    rewrite Ebp. simpl. split; [|left; Lqa.lra].
    intros H0. apply progress_grows; assumption.
Qed.

Lemma processConstruction_act s : act s (fst (processConstruction s)).
Proof.
  unfold processConstruction. simpl fst. rewrite map_map.
  apply act_all. intros e _. apply constructionStep_persists.
Qed.

End EconomyActs2.

Lemma moveEntity_persists (Math_sqrt : Q -> Q) (e : Entity) :
  persists e (moveEntity Math_sqrt e).
Proof.
  destruct (isUnitType (e_type e)) eqn:Eu.
  - unfold moveEntity.
    repeat case_match; try apply persists_refl;
      (split; [reflexivity..|simpl; lia|intros Hb; congruence
              |apply progressed_refl]).
  - unfold moveEntity. rewrite (getSpeed_building e Eu).
    repeat case_match; try apply persists_refl; discriminate.
Qed.

Lemma processMovement_act {nu : Ids} (Math_sqrt : Q -> Q) s :
  act s (processMovement Math_sqrt s).
Proof.
  unfold processMovement. apply act_all. intros e _.
  apply moveEntity_persists.
Qed.

Section CombatActs.

Context {nu : Ids}.
Variable Math_sqrt : Q -> Q.

Lemma autoAggroStep_act s id : act s (autoAggroStep Math_sqrt s id).
Proof. unfold autoAggroStep. repeat case_match; act_tac. Qed.

Lemma defensiveStep_act acc id :
  act (fst acc) (fst (defensiveStep Math_sqrt acc id)).
Proof.
  destruct acc as [s cds]. unfold defensiveStep. simpl fst.
  repeat case_match; simpl fst; try solve [act_tac].
  all: apply act_entity'; [|persists_tac].
  all: apply act_entity; intros t _; apply persists_damage.
  all: vm_compute; discriminate.
Qed.

Lemma targetingStep_act cds acc id :
  act (fst acc) (fst (targetingStep Math_sqrt cds acc id)).
Proof.
  destruct acc as [s m]. unfold targetingStep, loseTarget. simpl fst.
  repeat case_match; simpl fst; act_tac.
Qed.

Lemma hitStep_act tid m acc aid :
  (0 <= m)%Q -> act (fst acc) (fst (hitStep tid m acc aid)).
Proof.
  intros Hm. destruct acc as [s cds]. unfold hitStep. simpl fst.
  repeat case_match; simpl fst; try apply act_refl.
  apply act_entity. intros t _. apply persists_damage, hitDamage_nonneg, Hm.
Qed.

Lemma batchStep_act acc entry : act (fst acc) (fst (batchStep acc entry)).
Proof.
  unfold batchStep. repeat case_match; try apply act_refl.
  apply (act_fold fst). intros a x.
  apply hitStep_act, focusMultiplier_nonneg.
Qed.

Lemma removeDead_act acc : act (fst acc) (fst (fst (removeDead acc))).
Proof.
  destruct acc as [s cds]. unfold removeDead. cbn [fst].
  apply (act_fold (fun a => a)). intros a id. apply act_prune.
Qed.

Lemma processCombat_act acc :
  act (fst acc) (fst (processCombat Math_sqrt acc)).
Proof.
  destruct acc as [s pr]. unfold processCombat. cbn [fst].
  set (ids := map e_id (entities s)).
  set (cds0 := tickCooldowns (attackCooldowns pr)).
  set (s1 := fold_left (autoAggroStep Math_sqrt) ids s).
  assert (A1 : act s s1)
    by (apply (act_fold (fun a => a)); intros; apply autoAggroStep_act).
  pose proof (act_fold fst (defensiveStep Math_sqrt)
                (fun a x => defensiveStep_act a x) ids (s1, cds0)) as A2.
  destruct (fold_left (defensiveStep Math_sqrt) ids (s1, cds0)) as [s2 cds2].
  pose proof (act_fold fst (targetingStep Math_sqrt cds2)
                (fun a x => targetingStep_act cds2 a x) ids (s2, [])) as A3.
  destruct (fold_left (targetingStep Math_sqrt cds2) ids (s2, []))
    as [s3 apt].
  pose proof (act_fold fst batchStep batchStep_act apt (s3, cds2)) as A4.
  unfold applyBatchedDamage.
  destruct (fold_left batchStep apt (s3, cds2)) as [s4 cds4].
  pose proof (removeDead_act (s4, cds4)) as A5.
  destruct (removeDead (s4, cds4)) as [[s5 cds5] deadIds].
  cbn [fst] in *.
  assert (A : act s s5) by (repeat (eapply act_trans; [eassumption|]);
                            apply act_refl).
  destruct deadIds; cbn [fst]; [exact A|apply act_recalc', A].
Qed.

End CombatActs.

Section CommandActs.

Context {nu : Ids}.
Variable Math_sqrt : Q -> Q.
Variable uuid : nat -> string.
Variable spreadOffset : nat -> nat -> Z * Z.

Lemma handleMoveUnits_act s pid ids tx ty :
  act s (handleMoveUnits spreadOffset s pid ids tx ty).
Proof.
  unfold handleMoveUnits. apply (act_fold (fun a => a)).
  intros a [i u]. unfold moveUnitStep. repeat case_match; act_tac.
Qed.

Lemma handleAttackTarget_act s pid ids tid :
  act s (handleAttackTarget s pid ids tid).
Proof.
  unfold handleAttackTarget. case_match; [|apply act_refl].
  match goal with
  | |- context [fold_left ?body ids (s, O)] =>
      apply (fun H => act_fold fst body H ids (s, O))
  end.
  intros [a k] x. unfold attackUnitStep. simpl fst.
  repeat case_match; simpl fst; act_tac.
Qed.

Lemma handleDepositGold_act s pid ids did :
  act s (handleDepositGold s pid ids did).
Proof.
  unfold handleDepositGold. repeat case_match; try apply act_refl.
  apply (act_fold (fun a => a)).
  intros a x. unfold depositUnitStep. repeat case_match; act_tac.
Qed.

Lemma handleSetRallyPoint_act s pid bid x y :
  act s (handleSetRallyPoint s pid bid x y).
Proof. unfold handleSetRallyPoint. repeat case_match; act_tac. Qed.

Lemma dispatch_calls acc c :
  (snd acc <= snd (dispatch Math_sqrt uuid spreadOffset acc c))%nat.
Proof.
  destruct acc as [s n]. unfold dispatch.
  destruct (c_command c); cbn [snd]; try lia.
  pose proof (handleBuildStructure_calls Math_sqrt uuid (s, n)
                (c_playerId c) workerId bt x y) as H.
  destruct (handleBuildStructure _ _ _ _ _ _ _ _) as [s' n']. exact H.
Qed.

Lemma processCommands_calls commands acc :
  (snd acc
   <= snd (processCommands Math_sqrt uuid spreadOffset commands acc))%nat.
Proof. unfold processCommands. apply fold_calls, dispatch_calls. Qed.

Lemma dispatch_act acc c :
  (forall k, (snd acc <= k)%nat -> novel (uuid k)) ->
  act (fst acc) (fst (dispatch Math_sqrt uuid spreadOffset acc c)).
Proof.
  destruct acc as [s n]. intros Hn. unfold dispatch.
  destruct (c_command c); cbn [fst].
  - apply handleMoveUnits_act.
  - apply handleAttackTarget_act.
  - pose proof (handleBuildStructure_act Math_sqrt uuid (s, n)
                  (c_playerId c) workerId bt x y Hn) as H.
    destruct (handleBuildStructure _ _ _ _ _ _ _ _) as [s' n'].
    cbn [fst] in *. apply act_recalc', H.
  - apply handleTrainUnit_act.
  - apply handleGatherResource_act.
  - apply handleUpgradeUnit_act.
  - apply handleDepositGold_act.
  - apply handleSetRallyPoint_act.
Qed.

Lemma processCommands_act commands acc :
  (forall k, (snd acc <= k)%nat -> novel (uuid k)) ->
  act (fst acc)
    (fst (processCommands Math_sqrt uuid spreadOffset commands acc)).
Proof.
  unfold processCommands. apply (act_fold_calls uuid).
  - intros a c. apply dispatch_calls.
  - intros a c. apply dispatch_act.
Qed.

Lemma processEconomy_calls acc :
  (uuidCalls (snd acc)
   <= uuidCalls (snd (processEconomy Math_sqrt uuid (Some recalculateSupply)
                        acc)))%nat.
Proof.
  destruct acc as [s pr]. unfold processEconomy.
  destruct (processConstruction s) as [s1 built].
  set (s2 := if built then recalculateSupply s1 else s1).
  pose proof (processTraining_calls uuid (s2, uuidCalls pr)) as C3.
  destruct (processTraining uuid (s2, uuidCalls pr)) as [s3 n3].
  pose proof (processPendingBuilds_calls Math_sqrt uuid (s3, n3)) as C4.
  destruct (processPendingBuilds Math_sqrt uuid (s3, n3)) as [s4 n4].
  destruct (processGathering Math_sqrt (s4, gatherTimers pr)) as [s5 timers].
  cbn [fst snd uuidCalls] in *. lia.
Qed.

Lemma processEconomy_act acc :
  (forall k, (uuidCalls (snd acc) <= k)%nat -> novel (uuid k)) ->
  act (fst acc)
    (fst (processEconomy Math_sqrt uuid (Some recalculateSupply) acc)).
Proof.
  destruct acc as [s pr]. intros Hn. unfold processEconomy. cbn [fst].
  pose proof (processConstruction_act s) as A1.
  destruct (processConstruction s) as [s1 built]. cbn [fst] in A1.
  set (s2 := if built then recalculateSupply s1 else s1).
  assert (A2 : act s s2)
    by (subst s2; destruct built; [apply act_recalc'|]; exact A1).
  pose proof (processTraining_act uuid (s2, uuidCalls pr) Hn) as A3.
  pose proof (processTraining_calls uuid (s2, uuidCalls pr)) as C3.
  destruct (processTraining uuid (s2, uuidCalls pr)) as [s3 n3].
  assert (Hn3 : forall k, (n3 <= k)%nat -> novel (uuid k))
    by (intros k Hk; apply Hn; cbn [snd] in *; lia).
  pose proof (processPendingBuilds_act Math_sqrt uuid (s3, n3) Hn3) as A4.
  destruct (processPendingBuilds Math_sqrt uuid (s3, n3)) as [s4 n4].
  pose proof (processGathering_act Math_sqrt (s4, gatherTimers pr)) as A5.
  destruct (processGathering Math_sqrt (s4, gatherTimers pr)) as [s5 timers].
  cbn [fst] in *.
  repeat (eapply act_trans; [eassumption|]). apply act_refl.
Qed.

Lemma processCombat_calls acc :
  uuidCalls (snd (processCombat Math_sqrt acc)) = uuidCalls (snd acc).
Proof.
  destruct acc as [s pr]. unfold processCombat.
  destruct (fold_left (defensiveStep Math_sqrt) _ _) as [s2 cds2].
  destruct (fold_left (targetingStep Math_sqrt cds2) _ _) as [s3 apt].
  destruct (applyBatchedDamage apt (s3, cds2)) as [s4 cds4].
  destruct (removeDead (s4, cds4)) as [[s5 cds5] deadIds]. reflexivity.
Qed.

(** A tick does not take the count of the [uuid()] calls back. *)
Lemma tickEngine_calls bot g pr :
  (uuidCalls pr
   <= uuidCalls (snd (fst (tickEngine Math_sqrt uuid spreadOffset bot
                             (g, pr)))))%nat.
Proof.
  unfold tickEngine.
  pose proof (processCommands_calls (commandQueue g ++ bot)
                (set_tick (tick (state g) + 1) (state g), uuidCalls pr))
    as C1.
  destruct (processCommands _ _ _ _ _) as [s1 n1].
  pose proof (processEconomy_calls
                (s1, mkProcess (attackCooldowns pr) (gatherTimers pr) n1))
    as C2.
  destruct (processEconomy _ _ _ _) as [s2 pr2].
  pose proof (processCombat_calls (processMovement Math_sqrt s2, pr2)) as C4.
  destruct (processCombat _ _) as [s4 pr4].
  pose proof (checkGameOver_state
                (mkEngine s4 [] (running g) (roomId g)) pr4) as [_ E].
  destruct (checkGameOver _) as [[g5 pr5] effects].
  cbn [fst snd uuidCalls] in *. lia.
Qed.

(** After the clock has advanced, a tick is an act. *)
Lemma tickEngine_act bot g pr :
  (forall k, (uuidCalls pr <= k)%nat -> novel (uuid k)) ->
  act (set_tick (tick (state g) + 1) (state g))
    (state (fst (fst (tickEngine Math_sqrt uuid spreadOffset bot (g, pr))))).
Proof.
  intros Hn. unfold tickEngine.
  pose proof (processCommands_act (commandQueue g ++ bot)
                (set_tick (tick (state g) + 1) (state g), uuidCalls pr) Hn)
    as A1.
  pose proof (processCommands_calls (commandQueue g ++ bot)
                (set_tick (tick (state g) + 1) (state g), uuidCalls pr))
    as C1.
  destruct (processCommands _ _ _ _ _) as [s1 n1].
  assert (Hn1 : forall k, (n1 <= k)%nat -> novel (uuid k))
    by (intros k Hk; apply Hn; cbn [snd] in *; lia).
  pose proof (processEconomy_act
                (s1, mkProcess (attackCooldowns pr) (gatherTimers pr) n1) Hn1)
    as A2.
  destruct (processEconomy _ _ _ _) as [s2 pr2].
  pose proof (processMovement_act Math_sqrt s2) as A3.
  pose proof (processCombat_act Math_sqrt (processMovement Math_sqrt s2, pr2))
    as A4.
  destruct (processCombat _ _) as [s4 pr4].
  pose proof (checkGameOver_state
                (mkEngine s4 [] (running g) (roomId g)) pr4) as [E _].
  destruct (checkGameOver _) as [[g5 pr5] effects].
  cbn [fst snd state] in *. rewrite E.
  repeat (eapply act_trans; [eassumption|]). apply act_refl.
Qed.

End CommandActs.

(** ** What an act leaves as it was *)

Lemma recalculateSupply_frame (s : GameState) :
  tick (recalculateSupply s) = tick s /\
  mapWidth (recalculateSupply s) = mapWidth s /\
  mapHeight (recalculateSupply s) = mapHeight s /\
  tiles (recalculateSupply s) = tiles s /\
  entities (recalculateSupply s) = entities s /\
  goldMines (recalculateSupply s) = goldMines s.
Proof. unfold recalculateSupply. simpl. tauto. Qed.

Lemma act_frame {nu : Ids} (a b : GameState) :
  act a b ->
  tick b = tick a /\ mapWidth b = mapWidth a /\ mapHeight b = mapHeight a /\
  tiles b = tiles a.
Proof.
  intros H. induction H; simpl; try tauto.
  - destruct IHact1 as (? & ? & ? & ?), IHact2 as (? & ? & ? & ?).
    repeat split; congruence.
Qed.

Lemma sameHands_refl ps : sameHands ps ps.
Proof.
  intros pid. destruct (ps !! pid); constructor. apply thrifty_refl.
Qed.

Lemma sameHands_trans a b c : sameHands a b -> sameHands b c -> sameHands a c.
Proof.
  intros H1 H2 pid. specialize (H1 pid). specialize (H2 pid).
  inversion H1 as [p q Hpq E1 E2|E1 E2]; rewrite <- E2 in H2;
    inversion H2 as [q' r Hqr E3 E4|E3 E4]; constructor.
  eapply thrifty_trans; eassumption.
Qed.

Lemma sameHands_alter ps pid f :
  (forall p, ps !! pid = Some p -> thrifty p (f p)) ->
  sameHands ps (alter f pid ps).
Proof.
  intros Hf k. destruct (decide (k = pid)) as [->|Hne].
  - rewrite lookup_alter_eq. destruct (ps !! pid) eqn:E; constructor.
    apply Hf. reflexivity.
  - rewrite lookup_alter_ne by congruence.
    destruct (ps !! k); constructor. apply thrifty_refl.
Qed.

Lemma recalculateSupply_hands (s : GameState) :
  sameHands (players s) (players (recalculateSupply s)).
Proof.
  unfold recalculateSupply. cbn [players set_players].
  eapply sameHands_trans with
    (b := (fun p => set_supply 0 (set_maxSupply 0 p)) <$> players s).
  - intros pid. rewrite lookup_fmap. destruct (players s !! pid); constructor.
    split; simpl; auto; lia.
  - generalize ((fun p => set_supply 0 (set_maxSupply 0 p)) <$> players s).
    induction (entities s) as [|e l IH]; intros ps; simpl.
    + apply sameHands_refl.
    + eapply sameHands_trans; [|apply IH].
      repeat case_match; try apply sameHands_refl; apply sameHands_alter;
        intros p _; split; simpl; auto; lia.
Qed.

Lemma act_hands {nu : Ids} (a b : GameState) :
  act a b -> sameHands (players a) (players b).
Proof.
  intros H. induction H; simpl; try apply sameHands_refl.
  - eapply sameHands_trans; eassumption.
  - apply sameHands_alter. assumption.
  - apply recalculateSupply_hands.
Qed.

Lemma updateFirstMine_mined pred f l :
  (forall m, List.find pred l = Some m -> mined m (f m)) ->
  Forall2 mined l (updateFirstMine pred f l).
Proof.
  induction l as [|m l IH]; simpl; intros Hf; [constructor|].
  destruct (pred m) eqn:Ep.
  - constructor; [apply Hf; reflexivity|].
    clear. induction l; constructor; auto using mined_refl.
  - constructor; [apply mined_refl|]. apply IH, Hf.
Qed.

Lemma Forall2_mined_refl l : Forall2 mined l l.
Proof. induction l; constructor; auto using mined_refl. Qed.

Lemma Forall2_mined_trans a b c :
  Forall2 mined a b -> Forall2 mined b c -> Forall2 mined a c.
Proof.
  intros H. revert c. induction H; intros c Hc; inversion Hc; subst;
    constructor; eauto using mined_trans.
Qed.

Lemma act_mines {nu : Ids} (a b : GameState) :
  act a b -> Forall2 mined (goldMines a) (goldMines b).
Proof.
  intros H. induction H; simpl; try apply Forall2_mined_refl.
  - eapply Forall2_mined_trans; eassumption.
  - apply updateFirstMine_mined. unfold findMine in *. assumption.
Qed.

Lemma descends_trans before mid e' :
  (forall e, In e mid -> descends before e) ->
  descends mid e' -> descends before e'.
Proof.
  intros Hmid (e & Hp & [Hin|Hr]).
  - destruct (Hmid e Hin) as (e0 & Hp0 & H0). exists e0.
    split; [eapply persists_trans; eassumption|exact H0].
  - exists e. auto.
Qed.

Lemma comesFrom_trans {nu : Ids} before mid e' :
  (forall e, In e mid -> comesFrom before e) ->
  comesFrom mid e' -> comesFrom before e'.
Proof.
  intros Hmid [(e & Hin & Hp)|Hn]; [|right; exact Hn].
  destruct (Hmid e Hin) as [(e0 & Hin0 & Hp0)|Hn].
  - left. exists e0. split; [exact Hin0|].
    eapply persists_trans; eassumption.
  - right. rewrite (ps_id _ _ Hp). exact Hn.
Qed.

Lemma comesFrom_same {nu : Ids} (l : list Entity) (e : Entity) :
  In e l -> comesFrom l e.
Proof. intros H. left. exists e. split; [exact H|apply persists_refl]. Qed.

Lemma act_lineage {nu : Ids} (a b : GameState) :
  act a b -> forall e', In e' (entities b) -> comesFrom (entities a) e'.
Proof.
  intros H. induction H; intros e' He'; simpl in He'.
  - apply comesFrom_same, He'.
  - eapply comesFrom_trans; [exact IHact1|]. apply IHact2, He'.
  - apply In_updateEntity in He' as [He'|(e & He & ->)].
    + apply comesFrom_same, He'.
    + left. exists e. split; [eapply getEntity_In, He|auto].
  - apply in_map_iff in He' as (e & <- & He). left. exists e. auto.
  - apply comesFrom_same, He'.
  - apply comesFrom_same, He'.
  - apply In_putEntity in He' as [->|He'].
    + right. assumption.
    + apply comesFrom_same, He'.
  - apply List.filter_In in He' as [He' _]. apply comesFrom_same, He'.
  - unfold recalculateSupply in He'. simpl in He'.
    apply comesFrom_same, He'.
Qed.

Lemma act_entities {nu : Ids} (a b : GameState) :
  act a b -> forall e', In e' (entities b) -> descends (entities a) e'.
Proof.
  intros H. induction H; intros e' He'; simpl in He'.
  - exists e'. split; [apply persists_refl|auto].
  - eapply descends_trans; [exact IHact1|]. apply IHact2, He'.
  - apply In_updateEntity in He' as [He'|(e & He & ->)].
    + exists e'. split; [apply persists_refl|auto].
    + exists e. split; [auto|]. left. eapply getEntity_In, He.
  - apply in_map_iff in He' as (e & <- & He). exists e. auto.
  - exists e'. split; [apply persists_refl|auto].
  - exists e'. split; [apply persists_refl|auto].
  - apply In_putEntity in He' as [->|He'].
    + exists e. split; [apply persists_refl|auto].
    + exists e'. split; [apply persists_refl|auto].
  - apply List.filter_In in He' as [He' _].
    exists e'. split; [apply persists_refl|auto].
  - unfold recalculateSupply in He'. simpl in He'.
    exists e'. split; [apply persists_refl|auto].
Qed.

(** ** Footprints stay apart *)

Lemma apart_sym (a b : Entity) : apart a b -> apart b a.
Proof.
  intros H tx ty Hb. destruct (occupies a tx ty) eqn:Ea; [|reflexivity].
  rewrite (H tx ty Ea) in Hb. discriminate Hb.
Qed.

Lemma persists_occupies (e e' : Entity) :
  persists e e' -> footless e ->
  (forall tx ty, occupies e' tx ty = occupies e tx ty) /\ footless e'.
Proof.
  intros [_ Ht _ _ Hw Hh _ Hpos] Hf.
  assert (Hb : isBuilding e' = isBuilding e)
    by (unfold isBuilding; rewrite Hw, Hh; reflexivity).
  split.
  - intros tx ty. destruct (isUnitType (e_type e)) eqn:Eu.
    + rewrite !occupies_footless; [reflexivity|auto|].
      rewrite Hb. auto.
    + destruct (Hpos eq_refl) as [Hx Hy]. unfold occupies.
      rewrite Hx, Hy, Hw, Hh. reflexivity.
  - intros Hu. rewrite Hb. apply Hf. congruence.
Qed.

Lemma apart_same (a a' b b' : Entity) :
  (forall tx ty, occupies a' tx ty = occupies a tx ty) ->
  (forall tx ty, occupies b' tx ty = occupies b tx ty) ->
  apart a b -> apart a' b'.
Proof. intros Ha Hb H tx ty. rewrite Ha, Hb. apply H. Qed.

Lemma tidy_same (l l' : list Entity) :
  Forall2 (fun e e' => footless e ->
             (forall tx ty, occupies e' tx ty = occupies e tx ty) /\
             footless e') l l' ->
  Tidy l -> Tidy l'.
Proof.
  intros H. induction H as [|e e' l l' He Hl IH]; intros [Hf Ha];
    [split; constructor|].
  apply Forall_cons_iff in Hf as [Hfe Hfl].
  inversion Ha as [|? ? Hae Hal]; subst.
  destruct (He Hfe) as [Hsame Hfe'].
  destruct (IH (conj Hfl Hal)) as [Hfl' Hal'].
  split; [constructor; assumption|]. constructor; [|exact Hal'].
  clear IH Hal Hal' Hfl' Ha He.
  induction Hl as [|x x' l l' Hx Hl IHl]; [constructor|].
  apply Forall_cons_iff in Hae as [Hex Hae].
  apply Forall_cons_iff in Hfl as [Hfx Hfl].
  constructor; [|apply IHl; assumption].
  apply (apart_same e e' x x' Hsame (proj1 (Hx Hfx)) Hex).
Qed.

Lemma updateEntity_same (id : string) (f : Entity -> Entity)
    (l : list Entity) :
  (forall e, getEntity id l = Some e -> persists e (f e)) ->
  Forall2 (fun e e' => footless e ->
             (forall tx ty, occupies e' tx ty = occupies e tx ty) /\
             footless e') l (updateEntity id f l).
Proof.
  unfold getEntity. induction l as [|x l IH]; intros Hf; simpl;
    [constructor|].
  simpl in Hf. destruct (bool_decide (e_id x = id)).
  - constructor.
    + apply persists_occupies, Hf. reflexivity.
    + clear. induction l; constructor; auto.
  - constructor; [auto|]. apply IH, Hf.
Qed.

Lemma map_same (f : Entity -> Entity) (l : list Entity) :
  (forall e, In e l -> persists e (f e)) ->
  Forall2 (fun e e' => footless e ->
             (forall tx ty, occupies e' tx ty = occupies e tx ty) /\
             footless e') l (map f l).
Proof.
  induction l as [|x l IH]; intros Hf; simpl; constructor.
  - apply persists_occupies, Hf. left. reflexivity.
  - apply IH. intros e He. apply Hf. right. exact He.
Qed.

Lemma tidy_filter (keep : Entity -> bool) (l : list Entity) :
  Tidy l -> Tidy (List.filter keep l).
Proof.
  intros [Hf Ha]. split.
  - apply List.Forall_forall. intros e He.
    apply List.filter_In in He as [He _].
    exact (proj1 (List.Forall_forall _ _) Hf e He).
  - clear Hf. induction Ha as [|a l Hal Hl IH]; simpl; [constructor|].
    destruct (keep a); [|exact IH]. constructor; [|exact IH].
    apply List.Forall_forall. intros e He.
    apply List.filter_In in He as [He _].
    exact (proj1 (List.Forall_forall _ _) Hal e He).
Qed.

Lemma tidy_snoc (l : list Entity) (e : Entity) :
  Tidy l -> footless e -> clearOf l e -> Tidy (l ++ [e]).
Proof.
  intros [Hf Ha] He Hc. split.
  - apply Forall_app. split; [exact Hf|]. constructor; [exact He|constructor].
  - clear Hf. unfold clearOf in Hc.
    induction Ha as [|a l Hal Hl IH]; simpl.
    + constructor; constructor.
    + apply Forall_cons_iff in Hc as [Hca Hc].
      constructor; [|apply IH, Hc].
      apply Forall_app. split; [exact Hal|].
      constructor; [apply apart_sym, Hca|constructor].
Qed.

Lemma tidy_replace (id : string) (l : list Entity) (e : Entity) :
  Tidy l -> footless e -> clearOf l e ->
  Tidy (updateEntity id (fun _ => e) l).
Proof.
  intros [Hf Ha] He Hc. unfold clearOf in Hc. split.
  - clear Ha Hc. induction Hf as [|x l Hx Hl IH]; simpl; [constructor|].
    destruct (bool_decide (e_id x = id)); constructor; assumption.
  - clear Hf. induction Ha as [|a l Hal Hl IH]; simpl; [constructor|].
    apply Forall_cons_iff in Hc as [Hca Hc].
    destruct (bool_decide (e_id a = id)).
    + constructor; assumption.
    + constructor; [|apply IH, Hc].
      apply List.Forall_forall. intros x Hx.
      apply In_updateEntity in Hx as [Hx|(x0 & _ & ->)].
      * exact (proj1 (List.Forall_forall _ _) Hal x Hx).
      * apply apart_sym, Hca.
Qed.

Lemma act_tidy {nu : Ids} (a b : GameState) :
  act a b -> Tidy (entities a) -> Tidy (entities b).
Proof.
  intros H. induction H; intros HT; simpl; auto.
  - eapply tidy_same; [|exact HT]. apply updateEntity_same. assumption.
  - eapply tidy_same; [|exact HT]. apply map_same. assumption.
  - match goal with Hr : recruit _ |- _ => destruct Hr as [_ Hfl] end.
    unfold putEntity. destruct (getEntity (e_id e) (entities s)).
    + apply tidy_replace; assumption.
    + apply tidy_snoc; assumption.
  - apply tidy_filter, HT.
Qed.

(** ** What lasts through a tick and through a run *)

Section Lasting.

Context {nu : Ids}.
Variable Math_sqrt : Q -> Q.
Variable uuid : nat -> string.
Variable spreadOffset : nat -> nat -> Z * Z.

Local Abbreviation tickE := (tickEngine Math_sqrt uuid spreadOffset).
Local Abbreviation run := (runTicks Math_sqrt uuid spreadOffset).

Lemma tickEngine_alive bot g pr :
  forall e, In e (entities (state (fst (fst (tickE bot (g, pr)))))) ->
            0 < e_hp e.
Proof.
  unfold tickEngine.
  destruct (processCommands _ _ _ _ _) as [s1 n1].
  destruct (processEconomy _ _ _ _) as [s2 pr2].
  generalize (processMovement Math_sqrt s2). intros s3.
  assert (H : forall e, In e (entities (fst (processCombat Math_sqrt (s3, pr2))))
                        -> 0 < e_hp e).
  { unfold processCombat.
    destruct (fold_left (defensiveStep Math_sqrt) _ _) as [sa cds2].
    destruct (fold_left (targetingStep Math_sqrt cds2) _ _) as [sb apt].
    destruct (applyBatchedDamage apt (sb, cds2)) as [s4 cds4].
    pose proof (removeDead_spec s4 cds4) as HR. cbv zeta in HR.
    destruct (removeDead (s4, cds4)) as [[s5 cds5] deadIds].
    cbn [fst snd] in HR. destruct HR as (Hd & _ & He).
    assert (H5 : forall e, In e (entities s5) -> 0 < e_hp e).
    { intros e Hin. rewrite He in Hin.
      apply List.filter_In in Hin as [Hin Hnot].
      destruct (e_hp e <=? 0) eqn:E; [|apply Z.leb_gt, E].
      exfalso. apply negb_true_iff in Hnot. unfold includes in Hnot.
      apply bool_decide_eq_false in Hnot. apply Hnot. rewrite Hd.
      apply list_elem_of_In, in_map, List.filter_In. auto. }
    destruct deadIds; cbn [fst]; [exact H5|].
    intros e. rewrite (proj1 (proj2 (proj2 (proj2 (proj2
                 (recalculateSupply_frame s5)))))). apply H5. }
  destruct (processCombat Math_sqrt (s3, pr2)) as [s4 pr4].
  pose proof (checkGameOver_state
                (mkEngine s4 [] (running g) (roomId g)) pr4) as [E _].
  destruct (checkGameOver _) as [[g5 pr5] effects].
  cbn [fst snd state] in *. rewrite E. exact H.
Qed.

(** A relation between states that the clock and every act respect holds
    between the state before a run and the state after it, when the ids
    that [uuid()] is still to return are new. *)
Lemma run_lasts (P : GameState -> GameState -> Prop) :
  (forall s, P s s) ->
  (forall a b c, P a b -> P b c -> P a c) ->
  (forall s, P s (set_tick (tick s + 1) s)) ->
  (forall a b, act a b -> P a b) ->
  forall inputs g pr,
    (forall k, (uuidCalls pr <= k)%nat -> novel (uuid k)) ->
    P (state g) (state (fst (fst (run inputs (g, pr))))).
Proof.
  intros Hrefl Htrans Hclock Hact inputs.
  induction inputs as [|i rest IH]; intros g pr Hn; [apply Hrefl|].
  rewrite runTicks_cons. cbv zeta. cbn [fst snd].
  destruct (handleCommands_fold (received i) g) as [Hs Hr].
  set (g1 := fold_left _ (received i) g) in *.
  destruct (running g1).
  - pose proof (tickEngine_act Math_sqrt uuid spreadOffset (botCommands i)
                  g1 pr Hn) as HA.
    pose proof (tickEngine_calls Math_sqrt uuid spreadOffset (botCommands i)
                  g1 pr) as HC.
    destruct (tickE (botCommands i) (g1, pr)) as [[g2 pr2] eff1].
    assert (Hn2 : forall k, (uuidCalls pr2 <= k)%nat -> novel (uuid k))
      by (intros k Hk; apply Hn; cbn [fst snd] in HC; lia).
    specialize (IH g2 pr2 Hn2).
    destruct (run rest (g2, pr2)) as [[g3 pr3] eff2].
    cbn [fst snd] in *. rewrite <- Hs.
    eapply Htrans; [apply Hclock|]. eapply Htrans; [apply Hact, HA|exact IH].
  - rewrite <- Hs. apply IH, Hn.
Qed.

End Lasting.

(** The same with no condition on the ids. *)
Lemma run_lasting (Math_sqrt : Q -> Q) (uuid : nat -> string)
    (spreadOffset : nat -> nat -> Z * Z)
    (P : GameState -> GameState -> Prop) :
  (forall s, P s s) ->
  (forall a b c, P a b -> P b c -> P a c) ->
  (forall s, P s (set_tick (tick s + 1) s)) ->
  (forall a b, act (nu := anyId) a b -> P a b) ->
  forall inputs g pr,
    P (state g)
      (state (fst (fst (runTicks Math_sqrt uuid spreadOffset inputs
                          (g, pr))))).
Proof.
  intros Hrefl Htrans Hclock Hact inputs g pr.
  apply (run_lasts (nu := anyId) Math_sqrt uuid spreadOffset P); auto.
  intros k _. exact I.
Qed.

Section LastingHelpers.

Variable Math_sqrt : Q -> Q.
Variable uuid : nat -> string.
Variable spreadOffset : nat -> nat -> Z * Z.

Local Abbreviation tickE := (tickEngine Math_sqrt uuid spreadOffset).
Local Abbreviation run := (runTicks Math_sqrt uuid spreadOffset).

Lemma checkGameOver_engine g pr :
  commandQueue (fst (fst (checkGameOver (g, pr)))) = commandQueue g /\
  roomId (fst (fst (checkGameOver (g, pr)))) = roomId g.
Proof. unfold checkGameOver. repeat case_match; split; reflexivity. Qed.

Lemma run_hands inputs g pr :
  sameHands (players (state g))
    (players (state (fst (fst (run inputs (g, pr)))))).
Proof.
  apply (run_lasting Math_sqrt uuid spreadOffset
           (fun a b => sameHands (players a) (players b))).
  - intros s. apply sameHands_refl.
  - intros a b c. apply sameHands_trans.
  - intros s. apply sameHands_refl.
  - apply act_hands.
Qed.

Lemma run_descends inputs g pr :
  forall e', In e' (entities (state (fst (fst (run inputs (g, pr)))))) ->
             descends (entities (state g)) e'.
Proof.
  apply (run_lasting Math_sqrt uuid spreadOffset
           (fun a b => forall e', In e' (entities b) ->
                                  descends (entities a) e')).
  - intros s e' He'. exists e'. split; [apply persists_refl|auto].
  - intros a b c H1 H2 e' He'. eapply descends_trans; [exact H1|].
    apply H2, He'.
  - intros s e' He'. exists e'. split; [apply persists_refl|auto].
  - apply act_entities.
Qed.

Lemma run_comes inputs g pr :
  forall e', In e' (entities (state (fst (fst (run inputs (g, pr)))))) ->
             comesFrom (nu := since uuid (uuidCalls pr))
               (entities (state g)) e'.
Proof.
  apply (run_lasts (nu := since uuid (uuidCalls pr)) Math_sqrt uuid
           spreadOffset
           (fun a b => forall e', In e' (entities b) ->
                                  comesFrom (entities a) e')).
  - intros s e'. apply comesFrom_same.
  - intros a b c H1 H2 e' He'. eapply comesFrom_trans; [exact H1|].
    apply H2, He'.
  - intros s e'. apply comesFrom_same.
  - apply act_lineage.
  - intros k Hk. exists k. auto.
Qed.

Lemma NoDup_ids_eq (l : list Entity) (a b : Entity) :
  NoDup (map e_id l) -> In a l -> In b l -> e_id a = e_id b -> a = b.
Proof.
  induction l as [|x l IH]; simpl; intros Hd Ha Hb Hab; [destruct Ha|].
  inversion Hd as [|? ? Hx Hl]; subst.
  destruct Ha as [->|Ha], Hb as [->|Hb]; auto.
  - exfalso. apply Hx. rewrite Hab. apply list_elem_of_In, in_map, Hb.
  - exfalso. apply Hx. rewrite <- Hab. apply list_elem_of_In, in_map, Ha.
Qed.

(** With distinct ids before the run and none of them among the ids that
    [uuid()] is still to return, the entity that has the id of [e] after
    the run is what the acts have made of [e]. *)
Lemma run_lineage inputs g pr (e e' : Entity) :
  NoDup (map e_id (entities (state g))) ->
  Fresh uuid (uuidCalls pr) (state g) ->
  In e (entities (state g)) ->
  In e' (entities (state (fst (fst (run inputs (g, pr)))))) ->
  e_id e' = e_id e ->
  persists e e'.
Proof.
  intros Hd Hf He He' Hid.
  destruct (run_comes inputs g pr e' He') as [(e0 & H0 & Hp)|(k & Hk & Hn)].
  - rewrite (NoDup_ids_eq _ e e0 Hd He H0); [exact Hp|].
    rewrite <- Hid. apply (ps_id _ _ Hp).
  - exfalso. specialize (Hf k Hk). apply getEntity_None in Hf. apply Hf.
    rewrite <- Hn, Hid. apply in_map, He.
Qed.

Lemma run_alive inputs :
  forall g pr,
    (forall e, In e (entities (state g)) -> 0 < e_hp e) ->
    forall e, In e (entities (state (fst (fst (run inputs (g, pr)))))) ->
              0 < e_hp e.
Proof.
  induction inputs as [|i rest IH]; intros g pr H0; [exact H0|].
  rewrite runTicks_cons. cbv zeta. cbn [fst snd].
  destruct (handleCommands_fold (received i) g) as [Hs Hr].
  set (g1 := fold_left _ (received i) g) in *.
  destruct (running g1).
  - pose proof (tickEngine_alive Math_sqrt uuid spreadOffset (botCommands i)
                  g1 pr) as HA.
    destruct (tickE (botCommands i) (g1, pr)) as [[g2 pr2] eff1].
    specialize (IH g2 pr2 HA).
    destruct (run rest (g2, pr2)) as [[g3 pr3] eff2]. exact IH.
  - apply IH. rewrite Hs. exact H0.
Qed.

End LastingHelpers.

(** X4. One tick advances the clock by exactly one, leaves the size of the
    map and its tiles as they were, empties the command queue (every queued
    command is taken off the queue in the tick that drains it) and keeps the
    room id. *)
Theorem tick_frame (Math_sqrt : Q -> Q) (uuid : nat -> string)
    (spreadOffset : nat -> nat -> Z * Z) (bot : list QueuedCommand)
    (g : GameEngine) (pr : Process) :
  let g' := fst (fst (tickEngine Math_sqrt uuid spreadOffset bot (g, pr))) in
  tick (state g') = tick (state g) + 1 /\
  mapWidth (state g') = mapWidth (state g) /\
  mapHeight (state g') = mapHeight (state g) /\
  tiles (state g') = tiles (state g) /\
  commandQueue g' = [] /\
  roomId g' = roomId g.
Proof.
  cbv zeta.
  pose proof (tickEngine_act (nu := anyId) Math_sqrt uuid spreadOffset bot g pr
                (fun _ _ => I)) as HA.
  apply act_frame in HA. simpl in HA. destruct HA as (Ht & Hw & Hh & Hti).
  repeat (split; [assumption|]).
  unfold tickEngine.
  destruct (processCommands _ _ _ _ _) as [s1 n1].
  destruct (processEconomy _ _ _ _) as [s2 pr2].
  destruct (processCombat _ _) as [s4 pr4].
  pose proof (checkGameOver_engine
                (mkEngine s4 [] (running g) (roomId g)) pr4) as [Eq Er].
  destruct (checkGameOver _) as [[g5 pr5] effects].
  cbn [fst snd commandQueue roomId] in *. auto.
Qed.

(** X5. A tick buries the dead: whatever the state before and whatever the
    commands, no entity with zero or negative hit points is left in the
    state after a tick. *)
Theorem tick_buries_the_dead (Math_sqrt : Q -> Q) (uuid : nat -> string)
    (spreadOffset : nat -> nat -> Z * Z) (bot : list QueuedCommand)
    (g : GameEngine) (pr : Process) :
  Forall (fun e => 0 < e_hp e)
    (entities (state (fst (fst
       (tickEngine Math_sqrt uuid spreadOffset bot (g, pr)))))).
Proof. apply List.Forall_forall, tickEngine_alive. Qed.

(** X6. Through any run of ticks, with any commands, the set of players
    stays the same, and each player keeps its id, name and colour, never
    loses an upgrade level, and, if its gold was not negative before, its
    gold is not negative after: no handler lets a player spend gold it does
    not have. *)
Theorem run_players (Math_sqrt : Q -> Q) (uuid : nat -> string)
    (spreadOffset : nat -> nat -> Z * Z) (inputs : list TickInput)
    (g : GameEngine) (pr : Process) (pid : string) :
  let g' := fst (fst (runTicks Math_sqrt uuid spreadOffset inputs (g, pr))) in
  (players (state g') !! pid = None <-> players (state g) !! pid = None) /\
  forall p p',
    players (state g) !! pid = Some p ->
    players (state g') !! pid = Some p' ->
    p_id p' = p_id p /\ p_name p' = p_name p /\ p_color p' = p_color p /\
    (0 <= p_gold p -> 0 <= p_gold p') /\
    up_infantry (p_upgrades p) <= up_infantry (p_upgrades p') /\
    up_archer (p_upgrades p) <= up_archer (p_upgrades p') /\
    up_cavalry (p_upgrades p) <= up_cavalry (p_upgrades p').
Proof.
  cbv zeta.
  pose proof (run_hands Math_sqrt uuid spreadOffset inputs g pr pid) as H.
  inversion H as [p q Hpq E1 E2|E1 E2].
  - split; [split; discriminate|].
    intros p0 p1 H0 H1. injection H0 as <-. injection H1 as <-.
    destruct Hpq. auto 10.
  - split; [tauto|]. intros p0 p1 H0. discriminate H0.
Qed.

(** X7. Through any run of ticks the list of gold mines keeps its length
    and order; each mine keeps its id, position and worker limit, and its
    gold only goes down, and never below zero when it was not. *)
Theorem run_mines (Math_sqrt : Q -> Q) (uuid : nat -> string)
    (spreadOffset : nat -> nat -> Z * Z) (inputs : list TickInput)
    (g : GameEngine) (pr : Process) :
  Forall2 mined (goldMines (state g))
    (goldMines (state (fst (fst
       (runTicks Math_sqrt uuid spreadOffset inputs (g, pr)))))).
Proof.
  apply (run_lasting Math_sqrt uuid spreadOffset
           (fun a b => Forall2 mined (goldMines a) (goldMines b))).
  - intros s. apply Forall2_mined_refl.
  - intros a b c. apply Forall2_mined_trans.
  - intros s. apply Forall2_mined_refl.
  - apply act_mines.
Qed.

(** X8. Through a run of ticks an entity stays what it is. When the
    entities before the run have distinct ids, none of them an id that
    [uuid()] is still to return, every entity after the run either has an id
    that [uuid()] returned during the run, or has the id of an entity before
    it; and the entity after the run that has the id of an entity [e] before
    it has the type, owner, maximal hit points and footprint of [e], at most
    the hit points of [e], and, unless [e] is a unit, the position of [e].
    Nothing heals, changes sides or changes type, and no building moves. *)
Theorem run_entities (Math_sqrt : Q -> Q) (uuid : nat -> string)
    (spreadOffset : nat -> nat -> Z * Z) (inputs : list TickInput)
    (g : GameEngine) (pr : Process) :
  NoDup (map e_id (entities (state g))) ->
  Fresh uuid (uuidCalls pr) (state g) ->
  let after :=
    entities (state (fst (fst
      (runTicks Math_sqrt uuid spreadOffset inputs (g, pr))))) in
  (forall e', In e' after ->
     (exists e, In e (entities (state g)) /\ e_id e' = e_id e) \/
     (exists k, (uuidCalls pr <= k)%nat /\ e_id e' = uuid k)) /\
  (forall e e',
     In e (entities (state g)) -> In e' after -> e_id e' = e_id e ->
     e_type e' = e_type e /\ e_ownerId e' = e_ownerId e /\
     e_maxHp e' = e_maxHp e /\
     e_tileWidth e' = e_tileWidth e /\ e_tileHeight e' = e_tileHeight e /\
     e_hp e' <= e_hp e /\
     (isUnitType (e_type e) = false ->
      e_x e' = e_x e /\ e_y e' = e_y e)).
Proof.
  intros Hd Hf after. split.
  - intros e' He'.
    destruct (run_comes Math_sqrt uuid spreadOffset inputs g pr e' He')
      as [(e & Hin & Hp)|(k & Hk & Hn)].
    + left. exists e. split; [exact Hin|apply (ps_id _ _ Hp)].
    + right. exists k. auto.
  - intros e e' He He' Hid.
    destruct (run_lineage Math_sqrt uuid spreadOffset inputs g pr e e'
                Hd Hf He He' Hid). auto 10.
Qed.

Lemma lastBrick_ids :
  NoDup (map e_id (entities (state lastBrickEngine))) /\
  Fresh uuidDemo (uuidCalls idleProcess) (state lastBrickEngine).
Proof.
  split.
  - apply NoDup_ListNoDup. repeat constructor; simpl; intuition discriminate.
  - intros m _. apply getEntity_None.
    intros [H|[H|[H|[]]]]; revert H; apply not_eq_sym, uuidDemo_prefix;
      discriminate.
Qed.

Lemma run_entities_witness :
  NoDup (map e_id (entities (state lastBrickEngine))) /\
  Fresh uuidDemo (uuidCalls idleProcess) (state lastBrickEngine) /\
  forall e e',
    In e (entities (state lastBrickEngine)) ->
    In e' (entities (state (fst (fst
             (runTicks sqrtD uuidDemo spreadDemo
                [mkInput [] []; mkInput [] []]
                (lastBrickEngine, idleProcess)))))) ->
    e_id e' = e_id e ->
    e_type e' = e_type e /\ e_ownerId e' = e_ownerId e /\
    e_maxHp e' = e_maxHp e /\
    e_tileWidth e' = e_tileWidth e /\ e_tileHeight e' = e_tileHeight e /\
    e_hp e' <= e_hp e /\
    (isUnitType (e_type e) = false ->
     e_x e' = e_x e /\ e_y e' = e_y e).
Proof.
  destruct lastBrick_ids as [Hd Hf].
  split; [exact Hd|]. split; [exact Hf|].
  exact (proj2 (run_entities sqrtD uuidDemo spreadDemo
                  [mkInput [] []; mkInput [] []] lastBrickEngine idleProcess
                  Hd Hf)).
Defined.

(** X9. Hit points stay within bounds: when every entity has hit points
    above zero and at most its maximum, the same holds after any run of
    ticks, whatever the commands. *)
Theorem run_hit_points (Math_sqrt : Q -> Q) (uuid : nat -> string)
    (spreadOffset : nat -> nat -> Z * Z) (inputs : list TickInput)
    (g : GameEngine) (pr : Process) :
  (forall e, In e (entities (state g)) -> 0 < e_hp e <= e_maxHp e) ->
  forall e,
    In e (entities (state (fst (fst
            (runTicks Math_sqrt uuid spreadOffset inputs (g, pr)))))) ->
    0 < e_hp e <= e_maxHp e.
Proof.
  intros H0 e He. split.
  - revert e He. apply run_alive. intros x Hx. apply H0, Hx.
  - apply (run_descends Math_sqrt uuid spreadOffset) in He
      as (a & [] & [Hin|Hr]).
    + specialize (H0 a Hin). lia.
    + destruct Hr as [Hr _]. lia.
Qed.

Lemma run_hit_points_witness :
  (forall e, In e (entities (state lastBrickEngine)) ->
             0 < e_hp e <= e_maxHp e) /\
  forall e,
    In e (entities (state (fst (fst
            (runTicks sqrtQ uuidDemo spreadDemo
               [mkInput [] []; mkInput [] []]
               (lastBrickEngine, idleProcess)))))) ->
    0 < e_hp e <= e_maxHp e.
Proof.
  assert (H : forall e, In e (entities (state lastBrickEngine)) ->
                        0 < e_hp e <= e_maxHp e).
  { intros e He. simpl in He.
    destruct He as [<-|[<-|[<-|[]]]]; simpl; lia. }
  split; [exact H|].
  apply (run_hit_points sqrtQ uuidDemo spreadDemo
           [mkInput [] []; mkInput [] []] lastBrickEngine idleProcess H).
Defined.

Lemma occupies_at (e : Entity) (x y w h tx ty : Z) :
  e_x e = ZtoQ x -> e_y e = ZtoQ y ->
  e_tileWidth e = Some w -> e_tileHeight e = Some h ->
  occupies e tx ty = true ->
  x <= tx < x + w /\ y <= ty < y + h.
Proof.
  intros Ex Ey Ew Eh Ho. unfold occupies in Ho.
  rewrite Ex, Ey, Ew, Eh in Ho. simpl in Ho. rewrite !andb_true_iff in Ho.
  destruct Ho as (((((_ & _) & Hx1) & Hx2) & Hy1) & Hy2).
  apply Qle_bool_true in Hx1, Hy1. apply Qlt_bool_true in Hx2, Hy2.
  unfold ZtoQ in *. rewrite <- inject_Z_plus in Hx2, Hy2.
  rewrite <- Zle_Qle in Hx1, Hy1. rewrite <- Zlt_Qlt in Hx2, Hy2. lia.
Qed.

(** X13. Buildings never come to overlap: when units have no footprint and
    no tile lies under the footprints of two entities, the same holds after
    any run of ticks, whatever the commands. A building is placed only where
    [isPlacementValid] found every tile of its footprint free of every
    footprint, and no entity with a footprint moves or changes size. *)
Theorem run_tidy (Math_sqrt : Q -> Q) (uuid : nat -> string)
    (spreadOffset : nat -> nat -> Z * Z) (inputs : list TickInput)
    (g : GameEngine) (pr : Process) :
  Tidy (entities (state g)) ->
  Tidy (entities (state (fst (fst
          (runTicks Math_sqrt uuid spreadOffset inputs (g, pr)))))).
Proof.
  apply (run_lasting Math_sqrt uuid spreadOffset
           (fun a b => Tidy (entities a) -> Tidy (entities b))); auto.
  apply act_tidy.
Qed.

Lemma run_tidy_witness :
  Tidy (entities (state lastBrickEngine)) /\
  Tidy (entities (state (fst (fst
          (runTicks sqrtQ uuidDemo spreadDemo
             [mkInput [] []; mkInput [] []]
             (lastBrickEngine, idleProcess)))))).
Proof.
  assert (H : Tidy (entities (state lastBrickEngine))).
  { split.
    - repeat constructor; intros Hu; try discriminate Hu; reflexivity.
    - repeat constructor. intros tx ty Ho.
      apply (occupies_at _ 1 1 3 3) in Ho; try reflexivity.
      destruct (occupies _ tx ty) eqn:E; [|reflexivity].
      apply (occupies_at _ 6 6 2 2) in E; try reflexivity. lia. }
  split; [exact H|].
  apply (run_tidy sqrtQ uuidDemo spreadDemo [mkInput [] []; mkInput [] []]
           lastBrickEngine idleProcess H).
Defined.

(** X18. Construction never goes back. When the entities before a run of
    ticks have distinct ids, none of them an id that [uuid()] is still to
    return, the entity after the run that has the id of an entity [e] before
    it has build progress exactly when [e] has; its progress is not below
    that of [e] when that was not negative, and is at most 1 unless it is
    that of [e]; and when [e] was not under construction, it is not under
    construction either. One pass adds the double of [1 / buildTicks] to the
    progress, in doubles: a barracks (80 ticks) started at 0 is still under
    construction after 80 passes and completed by the 81st, a house (60
    ticks) is completed by the 60th. *)
Theorem run_construction (Math_sqrt : Q -> Q) (uuid : nat -> string)
    (spreadOffset : nat -> nat -> Z * Z) (inputs : list TickInput)
    (g : GameEngine) (pr : Process) :
  NoDup (map e_id (entities (state g))) ->
  Fresh uuid (uuidCalls pr) (state g) ->
  (forall e e',
     In e (entities (state g)) ->
     In e' (entities (state (fst (fst
              (runTicks Math_sqrt uuid spreadOffset inputs (g, pr)))))) ->
     e_id e' = e_id e ->
     progressed (e_buildProgress e) (e_buildProgress e') /\
     (underConstruction e = false -> underConstruction e' = false)) /\
  (let pass := fun e => fst (constructionStep e) in
   let site t := set_buildProgress (Some 0%Q) (demoBuilding "b" t "p1" 6 6 400 2 2) in
   underConstruction (Nat.iter 80 pass (site barracks)) = true /\
   e_buildProgress (Nat.iter 81 pass (site barracks)) = Some 1%Q /\
   underConstruction (Nat.iter 59 pass (site house)) = true /\
   e_buildProgress (Nat.iter 60 pass (site house)) = Some 1%Q).
Proof.
  intros Hd Hf. split; [|vm_compute; auto].
  intros e e' He He' Hid.
  destruct (run_lineage Math_sqrt uuid spreadOffset inputs g pr e e'
              Hd Hf He He' Hid) as [_ _ _ _ _ _ _ _ Hp].
  split; [exact Hp|].
  unfold underConstruction, progressed in *.
  destruct (e_buildProgress e) as [x|], (e_buildProgress e') as [y|];
    try tauto.
  intros Hx. apply Qlt_bool_false in Hx. apply Qlt_bool_false.
  destruct Hp as [Hp _]. eapply Qle_trans; [exact Hx|].
  apply Hp. Lqa.lra.
Qed.

Lemma run_construction_witness :
  NoDup (map e_id (entities (state lastBrickEngine))) /\
  Fresh uuidDemo (uuidCalls idleProcess) (state lastBrickEngine) /\
  forall e e',
    In e (entities (state lastBrickEngine)) ->
    In e' (entities (state (fst (fst
             (runTicks sqrtD uuidDemo spreadDemo
                [mkInput [] []; mkInput [] []]
                (lastBrickEngine, idleProcess)))))) ->
    e_id e' = e_id e ->
    progressed (e_buildProgress e) (e_buildProgress e') /\
    (underConstruction e = false -> underConstruction e' = false).
Proof.
  destruct lastBrick_ids as [Hd Hf].
  split; [exact Hd|]. split; [exact Hf|].
  exact (proj1 (run_construction sqrtD uuidDemo spreadDemo
                  [mkInput [] []; mkInput [] []] lastBrickEngine idleProcess
                  Hd Hf)).
Defined.

(** ** [recalculateSupply] in closed form *)

Lemma recalculateSupply_lookup (s : GameState) (pid : string) :
  players (recalculateSupply s) !! pid
  = (fun p =>
       mkPlayer (p_id p) (p_name p) (p_color p) (p_gold p)
         (sumOwned supplyCostOf pid (entities s))
         (sumOwned grantedNow pid (entities s)) (p_upgrades p))
    <$> players s !! pid.
Proof.
  unfold recalculateSupply. cbn [players set_players].
  match goal with
  | |- fold_left ?body _ _ !! _ = _ =>
      assert (Hfold : forall l (ps : gmap string Player),
                fold_left body l ps !! pid
                = (fun p =>
                     mkPlayer (p_id p) (p_name p) (p_color p) (p_gold p)
                       (p_supply p + sumOwned supplyCostOf pid l)
                       (p_maxSupply p + sumOwned grantedNow pid l)
                       (p_upgrades p)) <$> ps !! pid)
  end.
  { induction l as [|e l IH]; intros ps; simpl.
    - destruct (ps !! pid) as [[]|]; simpl; [f_equal; f_equal; lia|reflexivity].
    - rewrite IH. unfold supplyCostOf, grantedNow, alive, completed.
      destruct (decide (e_ownerId e = pid)) as [Ho|Ho].
      + rewrite (bool_decide_eq_true_2 _ Ho).
        destruct (e_type e) eqn:Et; simpl;
          destruct (0 <? e_hp e); simpl;
          try destruct (underConstruction e); simpl;
          rewrite ?Ho, ?lookup_alter_eq; destruct (ps !! pid) as [[]|];
          simpl; try reflexivity; f_equal; f_equal;
          unfold WORKER_SUPPLY, INFANTRY_SUPPLY, ARCHER_SUPPLY,
            CAVALRY_SUPPLY, BALLISTA_SUPPLY; lia.
      + rewrite (bool_decide_eq_false_2 _ Ho).
        repeat case_match; rewrite ?lookup_alter_ne by assumption;
          destruct (ps !! pid) as [[]|]; simpl; try reflexivity;
          f_equal; f_equal; lia. }
  rewrite Hfold, lookup_fmap. destruct (players s !! pid) as [[]|]; simpl;
    [f_equal; f_equal; lia|reflexivity].
Qed.

(** X10. [recalculateSupply] rewrites, for every player, supply to the sum
    of the supply costs of the units it owns (dead or alive; units still in
    a training queue are not counted) and maxSupply to the supply of its
    living home bases and of its living, completed houses; it changes
    nothing else, and running it twice is the same as running it once. *)
Theorem recalculateSupply_spec (s : GameState) :
  (forall pid,
      players (recalculateSupply s) !! pid
      = (fun p =>
           mkPlayer (p_id p) (p_name p) (p_color p) (p_gold p)
             (sumOwned supplyCostOf pid (entities s))
             (sumOwned grantedNow pid (entities s)) (p_upgrades p))
        <$> players s !! pid) /\
  recalculateSupply s = set_players (players (recalculateSupply s)) s /\
  recalculateSupply (recalculateSupply s) = recalculateSupply s.
Proof.
  split; [apply recalculateSupply_lookup|]. split; [reflexivity|].
  assert (E : players (recalculateSupply (recalculateSupply s))
              = players (recalculateSupply s)).
  { apply map_eq. intros pid. rewrite !recalculateSupply_lookup.
    destruct (recalculateSupply_frame s) as (_ & _ & _ & _ & He & _).
    rewrite He. destruct (players s !! pid); reflexivity. }
  change (recalculateSupply (recalculateSupply s))
    with (set_players (players (recalculateSupply (recalculateSupply s)))
            (recalculateSupply s)).
  rewrite E. reflexivity.
Qed.

(** ** The constructor in closed form *)

Lemma putEntity_fresh (e : Entity) (l : list Entity) :
  getEntity (e_id e) l = None -> putEntity e l = l ++ [e].
Proof. unfold putEntity. intros ->. reflexivity. Qed.

Lemma rosterKeys_spec (roomPlayers : list RoomPlayer) :
  NoDup (rosterKeys roomPlayers) /\
  forall pid, In pid (rosterKeys roomPlayers) <->
              In pid (map rp_id roomPlayers).
Proof.
  unfold rosterKeys, includes.
  assert (H : forall l keys,
            NoDup keys ->
            NoDup (fold_left
                     (fun keys rp =>
                        if bool_decide (rp_id rp ∈ keys) then keys
                        else keys ++ [rp_id rp]) l keys) /\
            forall pid,
              In pid (fold_left
                        (fun keys rp =>
                           if bool_decide (rp_id rp ∈ keys) then keys
                           else keys ++ [rp_id rp]) l keys) <->
              In pid keys \/ In pid (map rp_id l)).
  { induction l as [|rp l IH]; intros keys Hk; simpl.
    - split; [exact Hk|]. intros pid. tauto.
    - destruct (decide (rp_id rp ∈ keys)) as [Hin|Hin].
      + rewrite (bool_decide_eq_true_2 _ Hin).
        destruct (IH keys Hk) as [H1 H2]. split; [exact H1|].
        intros pid. rewrite H2. apply list_elem_of_In in Hin.
        split; [tauto|]. intros [?|[<-|?]]; auto.
      + rewrite (bool_decide_eq_false_2 _ Hin).
        assert (Hk' : NoDup (keys ++ [rp_id rp])).
        { apply NoDup_app. split; [exact Hk|]. split.
          - intros x Hx Hx'. apply list_elem_of_In in Hx'.
            destruct Hx' as [<-|[]]. apply Hin, Hx.
          - apply NoDup_singleton. }
        destruct (IH _ Hk') as [H1 H2]. split; [exact H1|].
        intros pid. rewrite H2, in_app_iff. simpl. tauto. }
  destruct (H roomPlayers [] (NoDup_nil_2)) as [H1 H2].
  split; [exact H1|]. intros pid. rewrite H2. simpl. tauto.
Qed.

Lemma roster_lookup (roomPlayers : list RoomPlayer) (pid : string) :
  match roster roomPlayers !! pid with
  | Some p =>
      exists rp, In rp roomPlayers /\ rp_id rp = pid /\
        p = mkPlayer pid (rp_name rp) (rp_color rp) STARTING_GOLD 0
              HOME_BASE_SUPPLY (mkUpgrades 0 0 0)
  | None => ~ In pid (map rp_id roomPlayers)
  end.
Proof.
  unfold roster.
  assert (H : forall l (ps : gmap string Player),
            match fold_left
                    (fun ps rp =>
                       <[rp_id rp :=
                           mkPlayer (rp_id rp) (rp_name rp) (rp_color rp)
                             STARTING_GOLD 0 HOME_BASE_SUPPLY
                             (mkUpgrades 0 0 0)]> ps) l ps !! pid with
            | Some p =>
                ps !! pid = Some p \/
                exists rp, In rp l /\ rp_id rp = pid /\
                  p = mkPlayer pid (rp_name rp) (rp_color rp) STARTING_GOLD 0
                        HOME_BASE_SUPPLY (mkUpgrades 0 0 0)
            | None => ps !! pid = None /\ ~ In pid (map rp_id l)
            end).
  { induction l as [|rp l IH]; intros ps; simpl.
    - destruct (ps !! pid); [auto|tauto].
    - specialize (IH (<[rp_id rp :=
                          mkPlayer (rp_id rp) (rp_name rp) (rp_color rp)
                            STARTING_GOLD 0 HOME_BASE_SUPPLY
                            (mkUpgrades 0 0 0)]> ps)).
      destruct (fold_left _ l _ !! pid) as [p|].
      + destruct IH as [IH|(rp' & Hin & Hid & Hp)]; [|right; eauto].
        destruct (decide (rp_id rp = pid)) as [Heq|Hne].
        * rewrite Heq, lookup_insert_eq in IH. injection IH as <-.
          right. exists rp. rewrite <- Heq. auto.
        * rewrite lookup_insert_ne in IH by assumption. auto.
      + destruct IH as [IH Hno].
        destruct (decide (rp_id rp = pid)) as [Heq|Hne].
        * rewrite Heq, lookup_insert_eq in IH. discriminate IH.
        * rewrite lookup_insert_ne in IH by assumption. tauto. }
  specialize (H roomPlayers ∅). destruct (fold_left _ _ _ !! pid).
  - destruct H as [H|H]; [rewrite lookup_empty in H; discriminate H|exact H].
  - tauto.
Qed.

Section ConstructorSpec.

Variable uuid : nat -> string.
Hypothesis uuid_inj : forall m n, uuid m = uuid n -> m = n.
Variable n0 : nat.
Variable spawn : list (Q * Q).

Lemma placeStart_closed (ks : list string) :
  forall (a : nat) (s : GameState),
    (a <= length spawn)%nat ->
    Fresh uuid (n0 + 2 * a) s ->
    fold_left (placeStart uuid spawn) (combine (seq a (length ks)) ks)
      (Some (s, (n0 + 2 * a)%nat))
    = if decide (a + length ks <= length spawn)%nat then
        Some (set_entities
                (entities s ++
                 flat_map (startingPair uuid n0 spawn)
                   (combine (seq a (length ks)) ks)) s,
              (n0 + 2 * (a + length ks))%nat)
      else None.
Proof.
  induction ks as [|pid ks IH]; intros a s Ha HF.
  - cbn [length seq combine fold_left flat_map].
    destruct (decide _) as [_|Hn]; [|lia].
    rewrite app_nil_r, Nat.add_0_r. destruct s; reflexivity.
  - cbn [length seq combine fold_left flat_map].
    unfold placeStart at 2. unfold startingPair at 1.
    destruct (spawn !! a) as [[x y]|] eqn:Es.
    + apply lookup_lt_Some in Es.
      assert (Hb : getEntity (uuid (n0 + 2 * a)) (entities s) = None)
        by (apply HF; lia).
      assert (Hw : getEntity (uuid (S (n0 + 2 * a)))
                     (entities s ++
                      [startingBase (uuid (n0 + 2 * a)) pid x y]) = None).
      { apply getEntity_None. rewrite map_app, in_app_iff. simpl.
        intros [Hin|[Heq|[]]].
        - apply (proj1 (getEntity_None _ _) (HF (S (n0 + 2 * a)) ltac:(lia))).
          exact Hin.
        - apply uuid_inj in Heq. lia. }
      change (mkEntity (uuid (n0 + 2 * a)) homeBase pid x y HOME_BASE_HP
                HOME_BASE_HP idle None None (Some []) None None None
                (Some HOME_BASE_TILE_WIDTH) (Some HOME_BASE_TILE_HEIGHT)
                None None)
        with (startingBase (uuid (n0 + 2 * a)) pid x y).
      change (mkEntity (uuid (S (n0 + 2 * a))) worker pid
                (x + ZtoQ HOME_BASE_TILE_WIDTH + 1)%Q (y + 1)%Q
                WORKER_HP WORKER_HP idle
                None None None None None None None None None None)
        with (startingWorker (uuid (S (n0 + 2 * a))) pid x y).
      rewrite (putEntity_fresh (startingBase _ _ _ _)) by exact Hb.
      rewrite (putEntity_fresh (startingWorker _ _ _ _)) by exact Hw.
      replace (S (S (n0 + 2 * a))) with (n0 + 2 * S a)%nat by lia.
      rewrite IH; [|lia|].
      * replace (S a + length ks)%nat with (a + S (length ks))%nat by lia.
        destruct (decide _); [|reflexivity].
        cbn [entities set_entities]. rewrite <- !app_assoc.
        replace (n0 + 2 * a + 1)%nat with (S (n0 + 2 * a)) by lia.
        destruct s; reflexivity.
      * intros m Hm. apply getEntity_None. cbn [entities set_entities].
        rewrite !map_app, !in_app_iff. simpl.
        intros [[Hin|[Heq|[]]]|[Heq|[]]].
        -- apply (proj1 (getEntity_None _ _) (HF m ltac:(lia))). exact Hin.
        -- apply uuid_inj in Heq. lia.
        -- apply uuid_inj in Heq. lia.
    + apply lookup_ge_None in Es. rewrite placeStart_none.
      destruct (decide _); [lia|reflexivity].
Qed.

End ConstructorSpec.

Section ConstructorSums.

Variable uuid : nat -> string.
Variable n0 : nat.
Variable spawn : list (Q * Q).

Lemma sumOwned_app f pid l1 l2 :
  sumOwned f pid (l1 ++ l2) = sumOwned f pid l1 + sumOwned f pid l2.
Proof.
  unfold sumOwned. induction l1 as [|e l1 IH]; simpl; [reflexivity|].
  rewrite IH. lia.
Qed.

Lemma startingPair_sums (pid : string) (l : list (nat * string)) :
  NoDup (map snd l) ->
  (forall kp, In kp l -> (fst kp < length spawn)%nat) ->
  sumOwned supplyCostOf pid (flat_map (startingPair uuid n0 spawn) l)
  = (if bool_decide (pid ∈ map snd l) then WORKER_SUPPLY else 0) /\
  sumOwned grantedNow pid (flat_map (startingPair uuid n0 spawn) l)
  = (if bool_decide (pid ∈ map snd l) then HOME_BASE_SUPPLY else 0).
Proof.
  induction l as [|[k q] l IH]; intros Hnd Hk.
  - split; reflexivity.
  - cbn [map snd flat_map] in *. apply NoDup_cons in Hnd as [Hq Hnd].
    destruct (IH Hnd (fun kp H => Hk kp (or_intror H))) as [IH1 IH2].
    rewrite !sumOwned_app, IH1, IH2.
    assert (Hs : is_Some (spawn !! k)).
    { apply lookup_lt_is_Some. apply (Hk (k, q)). left. reflexivity. }
    destruct Hs as [[x y] Hs]. unfold startingPair. rewrite Hs.
    unfold sumOwned, supplyCostOf, grantedNow. simpl.
    destruct (decide (q = pid)) as [->|Hne].
    + rewrite (bool_decide_eq_true_2 (pid = pid) eq_refl).
      rewrite (bool_decide_eq_false_2 _ Hq).
      rewrite (bool_decide_eq_true_2 (pid ∈ pid :: map snd l))
        by (apply elem_of_cons; auto).
      split; reflexivity.
    + rewrite (bool_decide_eq_false_2 _ Hne).
      destruct (decide (pid ∈ map snd l)) as [Hin|Hin].
      * rewrite (bool_decide_eq_true_2 _ Hin).
        rewrite (bool_decide_eq_true_2 (pid ∈ q :: map snd l))
          by (apply elem_of_cons; auto).
        split; reflexivity.
      * rewrite (bool_decide_eq_false_2 _ Hin).
        rewrite (bool_decide_eq_false_2 (pid ∈ q :: map snd l)).
        -- split; reflexivity.
        -- intros H. apply elem_of_cons in H as [H|H]; [congruence|auto].
Qed.

End ConstructorSums.

Lemma indexed_snd {A : Type} (l : list A) : map snd (indexed l) = l.
Proof.
  unfold indexed. generalize 0%nat. induction l as [|x l IH]; intros a;
    simpl; [reflexivity|]. rewrite IH. reflexivity.
Qed.

Lemma indexed_fst {A : Type} (l : list A) (kp : nat * A) :
  In kp (indexed l) -> (fst kp < length l)%nat.
Proof.
  unfold indexed. intros H. destruct kp as [k x].
  apply in_combine_l in H. apply in_seq in H. simpl. lia.
Qed.

Lemma newEngine_closed (uuid : nat -> string) (n0 : nat) (room : string)
    (roomPlayers : list RoomPlayer) (mapData : MapData) :
  (forall m n, uuid m = uuid n -> m = n) ->
  let keys := rosterKeys roomPlayers in
  let spawn := md_spawnPoints mapData in
  match newEngine uuid n0 room roomPlayers mapData with
  | None => (length spawn < length keys)%nat
  | Some (g, n) =>
      (length keys <= length spawn)%nat /\
      n = (n0 + 2 * length keys)%nat /\
      running g = false /\ commandQueue g = [] /\ roomId g = room /\
      tick (state g) = 0 /\
      (mapWidth (state g), mapHeight (state g))
        = getMapSize (Z.of_nat (length roomPlayers)) /\
      tiles (state g) = md_tiles mapData /\
      goldMines (state g) = md_goldMines mapData /\
      entities (state g)
        = flat_map (startingPair uuid n0 spawn) (indexed keys) /\
      forall pid,
        match players (state g) !! pid with
        | Some p =>
            exists rp, In rp roomPlayers /\ rp_id rp = pid /\
              p = mkPlayer pid (rp_name rp) (rp_color rp) STARTING_GOLD
                    WORKER_SUPPLY HOME_BASE_SUPPLY (mkUpgrades 0 0 0)
        | None => ~ In pid (map rp_id roomPlayers)
        end
  end.
Proof.
  intros uuid_inj keys spawn. unfold newEngine.
  destruct (getMapSize _) as [w h] eqn:Esize.
  set (s0 := mkState 0 w h (md_tiles mapData) (roster roomPlayers) []
               (md_goldMines mapData)).
  pose proof (placeStart_closed uuid uuid_inj n0 spawn keys 0 s0
                ltac:(lia) ltac:(intros m _; reflexivity)) as H.
  rewrite Nat.mul_0_r, Nat.add_0_r in H. fold (indexed keys) in H.
  fold keys. fold spawn. rewrite H. clear H.
  destruct (decide _) as [Hle|Hgt]; [|lia].
  cbn [Nat.add]. repeat (split; [first [assumption|reflexivity]|]).
  cbn [state]. intros pid.
  rewrite recalculateSupply_lookup. cbn [players entities set_entities s0].
  cbn [app].
  destruct (startingPair_sums uuid n0 spawn pid (indexed keys)) as [S1 S2].
  { rewrite indexed_snd. apply rosterKeys_spec. }
  { intros kp Hkp. apply indexed_fst in Hkp. lia. }
  rewrite S1, S2, indexed_snd. clear S1 S2.
  pose proof (roster_lookup roomPlayers pid) as HR.
  destruct (roster roomPlayers !! pid) as [p|]; simpl; [|exact HR].
  destruct HR as (rp & Hin & Hid & ->). exists rp.
  split; [exact Hin|]. split; [exact Hid|]. simpl.
  rewrite bool_decide_eq_true_2; [reflexivity|].
  apply list_elem_of_In, rosterKeys_spec, in_map_iff. eauto.
Qed.


(** X11. The constructor fails (a [TypeError] on the missing spawn point)
    exactly when the map has fewer spawn points than the room has distinct
    player ids. Otherwise, the ids returned by [uuid()] being pairwise
    distinct, it leaves an engine that is not running, with an empty queue,
    the tick at zero, the map of the map data, and for the k-th player a home
    base at its spawn point and a worker beside it, both with all hit
    points; every player starts with the starting gold, the supply of one
    worker and the supply cap of one home base. *)
Theorem newEngine_spec (uuid : nat -> string) (n0 : nat) (room : string)
    (roomPlayers : list RoomPlayer) (mapData : MapData) :
  (forall m n, uuid m = uuid n -> m = n) ->
  let keys := rosterKeys roomPlayers in
  let spawn := md_spawnPoints mapData in
  match newEngine uuid n0 room roomPlayers mapData with
  | None => (length spawn < length keys)%nat
  | Some (g, n) =>
      (length keys <= length spawn)%nat /\
      n = (n0 + 2 * length keys)%nat /\
      running g = false /\ commandQueue g = [] /\ roomId g = room /\
      tick (state g) = 0 /\
      (mapWidth (state g), mapHeight (state g))
        = getMapSize (Z.of_nat (length roomPlayers)) /\
      tiles (state g) = md_tiles mapData /\
      goldMines (state g) = md_goldMines mapData /\
      entities (state g)
        = flat_map (startingPair uuid n0 spawn) (indexed keys) /\
      forall pid,
        match players (state g) !! pid with
        | Some p =>
            exists rp, In rp roomPlayers /\ rp_id rp = pid /\
              p = mkPlayer pid (rp_name rp) (rp_color rp) STARTING_GOLD
                    WORKER_SUPPLY HOME_BASE_SUPPLY (mkUpgrades 0 0 0)
        | None => ~ In pid (map rp_id roomPlayers)
        end
  end.
Proof. apply newEngine_closed. Qed.

Lemma newEngine_spec_witness :
  (forall m n, uuidDemo m = uuidDemo n -> m = n) /\
  match newEngine uuidDemo 0 "room" twoPlayerRoom smallMap with
  | None => False
  | Some (g, n) =>
      n = 4%nat /\ length (entities (state g)) = 4%nat /\
      forall pid,
        match players (state g) !! pid with
        | Some p => p_gold p = STARTING_GOLD /\ p_supply p = WORKER_SUPPLY
        | None => ~ In pid ["p1"; "p2"]
        end
  end.
Proof.
  split; [exact uuidDemo_inj|].
  pose proof (newEngine_spec uuidDemo 0 "room" twoPlayerRoom smallMap
                uuidDemo_inj) as H.
  cbv zeta in H.
  destruct (newEngine uuidDemo 0 "room" twoPlayerRoom smallMap)
    as [[g n]|]; [|vm_compute in H; lia].
  destruct H as (_ & Hn & _ & _ & _ & _ & _ & _ & _ & He & Hp).
  split; [rewrite Hn; reflexivity|]. split; [rewrite He; reflexivity|].
  intros pid. specialize (Hp pid).
  destruct (players (state g) !! pid) as [p|]; [|exact Hp].
  destruct Hp as (rp & _ & _ & ->). split; reflexivity.
Defined.

(** ** Upgrades *)

Lemma Math_round_inject (z : Z) (q : Q) :
  (q == inject_Z z)%Q -> Math_round q = z.
Proof.
  intros H. unfold Math_round.
  rewrite (Qfloor_comp _ (inject_Z z + (1 # 2))%Q) by (rewrite H; reflexivity).
  unfold Qfloor, Qplus, inject_Z. cbn [Qnum Qden Pos.mul].
  symmetry. apply Z.div_unique with (r := 1); lia.
Qed.

Lemma getUpgradeCost_pow (level : Z) :
  0 <= level -> getUpgradeCost level = 100 * 2 ^ level.
Proof.
  intros H. unfold getUpgradeCost, UPGRADE_BASE_COST, UPGRADE_COST_SCALE, ZtoQ.
  apply Math_round_inject.
  rewrite inject_Z_mult.
  change 2%Q with (inject_Z 2).
  rewrite <- Qpower.Zpower_Qpower by exact H. reflexivity.
Qed.

(** X12. The n-th upgrade of a unit type costs 100 * 2^n gold. For a player
    in the game whose level is not negative, [handleUpgradeUnit] accepts the
    order exactly when the armory exists, belongs to the player, is an armory
    and is completed, and the player holds the cost; it then takes exactly
    the cost from the player and raises that level by one, changing nothing
    else; otherwise it leaves the state as it was. *)
Theorem handleUpgradeUnit_spec (s : GameState) (pid aid : string)
    (ut : UpgradeableUnit) (p : Player) :
  players s !! pid = Some p ->
  0 <= upgradeLevelOf ut (p_upgrades p) ->
  let level := upgradeLevelOf ut (p_upgrades p) in
  let cost := 100 * 2 ^ level in
  let accepted :=
    exists a, getEntity aid (entities s) = Some a /\ e_ownerId a = pid /\
              e_type a = armory /\ underConstruction a = false /\
              cost <= p_gold p in
  getUpgradeCost level = cost /\
  getUpgradeCost (level + 1) = 2 * cost /\
  (accepted ->
   handleUpgradeUnit s pid aid ut
   = set_players
       (<[pid := set_upgrades
                   (setUpgradeLevel ut (level + 1) (p_upgrades p))
                   (set_gold (p_gold p - cost) p)]> (players s)) s) /\
  (~ accepted -> handleUpgradeUnit s pid aid ut = s).
Proof.
  intros Hp Hl level cost accepted.
  assert (Hc : getUpgradeCost level = cost) by (apply getUpgradeCost_pow, Hl).
  split; [exact Hc|]. split.
  { rewrite getUpgradeCost_pow by (unfold level; lia). subst cost.
    rewrite Z.pow_add_r by (unfold level; lia). lia. }
  unfold handleUpgradeUnit. split.
  - intros (a & Ha & Ho & Ht & Hu & Hg). rewrite Ha.
    rewrite (bool_decide_eq_true_2 _ Ho), (bool_decide_eq_true_2 _ Ht), Hu, Hp.
    cbn [negb]. fold level. rewrite Hc.
    destruct (p_gold p <? cost) eqn:E; [apply Z.ltb_lt in E; lia|].
    unfold updP. f_equal. apply map_eq. intros k.
    destruct (decide (k = pid)) as [->|Hne].
    + rewrite lookup_alter_eq, lookup_insert_eq, Hp. reflexivity.
    + rewrite lookup_alter_ne, lookup_insert_ne by congruence. reflexivity.
  - intros Hno.
    destruct (getEntity aid (entities s)) as [a|] eqn:Ha; [|reflexivity].
    destruct (bool_decide (e_ownerId a = pid)) eqn:Eo; [|reflexivity].
    destruct (bool_decide (e_type a = armory)) eqn:Et; [|reflexivity].
    destruct (underConstruction a) eqn:Eu; [reflexivity|].
    cbn [negb]. rewrite Hp. fold level. rewrite Hc.
    destruct (p_gold p <? cost) eqn:E; [reflexivity|].
    exfalso. apply Hno. exists a.
    apply bool_decide_eq_true in Eo, Et. apply Z.ltb_ge in E. auto 10.
Qed.

Lemma handleUpgradeUnit_spec_witness :
  players armoryYard !! "p1"
    = Some (mkPlayer "p1" "Ann" "#3498db" 250 0 10 (mkUpgrades 1 0 0)) /\
  getUpgradeCost 1 = 200 /\
  getUpgradeCost 2 = 400 /\
  players (handleUpgradeUnit armoryYard "p1" "a1" UInfantry) !! "p1"
    = Some (mkPlayer "p1" "Ann" "#3498db" 50 0 10 (mkUpgrades 2 0 0)) /\
  handleUpgradeUnit armoryYard "p1" "nowhere" UInfantry = armoryYard.
Proof.
  assert (Hp : players armoryYard !! "p1"
               = Some (mkPlayer "p1" "Ann" "#3498db" 250 0 10
                         (mkUpgrades 1 0 0))) by reflexivity.
  destruct (handleUpgradeUnit_spec armoryYard "p1" "a1" UInfantry _ Hp
              ltac:(simpl; lia)) as (H1 & H2 & H3 & _).
  destruct (handleUpgradeUnit_spec armoryYard "p1" "nowhere" UInfantry _ Hp
              ltac:(simpl; lia)) as (_ & _ & _ & H4).
  split; [exact Hp|]. split; [exact H1|]. split; [exact H2|]. split.
  - rewrite H3.
    + cbn [players set_players]. rewrite lookup_insert_eq. reflexivity.
    + exists (demoBuilding "a1" armory "p1" 4 4 600 3 3).
      repeat split; try reflexivity. simpl. lia.
  - apply H4. intros (a & Ha & _). discriminate Ha.
Defined.

(** ** Training orders *)

(** X19. For a registered player, [handleTrainUnit] accepts the order
    exactly when the building exists, belongs to the player, is completed and
    is the one that trains the unit (the home base for workers, a barracks
    for infantry, archers, cavalry and ballistae), the player holds the cost
    and the supply of the unit fits under the cap. It then takes the cost,
    reserves the supply, appends the order to the queue of the building with
    the full training time and sets the building to training; nothing else
    changes. Otherwise the state is left as it was. *)
Theorem handleTrainUnit_spec (s : GameState) (pid bid : string)
    (ut : EntityType) (p : Player) :
  players s !! pid = Some p ->
  let stats := getUnitTrainStats ut in
  let accepted :=
    exists b,
      getEntity bid (entities s) = Some b /\ e_ownerId b = pid /\
      underConstruction b = false /\
      ((ut = worker /\ e_type b = homeBase) \/
       ((ut = infantry \/ ut = archer \/ ut = cavalry \/ ut = ballista) /\
        e_type b = barracks)) /\
      ts_cost stats <= p_gold p /\
      p_supply p + ts_supplyCost stats <= p_maxSupply p in
  (accepted ->
   handleTrainUnit s pid bid ut
   = updE bid
       (fun b =>
          set_state training
            (set_trainingQueue
               (Some (default [] (e_trainingQueue b) ++
                      [mkOrder ut (ts_trainTicks stats)])) b))
       (set_players
          (<[pid := set_supply (p_supply p + ts_supplyCost stats)
                      (set_gold (p_gold p - ts_cost stats) p)]> (players s))
          s)) /\
  (~ accepted -> handleTrainUnit s pid bid ut = s).
Proof.
  intros Hp stats accepted. unfold handleTrainUnit. split.
  - intros (b & Hb & Ho & Hu & Ht & Hg & Hsup). rewrite Hb, Hp.
    rewrite (bool_decide_eq_true_2 _ Ho), Hu. cbn [negb].
    fold stats.
    assert (Hc : (ts_cost stats <=? 0) = false).
    { subst stats. destruct Ht as [[-> _]|[[->|[->|[->| ->]]] _]];
        reflexivity. }
    assert (Hk : forall t, (bool_decide (ut = t) &&
                            negb (bool_decide (e_type b = match t with
                              | worker => homeBase | _ => barracks end)))
                           = false).
    { intros t. destruct (decide (ut = t)) as [->|Hne];
        [|rewrite (bool_decide_eq_false_2 _ Hne); reflexivity].
      rewrite (bool_decide_eq_true_2 _ eq_refl). cbn [andb].
      apply negb_false_iff, bool_decide_eq_true.
      destruct Ht as [[-> Hb']|[[->|[->|[->| ->]]] Hb']]; exact Hb'. }
    rewrite (Hk worker), (Hk infantry), (Hk archer), (Hk cavalry),
      (Hk ballista), Hc.
    destruct (p_gold p <? ts_cost stats) eqn:E1;
      [apply Z.ltb_lt in E1; lia|].
    destruct (p_maxSupply p <? p_supply p + ts_supplyCost stats) eqn:E2;
      [apply Z.ltb_lt in E2; lia|].
    f_equal. unfold updP. f_equal. apply map_eq. intros k.
    destruct (decide (k = pid)) as [->|Hne].
    + rewrite lookup_alter_eq, lookup_insert_eq, Hp. reflexivity.
    + rewrite lookup_alter_ne, lookup_insert_ne by congruence. reflexivity.
  - intros Hno.
    destruct (getEntity bid (entities s)) as [b|] eqn:Hb; [|reflexivity].
    destruct (bool_decide (e_ownerId b = pid)) eqn:Eo; [|reflexivity].
    apply bool_decide_eq_true in Eo. cbn [negb]. rewrite Hp. fold stats.
    repeat (match goal with
            | |- (if ?c then s else _) = s =>
                destruct c eqn:?; [reflexivity|]
            end).
    exfalso. apply Hno. exists b.
    repeat match goal with
           | H : (_ <? _) = false |- _ => apply Z.ltb_ge in H
           | H : (_ <=? _) = false |- _ => apply Z.leb_gt in H
           | H : _ && negb _ = false |- _ =>
               apply andb_false_iff in H;
               rewrite negb_false_iff, bool_decide_eq_false,
                 bool_decide_eq_true in H
           end.
    split; [reflexivity|]. split; [exact Eo|]. split; [assumption|].
    split; [|split; assumption].
    subst stats. destruct ut; simpl in *; try lia;
      [left|right..]; split; auto; tauto.
Qed.

Lemma handleTrainUnit_spec_witness :
  players lastBrick !! "p1" = Some (demoPlayer "p1" 100 1) /\
  players (handleTrainUnit lastBrick "p1" "base1" worker) !! "p1"
    = Some (mkPlayer "p1" "p1" "#3498db" 50 2 10 (mkUpgrades 0 0 0)) /\
  handleTrainUnit lastBrick "p1" "base1" infantry = lastBrick.
Proof.
  assert (Hp : players lastBrick !! "p1" = Some (demoPlayer "p1" 100 1))
    by reflexivity.
  destruct (handleTrainUnit_spec lastBrick "p1" "base1" worker _ Hp)
    as [H1 _].
  destruct (handleTrainUnit_spec lastBrick "p1" "base1" infantry _ Hp)
    as [_ H2].
  split; [exact Hp|]. split.
  - rewrite H1.
    + cbn [players updE set_entities set_players].
      rewrite lookup_insert_eq. reflexivity.
    + exists (demoBuilding "base1" homeBase "p1" 1 1 2000 3 3).
      split; [reflexivity|]. split; [reflexivity|]. split; [reflexivity|].
      split; [left; split; reflexivity|]. split; simpl; vm_compute; discriminate.
  - apply H2. intros (b & Hb & _ & _ & [[Hu _]|[_ Ht]] & _).
    + discriminate Hu.
    + injection Hb as <-. discriminate Ht.
Defined.

(** ** The map generator *)

Lemma setGrass_shape (w h : Z) (t : list (list TileType)) (tx ty w' h' : Z) :
  tilesShape t w' h' -> tilesShape (setGrass w h t tx ty) w' h'.
Proof.
  intros [Hl Hr]. unfold setGrass. destruct (_ && _); [|split; assumption].
  split.
  - rewrite length_alter. exact Hl.
  - apply Forall_alter; [exact Hr|]. intros row _ Hrow.
    rewrite length_insert. exact Hrow.
Qed.

Lemma tileOf_setGrass_same (w h : Z) (t : list (list TileType)) (tx ty : Z) :
  tilesShape t w h -> 0 <= tx < w -> 0 <= ty < h ->
  tileOf (setGrass w h t tx ty) tx ty = Some grass.
Proof.
  intros [Hl Hr] Hx Hy. unfold setGrass, tileOf.
  replace ((0 <=? tx) && (tx <? w) && (0 <=? ty) && (ty <? h)) with true
    by (symmetry; rewrite !andb_true_iff, !Z.leb_le, !Z.ltb_lt; lia).
  replace ((0 <=? tx) && (0 <=? ty)) with true
    by (symmetry; rewrite !andb_true_iff, !Z.leb_le; lia).
  rewrite list_lookup_alter_eq.
  destruct (t !! Z.to_nat ty) as [row|] eqn:Er.
  - simpl. apply list_lookup_insert_eq.
    assert (Hrow : Z.of_nat (length row) = w).
    { apply (proj1 (List.Forall_forall _ _) Hr row).
      apply list_elem_of_In, list_elem_of_lookup. eauto. }
    lia.
  - apply lookup_ge_None in Er. lia.
Qed.

Lemma tileOf_setGrass_keeps (w h : Z) (t : list (list TileType))
    (tx ty x y : Z) :
  tileOf t x y = Some grass -> tileOf (setGrass w h t tx ty) x y = Some grass.
Proof.
  unfold setGrass, tileOf. destruct ((0 <=? x) && (0 <=? y)); [|discriminate].
  destruct ((0 <=? tx) && (tx <? w) && (0 <=? ty) && (ty <? h)); [|auto].
  destruct (decide (Z.to_nat ty = Z.to_nat y)) as [E|E].
  - rewrite E, list_lookup_alter_eq.
    destruct (t !! Z.to_nat y) as [row|]; [|discriminate]. simpl.
    destruct (decide (Z.to_nat tx = Z.to_nat x)) as [E'|E'].
    + rewrite E'. intros H. apply list_lookup_insert_eq.
      apply lookup_lt_Some in H. exact H.
    + rewrite list_lookup_insert_ne by exact E'. auto.
  - rewrite list_lookup_alter_ne by exact E. auto.
Qed.

(** A rectangle of tiles set to grass, as the two loops of [clearArea] and
    of the clearing around a spawn point do. *)
Lemma clear_rect (w h : Z) (fx fy : Z -> Z) (xs ys : list Z)
    (t : list (list TileType)) :
  let t' :=
    fold_left
      (fun t dy => fold_left (fun t dx => setGrass w h t (fx dx) (fy dy)) xs t)
      ys t in
  (forall w' h', tilesShape t w' h' -> tilesShape t' w' h') /\
  (forall x y, tileOf t x y = Some grass -> tileOf t' x y = Some grass) /\
  (tilesShape t w h ->
   forall dx dy, In dx xs -> In dy ys ->
     0 <= fx dx < w -> 0 <= fy dy < h ->
     tileOf t' (fx dx) (fy dy) = Some grass).
Proof.
  cbv zeta.
  assert (Hrow : forall dy xs t,
    let t' := fold_left (fun t dx => setGrass w h t (fx dx) (fy dy)) xs t in
    (forall w' h', tilesShape t w' h' -> tilesShape t' w' h') /\
    (forall x y, tileOf t x y = Some grass -> tileOf t' x y = Some grass) /\
    (tilesShape t w h ->
     forall dx, In dx xs -> 0 <= fx dx < w -> 0 <= fy dy < h ->
       tileOf t' (fx dx) (fy dy) = Some grass)).
  { intros dy. induction xs0 as [|a l IH]; intros t0; cbn [fold_left].
    - cbv zeta. split; [auto|]. split; [auto|]. intros _ dx [].
    - destruct (IH (setGrass w h t0 (fx a) (fy dy))) as (I1 & I2 & I3).
      cbv zeta in *. split; [|split].
      + intros w' h' Hs. apply I1, setGrass_shape, Hs.
      + intros x y Hg. apply I2, tileOf_setGrass_keeps, Hg.
      + intros Hs dx [<-|Hin] Hx Hy.
        * apply I2, tileOf_setGrass_same; assumption.
        * apply I3; [apply setGrass_shape, Hs|assumption..]. }
  revert t. induction ys as [|b l IH]; intros t; cbn [fold_left].
  - split; [auto|]. split; [auto|]. intros _ dx dy _ [].
  - destruct (Hrow b xs t) as (R1 & R2 & R3). cbv zeta in *.
    destruct (IH (fold_left (fun t dx => setGrass w h t (fx dx) (fy b)) xs t))
      as (I1 & I2 & I3).
    split; [|split].
    + intros w' h' Hs. apply I1, R1, Hs.
    + intros x y Hg. apply I2, R2, Hg.
    + intros Hs dx dy Hdx [<-|Hdy] Hx Hy.
      * apply I2, R3; assumption.
      * apply I3; [apply R1, Hs|assumption..].
Qed.

Lemma rngNext_range (seed : Z) :
  (0 <= snd (rngNext seed))%Q /\ (snd (rngNext seed) < 1)%Q.
Proof.
  unfold rngNext. cbv zeta. cbn [snd].
  set (u := toUint32 _).
  assert (Hu : 0 <= u < 2 ^ 32) by (apply Z.mod_pos_bound; lia).
  unfold Qle, Qlt. simpl. lia.
Qed.

Lemma Qfloor_scaled (r : Q) (k : Z) :
  (0 <= r)%Q -> (r < 1)%Q -> 0 < k -> 0 <= Qfloor (r * ZtoQ k) <= k - 1.
Proof.
  intros H0 H1 Hk.
  assert (Hkq : (0 < ZtoQ k)%Q)
    by (unfold ZtoQ; change 0%Q with (inject_Z 0); rewrite <- Zlt_Qlt; lia).
  split.
  - change 0 with (Qfloor 0). apply Qfloor_resp_le.
    apply Qmult_le_0_compat; [exact H0|apply Qlt_le_weak, Hkq].
  - assert (H : Qfloor (r * ZtoQ k) < k); [|lia].
    rewrite Zlt_Qlt. eapply Qle_lt_trans; [apply Qfloor_le|].
    apply Qlt_le_trans with (1 * ZtoQ k)%Q;
      [apply Qmult_lt_compat_r; assumption|].
    rewrite Qmult_1_l. apply Qle_refl.
Qed.

Lemma genRow_length (w h y seed : Z) :
  length (fst (genRow w h y seed)) = Z.to_nat w.
Proof.
  unfold genRow. rewrite <- (length_seqZ 0 w).
  assert (H : forall l (acc : list TileType * Z),
            length (fst (fold_left
              (fun (acc : list TileType * Z) x =>
                 let '(row, sd) := acc in
                 let '(sd', r) := rngNext sd in
                 (row ++ [terrainOf w h x y r], sd')) l acc))
            = (length (fst acc) + length l)%nat).
  { induction l as [|x l IH]; intros [row sd]; simpl; [lia|].
    destruct (rngNext sd) as [sd' r]. rewrite IH. simpl.
    rewrite length_app. simpl. lia. }
  rewrite H. reflexivity.
Qed.

Lemma genTerrain_shape (w h seed : Z) :
  0 <= w -> 0 <= h -> tilesShape (fst (genTerrain w h seed)) w h.
Proof.
  intros Hw Hh. unfold genTerrain.
  assert (H : forall l (acc : list (list TileType) * Z),
            Forall (fun row => Z.of_nat (length row) = w) (fst acc) ->
            let r := fold_left
              (fun (acc : list (list TileType) * Z) y =>
                 let '(rows, sd) := acc in
                 let '(row, sd') := genRow w h y sd in
                 (rows ++ [row], sd')) l acc in
            length (fst r) = (length (fst acc) + length l)%nat /\
            Forall (fun row => Z.of_nat (length row) = w) (fst r)).
  { induction l as [|y l IH]; intros [rows sd] Hf; simpl.
    - split; [lia|exact Hf].
    - pose proof (genRow_length w h y sd) as Hr.
      destruct (genRow w h y sd) as [row sd']. simpl in Hr.
      destruct (IH (rows ++ [row], sd')) as [I1 I2].
      + simpl. apply Forall_app. split; [exact Hf|].
        constructor; [lia|constructor].
      + cbv zeta in I1, I2. split; [|exact I2].
        rewrite I1. simpl. rewrite length_app. simpl. lia. }
  destruct (H (seqZ 0 h) ([], seed) (List.Forall_nil _)) as [H1 H2].
  cbv zeta in H1, H2. split; [|exact H2].
  rewrite H1, length_seqZ. simpl. lia.
Qed.

Lemma mineLaid_keeps (t t' : list (list TileType)) (w h : Z) (m : GoldMine) :
  (forall x y, tileOf t x y = Some grass -> tileOf t' x y = Some grass) ->
  mineLaid t w h m -> mineLaid t' w h m.
Proof.
  intros Hk (H1 & H2 & H3 & mx & my & Hx & Hy & Bx & By & Hg).
  repeat (split; [assumption|]). exists mx, my.
  repeat (split; [assumption|]). intros dx dy Hdx Hdy. apply Hk, Hg; assumption.
Qed.

Lemma clearArea_spec (t : list (list TileType)) (x y w h : Z) :
  let t' := clearArea t x y 2 2 w h in
  (forall w' h', tilesShape t w' h' -> tilesShape t' w' h') /\
  (forall a b, tileOf t a b = Some grass -> tileOf t' a b = Some grass) /\
  (tilesShape t w h -> 1 <= x <= w - 3 -> 1 <= y <= h - 3 ->
   forall dx dy, -1 <= dx <= 2 -> -1 <= dy <= 2 ->
     tileOf t' (x + dx) (y + dy) = Some grass).
Proof.
  cbv zeta. unfold clearArea.
  destruct (clear_rect w h (fun dx => x + dx) (fun dy => y + dy)
              (seqZ (-1) (2 + 2)) (seqZ (-1) (2 + 2)) t) as (H1 & H2 & H3).
  cbv zeta in H1, H2, H3. split; [exact H1|]. split; [exact H2|].
  intros Hs Hx Hy dx dy Hdx Hdy.
  apply H3; try assumption; try lia;
    apply list_elem_of_In, elem_of_seqZ; lia.
Qed.

Lemma Qfloor_between (q : Q) (a b : Z) :
  (inject_Z a <= q)%Q -> (q <= inject_Z b)%Q -> a <= Qfloor q <= b.
Proof.
  intros Ha Hb. split.
  - rewrite <- (Qfloor_Z a). apply Qfloor_resp_le, Ha.
  - rewrite <- (Qfloor_Z b). apply Qfloor_resp_le, Hb.
Qed.

Lemma Qmax_Qmin_bounds (lo hi q : Q) :
  (lo <= hi)%Q -> (lo <= Qmax lo (Qmin hi q))%Q /\ (Qmax lo (Qmin hi q) <= hi)%Q.
Proof.
  intros H. unfold Qmax, Qmin.
  destruct (Qle_bool hi q) eqn:E1.
  - destruct (Qle_bool lo hi) eqn:E2.
    + split; [exact H|apply Qle_refl].
    + apply Qle_bool_false in E2. split; [apply Qle_refl|exact H].
  - apply Qle_bool_false in E1. destruct (Qle_bool lo q) eqn:E2.
    + apply Qle_bool_true in E2. split; [exact E2|apply Qlt_le_weak, E1].
    + split; [apply Qle_refl|exact H].
Qed.

Section Drafts.

Variable uuid : nat -> string.
Variable n0 : nat.
Variables w h : Z.
Hypothesis wide : 60 <= w.
Hypothesis high : 60 <= h.

Local Abbreviation laid := (draftLaid uuid n0 w h).

Lemma draft_add (t : list (list TileType)) (mines : list GoldMine)
    (sd sd' : Z) (n : nat) (mx my : Z) :
  laid (t, mines, sd, n) ->
  2 <= mx <= w - 4 -> 2 <= my <= h - 4 ->
  laid (clearArea t mx my 2 2 w h, mines ++ [createGoldMine (uuid n) mx my],
        sd', S n).
Proof.
  intros (Hs & Hn & Hid & Hm) Hx Hy.
  destruct (clearArea_spec t mx my w h) as (C1 & C2 & C3).
  cbv zeta in C1, C2, C3. unfold draftLaid.
  split; [apply C1, Hs|]. split; [rewrite length_app; simpl; lia|]. split.
  - rewrite length_app. cbn [length]. rewrite Nat.add_1_r, seq_S.
    rewrite !map_app, Hid. simpl. rewrite <- Hn. reflexivity.
  - apply Forall_app. split.
    + eapply Forall_impl; [exact Hm|]. intros m. apply mineLaid_keeps, C2.
    + constructor; [|constructor]. repeat (split; [reflexivity|]).
      exists mx, my. repeat (split; [first [reflexivity|lia]|]).
      apply C3; [exact Hs|lia|lia].
Qed.

Lemma spawnMine_laid (d : MapDraft) (sp : Q * Q) :
  laid d ->
  laid (spawnMine uuid w h d sp) /\
  (forall x y, tileOf (draftTiles d) x y = Some grass ->
               tileOf (draftTiles (spawnMine uuid w h d sp)) x y
               = Some grass) /\
  length (draftMines (spawnMine uuid w h d sp)) = S (length (draftMines d)).
Proof.
  destruct d as [[[t mines] sd] n]. intros Hl. unfold spawnMine.
  destruct (rngNext sd) as [sd1 r1]. destruct (rngNext sd1) as [sd2 r2].
  cbv zeta. split; [|split].
  - apply (draft_add t mines sd); [exact Hl|lia|lia].
  - unfold draftTiles. cbn [fst]. apply clearArea_spec.
  - unfold draftMines. cbn [fst snd]. rewrite length_app. simpl. lia.
Qed.

Lemma spawnMines_laid (sps : list (Q * Q)) :
  forall d, laid d ->
    let d' := fold_left (spawnMine uuid w h) sps d in
    laid d' /\
    (forall x y, tileOf (draftTiles d) x y = Some grass ->
                 tileOf (draftTiles d') x y = Some grass) /\
    length (draftMines d') = (length (draftMines d) + length sps)%nat.
Proof.
  induction sps as [|sp sps IH]; intros d Hl; cbn [fold_left].
  - cbv zeta. split; [exact Hl|]. split; [auto|]. simpl. lia.
  - destruct (spawnMine_laid d sp Hl) as (S1 & S2 & S3).
    destruct (IH _ S1) as (I1 & I2 & I3). cbv zeta in *.
    split; [exact I1|]. split; [auto|]. rewrite I3, S3. simpl. lia.
Qed.

Lemma scatterMines_laid (target dist : Z) (i0 : nat) (attempts : nat) :
  forall d, laid d -> spaced dist i0 (draftMines d) ->
    let d' := scatterMines uuid attempts w h target dist d in
    laid d' /\
    (forall x y, tileOf (draftTiles d) x y = Some grass ->
                 tileOf (draftTiles d') x y = Some grass) /\
    (length (draftMines d) <= length (draftMines d'))%nat /\
    Z.of_nat (length (draftMines d'))
      <= Z.max (Z.of_nat (length (draftMines d))) target /\
    spaced dist i0 (draftMines d') /\
    firstn (length (draftMines d)) (draftMines d') = draftMines d.
Proof.
  induction attempts as [|k IH]; intros [[[t mines] sd] n] Hl Hsp;
    cbn [scatterMines].
  - cbv zeta. unfold draftMines, draftTiles. cbn [fst snd].
    rewrite firstn_all. split; [exact Hl|]. split; [auto|].
    split; [lia|]. split; [lia|]. split; [exact Hsp|reflexivity].
  - destruct (Z.of_nat (length mines) <? target) eqn:Et.
    2:{ cbv zeta. unfold draftMines, draftTiles. cbn [fst snd].
        rewrite firstn_all. split; [exact Hl|]. split; [auto|].
        split; [lia|]. split; [lia|]. split; [exact Hsp|reflexivity]. }
    apply Z.ltb_lt in Et.
    destruct (rngNext sd) as [sd1 r1] eqn:E1.
    destruct (rngNext sd1) as [sd2 r2] eqn:E2. cbv zeta.
    pose proof (rngNext_range sd) as R1. rewrite E1 in R1.
    pose proof (rngNext_range sd1) as R2. rewrite E2 in R2.
    cbn [snd] in R1, R2.
    pose proof (Qfloor_scaled r1 (w - 10) (proj1 R1) (proj2 R1) ltac:(lia))
      as B1.
    pose proof (Qfloor_scaled r2 (h - 10) (proj1 R2) (proj2 R2) ltac:(lia))
      as B2.
    set (mx := 5 + Qfloor (r1 * ZtoQ (w - 10))) in *.
    set (my := 5 + Qfloor (r2 * ZtoQ (h - 10))) in *.
    destruct (existsb _ mines) eqn:Ec.
    + destruct (IH (t, mines, sd2, n)) as (I1 & I2 & I3 & I4 & I5 & I6);
        [exact Hl|exact Hsp|].
      cbv zeta in *. unfold draftMines, draftTiles in *. cbn [fst snd] in *.
      auto 10.
    + destruct (IH (clearArea t mx my 2 2 w h,
                    mines ++ [createGoldMine (uuid n) mx my], sd2, S n))
        as (I1 & I2 & I3 & I4 & I5 & I6).
      * apply (draft_add t mines sd); [exact Hl|lia|lia].
      * unfold draftMines. cbn [fst snd].
        intros i j mi mj Hij Hj Hi Hmj.
        destruct (decide (j < length mines)%nat) as [Hlt|Hge].
        -- rewrite lookup_app_l in Hi, Hmj by lia.
           exact (Hsp i j mi mj Hij Hj Hi Hmj).
        -- assert (Hjl : j = length mines).
           { apply lookup_lt_Some in Hmj. rewrite length_app in Hmj.
             simpl in Hmj. lia. }
           subst j. rewrite lookup_app_l in Hi by lia.
           rewrite lookup_app_r, Nat.sub_diag in Hmj by lia.
           injection Hmj as <-. cbn [m_x m_y createGoldMine].
           rewrite <- not_true_iff_false, existsb_exists in Ec.
           destruct (Qlt_bool (Qabs (m_x mi - ZtoQ mx)) (ZtoQ dist)) eqn:Ex.
           ++ destruct (Qlt_bool (Qabs (m_y mi - ZtoQ my)) (ZtoQ dist))
                eqn:Ey.
              ** exfalso. apply Ec. exists mi. split.
                 --- apply list_elem_of_In, list_elem_of_lookup. eauto.
                 --- rewrite Ex, Ey. reflexivity.
              ** right. apply Qlt_bool_false, Ey.
           ++ left. apply Qlt_bool_false, Ex.
      * cbv zeta in *. unfold draftMines, draftTiles in *. cbn [fst snd] in *.
        rewrite length_app in I3, I4, I6. simpl in I3, I4, I6.
        split; [exact I1|]. split.
        { intros x y Hg. apply I2. apply clearArea_spec, Hg. }
        split; [lia|]. split; [lia|]. split; [exact I5|].
        apply (f_equal (firstn (length mines))) in I6.
        rewrite firstn_firstn, firstn_app, Nat.sub_diag in I6.
        rewrite Nat.min_l in I6 by lia.
        rewrite I6, firstn_all. simpl. rewrite app_nil_r. reflexivity.
Qed.

End Drafts.

Lemma getMapSize_square (pc : Z) :
  exists size, getMapSize pc = (size, size) /\ 60 <= size.
Proof.
  unfold getMapSize, MAP_WIDTH_BASE, MAP_SIZE_PER_PLAYER. cbv zeta.
  eexists. split; [reflexivity|]. lia.
Qed.

Lemma spawnCorners_bounds (w h pc : Z) (sp : Q * Q) :
  60 <= w -> 60 <= h -> In sp (spawnCorners w h pc) ->
  (5 <= fst sp)%Q /\ (fst sp <= ZtoQ w - 8)%Q /\
  (5 <= snd sp)%Q /\ (snd sp <= ZtoQ h - 8)%Q.
Proof.
  intros Hw Hh Hin. unfold spawnCorners in Hin. cbv zeta in Hin.
  apply list_elem_of_In, elem_of_take in Hin as (i & Hin & _).
  destruct (Qmax_Qmin_bounds 5 10 (ZtoQ w / 8)) as [M1 M2]; [discriminate|].
  set (margin := Qmax 5 (Qmin 10 (ZtoQ w / 8))) in *.
  assert (Qw : (60 <= ZtoQ w)%Q)
    by (unfold ZtoQ; change 60%Q with (inject_Z 60); rewrite <- Zle_Qle; lia).
  assert (Qh : (60 <= ZtoQ h)%Q)
    by (unfold ZtoQ; change 60%Q with (inject_Z 60); rewrite <- Zle_Qle; lia).
  destruct i as [|[|[|[|i]]]]; simpl in Hin; try discriminate Hin;
    injection Hin as <-; cbn [fst snd]; repeat split; Lqa.lra.
Qed.

Lemma spawnCorners_length (w h pc : Z) :
  length (spawnCorners w h pc) = Z.to_nat (Z.min 4 (Z.max pc 2)).
Proof.
  unfold spawnCorners. cbv zeta. rewrite length_take. simpl. lia.
Qed.

Lemma clearSpawn_spec (w h : Z) (t : list (list TileType)) (sp : Q * Q) :
  let t' := clearSpawn w h t sp in
  (forall w' h', tilesShape t w' h' -> tilesShape t' w' h') /\
  (forall a b, tileOf t a b = Some grass -> tileOf t' a b = Some grass) /\
  (tilesShape t w h ->
   (5 <= fst sp)%Q -> (fst sp <= ZtoQ w - 8)%Q ->
   (5 <= snd sp)%Q -> (snd sp <= ZtoQ h - 8)%Q ->
   forall dx dy, -4 <= dx <= 6 -> -4 <= dy <= 6 ->
     tileOf t' (Qfloor (fst sp + ZtoQ dx)) (Qfloor (snd sp + ZtoQ dy))
     = Some grass).
Proof.
  cbv zeta. unfold clearSpawn.
  destruct (clear_rect w h (fun dx => Qfloor (fst sp + ZtoQ dx))
              (fun dy => Qfloor (snd sp + ZtoQ dy))
              (seqZ (-4) 11) (seqZ (-4) 11) t) as (H1 & H2 & H3).
  cbv zeta in H1, H2, H3. split; [exact H1|]. split; [exact H2|].
  intros Hs X1 X2 Y1 Y2 dx dy Hdx Hdy.
  assert (Hq : forall (x : Q) (m d : Z),
            (5 <= x)%Q -> (x <= ZtoQ m - 8)%Q -> -4 <= d <= 6 ->
            0 <= Qfloor (x + ZtoQ d) < m).
  { intros x m d Hx1 Hx2 Hd.
    assert (D1 : (-4 <= ZtoQ d)%Q)
      by (unfold ZtoQ; change (-4)%Q with (inject_Z (-4));
          rewrite <- Zle_Qle; lia).
    assert (D2 : (ZtoQ d <= 6)%Q)
      by (unfold ZtoQ; change 6%Q with (inject_Z 6);
          rewrite <- Zle_Qle; lia).
    destruct (Qfloor_between (x + ZtoQ d) 1 (m - 2)) as [F1 F2].
    - change (inject_Z 1) with 1%Q. Lqa.lra.
    - unfold ZtoQ in *. unfold Z.sub. rewrite inject_Z_plus.
      change (inject_Z (- (2))) with (-2)%Q. Lqa.lra.
    - lia. }
  apply H3; try assumption;
    try (apply list_elem_of_In, elem_of_seqZ; lia); apply Hq; assumption.
Qed.

Lemma clearSpawns_spec (w h : Z) (sps : list (Q * Q)) :
  forall t,
    tilesShape t w h ->
    Forall (fun sp => (5 <= fst sp)%Q /\ (fst sp <= ZtoQ w - 8)%Q /\
                      (5 <= snd sp)%Q /\ (snd sp <= ZtoQ h - 8)%Q) sps ->
    let t' := fold_left (clearSpawn w h) sps t in
    tilesShape t' w h /\
    (forall a b, tileOf t a b = Some grass -> tileOf t' a b = Some grass) /\
    Forall (fun sp =>
              forall dx dy, -4 <= dx <= 6 -> -4 <= dy <= 6 ->
                tileOf t' (Qfloor (fst sp + ZtoQ dx))
                  (Qfloor (snd sp + ZtoQ dy)) = Some grass) sps.
Proof.
  induction sps as [|sp sps IH]; intros t Hs Hb; cbn [fold_left].
  - cbv zeta. split; [exact Hs|]. split; [auto|constructor].
  - apply Forall_cons_iff in Hb as [(B1 & B2 & B3 & B4) Hb].
    destruct (clearSpawn_spec w h t sp) as (C1 & C2 & C3). cbv zeta in *.
    destruct (IH (clearSpawn w h t sp) (C1 _ _ Hs) Hb) as (I1 & I2 & I3).
    split; [exact I1|]. split; [auto|]. constructor; [|exact I3].
    intros dx dy Hdx Hdy. apply I2, C3; assumption.
Qed.

Lemma generateMap_laid (uuid : nat -> string) (n0 : nat)
    (playerCount seed : Z) :
  let '(md, n) := generateMap uuid n0 playerCount seed in
  let '(w, h) := getMapSize playerCount in
  let mines := md_goldMines md in
  60 <= w /\ 60 <= h /\
  tilesShape (md_tiles md) w h /\
  md_spawnPoints md = spawnCorners w h playerCount /\
  length (md_spawnPoints md) = Z.to_nat (Z.min 4 (Z.max playerCount 2)) /\
  Forall (fun sp =>
            forall dx dy, -4 <= dx <= 6 -> -4 <= dy <= 6 ->
              tileOf (md_tiles md) (Qfloor (fst sp + ZtoQ dx))
                (Qfloor (snd sp + ZtoQ dy)) = Some grass)
    (md_spawnPoints md) /\
  Forall (mineLaid (md_tiles md) w h) mines /\
  map m_id mines = map uuid (seq n0 (length mines)) /\
  n = (n0 + length mines)%nat /\
  (length (md_spawnPoints md) <= length mines)%nat /\
  Z.of_nat (length mines)
    <= Z.max (Z.of_nat (length (md_spawnPoints md)))
         (Z.min GOLD_MINE_COUNT (Z.max 4 (w / 15))) /\
  spaced (Z.max 8 (w / 8)) (length (md_spawnPoints md)) mines.
Proof.
  unfold generateMap.
  destruct (getMapSize_square playerCount) as (size & -> & Hsize).
  pose proof (genTerrain_shape size size seed ltac:(lia) ltac:(lia)) as Hs0.
  destruct (genTerrain size size seed) as [tiles0 sd0]. cbn [fst] in Hs0.
  set (sps := spawnCorners size size playerCount).
  assert (Hb : Forall (fun sp =>
                 (5 <= fst sp)%Q /\ (fst sp <= ZtoQ size - 8)%Q /\
                 (5 <= snd sp)%Q /\ (snd sp <= ZtoQ size - 8)%Q) sps).
  { apply List.Forall_forall. intros sp Hin.
    apply (spawnCorners_bounds size size playerCount); assumption. }
  destruct (clearSpawns_spec size size sps tiles0 Hs0 Hb) as (C1 & C2 & C3).
  cbv zeta in C1, C2, C3.
  set (tiles1 := fold_left (clearSpawn size size) sps tiles0) in *.
  assert (L0 : draftLaid uuid n0 size size (tiles1, [], sd0, n0)).
  { split; [exact C1|]. split; [simpl; lia|]. split; constructor. }
  destruct (spawnMines_laid uuid n0 size size Hsize Hsize sps _ L0)
    as (S1 & S2 & S3).
  cbv zeta in S1, S2, S3.
  set (d1 := fold_left (spawnMine uuid size size) sps (tiles1, [], sd0, n0))
    in *.
  assert (Sp1 : spaced (Z.max 8 (size / 8)) (length sps) (draftMines d1)).
  { intros i j mi mj Hij Hj _ Hmj. apply lookup_lt_Some in Hmj.
    rewrite S3 in Hmj. simpl in Hmj. lia. }
  destruct (scatterMines_laid uuid n0 size size Hsize Hsize
              (Z.min GOLD_MINE_COUNT (Z.max 4 (size / 15)))
              (Z.max 8 (size / 8)) (length sps) 200 d1 S1 Sp1)
    as (T1 & T2 & T3 & T4 & T5 & T6).
  cbv zeta in T1, T2, T3, T4, T5, T6.
  destruct (scatterMines uuid 200 size size _ _ d1) as [[[tiles mines] sd] n].
  unfold draftMines, draftTiles in *. cbn [fst snd] in *.
  destruct T1 as (U1 & U2 & U3 & U4).
  cbn [md_tiles md_goldMines md_spawnPoints].
  split; [exact Hsize|]. split; [exact Hsize|]. split; [exact U1|].
  split; [reflexivity|]. split; [apply spawnCorners_length|]. split.
  { eapply Forall_impl; [exact C3|]. intros sp Hsp dx dy Hdx Hdy.
    apply T2, S2, Hsp; assumption. }
  split; [exact U4|]. split; [exact U3|]. split; [exact U2|].
  rewrite S3 in T3, T4. simpl in T3, T4. split; [lia|]. split; [lia|].
  exact T5.
Qed.


(** X14. [generateMap] returns, for every player count and seed, a map of
    the size that [getMapSize] gives, at least 60 by 60: that many rows of
    that many tiles. There are min(4, max(playerCount, 2)) spawn points, and
    around each of them the tiles from 4 before to 6 after it, in both
    directions, are grass. Every gold mine holds 2000 gold, admits one
    worker, has no worker, lies on whole tile coordinates with its 2 by 2
    footprint and the ring around it inside the map and on grass, and carries
    the id of the [uuid()] call that made it. There is a mine for every spawn
    point, and no more mines than spawn points or the target count. *)
Theorem generateMap_spec (uuid : nat -> string) (n0 : nat)
    (playerCount seed : Z) :
  let '(md, n) := generateMap uuid n0 playerCount seed in
  let '(w, h) := getMapSize playerCount in
  let mines := md_goldMines md in
  60 <= w /\ 60 <= h /\
  tilesShape (md_tiles md) w h /\
  md_spawnPoints md = spawnCorners w h playerCount /\
  length (md_spawnPoints md) = Z.to_nat (Z.min 4 (Z.max playerCount 2)) /\
  Forall (fun sp =>
            forall dx dy, -4 <= dx <= 6 -> -4 <= dy <= 6 ->
              tileOf (md_tiles md) (Qfloor (fst sp + ZtoQ dx))
                (Qfloor (snd sp + ZtoQ dy)) = Some grass)
    (md_spawnPoints md) /\
  Forall (mineLaid (md_tiles md) w h) mines /\
  map m_id mines = map uuid (seq n0 (length mines)) /\
  n = (n0 + length mines)%nat /\
  (length (md_spawnPoints md) <= length mines)%nat /\
  Z.of_nat (length mines)
    <= Z.max (Z.of_nat (length (md_spawnPoints md)))
         (Z.min GOLD_MINE_COUNT (Z.max 4 (w / 15))).
Proof.
  pose proof (generateMap_laid uuid n0 playerCount seed) as H.
  destruct (generateMap uuid n0 playerCount seed) as [md n].
  destruct (getMapSize playerCount) as [w h]. cbv zeta in *.
  destruct H as (H1 & H2 & H3 & H4 & H5 & H6 & H7 & H8 & H9 & H10 & H11 & _).
  auto 12.
Qed.

(** X15. Every mine that [generateMap] scatters after the mines of the spawn
    points keeps the minimum distance, max(8, floor(width / 8)) tiles, on one
    axis at least, to every mine placed before it. *)
Theorem generateMap_spaced (uuid : nat -> string) (n0 : nat)
    (playerCount seed : Z) :
  let '(md, n) := generateMap uuid n0 playerCount seed in
  let '(w, h) := getMapSize playerCount in
  spaced (Z.max 8 (w / 8)) (length (md_spawnPoints md)) (md_goldMines md).
Proof.
  pose proof (generateMap_laid uuid n0 playerCount seed) as H.
  destruct (generateMap uuid n0 playerCount seed) as [md n].
  destruct (getMapSize playerCount) as [w h]. cbv zeta in *.
  apply H.
Qed.

(** ** The constructor on the map that it generates *)

Lemma rosterKeys_length (roomPlayers : list RoomPlayer) :
  (length (rosterKeys roomPlayers) <= length roomPlayers)%nat.
Proof.
  unfold rosterKeys.
  assert (H : forall l keys,
            (length (fold_left
                       (fun keys rp =>
                          if includes (rp_id rp) keys then keys
                          else keys ++ [rp_id rp]) l keys)
             <= length keys + length l)%nat).
  { induction l as [|rp l IH]; intros keys; simpl; [lia|].
    destruct (includes (rp_id rp) keys).
    - specialize (IH keys). lia.
    - specialize (IH (keys ++ [rp_id rp])). rewrite length_app in IH.
      simpl in IH. lia. }
  specialize (H roomPlayers []). simpl in H. exact H.
Qed.

Lemma tidy_app (l1 l2 : list Entity) :
  Tidy l1 -> Tidy l2 ->
  (forall a b, In a l1 -> In b l2 -> apart a b) ->
  Tidy (l1 ++ l2).
Proof.
  intros [F1 A1] [F2 A2] H. split; [apply Forall_app; auto|].
  induction A1 as [|a l Ha Hl IH]; simpl; [exact A2|].
  apply Forall_cons_iff in F1 as [_ F1].
  constructor.
  - apply Forall_app. split; [exact Ha|].
    apply List.Forall_forall. intros b Hb. apply H; [left; reflexivity|exact Hb].
  - apply IH; [exact F1|]. intros x y Hx Hy. apply H; [right; exact Hx|exact Hy].
Qed.

Lemma occupies_startingBase (id pid : string) (x y : Q) (tx ty : Z) :
  occupies (startingBase id pid x y) tx ty = true ->
  (x <= ZtoQ tx)%Q /\ (ZtoQ tx < x + 3)%Q /\
  (y <= ZtoQ ty)%Q /\ (ZtoQ ty < y + 3)%Q.
Proof.
  unfold occupies, startingBase. simpl. rewrite !andb_true_iff.
  intros (((Hx1 & Hx2) & Hy1) & Hy2).
  apply Qle_bool_true in Hx1, Hy1. apply Qlt_bool_true in Hx2, Hy2.
  unfold ZtoQ, HOME_BASE_TILE_WIDTH, HOME_BASE_TILE_HEIGHT in *.
  change (inject_Z 3) with 3%Q in *. auto.
Qed.

Section Camps.

Variable uuid : nat -> string.
Variable n0 : nat.
Variable spawn : list (Q * Q).

(** Any two spawn points are three tiles apart on one axis at least. *)
Hypothesis far :
  forall i j p q,
    i <> j -> spawn !! i = Some p -> spawn !! j = Some q ->
    (fst p + 3 <= fst q)%Q \/ (fst q + 3 <= fst p)%Q \/
    (snd p + 3 <= snd q)%Q \/ (snd q + 3 <= snd p)%Q.

Lemma In_startingPairs (l : list (nat * string)) (e : Entity) :
  In e (flat_map (startingPair uuid n0 spawn) l) ->
  exists k pid x y,
    In (k, pid) l /\ spawn !! k = Some (x, y) /\
    (e = startingBase (uuid (n0 + 2 * k)) pid x y \/
     e = startingWorker (uuid (n0 + 2 * k + 1)) pid x y).
Proof.
  intros H. apply in_flat_map in H as ([k pid] & Hin & He).
  unfold startingPair in He. destruct (spawn !! k) as [[x y]|] eqn:Es;
    [|destruct He].
  exists k, pid, x, y. split; [exact Hin|]. split; [exact Es|].
  destruct He as [<-|[<-|[]]]; auto.
Qed.

Lemma apart_camps (k k' : nat) (pid pid' : string) (x y x' y' : Q)
    (a b : Entity) :
  k <> k' -> spawn !! k = Some (x, y) -> spawn !! k' = Some (x', y') ->
  (a = startingBase (uuid (n0 + 2 * k)) pid x y \/
   a = startingWorker (uuid (n0 + 2 * k + 1)) pid x y) ->
  (b = startingBase (uuid (n0 + 2 * k')) pid' x' y' \/
   b = startingWorker (uuid (n0 + 2 * k' + 1)) pid' x' y') ->
  apart a b.
Proof.
  intros Hk Hs Hs' [->| ->] [->| ->] tx ty Ho;
    try reflexivity; try discriminate Ho.
  destruct (occupies (startingBase _ pid' x' y') tx ty) eqn:Eo;
    [|reflexivity].
  apply occupies_startingBase in Ho, Eo.
  specialize (far k k' _ _ Hk Hs Hs'). cbn [fst snd] in far. exfalso.
  Lqa.lra.
Qed.

Lemma startingPairs_tidy (l : list (nat * string)) :
  NoDup (map fst l) -> Tidy (flat_map (startingPair uuid n0 spawn) l).
Proof.
  induction l as [|[k pid] l IH]; intros Hnd; cbn [flat_map].
  - split; constructor.
  - cbn [map fst] in Hnd. apply NoDup_cons in Hnd as [Hk Hnd].
    apply tidy_app; [|apply IH, Hnd|].
    + unfold startingPair. destruct (spawn !! k) as [[x y]|];
        [|split; constructor].
      split.
      * constructor; [intros Hu; discriminate Hu|].
        constructor; [intros _; reflexivity|constructor].
      * constructor; [|constructor; constructor].
        constructor; [|constructor]. intros tx ty _. reflexivity.
    + intros a b Ha Hb. apply In_startingPairs in Hb
        as (k' & pid' & x' & y' & Hin' & Hs' & Hb).
      unfold startingPair in Ha.
      destruct (spawn !! k) as [[x y]|] eqn:Hs; [|destruct Ha].
      apply (apart_camps k k' pid pid' x y x' y'); try assumption.
      * intros ->. apply Hk, list_elem_of_In, in_map_iff.
        exists (k', pid'). auto.
      * destruct Ha as [<-|[<-|[]]]; auto.
Qed.

End Camps.

Lemma indexed_NoDup {A : Type} (l : list A) : NoDup (map fst (indexed l)).
Proof.
  unfold indexed.
  assert (H : forall (ks : list nat) (l : list A),
            length ks = length l -> map fst (combine ks l) = ks).
  { induction ks as [|k ks IH]; intros [|x l']; simpl; intros Hl;
      try discriminate; [reflexivity|]. rewrite IH by lia. reflexivity. }
  rewrite H by apply length_seq. apply NoDup_seq.
Qed.

Lemma Qfloor_add_Z (x : Q) (d : Z) : Qfloor (x + inject_Z d) = Qfloor x + d.
Proof.
  destruct x as [n p]. unfold Qfloor, Qplus, inject_Z.
  cbn [Qnum Qden]. rewrite Pos.mul_1_r, Z.mul_1_r.
  apply Z.div_add. lia.
Qed.

Lemma spawnCorners_far (w h pc : Z) (i j : nat) (p q : Q * Q) :
  60 <= w -> 60 <= h -> i <> j ->
  spawnCorners w h pc !! i = Some p -> spawnCorners w h pc !! j = Some q ->
  (fst p + 3 <= fst q)%Q \/ (fst q + 3 <= fst p)%Q \/
  (snd p + 3 <= snd q)%Q \/ (snd q + 3 <= snd p)%Q.
Proof.
  intros Hw Hh Hij Hi Hj. unfold spawnCorners in Hi, Hj. cbv zeta in Hi, Hj.
  apply lookup_take_Some in Hi as [Hi _]. apply lookup_take_Some in Hj as [Hj _].
  destruct (Qmax_Qmin_bounds 5 10 (ZtoQ w / 8)) as [M1 M2]; [discriminate|].
  set (margin := Qmax 5 (Qmin 10 (ZtoQ w / 8))) in *.
  assert (Qw : (60 <= ZtoQ w)%Q)
    by (unfold ZtoQ; change 60%Q with (inject_Z 60); rewrite <- Zle_Qle; lia).
  assert (Qh : (60 <= ZtoQ h)%Q)
    by (unfold ZtoQ; change 60%Q with (inject_Z 60); rewrite <- Zle_Qle; lia).
  destruct i as [|[|[|[|i]]]]; simpl in Hi; try discriminate Hi;
    injection Hi as <-;
    destruct j as [|[|[|[|j]]]]; simpl in Hj; try discriminate Hj;
    injection Hj as <-; try (exfalso; apply Hij; reflexivity);
    cbn [fst snd]; Lqa.lra.
Qed.

(** The tiles around a spawn point that hold the home base and the worker
    are among those that [generateMap] clears. *)
Lemma camp_tiles (t : list (list TileType)) (x y : Q) :
  (forall dx dy, -4 <= dx <= 6 -> -4 <= dy <= 6 ->
     tileOf t (Qfloor (x + ZtoQ dx)) (Qfloor (y + ZtoQ dy)) = Some grass) ->
  forall tx ty,
    (x - 4 <= ZtoQ tx)%Q -> (ZtoQ tx < x + 6)%Q ->
    (y - 4 <= ZtoQ ty)%Q -> (ZtoQ ty < y + 6)%Q ->
    tileOf t tx ty = Some grass.
Proof.
  intros Hg tx ty X1 X2 Y1 Y2.
  assert (Hq : forall (q : Q) (z : Z),
            (q - 4 <= ZtoQ z)%Q -> (ZtoQ z < q + 6)%Q ->
            -4 <= z - Qfloor q <= 6).
  { intros q z Q1 Q2. pose proof (Qfloor_le q) as F1.
    pose proof (Qlt_floor q) as F2. unfold ZtoQ in *.
    assert (A : Qfloor q - 4 <= z).
    { rewrite Zle_Qle. unfold Z.sub. rewrite inject_Z_plus.
      change (inject_Z (- (4))) with (-4)%Q. Lqa.lra. }
    assert (B : z < Qfloor q + 1 + 6).
    { rewrite Zlt_Qlt, !inject_Z_plus. change (inject_Z 6) with 6%Q.
      change (inject_Z 1) with 1%Q. rewrite inject_Z_plus in F2.
      change (inject_Z 1) with 1%Q in F2. Lqa.lra. }
    lia. }
  specialize (Hg (tx - Qfloor x) (ty - Qfloor y)
                ltac:(specialize (Hq x tx X1 X2); lia)
                ltac:(specialize (Hq y ty Y1 Y2); lia)).
  unfold ZtoQ in Hg. rewrite !Qfloor_add_Z in Hg.
  replace (Qfloor x + (tx - Qfloor x)) with tx in Hg by lia.
  replace (Qfloor y + (ty - Qfloor y)) with ty in Hg by lia.
  exact Hg.
Qed.

Lemma Math_round_bounds (q : Q) :
  (q - (1 # 2) < ZtoQ (Math_round q))%Q /\
  (ZtoQ (Math_round q) <= q + (1 # 2))%Q.
Proof.
  unfold Math_round, ZtoQ. pose proof (Qfloor_le (q + (1 # 2))) as F1.
  pose proof (Qlt_floor (q + (1 # 2))) as F2.
  rewrite inject_Z_plus in F2. change (inject_Z 1) with 1%Q in F2.
  split; [Lqa.lra|exact F1].
Qed.

Lemma constructEngine_laid (uuid : nat -> string) (n0 : nat) (seed : Z)
    (room : string) (roomPlayers : list RoomPlayer) :
  (forall m n, uuid m = uuid n -> m = n) ->
  match constructEngine uuid n0 seed room roomPlayers with
  | None => (4 < length (rosterKeys roomPlayers))%nat
  | Some (g, n) =>
      let s := state g in
      (length (rosterKeys roomPlayers) <= 4)%nat /\
      n = (n0 + length (goldMines s)
           + 2 * length (rosterKeys roomPlayers))%nat /\
      60 <= mapWidth s /\ mapHeight s = mapWidth s /\
      tilesShape (tiles s) (mapWidth s) (mapHeight s) /\
      Forall (mineLaid (tiles s) (mapWidth s) (mapHeight s)) (goldMines s) /\
      Tidy (entities s) /\
      Forall
        (fun e =>
           0 < e_hp e /\ e_hp e = e_maxHp e /\
           (forall tx ty, occupies e tx ty = true ->
                          tileOf (tiles s) tx ty = Some grass) /\
           tileOf (tiles s) (Math_round (e_x e)) (Math_round (e_y e))
           = Some grass)
        (entities s)
  end.
Proof.
  intros uuid_inj. unfold constructEngine.
  pose proof (generateMap_laid uuid n0 (Z.of_nat (length roomPlayers)) seed)
    as HG.
  destruct (generateMap uuid n0 (Z.of_nat (length roomPlayers)) seed)
    as [md n1].
  destruct (getMapSize_square (Z.of_nat (length roomPlayers)))
    as (size & Esize & Hsize).
  rewrite Esize in HG. cbv zeta in HG.
  destruct HG as (_ & _ & G3 & G4 & G5 & G6 & G7 & _ & G9 & _).
  pose proof (newEngine_closed uuid n1 room roomPlayers md uuid_inj) as HN.
  cbv zeta in HN. pose proof (rosterKeys_length roomPlayers) as HK.
  destruct (newEngine uuid n1 room roomPlayers md) as [[g n]|].
  2:{ rewrite G5 in HN. lia. }
  destruct HN as (N1 & N2 & _ & _ & _ & _ & N7 & N8 & N9 & N10 & _).
  rewrite Esize in N7. injection N7 as Nw Nh.
  cbv zeta. rewrite Nw, Nh, N8, N9.
  split; [rewrite G5 in N1; lia|]. split; [lia|]. split; [exact Hsize|].
  split; [reflexivity|]. split; [exact G3|]. split; [exact G7|].
  rewrite N10. split.
  - apply startingPairs_tidy; [|apply indexed_NoDup].
    intros i j p q Hij Hi Hj. rewrite G4 in Hi, Hj.
    apply (spawnCorners_far size size (Z.of_nat (length roomPlayers)) i j);
      assumption.
  - apply List.Forall_forall. intros e He.
    apply In_startingPairs in He as (k & pid & x & y & _ & Hs & He).
    assert (Hg : forall dx dy, -4 <= dx <= 6 -> -4 <= dy <= 6 ->
              tileOf (md_tiles md) (Qfloor (x + ZtoQ dx))
                (Qfloor (y + ZtoQ dy)) = Some grass).
    { apply (proj1 (List.Forall_forall _ _) G6 (x, y)).
      apply list_elem_of_In, list_elem_of_lookup. eauto. }
    pose proof (camp_tiles _ x y Hg) as Hc.
    destruct He as [-> | ->].
    + split; [reflexivity|]. split; [reflexivity|]. split.
      * intros tx ty Ho. apply occupies_startingBase in Ho.
        apply Hc; Lqa.lra.
      * cbn [e_x e_y startingBase].
        pose proof (Math_round_bounds x). pose proof (Math_round_bounds y).
        apply Hc; Lqa.lra.
    + split; [reflexivity|]. split; [reflexivity|]. split.
      * intros tx ty Ho. discriminate Ho.
      * cbn [e_x e_y startingWorker].
        unfold HOME_BASE_TILE_WIDTH, ZtoQ. change (inject_Z 3) with 3%Q.
        pose proof (Math_round_bounds (x + 3 + 1)).
        pose proof (Math_round_bounds (y + 1)).
        apply Hc; Lqa.lra.
Qed.


(** X16. The constructor, on the map that it generates, throws exactly when
    the room has more than four distinct player ids. Otherwise, the ids
    returned by [uuid()] being pairwise distinct, the state it leaves has a
    square map of 60 tiles at least with a row of tiles for every [y], its
    mines laid on grass, units without footprint and no two footprints
    overlapping, and every entity has all its hit points and stands on
    grass: every tile under a home base and the tile of every rounded
    position. *)
Theorem constructEngine_spec (uuid : nat -> string) (n0 : nat) (seed : Z)
    (room : string) (roomPlayers : list RoomPlayer) :
  (forall m n, uuid m = uuid n -> m = n) ->
  match constructEngine uuid n0 seed room roomPlayers with
  | None => (4 < length (rosterKeys roomPlayers))%nat
  | Some (g, n) =>
      let s := state g in
      (length (rosterKeys roomPlayers) <= 4)%nat /\
      n = (n0 + length (goldMines s)
           + 2 * length (rosterKeys roomPlayers))%nat /\
      60 <= mapWidth s /\ mapHeight s = mapWidth s /\
      tilesShape (tiles s) (mapWidth s) (mapHeight s) /\
      Forall (mineLaid (tiles s) (mapWidth s) (mapHeight s)) (goldMines s) /\
      Tidy (entities s) /\
      Forall
        (fun e =>
           0 < e_hp e /\ e_hp e = e_maxHp e /\
           (forall tx ty, occupies e tx ty = true ->
                          tileOf (tiles s) tx ty = Some grass) /\
           tileOf (tiles s) (Math_round (e_x e)) (Math_round (e_y e))
           = Some grass)
        (entities s)
  end.
Proof. apply constructEngine_laid. Qed.

Lemma constructEngine_spec_witness :
  (forall m n, uuidDemo m = uuidDemo n -> m = n) /\
  match constructEngine uuidDemo 0 12345 "room" twoPlayerRoom with
  | None => False
  | Some (g, n) =>
      Tidy (entities (state g)) /\
      60 <= mapWidth (state g) /\
      Forall (fun e => e_hp e = e_maxHp e) (entities (state g))
  end.
Proof.
  split; [exact uuidDemo_inj|].
  pose proof (constructEngine_spec uuidDemo 0 12345 "room" twoPlayerRoom
                uuidDemo_inj) as H.
  destruct (constructEngine uuidDemo 0 12345 "room" twoPlayerRoom)
    as [[g n]|]; [|vm_compute in H; lia].
  cbv zeta in H. destruct H as (_ & _ & Hw & _ & _ & _ & Ht & He).
  split; [exact Ht|]. split; [exact Hw|].
  eapply Forall_impl; [exact He|]. intros e (_ & H & _). exact H.
Defined.

(** X17. In every match, from the constructor through any number of ticks
    with any commands: the map stays the one that was generated, with a row
    of tiles for every [y]; units have no footprint and no two footprints
    overlap; every entity has hit points above zero and at most its
    maximum; no player's gold is negative; and no mine holds less than zero
    or more than its starting gold, or has more than one worker. *)
Theorem match_invariants (Math_sqrt : Q -> Q) (uuid : nat -> string)
    (spreadOffset : nat -> nat -> Z * Z) (n0 : nat) (seed : Z)
    (room : string) (roomPlayers : list RoomPlayer) (g : GameEngine)
    (n : nat) (inputs : list TickInput) (pr : Process) :
  (forall i j, uuid i = uuid j -> i = j) ->
  constructEngine uuid n0 seed room roomPlayers = Some (g, n) ->
  let s' :=
    state (fst (fst (runTicks Math_sqrt uuid spreadOffset inputs
                       (start g, pr)))) in
  tiles s' = tiles (state g) /\
  mapWidth s' = mapWidth (state g) /\
  mapHeight s' = mapHeight (state g) /\
  rowsCover s' /\
  Tidy (entities s') /\
  Forall (fun e => 0 < e_hp e <= e_maxHp e) (entities s') /\
  (forall pid p, players s' !! pid = Some p -> 0 <= p_gold p) /\
  Forall (fun m => 0 <= m_goldRemaining m <= GOLD_MINE_STARTING_GOLD /\
                   (length (m_workerIds m) <= 1)%nat)
    (goldMines s').
Proof.
  intros uuid_inj Hc s'.
  pose proof (constructEngine_laid uuid n0 seed room roomPlayers uuid_inj)
    as H0.
  rewrite Hc in H0. cbv zeta in H0.
  destruct H0 as (_ & _ & Hw & Hh & Hs & Hm & Ht & He).
  assert (Hp : forall pid p, players (state g) !! pid = Some p ->
                             0 <= p_gold p).
  { unfold constructEngine in Hc.
    destruct (generateMap _ _ _ _) as [md n1].
    pose proof (newEngine_closed uuid n1 room roomPlayers md uuid_inj) as HN.
    cbv zeta in HN. rewrite Hc in HN.
    destruct HN as (_ & _ & _ & _ & _ & _ & _ & _ & _ & _ & HN).
    intros pid p Hpid. specialize (HN pid). rewrite Hpid in HN.
    destruct HN as (rp & _ & _ & ->). simpl. unfold STARTING_GOLD. lia. }
  change (state g) with (state (start g)) in Hw, Hh, Hs, Hm, Ht, He, Hp |- *.
  clear Hc. revert s'. generalize dependent (start g). clear g.
  intros g Hw Hh Hs Hm Ht He Hp s'.
  assert (HF : tiles s' = tiles (state g) /\
               mapWidth s' = mapWidth (state g) /\
               mapHeight s' = mapHeight (state g)).
  { apply (run_lasting Math_sqrt uuid spreadOffset
             (fun a b => tiles b = tiles a /\ mapWidth b = mapWidth a /\
                         mapHeight b = mapHeight a)).
    - auto.
    - intros a b c (A1 & A2 & A3) (B1 & B2 & B3).
      repeat split; congruence.
    - intros s. simpl. auto.
    - intros a b Hab. apply act_frame in Hab. tauto. }
  destruct HF as (F1 & F2 & F3).
  split; [exact F1|]. split; [exact F2|]. split; [exact F3|]. split.
  { unfold rowsCover. rewrite F1, F3. destruct Hs as [Hl _]. lia. }
  split.
  { revert Ht. apply (run_lasting Math_sqrt uuid spreadOffset
             (fun a b => Tidy (entities a) -> Tidy (entities b))); auto.
    apply act_tidy. }
  split.
  { apply List.Forall_forall. intros e Hin. split.
    - revert e Hin. apply run_alive. intros x Hx.
      apply (proj1 (List.Forall_forall _ _) He x Hx).
    - apply (run_descends Math_sqrt uuid spreadOffset) in Hin
        as (a & [] & [Hin|[Hr _]]).
      + destruct (proj1 (List.Forall_forall _ _) He a Hin) as (_ & Ha & _).
        lia.
      + lia. }
  split.
  { intros pid p Hpid.
    pose proof (run_hands Math_sqrt uuid spreadOffset inputs g pr pid) as HH.
    fold s' in HH. rewrite Hpid in HH.
    inversion HH as [p0 q Hpq E1 E2|]; subst.
    symmetry in E1. destruct Hpq as [_ _ _ Hg _ _ _]. apply Hg.
    apply (Hp pid p0 E1). }
  assert (HM : Forall2 mined (goldMines (state g)) (goldMines s')).
  { apply (run_lasting Math_sqrt uuid spreadOffset
             (fun a b => Forall2 mined (goldMines a) (goldMines b))).
    - intros s. apply Forall2_mined_refl.
    - intros a b c. apply Forall2_mined_trans.
    - intros s. apply Forall2_mined_refl.
    - apply act_mines. }
  clear -HM Hm. induction HM as [|m m' l l' Hmm Hl IH]; [constructor|].
  apply Forall_cons_iff in Hm as [(Hg & Hmax & Hwk & _) Hm].
  constructor; [|apply IH, Hm].
  destruct Hmm as [_ _ _ M G W]. split.
  - rewrite <- Hg. apply G. rewrite Hg. unfold GOLD_MINE_STARTING_GOLD. lia.
  - rewrite Hwk, Hmax in W. rewrite M, Hmax in W.
    unfold GOLD_MINE_MAX_WORKERS in W. simpl in W. lia.
Qed.

Lemma match_invariants_witness :
  (forall i j, uuidDemo i = uuidDemo j -> i = j) /\
  exists g n,
    constructEngine uuidDemo 0 12345 "room" twoPlayerRoom = Some (g, n) /\
    let s' :=
      state (fst (fst (runTicks sqrtQ uuidDemo spreadDemo
                         [mkInput [] []; mkInput [] []]
                         (start g, idleProcess)))) in
    Tidy (entities s') /\
    Forall (fun e => 0 < e_hp e <= e_maxHp e) (entities s') /\
    (forall pid p, players s' !! pid = Some p -> 0 <= p_gold p).
Proof.
  split; [exact uuidDemo_inj|].
  pose proof (constructEngine_laid uuidDemo 0 12345 "room" twoPlayerRoom
                uuidDemo_inj) as H.
  destruct (constructEngine uuidDemo 0 12345 "room" twoPlayerRoom)
    as [[g n]|] eqn:E; [|vm_compute in H; lia].
  clear H. exists g, n. split; [reflexivity|].
  destruct (match_invariants sqrtQ uuidDemo spreadDemo 0 12345 "room"
              twoPlayerRoom g n [mkInput [] []; mkInput [] []] idleProcess
              uuidDemo_inj E)
    as (_ & _ & _ & _ & H1 & H2 & H3 & _).
  cbv zeta. auto.
Defined.

(** ** The bot *)

Lemma walkable_grass (s : GameState) (x y : Z) :
  0 <= x -> 0 <= y ->
  Pathfinding.cell (buildWalkableGrid s) x y = true ->
  inMap s x y = true /\ tileAt s x y = Some grass.
Proof.
  intros Hx Hy Hc. unfold buildWalkableGrid in Hc.
  apply cell_blockMines in Hc as [Hc _]; [|assumption..].
  apply cell_blockBuildings in Hc as [Hc _]; [|assumption..].
  destruct (grassGrid_spec s) as [_ Hcell]. cbv zeta in Hcell.
  apply Hcell in Hc; assumption.
Qed.

Lemma buildSiteClear_valid (s : GameState) (tileW tileH : Z) (p : Point) :
  buildSiteClear s (buildWalkableGrid s) tileW tileH p = true ->
  isPlacementValid s (px p) (py p) tileW tileH = true.
Proof.
  unfold buildSiteClear, isPlacementValid. rewrite !forallb_forall.
  intros H dy Hdy. specialize (H dy Hdy). rewrite forallb_forall in H.
  apply forallb_forall. intros dx Hdx. specialize (H dx Hdx).
  cbv zeta in *. rewrite !andb_true_iff in H. destruct H as [H1 H2].
  rewrite negb_true_iff, !orb_false_iff, negb_false_iff in H1.
  destruct H1 as ((((B1 & B2) & B3) & B4) & Hc).
  apply Z.ltb_ge in B1, B3. apply Z.leb_gt in B2, B4.
  destruct (walkable_grass s _ _ B1 B3 Hc) as [Hm Hg].
  rewrite Hm, H2, (bool_decide_eq_true_2 _ Hg). reflexivity.
Qed.

Lemma findBuildPosition_valid (s : GameState) (w : Entity) (tileW tileH : Z)
    (p : Point) :
  findBuildPosition s w tileW tileH = Some p ->
  isPlacementValid s (px p) (py p) tileW tileH = true /\
  In p (buildCandidates w).
Proof.
  unfold findBuildPosition. cbv zeta. intros H.
  apply List.find_some in H as [Hin H]. split; [|exact Hin].
  apply buildSiteClear_valid, H.
Qed.

Lemma getEntity_NoDup (l : list Entity) (e : Entity) :
  NoDup (map e_id l) -> In e l -> getEntity (e_id e) l = Some e.
Proof.
  unfold getEntity. induction l as [|x l IH]; intros Hnd Hin; [destruct Hin|].
  simpl in Hnd. apply NoDup_cons in Hnd as [Hx Hnd]. simpl.
  destruct Hin as [->|Hin].
  - rewrite bool_decide_eq_true_2 by reflexivity. reflexivity.
  - rewrite bool_decide_eq_false_2; [apply IH; assumption|].
    intros Heq. apply Hx. rewrite Heq. apply list_elem_of_In, in_map, Hin.
Qed.

Lemma findNearestGoldMine_In (Math_sqrt : Q -> Q) (s : GameState)
    (w : Entity) (m : GoldMine) :
  findNearestGoldMine Math_sqrt s w = Some m -> In m (goldMines s).
Proof.
  unfold findNearestGoldMine.
  assert (H : forall l (acc : option GoldMine * option Q),
            (forall x, fst acc = Some x -> In x (goldMines s)) ->
            (forall x, In x l -> In x (goldMines s)) ->
            forall x,
              fst (fold_left
                (fun (acc : option GoldMine * option Q) mine =>
                   if m_goldRemaining mine <=? 0 then acc
                   else
                     let dist :=
                       euclid Math_sqrt (m_x mine) (m_y mine) (e_x w) (e_y w)
                     in
                     match snd acc with
                     | Some nearestDist =>
                         if Qlt_bool dist nearestDist
                         then (Some mine, Some dist) else acc
                     | None => (Some mine, Some dist)
                     end) l acc) = Some x ->
              In x (goldMines s)).
  { induction l as [|a l IH]; intros acc Hacc Hl x; simpl; [apply Hacc|].
    apply IH; [|intros y Hy; apply Hl; right; exact Hy].
    intros y. repeat case_match; simpl; try apply Hacc;
      intros [= <-]; apply Hl; left; reflexivity. }
  apply H; [intros x [=]|auto].
Qed.

Section BotOrders.

Variable Math_sqrt : Q -> Q.
Variable s : GameState.
Variable bot : string.
Hypothesis keyed : NoDup (map e_id (entities s)).

Lemma owns_filter (t : EntityType) (keep : Entity -> bool) (e : Entity) :
  In e (List.filter keep
          (List.filter (fun e => bool_decide (e_type e = t))
             (List.filter (fun e => bool_decide (e_ownerId e = bot))
                (entities s)))) ->
  owns s bot t (e_id e).
Proof.
  intros H. apply List.filter_In in H as [H _].
  apply List.filter_In in H as [H Ht]. apply List.filter_In in H as [H Ho].
  apply bool_decide_eq_true in Ht, Ho. exists e.
  split; [apply getEntity_NoDup; assumption|]. auto.
Qed.

Lemma owns_all (t : EntityType) (keep : Entity -> bool) (l : list Entity) :
  (forall e, In e l ->
     In e (List.filter keep
             (List.filter (fun e => bool_decide (e_type e = t))
                (List.filter (fun e => bool_decide (e_ownerId e = bot))
                   (entities s))))) ->
  Forall (owns s bot t) (map e_id l).
Proof.
  intros H. apply List.Forall_forall. intros id Hid.
  apply in_map_iff in Hid as (e & <- & He). eapply owns_filter, H, He.
Qed.

Lemma owns_found (t : EntityType) (keep : Entity -> bool) (e : Entity) :
  List.find keep
    (List.filter (fun e => bool_decide (e_type e = t))
       (List.filter (fun e => bool_decide (e_ownerId e = bot))
          (entities s))) = Some e ->
  owns s bot t (e_id e).
Proof.
  intros H. apply List.find_some in H as [H Hk].
  apply (owns_filter t keep). apply List.filter_In. auto.
Qed.

End BotOrders.

Lemma nearestBy_Some (accept : Entity -> bool) (dist : Entity -> Q)
    (l : list Entity) (t : Entity) :
  nearestBy accept dist l = Some t -> In t l /\ accept t = true.
Proof.
  unfold nearestBy.
  pose proof (nearestBy_fold accept dist l [] (None, None)
                (fun o (Ho : In o []) => match Ho with end)) as H.
  simpl app in H. cbv zeta in H. intros E. cbv zeta in E. rewrite E in H.
  tauto.
Qed.

(** X20. The bot decides once every five ticks at most: [processTick]
    returns no order, and leaves its clock alone, within five ticks of its
    last decision, and otherwise sets the clock to the tick. In a state that
    holds a row of tiles for every [y] of the map, whose entities are keyed
    by their ids and whose home bases are completed, every
    order the bot gives names its own entities only and passes the checks
    of its handler: a training order goes to its completed home base (for a
    worker) or barracks (for infantry) when it holds the cost and the supply
    fits; a building order goes to a worker of its own, at a site where the
    placement is valid, when it holds the cost; workers are sent to a mine
    that has gold; an attack is at a living enemy home base. A bot that is
    not a player of the game gives no order. *)
Theorem processTick_orders (Math_sqrt : Q -> Q) (lastDecisionTick : Z)
    (s : GameState) (bot : string) :
  rowsCover s -> NoDup (map e_id (entities s)) -> BasesBuilt s ->
  let '(cmds, last') := processTick Math_sqrt lastDecisionTick s bot in
  (tick s - lastDecisionTick < DECISION_INTERVAL ->
   cmds = [] /\ last' = lastDecisionTick) /\
  (DECISION_INTERVAL <= tick s - lastDecisionTick -> last' = tick s) /\
  match players s !! bot with
  | Some p => Forall (soundOrder s bot p) cmds
  | None => cmds = []
  end.
Proof.
  intros _ keyed HB. unfold processTick.
  destruct (tick s - lastDecisionTick <? DECISION_INTERVAL) eqn:Et.
  { apply Z.ltb_lt in Et. split; [auto|]. split; [lia|].
    destruct (players s !! bot); constructor. }
  apply Z.ltb_ge in Et.
  destruct (players s !! bot) as [p|]; [|split; [lia|split; auto]].
  cbv zeta. split; [lia|]. split; [reflexivity|].
  set (mine := List.filter (fun e => bool_decide (e_ownerId e = bot))
                 (entities s)).
  assert (Hmine : forall e, In e mine ->
                    In e (entities s) /\ e_ownerId e = bot).
  { intros e He. apply List.filter_In in He as [He Ho].
    apply bool_decide_eq_true in Ho. auto. }
  repeat (apply Forall_app; split).
  - (* 1. train workers *)
    destruct (List.find _ mine) as [hb|] eqn:Ehb; [|constructor].
    apply List.find_some in Ehb as [Hin Ht]. apply bool_decide_eq_true in Ht.
    destruct (Hmine hb Hin) as [Hin' Ho].
    destruct (_ && hasQueueSpace 3 hb) eqn:Ec; [|constructor].
    rewrite !andb_true_iff in Ec. destruct Ec as [[Hg Hs] _].
    apply Z.leb_le in Hg, Hs.
    constructor; [|constructor]. exists hb.
    split; [apply getEntity_NoDup; assumption|]. split; [exact Ho|].
    split; [apply HB; assumption|]. split; [left; auto|].
    split; assumption.
  - (* 2. gather *)
    destruct (List.filter isIdleOrMoving _) as [|first rest] eqn:Eidle;
      [constructor|].
    destruct (findNearestGoldMine Math_sqrt s first) as [m|] eqn:Em;
      [|constructor].
    destruct (0 <? m_goldRemaining m) eqn:Eg; [|constructor].
    cbv zeta.
    destruct (map e_id (sliceTo _ _)) as [|i ids] eqn:Eids; [constructor|].
    constructor; [|constructor]. split; [discriminate|]. split.
    + rewrite <- Eids. apply (owns_all s bot keyed worker isIdleOrMoving).
      intros e He. fold mine. rewrite Eidle.
      unfold sliceTo in He. destruct (_ <? 0);
        apply list_elem_of_In, elem_of_take in He as (k & He & _);
        apply list_elem_of_In, list_elem_of_lookup; eauto.
    + exists m. split; [eapply findNearestGoldMine_In, Em|].
      split; [reflexivity|apply Z.ltb_lt, Eg].
  - (* 3. houses *)
    destruct (_ && (HOUSE_COST <=? p_gold p)) eqn:Ec; [|constructor].
    apply andb_true_iff in Ec as [_ Hg]. apply Z.leb_le in Hg.
    destruct (Qle_bool _ _); [|constructor].
    destruct (List.find isIdleOrMoving _) as [w|] eqn:Ew; [|constructor].
    destruct (findBuildPosition s w 2 2) as [pos|] eqn:Ep; [|constructor].
    constructor; [|constructor]. split; [|split].
    + apply (owns_found s bot keyed worker isIdleOrMoving), Ew.
    + exact Hg.
    + apply findBuildPosition_valid in Ep as [Ep _]. exact Ep.
  - (* 4. barracks *)
    destruct (_ && (_ <=? p_maxSupply p)) eqn:Ec; [|constructor].
    rewrite !andb_true_iff in Ec. destruct Ec as [[_ Hg] _].
    apply Z.leb_le in Hg.
    destruct (List.find isIdleOrMoving _) as [w|] eqn:Ew; [|constructor].
    destruct (findBuildPosition s w 3 3) as [pos|] eqn:Ep; [|constructor].
    constructor; [|constructor]. split; [|split].
    + apply (owns_found s bot keyed worker isIdleOrMoving), Ew.
    + exact Hg.
    + apply findBuildPosition_valid in Ep as [Ep _]. exact Ep.
  - (* 5. train infantry *)
    destruct (_ && (_ <=? p_maxSupply p)) eqn:Ec; [|constructor].
    rewrite !andb_true_iff in Ec. destruct Ec as [[_ Hg] Hs].
    apply Z.leb_le in Hg, Hs.
    destruct (List.find (hasQueueSpace 2) _) as [b|] eqn:Eb; [|constructor].
    apply List.find_some in Eb as [Hin _].
    apply List.filter_In in Hin as [Hin Hb].
    apply andb_true_iff in Hb as [Ht Hu].
    apply bool_decide_eq_true in Ht. apply negb_true_iff in Hu.
    destruct (Hmine b Hin) as [Hin' Ho].
    constructor; [|constructor]. exists b.
    split; [apply getEntity_NoDup; assumption|]. split; [exact Ho|].
    split; [exact Hu|]. split; [right; auto|]. split; assumption.
  - (* 6. attack *)
    destruct (3 <=? length _)%nat; [|constructor].
    destruct (List.filter isIdleOrMoving _) as [|first [|second rest]]
      eqn:Eidle; try constructor.
    assert (Hown : Forall (owns s bot infantry)
                     (map e_id (first :: second :: rest))).
    { apply (owns_all s bot keyed infantry isIdleOrMoving).
      intros e He. fold mine. rewrite Eidle. exact He. }
    unfold findNearestEnemyBase.
    destruct (nearestBy _ _ _) as [t|] eqn:Et';
      [|constructor].
    assert (Ht : In t (entities s) /\ e_type t = homeBase /\
                 e_ownerId t <> bot /\ 0 < e_hp t).
    { apply nearestBy_Some in Et' as [Hin Ha].
      rewrite !andb_true_iff, !negb_true_iff, !bool_decide_eq_true,
        bool_decide_eq_false, Z.leb_gt in Ha. tauto. }
    cbv zeta. destruct (Qle_bool _ _).
    + constructor; [|constructor]. split; [exact Hown|].
      exists t. split; [tauto|]. split; [reflexivity|]. tauto.
    + destruct (Pathfinding.findPath _ _ _); constructor;
        [exact Hown|constructor].
Qed.

Lemma processTick_orders_witness :
  rowsCover (set_tick 5 lastBrick) /\
  NoDup (map e_id (entities (set_tick 5 lastBrick))) /\
  BasesBuilt (set_tick 5 lastBrick) /\
  processTick sqrtQ 0 (set_tick 5 lastBrick) "p1"
    = ([TrainUnit "base1" worker], 5) /\
  soundOrder (set_tick 5 lastBrick) "p1" (demoPlayer "p1" 100 1)
    (TrainUnit "base1" worker) /\
  processTick sqrtQ 3 (set_tick 5 lastBrick) "p1" = ([], 3).
Proof.
  assert (H1 : NoDup (map e_id (entities (set_tick 5 lastBrick)))).
  { simpl. repeat constructor; rewrite ?elem_of_cons, ?elem_of_nil;
      intros H; repeat destruct H as [H|H]; try discriminate H; exact H. }
  assert (H2 : BasesBuilt (set_tick 5 lastBrick)).
  { intros e He Ht. simpl in He.
    destruct He as [<-|[<-|[<-|[]]]]; try discriminate Ht. reflexivity. }
  assert (H0 : rowsCover (set_tick 5 lastBrick)).
  { unfold rowsCover. vm_compute. lia. }
  pose proof (processTick_orders sqrtQ 0 (set_tick 5 lastBrick) "p1" H0 H1
                H2) as H.
  split; [exact H0|]. split; [exact H1|]. split; [exact H2|].
  assert (E : processTick sqrtQ 0 (set_tick 5 lastBrick) "p1"
              = ([TrainUnit "base1" worker], 5)) by (vm_compute; reflexivity).
  rewrite E in H. split; [exact E|]. split.
  - destruct H as (_ & _ & H). cbn [players set_tick lastBrick] in H.
    rewrite lookup_singleton_eq in H. apply Forall_cons_iff in H as [H _].
    exact H.
  - vm_compute. reflexivity.
Defined.

(** ** Building orders *)

Lemma updateEntity_app_found (id : string) (f : Entity -> Entity)
    (l r : list Entity) (e : Entity) :
  getEntity id l = Some e ->
  updateEntity id f (l ++ r) = updateEntity id f l ++ r.
Proof.
  unfold getEntity. induction l as [|a l IH]; simpl; [discriminate|].
  destruct (bool_decide (e_id a = id)); [reflexivity|].
  intros H. rewrite IH by exact H. reflexivity.
Qed.

Lemma fold_left_updateEntity {G : Type} (F : G -> Entity -> G) (id : string)
    (f : Entity -> Entity) (l : list Entity) :
  (forall g e, F g (f e) = F g e) ->
  forall g, fold_left F (updateEntity id f l) g = fold_left F l g.
Proof.
  intros HF. induction l as [|a l IH]; intros g; simpl; [reflexivity|].
  destruct (bool_decide (e_id a = id)); simpl.
  - rewrite HF. reflexivity.
  - apply IH.
Qed.

(** The grid depends on the entities through their position and footprint
    only. *)
Lemma buildWalkableGrid_updE (id : string) (f : Entity -> Entity)
    (s : GameState) :
  (forall e, e_x (f e) = e_x e /\ e_y (f e) = e_y e /\
             e_tileWidth (f e) = e_tileWidth e /\
             e_tileHeight (f e) = e_tileHeight e) ->
  buildWalkableGrid (updE id f s) = buildWalkableGrid s.
Proof.
  intros Hf. unfold buildWalkableGrid. cbn [updE set_entities entities
    goldMines mapWidth mapHeight].
  f_equal. 
  change (fun (g : Pathfinding.Grid) (e : Entity) =>
            if truthy (e_tileWidth e) && truthy (e_tileHeight e)
            then blockFootprint
                   (set_entities (updateEntity id f (entities s)) s)
                   (e_x e) (e_y e) (default 0 (e_tileWidth e))
                   (default 0 (e_tileHeight e)) g
            else g)
    with (fun (g : Pathfinding.Grid) (e : Entity) =>
            if truthy (e_tileWidth e) && truthy (e_tileHeight e)
            then blockFootprint s
                   (e_x e) (e_y e) (default 0 (e_tileWidth e))
                   (default 0 (e_tileHeight e)) g
            else g).
  apply fold_left_updateEntity. intros g e.
  destruct (Hf e) as (-> & -> & -> & ->). reflexivity.
Qed.

Ltac refused k :=
  split; [intros _; reflexivity|]; split; [|split];
  (intros (V1 & V2 & V3 & V4 & V5); exfalso; k).

(** X21. [handleBuildStructure], for a registered player and a [uuid()]
    that returns a new id. The order is valid when the worker exists, is a
    worker of the player, the player holds the cost, a house stays under
    the limit of houses of the player (counting unfinished ones), and the
    placement is valid. An order that is not valid leaves the state as it
    was. A valid order of a worker within [MAX_BUILD_DISTANCE] of the
    footprint takes the cost, appends the building (progress 0, full hit
    points) and sets the worker idle without path, target and pending
    build. A valid order of a worker further away, with a route to the
    first walkable tile around the site, takes the cost and sends the worker
    along the route with the order pending. A valid order without such a
    route takes no gold (cost and refund cancel) and builds nothing, but
    sets the worker idle and clears its target, mining progress and pending
    build. *)
Theorem handleBuildStructure_spec (Math_sqrt : Q -> Q) (uuid : nat -> string)
    (s : GameState) (n : nat) (pid wid : string) (bt : BuildingType)
    (x y : Z) (p : Player) :
  players s !! pid = Some p ->
  getEntity (uuid n) (entities s) = None ->
  let stats := getBuildingStats bt in
  let cost := bs_cost stats in
  let tileW := bs_tileW stats in
  let tileH := bs_tileH stats in
  let houseCount :=
    Z.of_nat
      (length
         (List.filter
            (fun e => bool_decide (e_type e = house) &&
                      bool_decide (e_ownerId e = pid)) (entities s))) in
  let charged :=
    set_players (<[pid := set_gold (p_gold p - cost) p]> (players s)) s in
  let result := handleBuildStructure Math_sqrt uuid (s, n) pid wid bt x y in
  match getEntity wid (entities s) with
  | None => result = (s, n)
  | Some w =>
      let valid :=
        e_ownerId w = pid /\ e_type w = worker /\ cost <= p_gold p /\
        (bt = BHouse -> houseCount < HOUSE_MAX_PER_PLAYER) /\
        isPlacementValid s x y tileW tileH = true in
      let near :=
        (distToFootprint Math_sqrt w x y tileW tileH <= MAX_BUILD_DISTANCE)%Q in
      let route :=
        match findAdjacentWalkable (buildWalkableGrid s) (ZtoQ x) (ZtoQ y)
                (Some tileW) (Some tileH) with
        | Some adjTile =>
            Pathfinding.findPath (buildWalkableGrid s) (entityTile w) adjTile
        | None => []
        end in
      (~ valid -> result = (s, n)) /\
      (valid -> near ->
       result
       = (set_entities
            (updateEntity wid
               (fun e =>
                  set_pendingBuild None
                    (set_targetId None (set_path None (set_state idle e))))
               (entities s) ++
             [mkEntity (uuid n) (buildingEntityType bt) pid (ZtoQ x) (ZtoQ y)
                (bs_hp stats) (bs_hp stats) building None None None None
                (Some 0%Q) None (Some tileW) (Some tileH) None None])
            charged,
          S n)) /\
      (valid -> ~ near -> route <> [] ->
       result
       = (updE wid
            (fun e =>
               set_state moving
                 (set_path (Some route)
                    (set_miningProgress None
                       (set_targetId None
                          (set_pendingBuild (Some (mkPending bt x y)) e)))))
            charged,
          n)) /\
      (valid -> ~ near -> route = [] ->
       result
       = (updE wid
            (fun e =>
               set_state idle
                 (set_pendingBuild None
                    (set_miningProgress None (set_targetId None e))))
            s,
          n))
  end.
Proof.
  intros Hp Hfresh. cbv zeta.
  unfold handleBuildStructure.
  destruct (getEntity wid (entities s)) as [w|] eqn:Hw; [|reflexivity].
  rewrite Hp.
  set (stats := getBuildingStats bt).
  set (hc := Z.of_nat (length _)).
  assert (Hch : updP pid (fun q => set_gold (p_gold q - bs_cost stats) q) s
                = set_players
                    (<[pid := set_gold (p_gold p - bs_cost stats) p]>
                       (players s)) s).
  { unfold updP. f_equal. apply map_eq. intros k.
    destruct (decide (k = pid)) as [->|Hne].
    - rewrite lookup_alter_eq, lookup_insert_eq, Hp. reflexivity.
    - rewrite lookup_alter_ne, lookup_insert_ne by congruence. reflexivity. }
  destruct (bool_decide (e_ownerId w = pid)) eqn:E1;
    [apply bool_decide_eq_true in E1|apply bool_decide_eq_false in E1];
    cbn [negb orb];
    [|refused ltac:(contradiction)].
  destruct (bool_decide (e_type w = worker)) eqn:E2;
    [apply bool_decide_eq_true in E2|apply bool_decide_eq_false in E2];
    cbn [negb orb];
    [|refused ltac:(contradiction)].
  destruct (p_gold p <? bs_cost stats) eqn:E3;
    [apply Z.ltb_lt in E3|apply Z.ltb_ge in E3];
    [refused ltac:(lia)|].
  destruct (bool_decide (bt = BHouse) && (HOUSE_MAX_PER_PLAYER <=? hc))
    eqn:E4.
  { apply andb_true_iff in E4 as [E4 E4'].
    apply bool_decide_eq_true in E4. apply Z.leb_le in E4'.
    refused ltac:(specialize (V4 E4); lia). }
  destruct (isPlacementValid s x y (bs_tileW stats) (bs_tileH stats)) eqn:E5;
    cbn [negb];
    [|refused ltac:(discriminate V5)].
  assert (V : e_ownerId w = pid /\ e_type w = worker /\
              bs_cost stats <= p_gold p /\
              (bt = BHouse -> hc < HOUSE_MAX_PER_PLAYER) /\ true = true).
  { repeat split; try assumption. intros ->.
    rewrite (bool_decide_eq_true_2 _ eq_refl) in E4. cbn [andb] in E4.
    apply Z.leb_gt in E4. exact E4. }
  split; [intros Hno; contradiction|].
  rewrite Hch. clear Hch.
  set (charged := set_players _ s).
  set (f2 := fun e : Entity =>
               set_miningProgress None
                 (set_targetId None
                    (set_pendingBuild (Some (mkPending bt x y)) e))).
  assert (Hg : buildWalkableGrid (updE wid f2 charged) = buildWalkableGrid s).
  { rewrite buildWalkableGrid_updE; [reflexivity|].
    intros e. repeat split. }
  rewrite Hg. clear Hg.
  split; [|split].
  - intros _ Hn. rewrite (proj2 (Qle_bool_true _ _) Hn).
    unfold placeBuilding. rewrite putEntity_fresh by exact Hfresh.
    unfold updE. cbn [entities set_entities charged set_players].
    rewrite (updateEntity_app_found _ _ _ _ w Hw). reflexivity.
  - intros _ Hn Hr.
    destruct (Qle_bool _ MAX_BUILD_DISTANCE) eqn:E6;
      [apply Qle_bool_true in E6; contradiction|].
    destruct (findAdjacentWalkable _ _ _ _ _) as [adj|]; [|contradiction].
    destruct (Pathfinding.findPath _ _ _) as [|st path]; [contradiction|].
    unfold updE. cbn [entities set_entities charged set_players].
    rewrite updateEntity_twice by (intros e; reflexivity). reflexivity.
  - intros _ Hn Hr.
    destruct (Qle_bool _ MAX_BUILD_DISTANCE) eqn:E6;
      [apply Qle_bool_true in E6; contradiction|].
    assert (Hback :
      updE wid (fun e => set_state idle (set_pendingBuild None e))
        (updP pid (fun q => set_gold (p_gold q + bs_cost stats) q)
           (updE wid f2 charged))
      = updE wid
          (fun e =>
             set_state idle
               (set_pendingBuild None
                  (set_miningProgress None (set_targetId None e)))) s).
    { unfold updE, updP. cbn [entities set_entities charged set_players
        players tick mapWidth mapHeight tiles goldMines].
      rewrite updateEntity_twice by (intros e; reflexivity).
      unfold set_entities. cbn [entities players tick mapWidth mapHeight tiles
        goldMines]. f_equal. cbn [players set_players].
      apply map_eq. intros k.
      destruct (decide (k = pid)) as [->|Hne].
      - rewrite lookup_alter_eq, lookup_insert_eq, Hp. cbn. f_equal.
        destruct p; unfold set_gold; cbn. f_equal. lia.
      - rewrite lookup_alter_ne, lookup_insert_ne by congruence.
        reflexivity. }
    rewrite Hback.
    destruct (findAdjacentWalkable _ _ _ _ _) as [adj|]; [|reflexivity].
    rewrite Hr. reflexivity.
Qed.

Lemma handleBuildStructure_spec_witness :
  players smallBase !! "p1" = Some (demoPlayer "p1" 300 1) /\
  getEntity (uuidDemo 0) (entities smallBase) = None /\
  (let s' :=
     fst (handleBuildStructure sqrtQ uuidDemo (smallBase, O) "p1" "w1"
            BHouse 9 9) in
   goldOf "p1" s' = Some 200 /\
   pendingBuilds s' = [mkPending BHouse 9 9]) /\
  (let r :=
     handleBuildStructure sqrtQ uuidDemo (smallBase, O) "p1" "w1" BHouse 5 4
   in
   goldOf "p1" (fst r) = Some 200 /\ snd r = 1%nat /\
   length (entities (fst r)) = 4%nat).
Proof.
  assert (H1 : players smallBase !! "p1" = Some (demoPlayer "p1" 300 1))
    by reflexivity.
  assert (H2 : getEntity (uuidDemo 0) (entities smallBase) = None)
    by (vm_compute; reflexivity).
  assert (Hw : getEntity "w1" (entities smallBase)
               = Some (demoUnit "w1" worker "p1" 5 2 60 idle))
    by reflexivity.
  split; [exact H1|]. split; [exact H2|]. split.
  - pose proof (handleBuildStructure_spec sqrtQ uuidDemo smallBase O "p1"
                  "w1" BHouse 9 9 _ H1 H2) as H.
    cbv zeta in H. rewrite Hw in H. destruct H as (_ & _ & H & _).
    cbv zeta. rewrite H.
    + split; vm_compute; reflexivity.
    + repeat split; try reflexivity; try (vm_compute; discriminate).
    + vm_compute. intros C. apply C. reflexivity.
    + vm_compute. discriminate.
  - pose proof (handleBuildStructure_spec sqrtQ uuidDemo smallBase O "p1"
                  "w1" BHouse 5 4 _ H1 H2) as H.
    cbv zeta in H. rewrite Hw in H. destruct H as (_ & H & _).
    cbv zeta. rewrite H.
    + repeat split; vm_compute; reflexivity.
    + repeat split; try reflexivity; try (vm_compute; discriminate).
    + vm_compute. discriminate.
Defined.

(** ** The authority of a command *)

Section Authority.

Variable pid : string.

Lemma sameButOwn_refl e : sameButOwn pid e e.
Proof. repeat split. Qed.

Lemma sway_refl l : sway pid l l.
Proof.
  exists l, []. rewrite app_nil_r. split; [reflexivity|].
  split; [|constructor].
  induction l; constructor; auto using sameButOwn_refl.
Qed.

Lemma sameButOwn_trans a b c :
  sameButOwn pid a b -> sameButOwn pid b c -> sameButOwn pid a c.
Proof.
  intros (I1 & O1 & E1) (I2 & O2 & E2). split; [congruence|].
  split; [congruence|]. intros H. rewrite <- (E1 H). apply E2.
  rewrite O1. exact H.
Qed.

Lemma sway_trans a b c : sway pid a b -> sway pid b c -> sway pid a c.
Proof.
  intros (b1 & bt & -> & Fb & Tb) (c1 & ct & -> & Fc & Tc).
  apply Forall2_app_inv_l in Fc as (c1a & c1b & Fa & Fbt & ->).
  exists c1a, (c1b ++ ct). split; [rewrite <- app_assoc; reflexivity|]. split.
  - clear - Fb Fa. revert c1a Fa.
    induction Fb as [|x y l l' Hxy _ IH]; intros c1a Fa.
    + inversion Fa. constructor.
    + inversion Fa as [|? z ? l'' Hyz Hrest]; subst. constructor.
      * eapply sameButOwn_trans; eassumption.
      * apply IH. exact Hrest.
  - apply Forall_app. split; [|exact Tc].
    clear - Tb Fbt. induction Fbt as [|x y l l' Hxy _ IH]; [constructor|].
    apply Forall_cons in Tb as [Hx Htl]. constructor; [|auto].
    destruct Hxy as (_ & Ho & _). rewrite Ho. exact Hx.
Qed.

Lemma sway_update id f l :
  loyal f -> owned pid l id -> sway pid l (updateEntity id f l).
Proof.
  intros Hf Ho. exists (updateEntity id f l), []. rewrite app_nil_r.
  split; [reflexivity|]. split; [|constructor].
  induction l as [|a l IH]; simpl; [constructor|].
  unfold owned, getEntity in Ho. simpl in Ho.
  destruct (bool_decide (e_id a = id)) eqn:E.
  - constructor.
    + destruct (Hf a) as [Hi Hown]. split; [exact Hi|]. split; [exact Hown|].
      intros Hne. exfalso. apply Hne, Ho. reflexivity.
    + clear. induction l; constructor; auto using sameButOwn_refl.
  - constructor; [apply sameButOwn_refl|]. apply IH. exact Ho.
Qed.

Lemma sway_put e l :
  e_ownerId e = pid -> getEntity (e_id e) l = None ->
  sway pid l (putEntity e l).
Proof.
  intros Ho Hf. unfold putEntity. rewrite Hf. exists l, [e].
  split; [reflexivity|]. split.
  - clear. induction l; constructor; auto using sameButOwn_refl.
  - constructor; [exact Ho|constructor].
Qed.

Lemma sway_foreign l l' :
  sway pid l l' -> foreignTo pid l' = foreignTo pid l.
Proof.
  intros (l1 & tl & -> & F & T). unfold foreignTo.
  rewrite List.filter_app.
  assert (Ht : List.filter
                 (fun e => negb (bool_decide (e_ownerId e = pid))) tl = []).
  { clear - T. induction T as [|x tl Hx _ IH]; [reflexivity|]. simpl.
    rewrite (bool_decide_eq_true_2 _ Hx). exact IH. }
  rewrite Ht, app_nil_r. clear Ht T.
  induction F as [|x y l l' (_ & Ho & He) _ IH]; [reflexivity|]. simpl.
  rewrite Ho. destruct (bool_decide (e_ownerId x = pid)) eqn:E; simpl.
  - exact IH.
  - apply bool_decide_eq_false in E. rewrite (He E), IH. reflexivity.
Qed.

Lemma sway_owned l l' id :
  sway pid l l' -> owned pid l id -> owned pid l' id.
Proof.
  intros (l1 & tl & -> & F & T). unfold owned, getEntity.
  induction F as [|x y l l' (Hi & Ho & _) _ IH]; simpl.
  - intros _ e He. apply List.find_some in He as [He _].
    rewrite List.Forall_forall in T. apply T, He.
  - rewrite Hi. destruct (bool_decide (e_id x = id)).
    + intros H e [= <-]. rewrite Ho. apply H. reflexivity.
    + exact IH.
Qed.

Lemma rule_spec (a b : GameState) :
  rule pid a b ->
  sway pid (entities a) (entities b) /\
  goldMines b = goldMines a /\
  (forall q, q <> pid -> players b !! q = players a !! q).
Proof.
  induction 1 as [s|a b c _ (S1 & M1 & P1) _ (S2 & M2 & P2)|s id f Hf Ho|s f
                  |s e Ho Hf].
  - split; [apply sway_refl|]. auto.
  - split; [eapply sway_trans; eassumption|]. split; [congruence|].
    intros q Hq. rewrite P2, P1 by exact Hq. reflexivity.
  - split; [apply sway_update; assumption|]. auto.
  - split; [apply sway_refl|]. split; [reflexivity|].
    intros q Hq. unfold updP. cbn [players set_players].
    apply lookup_alter_ne. congruence.
  - split; [apply sway_put; assumption|]. auto.
Qed.

Lemma rule_entity' s x id f :
  rule pid s x -> loyal f -> owned pid (entities s) id ->
  rule pid s (updE id f x).
Proof.
  intros Hr Hf Ho. eapply rule_trans; [exact Hr|].
  apply rule_entity; [exact Hf|].
  eapply sway_owned; [|exact Ho]. apply rule_spec, Hr.
Qed.

Lemma rule_player' s x f : rule pid s x -> rule pid s (updP pid f x).
Proof. intros Hr. eapply rule_trans; [exact Hr|]. apply rule_player. Qed.

Lemma rule_spawn' s x e :
  rule pid s x -> e_ownerId e = pid ->
  getEntity (e_id e) (entities x) = None ->
  rule pid s (set_entities (putEntity e (entities x)) x).
Proof.
  intros Hr Ho Hf. eapply rule_trans; [exact Hr|].
  apply rule_spawn; assumption.
Qed.

Lemma rule_fold {A S : Type} (get : S -> GameState) (step : S -> A -> S)
    (l : list A) :
  (forall a x, rule pid (get a) (get (step a x))) ->
  forall a, rule pid (get a) (get (fold_left step l a)).
Proof.
  intros Hstep. induction l as [|x l IH]; intros a; simpl.
  - apply rule_refl.
  - eapply rule_trans; [apply Hstep|apply IH].
Qed.

End Authority.

Ltac own_norm :=
  repeat match goal with
    | H : _ || _ = false |- _ => apply orb_false_iff in H; destruct H
    | H : negb _ = false |- _ => apply negb_false_iff in H
    | H : bool_decide _ = true |- _ => apply bool_decide_eq_true in H
    end.

(** The entity found by a handler, and checked to be the player's, is the
    one that [updE] changes. *)
Ltac owned_tac :=
  let e' := fresh "e'" in
  let He' := fresh "He'" in
  intros e' He'; own_norm;
  match goal with
  | H : getEntity _ _ = Some _ |- _ =>
      rewrite H in He'; injection He' as <-; assumption
  end.

Ltac loyal_tac := intros ?; split; reflexivity.

Ltac rule_tac :=
  repeat first
    [ apply rule_refl
    | assumption
    | apply rule_entity'; [|loyal_tac|owned_tac]
    | apply rule_player'
    | apply rule_spawn'; [|reflexivity|assumption] ].

Section CommandRules.

Variable Math_sqrt : Q -> Q.
Variable uuid : nat -> string.
Variable spreadOffset : nat -> nat -> Z * Z.
Variable pid : string.

Lemma handleTrainUnit_rule s bid ut :
  rule pid s (handleTrainUnit s pid bid ut).
Proof. unfold handleTrainUnit. repeat case_match; rule_tac. Qed.

Lemma handleUpgradeUnit_rule s aid ut :
  rule pid s (handleUpgradeUnit s pid aid ut).
Proof. unfold handleUpgradeUnit. repeat case_match; rule_tac. Qed.

Lemma handleSetRallyPoint_rule s bid x y :
  rule pid s (handleSetRallyPoint s pid bid x y).
Proof. unfold handleSetRallyPoint. repeat case_match; rule_tac. Qed.

Lemma handleDepositGold_rule s wids did :
  rule pid s (handleDepositGold s pid wids did).
Proof.
  unfold handleDepositGold. repeat case_match; try apply rule_refl.
  apply (rule_fold pid (fun x => x)). intros a x.
  unfold depositUnitStep. repeat case_match; rule_tac.
Qed.

Lemma handleGatherResource_rule s wids mid :
  rule pid s (handleGatherResource s pid wids mid).
Proof.
  unfold handleGatherResource. repeat case_match; try apply rule_refl.
  apply (rule_fold pid (fun x => x)). intros a x.
  unfold gatherCommandStep. repeat case_match; rule_tac.
Qed.

Lemma handleAttackTarget_rule s ids tid :
  rule pid s (handleAttackTarget s pid ids tid).
Proof.
  unfold handleAttackTarget. repeat case_match; try apply rule_refl;
    match goal with
    | |- rule _ _ (fst (fold_left ?st ?l ?a)) =>
        apply (fun H => rule_fold pid fst st l H a)
    end;
    intros [a k] x; unfold attackUnitStep; repeat case_match; cbn [fst];
    rule_tac.
Qed.

Lemma handleMoveUnits_rule s ids tx ty :
  rule pid s (handleMoveUnits spreadOffset s pid ids tx ty).
Proof.
  unfold handleMoveUnits.
  apply (rule_fold pid (fun x => x)). intros a [i x].
  unfold moveUnitStep. repeat case_match; rule_tac.
Qed.

Lemma handleBuildStructure_rule s n wid bt x y :
  getEntity (uuid n) (entities s) = None ->
  rule pid s (fst (handleBuildStructure Math_sqrt uuid (s, n) pid wid bt x y)).
Proof.
  intros Hfresh. unfold handleBuildStructure, placeBuilding.
  repeat case_match; pairs_tac; cbn [fst]; rule_tac.
Qed.

End CommandRules.

(** X22. A command reaches the sender's own entities only. Whatever the
    command of player [pid] is, when [dispatch] has handled it (with a
    [uuid()] that returns an unused id) the entities of the other players
    are the same ones, in the same order, with all their fields; the gold
    mines are the same; and every other player has the same id, name,
    colour, gold and upgrades. Unless the command is a [buildStructure],
    the records of the other players are the same altogether (a
    [buildStructure] recalculates the supply of every player). *)
Theorem command_authority (Math_sqrt : Q -> Q) (uuid : nat -> string)
    (spreadOffset : nat -> nat -> Z * Z) (s : GameState) (n : nat)
    (c : QueuedCommand) :
  getEntity (uuid n) (entities s) = None ->
  let s' := fst (dispatch Math_sqrt uuid spreadOffset (s, n) c) in
  foreignTo (c_playerId c) (entities s')
    = foreignTo (c_playerId c) (entities s) /\
  goldMines s' = goldMines s /\
  (forall q, q <> c_playerId c ->
             option_Forall2 sameWealth (players s !! q) (players s' !! q)) /\
  (forall q, q <> c_playerId c ->
             match c_command c with
             | BuildStructure _ _ _ _ => True
             | _ => players s' !! q = players s !! q
             end).
Proof.
  intros Hfresh. cbv zeta. unfold dispatch.
  assert (Hsame : forall a b : GameState,
            rule (c_playerId c) a b ->
            foreignTo (c_playerId c) (entities b)
              = foreignTo (c_playerId c) (entities a) /\
            goldMines b = goldMines a /\
            (forall q, q <> c_playerId c ->
                       option_Forall2 sameWealth (players a !! q)
                         (players b !! q)) /\
            (forall q, q <> c_playerId c ->
                       players b !! q = players a !! q)).
  { intros a b H. apply rule_spec in H as (S & M & P).
    split; [apply sway_foreign, S|]. split; [exact M|]. split; [|exact P].
    intros q Hq. rewrite (P q Hq).
    destruct (players a !! q); constructor. repeat split. }
  destruct (c_command c) as [ids tx ty|ids tid|wid bt x y|bid ut|wids mid
                            |aid ut|wids did|bid x y]; cbn [fst].
  - apply Hsame, handleMoveUnits_rule.
  - apply Hsame, handleAttackTarget_rule.
  - pose proof (handleBuildStructure_rule Math_sqrt uuid (c_playerId c) s n
                  wid bt x y Hfresh) as H.
    destruct (handleBuildStructure _ _ _ _ _ _ _ _) as [s1 n1].
    cbn [fst] in *. apply Hsame in H as (F & M & W & P).
    split; [exact F|]. split; [exact M|]. split; [|auto].
    intros q Hq. rewrite recalculateSupply_lookup.
    specialize (W q Hq). destruct W as [a b (I & N & C & G & U)|];
      constructor. repeat split; assumption.
  - apply Hsame, handleTrainUnit_rule.
  - apply Hsame, handleGatherResource_rule.
  - apply Hsame, handleUpgradeUnit_rule.
  - apply Hsame, handleDepositGold_rule.
  - apply Hsame, handleSetRallyPoint_rule.
Qed.

Lemma command_authority_witness :
  getEntity (uuidDemo 0) (entities afterTheSiege) = None /\
  (let s' :=
     fst (dispatch sqrtQ uuidDemo spreadDemo (afterTheSiege, O)
            (mkCommand "p1" (MoveUnits ["i1"; "w2"] 5 5))) in
   foreignTo "p1" (entities s') = [demoUnit "w2" worker "p2" 9 9 60 idle] /\
   players s' !! "p2" = Some (demoPlayer "p2" 20 1) /\
   e_state <$> getEntity "i1" (entities s') = Some moving).
Proof.
  assert (H0 : getEntity (uuidDemo 0) (entities afterTheSiege) = None)
    by (vm_compute; reflexivity).
  split; [exact H0|].
  destruct (command_authority sqrtQ uuidDemo spreadDemo afterTheSiege O
              (mkCommand "p1" (MoveUnits ["i1"; "w2"] 5 5)) H0)
    as (F & _ & _ & P).
  cbn [c_playerId c_command] in F, P. cbv zeta.
  split; [rewrite F; reflexivity|]. split.
  - rewrite (P "p2") by discriminate. reflexivity.
  - vm_compute. reflexivity.
Defined.

(** ** Training *)

Lemma updateEntity_app_fresh (id : string) (f : Entity -> Entity)
    (l : list Entity) (u : Entity) :
  getEntity id l = None -> e_id u = id ->
  updateEntity id f (l ++ [u]) = l ++ [f u].
Proof.
  unfold getEntity. intros Hl Hu.
  induction l as [|a l IH]; simpl in *.
  - rewrite (bool_decide_eq_true_2 _ Hu). reflexivity.
  - destruct (bool_decide (e_id a = id)); [discriminate|].
    rewrite IH by exact Hl. reflexivity.
Qed.

(** X23. One building in [processTraining], with a [uuid()] that returns
    an unused id. A completed building with a queue counts down its first
    order only. While ticks remain after that, nothing else changes. When
    none remain, the order leaves the queue (and the building turns idle
    when the queue is empty) whether or not a unit appears: with no walkable
    tile around the building nothing is spawned and the order is lost;
    otherwise one unit of the ordered type is appended at the first such
    tile, owned by the owner of the building, with the hit points of its
    type (times the upgrade bonus of its owner, rounded) as [hp] and
    [maxHp], idle or moving along a path when the building has a rally
    point. Nothing is refunded and no player changes. *)
Theorem trainingStep_spec (uuid : nat -> string) (s : GameState) (n : nat)
    (bid : string) (b : Entity) (order : TrainOrder)
    (rest : list TrainOrder) :
  getEntity bid (entities s) = Some b ->
  e_trainingQueue b = Some (order :: rest) ->
  underConstruction b = false ->
  getEntity (uuid n) (entities s) = None ->
  let left := ticksRemaining order - 1 in
  let shifted :=
    fun e =>
      match rest with
      | [] => set_state idle (set_trainingQueue (Some rest) e)
      | _ => set_trainingQueue (Some rest) e
      end in
  let level :=
    getPlayerUpgradeLevel (players s !! e_ownerId b) (unitType order) in
  let hp :=
    if 0 <? level
    then Math_round
           (ZtoQ (getUnitHp (unitType order)) * getUpgradeHpMultiplier level)
    else getUnitHp (unitType order) in
  let result := trainingStep uuid (s, n) bid in
  (0 < left ->
   result
   = (updE bid
        (set_trainingQueue (Some (mkOrder (unitType order) left :: rest))) s,
      n)) /\
  (left <= 0 ->
   match findSpawnPosition s b with
   | None => result = (updE bid shifted s, n)
   | Some spawnPos =>
       let unit :=
         newUnit (uuid n) (unitType order) (e_ownerId b) spawnPos hp in
       exists unit',
         result
         = (set_entities (updateEntity bid shifted (entities s) ++ [unit']) s,
            S n) /\
         (unit' = unit \/
          exists dest path,
            e_rallyPoint b = Some dest /\ dest <> spawnPos /\ path <> [] /\
            unit' = set_state moving (set_path (Some path) unit))
   end).
Proof.
  intros Hb Hq Hu Hfresh. cbv zeta.
  unfold trainingStep. rewrite Hb, Hq, Hu.
  cbn [ticksRemaining unitType].
  set (q1 := Some (mkOrder (unitType order) (ticksRemaining order - 1)
                     :: rest)).
  assert (Hne : bid <> uuid n).
  { intros ->. rewrite Hfresh in Hb. discriminate. }
  assert (Hg : findSpawnPosition (updE bid (set_trainingQueue q1) s) b
               = findSpawnPosition s b).
  { unfold findSpawnPosition. rewrite buildWalkableGrid_updE; [reflexivity|].
    intros e. repeat split. }
  assert (Hshift : forall l,
            updateEntity bid
              (fun b' =>
                 match tail (default [] (e_trainingQueue b')) with
                 | [] => set_state idle
                           (set_trainingQueue
                              (Some (tail (default [] (e_trainingQueue b'))))
                              b')
                 | _ :: _ =>
                     set_trainingQueue
                       (Some (tail (default [] (e_trainingQueue b')))) b'
                 end)
              (updateEntity bid (set_trainingQueue q1) l)
            = updateEntity bid
                (fun e =>
                   match rest with
                   | [] => set_state idle (set_trainingQueue (Some rest) e)
                   | _ => set_trainingQueue (Some rest) e
                   end) l).
  { intros l. rewrite updateEntity_twice by (intros e; reflexivity).
    apply updateEntity_ext. intros e. subst q1. cbn.
    destruct rest; reflexivity. }
  split.
  - intros Hl. destruct (_ <=? 0) eqn:E; [apply Z.leb_le in E; lia|].
    reflexivity.
  - intros Hl. destruct (_ <=? 0) eqn:E; [|apply Z.leb_gt in E; lia].
    rewrite Hg. destruct (findSpawnPosition s b) as [pos|].
    + set (unit := newUnit _ _ _ _ _).
      assert (Hput : putEntity unit
                       (entities (updE bid (set_trainingQueue q1) s))
                     = updateEntity bid (set_trainingQueue q1) (entities s)
                       ++ [unit]).
      { apply putEntity_fresh. cbn [updE entities set_entities].
        apply getEntity_None. rewrite updateEntity_ids.
        - apply getEntity_None, Hfresh.
        - intros e. reflexivity. }
      rewrite Hput.
      assert (Hfound : exists b1,
                getEntity bid (updateEntity bid (set_trainingQueue q1)
                                 (entities s)) = Some b1).
      { rewrite getEntity_update_same by (intros e; reflexivity).
        rewrite Hb. eexists. reflexivity. }
      destruct Hfound as [b1 Hb1].
      assert (Hfresh1 : getEntity (uuid n)
                          (updateEntity bid (set_trainingQueue q1)
                             (entities s)) = None).
      { apply getEntity_None. rewrite updateEntity_ids.
        - apply getEntity_None, Hfresh.
        - intros e. reflexivity. }
      assert (Hplain :
        updE bid
          (fun b' =>
             match tail (default [] (e_trainingQueue b')) with
             | [] => set_state idle
                       (set_trainingQueue
                          (Some (tail (default [] (e_trainingQueue b')))) b')
             | _ :: _ =>
                 set_trainingQueue
                   (Some (tail (default [] (e_trainingQueue b')))) b'
             end)
          (set_entities
             (updateEntity bid (set_trainingQueue q1) (entities s) ++ [unit])
             (updE bid (set_trainingQueue q1) s))
        = set_entities
            (updateEntity bid
               (fun e =>
                  match rest with
                  | [] => set_state idle (set_trainingQueue (Some rest) e)
                  | _ => set_trainingQueue (Some rest) e
                  end) (entities s) ++ [unit]) s).
      { unfold updE. cbn [entities set_entities].
        rewrite (updateEntity_app_found _ _ _ _ b1 Hb1), Hshift.
        reflexivity. }
      destruct (e_rallyPoint b) as [dest|] eqn:Er.
      * destruct (negb (point_eqb pos dest)) eqn:Ep.
        -- destruct (Pathfinding.findPath _ pos dest) as [|st path] eqn:Epath.
           ++ exists unit. split; [rewrite <- Hplain; reflexivity|left; auto].
           ++ exists (set_state moving (set_path (Some (st :: path)) unit)).
              split.
              ** unfold updE at 1 2. cbn [entities set_entities].
                 rewrite (updateEntity_app_fresh (uuid n) _ _ unit Hfresh1 eq_refl).
                 rewrite (updateEntity_app_found _ _ _ _ b1 Hb1), Hshift.
                 reflexivity.
              ** right. exists dest, (st :: path).
                 split; [reflexivity|]. split; [|split; [discriminate|auto]].
                 intros ->. apply negb_true_iff in Ep.
                 unfold point_eqb in Ep.
                 rewrite !Z.eqb_refl in Ep. discriminate.
        -- exists unit. split; [rewrite <- Hplain; reflexivity|left; auto].
      * exists unit. split; [rewrite <- Hplain; reflexivity|left; auto].
    + unfold updE. cbn [entities set_entities]. rewrite Hshift. reflexivity.
Qed.

Lemma trainingStep_spec_witness :
  getEntity "base1" (entities drillYard) = Some lastDrill /\
  e_trainingQueue lastDrill = Some [mkOrder worker 1] /\
  underConstruction lastDrill = false /\
  getEntity (uuidDemo 0) (entities drillYard) = None /\
  trainingStep uuidDemo (drillYard, O) "base1"
  = (set_entities
       (updateEntity "base1"
          (fun e => set_state idle (set_trainingQueue (Some []) e))
          (entities drillYard) ++
        [newUnit "uuid-0" worker "p1" (mkPoint 0 0) WORKER_HP])
       drillYard,
     1%nat).
Proof.
  assert (H1 : getEntity "base1" (entities drillYard) = Some lastDrill)
    by reflexivity.
  assert (H2 : e_trainingQueue lastDrill = Some [mkOrder worker 1])
    by reflexivity.
  assert (H3 : underConstruction lastDrill = false) by reflexivity.
  assert (H4 : getEntity (uuidDemo 0) (entities drillYard) = None)
    by (vm_compute; reflexivity).
  assert (Hs : findSpawnPosition drillYard lastDrill = Some (mkPoint 0 0))
    by (vm_compute; reflexivity).
  repeat (split; [assumption|]).
  destruct (trainingStep_spec uuidDemo drillYard O "base1" lastDrill
              (mkOrder worker 1) [] H1 H2 H3 H4) as [_ H].
  cbn [ticksRemaining] in H. specialize (H ltac:(lia)).
  rewrite Hs in H. destruct H as (u & -> & [->|(dest & path & Hr & _)]).
  - vm_compute. reflexivity.
  - discriminate Hr.
Defined.
